(** * AIP analytics engine (package [es]): cursor codec, paginated scanner,
      streaming aggregator.

    A shallow embedding of [internal/connectors/es] (the AIP listing and
    per-AIP statistics code) together with the parts of the Go standard
    library it calls, followed by the properties of the engine.

    Conventions.
    - A Go [string] is a [string]; a Go [[]byte] is a [list ascii].
    - A Go [int]/[int64] is a [Z]; arithmetic that can leave the 64-bit range
      goes through [wrap64].
    - A Go [float64] is a [spec_float] of the IEEE-754 binary64 format and is
      computed with the operations of [SpecFloat].
    - A value of type [any] is one of the dynamic types [encoding/json]
      produces when it decodes into an interface.
    - Library routines whose behaviour is table- or algorithm-heavy
      (decimal/float conversion, Unicode case tables, the unstable sort,
      time layouts) are the fields of the class [GoStd]. *)

From Stdlib Require Import ZArith List String Ascii Bool Lia Permutation Sorted ZifyBool.
From Stdlib Require Import Floats.SpecFloat.
From stdpp Require Import gmap strings list fin_maps.

Set Warnings "-register-all".
Open Scope Z_scope.

(** ** Results of fallible calls: [(v, nil)] is [Ok v], [(_, err)] is [Err msg]. *)

Inductive result (A : Type) : Type :=
| Ok (a : A)
| Err (msg : string).
Arguments Ok {A} a.
Arguments Err {A} msg.

Definition isErr {A} (r : result A) : bool :=
  match r with Ok _ => false | Err _ => true end.

(** A Go slice may be [nil]; where the difference from an empty slice is
    observable (JSON marshals them differently) a slice is an [option]. *)
Definition slice (A : Type) : Type := option (list A).

Definition len {A} (s : slice A) : Z :=
  match s with None => 0 | Some l => Z.of_nat (length l) end.

(** ** Machine integers *)

Definition wrap64 (z : Z) : Z := (z + 2 ^ 63) mod 2 ^ 64 - 2 ^ 63.

Definition minInt64 : Z := - 2 ^ 63.
Definition maxInt64 : Z := 2 ^ 63 - 1.

(** ** float64 *)

Definition float64 : Type := spec_float.

Definition f64_of_Z (z : Z) : float64 := binary_normalize 53 1024 z 0 false.
Definition f64_add : float64 -> float64 -> float64 := SFadd 53 1024.
Definition f64_sub : float64 -> float64 -> float64 := SFsub 53 1024.
Definition f64_mul : float64 -> float64 -> float64 := SFmul 53 1024.
Definition f64_div : float64 -> float64 -> float64 := SFdiv 53 1024.
Definition f64_zero : float64 := S754_zero false.
Definition f64_half : float64 := binary_normalize 53 1024 1 (-1) false.

Definition f64_finite (f : float64) : bool :=
  match f with S754_zero _ | S754_finite _ _ _ => true | _ => false end.

(** [f <= 0] on floats: false when [f] is NaN. *)
Definition f64_le0 (f : float64) : bool := SFleb f f64_zero.

(** The conversion [int64(f)]: truncation toward zero.  For a value outside
    the int64 range, an infinity or a NaN the Go specification leaves the
    result to the implementation; amd64 yields the minimum int64. *)
Definition int64_of_f64 (f : float64) : Z :=
  match f with
  | S754_zero _ => 0
  | S754_finite s m e =>
      let a := if 0 <=? e then Z.pos m * 2 ^ e else Z.pos m / 2 ^ (- e) in
      let v := if s then - a else a in
      if (minInt64 <=? v) && (v <=? maxInt64) then v else minInt64
  | _ => minInt64
  end.

(** ** time.Time

    An instant as the [time] package keeps it when it carries no monotonic
    clock reading: [extSec] is the field [ext], the seconds since January 1,
    year 1, 00:00:00 UTC as an int64, and [nanos] the nanoseconds within the
    second.  Every time the engine keeps has been normalised with [UTC()],
    so the location is not part of the model. *)

Record Time : Type := mkTime { extSec : Z; nanos : Z }.

(** The seconds from January 1, year 1 to the Unix epoch. *)
Definition unixToInternal : Z := 62135596800.

(** [time.Time{}] is January 1, year 1, 00:00:00 UTC. *)
Definition zeroTime : Time := mkTime 0 0.

(** [t.IsZero()]: [t.sec() == 0 && t.nsec() == 0]. *)
Definition IsZero (t : Time) : bool :=
  (extSec t =? 0) && (nanos t =? 0).

(** [t.Before(u)]: [ts < us || ts == us && t.nsec() < u.nsec()] on the
    seconds since year 1. *)
Definition Before (t u : Time) : bool :=
  (extSec t <? extSec u) || ((extSec t =? extSec u) && (nanos t <? nanos u)).

Definition After (t u : Time) : bool := Before u t.

(** [time.Unix(sec, nsec)]: [nsec] outside [[0, 999999999]] is carried into
    the seconds, and the seconds are moved to the internal epoch; both
    additions are int64 additions and wrap around. *)
Definition time_Unix (sec nsec : Z) : Time :=
  mkTime (wrap64 (wrap64 (sec + nsec / 1000000000) + unixToInternal))
         (nsec mod 1000000000).

(** [t.Sub(u)] as a Duration (int64 nanoseconds): the difference of the two
    instants, or the minimum or maximum Duration when it does not fit. *)
Definition Sub (t u : Time) : Z :=
  let d := (extSec t - extSec u) * 1000000000 + (nanos t - nanos u) in
  if d <? minInt64 then minInt64 else if maxInt64 <? d then maxInt64 else d.

(** [d.Seconds()]: [float64(d / Second) + float64(d % Second) / 1e9]. *)
Definition Seconds (d : Z) : float64 :=
  f64_add (f64_of_Z (Z.quot d 1000000000))
          (f64_div (f64_of_Z (Z.rem d 1000000000)) (f64_of_Z 1000000000)).

(** ** The library interface

    - [strconv_ParseFloat s] is [strconv.ParseFloat(s, 64)], [None] when it
      reports an error (syntax or range).
    - [json_floatText f] is the text [encoding/json] writes for a finite
      float64 (shortest decimal that reads back as [f], ES6 layout).
    - [unicode_ToLower r] is [unicode.ToLower] on a code point above ASCII.
    - [sort_Slice less l] is the slice after [sort.Slice]/[sort.Strings]: the
      sort is not stable, so only its laws ([SortLaws] below) are known.
    - [time_Parse layout s] is [time.Parse], [None] on error.
    - [time_FormatRFC3339 t] is [t.UTC().Format(time.RFC3339)]. *)

Class GoStd : Type := {
  strconv_ParseFloat : string -> option float64;
  json_floatText : float64 -> string;
  unicode_ToLower : Z -> Z;
  sort_Slice : forall A : Type, (A -> A -> bool) -> list A -> list A;
  time_Parse : string -> string -> option Time;
  time_FormatRFC3339 : Time -> string
}.
Arguments sort_Slice {_ A} less l.

(** ** Bytes *)

Definition byteZ (c : ascii) : Z := Z.of_N (N_of_ascii c).
Definition zbyte (z : Z) : ascii := ascii_of_N (Z.to_N z).

Definition s2b (s : string) : list ascii := list_ascii_of_string s.
Definition b2s (b : list ascii) : string := string_of_list_ascii b.

Definition isASCII (c : ascii) : bool := byteZ c <? 0x80.

(** ** unicode/utf8 *)

Definition RuneError : Z := 0xFFFD.
Definition MaxRune : Z := 0x10FFFF.

Definition isCont (b : Z) : bool := (0x80 <=? b) && (b <=? 0xBF).

(** [utf8.DecodeRune]: the code point at the head of [s] and its width.  An
    empty input gives [(RuneError, 0)]; an ill-formed or truncated sequence
    (overlong forms and surrogates included) gives [(RuneError, 1)]. *)
Definition DecodeRune (s : list ascii) : Z * nat :=
  match s with
  | [] => (RuneError, 0%nat)
  | c0 :: r0 =>
      let b0 := byteZ c0 in
      if b0 <? 0x80 then (b0, 1%nat)
      else if (b0 <? 0xC2) || (0xF4 <? b0) then (RuneError, 1%nat)
      else
        match r0 with
        | [] => (RuneError, 1%nat)
        | c1 :: r1 =>
            let b1 := byteZ c1 in
            let lo := if b0 =? 0xE0 then 0xA0 else if b0 =? 0xF0 then 0x90 else 0x80 in
            let hi := if b0 =? 0xED then 0x9F else if b0 =? 0xF4 then 0x8F else 0xBF in
            if (b1 <? lo) || (hi <? b1) then (RuneError, 1%nat)
            else if b0 <? 0xE0 then ((b0 - 0xC0) * 64 + (b1 - 0x80), 2%nat)
            else
              match r1 with
              | [] => (RuneError, 1%nat)
              | c2 :: r2 =>
                  let b2 := byteZ c2 in
                  if negb (isCont b2) then (RuneError, 1%nat)
                  else if b0 <? 0xF0 then
                    ((b0 - 0xE0) * 4096 + (b1 - 0x80) * 64 + (b2 - 0x80), 3%nat)
                  else
                    match r2 with
                    | [] => (RuneError, 1%nat)
                    | c3 :: _ =>
                        let b3 := byteZ c3 in
                        if negb (isCont b3) then (RuneError, 1%nat)
                        else ((b0 - 0xF0) * 262144 + (b1 - 0x80) * 4096
                              + (b2 - 0x80) * 64 + (b3 - 0x80), 4%nat)
                    end
              end
        end
  end.

Definition isSurrogate (r : Z) : bool := (0xD800 <=? r) && (r <=? 0xDFFF).

(** [utf8.EncodeRune] / [utf8.AppendRune]: a rune that is negative, above
    [MaxRune] or a surrogate is written as U+FFFD. *)
Definition EncodeRune (r : Z) : list ascii :=
  let r := if (r <? 0) || (MaxRune <? r) || isSurrogate r then RuneError else r in
  if r <=? 0x7F then [zbyte r]
  else if r <=? 0x7FF then [zbyte (0xC0 + r / 64); zbyte (0x80 + r mod 64)]
  else if r <=? 0xFFFF then
    [zbyte (0xE0 + r / 4096); zbyte (0x80 + (r / 64) mod 64); zbyte (0x80 + r mod 64)]
  else
    [zbyte (0xF0 + r / 262144); zbyte (0x80 + (r / 4096) mod 64);
     zbyte (0x80 + (r / 64) mod 64); zbyte (0x80 + r mod 64)].

(** The runes of a string in order, each with the bytes it was read from, as
    a [for range] loop over the string sees them.  [fuel] bounds the number
    of runes; the length of the input always suffices. *)
Fixpoint runesFrom (fuel : nat) (s : list ascii) : list (Z * list ascii) :=
  match fuel with
  | O => []
  | S fuel' =>
      match s with
      | [] => []
      | _ =>
          let '(r, w) := DecodeRune s in
          (r, take w s) :: runesFrom fuel' (drop w s)
      end
  end.

Definition runes (s : list ascii) : list (Z * list ascii) :=
  runesFrom (length s) s.

(** [utf8.Valid]: no position decodes to an encoding error. *)
Definition validRune (rw : Z * list ascii) : bool :=
  negb ((fst rw =? RuneError) && (length (snd rw) =? 1)%nat).

Definition utf8_Valid (s : list ascii) : bool := forallb validRune (runes s).

(** ** strings *)

(** The six ASCII white-space bytes of [strings.TrimSpace]'s fast path. *)
Definition asciiSpace (c : ascii) : bool :=
  match c with
  | "009" | "010" | "011" | "012" | "013" | " " => true
  | _ => false
  end%char.

(** [unicode.IsSpace] above ASCII, on the UTF-8 form: U+0085, U+00A0 (two
    bytes); U+1680, U+2000..U+200A, U+2028, U+2029, U+202F, U+205F, U+3000
    (three bytes). *)
Definition space2 (b0 b1 : Z) : bool :=
  (b0 =? 0xC2) && ((b1 =? 0x85) || (b1 =? 0xA0)).

Definition space3 (b0 b1 b2 : Z) : bool :=
  ((b0 =? 0xE1) && (b1 =? 0x9A) && (b2 =? 0x80))
  || ((b0 =? 0xE2) && (b1 =? 0x80)
      && (((0x80 <=? b2) && (b2 <=? 0x8A)) || (b2 =? 0xA8) || (b2 =? 0xA9) || (b2 =? 0xAF)))
  || ((b0 =? 0xE2) && (b1 =? 0x81) && (b2 =? 0x9F))
  || ((b0 =? 0xE3) && (b1 =? 0x80) && (b2 =? 0x80)).

(** Drop the white-space runes at the head of [s].  With [back] the input is
    a reversed string, so the bytes of a rune arrive last byte first: that is
    how [TrimRightFunc] meets them when it decodes the last rune. *)
Fixpoint dropSpaces (back : bool) (s : list ascii) : list ascii :=
  match s with
  | [] => []
  | c0 :: r0 =>
      if asciiSpace c0 then dropSpaces back r0
      else
        match r0 with
        | [] => s
        | c1 :: r1 =>
            if (if back then space2 (byteZ c1) (byteZ c0)
                else space2 (byteZ c0) (byteZ c1))
            then dropSpaces back r1
            else
              match r1 with
              | [] => s
              | c2 :: r2 =>
                  if (if back then space3 (byteZ c2) (byteZ c1) (byteZ c0)
                      else space3 (byteZ c0) (byteZ c1) (byteZ c2))
                  then dropSpaces back r2
                  else s
              end
        end
  end.

Definition trimSpaceBytes (s : list ascii) : list ascii :=
  rev (dropSpaces true (rev (dropSpaces false s))).

(** [strings.TrimSpace] *)
Definition TrimSpace (s : string) : string := b2s (trimSpaceBytes (s2b s)).

Definition lowerASCII (c : ascii) : ascii :=
  let b := byteZ c in
  if (0x41 <=? b) && (b <=? 0x5A) then zbyte (b + 32) else c.

Definition toLowerRune `{GoStd} (r : Z) : Z :=
  if r <? 0x80 then (if (0x41 <=? r) && (r <=? 0x5A) then r + 32 else r)
  else unicode_ToLower r.

(** [strings.Map(mapping, s)]: every rune of [s] (an ill-formed byte counts
    as U+FFFD) is replaced by the encoding of its image; a negative image
    drops the rune. *)
Definition strings_Map (mapping : Z -> Z) (s : list ascii) : list ascii :=
  flat_map (fun rw => let r := mapping (fst rw) in
                      if r <? 0 then [] else EncodeRune r) (runes s).

(** [strings.ToLower]: byte-wise on an all-ASCII string, rune-wise
    otherwise. *)
Definition ToLower `{GoStd} (s : string) : string :=
  let b := s2b s in
  if forallb isASCII b then b2s (map lowerASCII b)
  else b2s (strings_Map toLowerRune b).

Fixpoint hasPrefixBytes (s p : list ascii) : bool :=
  match p, s with
  | [], _ => true
  | _ :: _, [] => false
  | x :: p', y :: s' => (if ascii_dec x y then true else false) && hasPrefixBytes s' p'
  end.

(** [strings.HasPrefix] *)
Definition HasPrefix (s p : string) : bool := hasPrefixBytes (s2b s) (s2b p).

(** [strings.TrimPrefix] *)
Definition TrimPrefix (s p : string) : string :=
  if HasPrefix s p then b2s (drop (length (s2b p)) (s2b s)) else s.

Fixpoint containsBytes (s sub : list ascii) : bool :=
  hasPrefixBytes s sub
  || match s with
     | [] => false
     | _ :: s' => containsBytes s' sub
     end.

(** [strings.Contains] *)
Definition Contains (s sub : string) : bool := containsBytes (s2b s) (s2b sub).

(** The part of [s] after the last occurrence of the byte [c]
    ([name[strings.LastIndex(name, c)+1:]]), or [None] when [c] does not
    occur. *)
Fixpoint afterLast (c : ascii) (s : list ascii) : option (list ascii) :=
  match s with
  | [] => None
  | x :: s' =>
      match afterLast c s' with
      | Some t => Some t
      | None => if ascii_dec x c then Some s' else None
      end
  end.

(** [strings.Split(s, sep)] for a one-byte separator. *)
Fixpoint splitBytes (sep : ascii) (s : list ascii) : list (list ascii) :=
  match s with
  | [] => [[]]
  | x :: s' =>
      if ascii_dec x sep then [] :: splitBytes sep s'
      else match splitBytes sep s' with
           | [] => [[x]]
           | h :: t => (x :: h) :: t
           end
  end.

(** [strings.Trim(s, cutset)] for a one-byte cutset. *)
Fixpoint dropByte (c : ascii) (s : list ascii) : list ascii :=
  match s with
  | x :: s' => if ascii_dec x c then dropByte c s' else s
  | [] => []
  end.

Definition trimByte (c : ascii) (s : list ascii) : list ascii :=
  rev (dropByte c (rev (dropByte c s))).

(** ** encoding/base64: [RawURLEncoding] (URL-safe alphabet, no padding,
       not strict) *)

Definition encodeURL : list ascii :=
  s2b "ABCDEFGHIJKLMNOPQRSTUVWXYZabcdefghijklmnopqrstuvwxyz0123456789-_".

(** [enc.encode[v]] *)
Definition b64char (v : Z) : ascii := nth (Z.to_nat v) encodeURL "A"%char.

Fixpoint indexOf (c : ascii) (l : list ascii) (i : Z) : option Z :=
  match l with
  | [] => None
  | x :: l' => if ascii_dec x c then Some i else indexOf c l' (i + 1)
  end.

(** [enc.decodeMap[c]]: [None] stands for the table's 0xFF. *)
Definition decodeMap (c : ascii) : option Z := indexOf c encodeURL 0.

(** [Encoding.Encode]: three bytes become four characters; a final group
    of one or two bytes becomes two or three characters. *)
Fixpoint b64encode (src : list ascii) : list ascii :=
  match src with
  | [] => []
  | [b0] =>
      let val := Z.shiftl (byteZ b0) 16 in
      [b64char (Z.land (Z.shiftr val 18) 0x3F); b64char (Z.land (Z.shiftr val 12) 0x3F)]
  | [b0; b1] =>
      let val := Z.lor (Z.shiftl (byteZ b0) 16) (Z.shiftl (byteZ b1) 8) in
      [b64char (Z.land (Z.shiftr val 18) 0x3F); b64char (Z.land (Z.shiftr val 12) 0x3F);
       b64char (Z.land (Z.shiftr val 6) 0x3F)]
  | b0 :: b1 :: b2 :: r =>
      let val := Z.lor (Z.lor (Z.shiftl (byteZ b0) 16) (Z.shiftl (byteZ b1) 8)) (byteZ b2) in
      b64char (Z.land (Z.shiftr val 18) 0x3F) :: b64char (Z.land (Z.shiftr val 12) 0x3F)
      :: b64char (Z.land (Z.shiftr val 6) 0x3F) :: b64char (Z.land val 0x3F)
      :: b64encode r
  end.

(** The bytes of one quantum of [dlen] six-bit digits (missing digits are 0):
    [val = d0<<18 | d1<<12 | d2<<6 | d3], of which [dlen - 1] bytes are
    written. *)
Definition quantumVal (d0 d1 d2 d3 : Z) : Z :=
  Z.lor (Z.lor (Z.lor (Z.shiftl d0 18) (Z.shiftl d1 12)) (Z.shiftl d2 6)) d3.

Definition lowByte (v : Z) : ascii := zbyte (Z.land v 0xFF).

(** [Encoding.DecodeString] for an encoding without padding.  [q] holds the
    digits of the quantum being read.  Carriage returns and line feeds are
    skipped wherever they stand; any other byte outside the alphabet is a
    [CorruptInputError], and so is an input that ends one digit into a
    quantum.  The encoding is not strict: unused low bits of a short final
    quantum are not checked. *)
Fixpoint b64decodeFrom (src : list ascii) (q : list Z) : option (list ascii) :=
  match src with
  | [] =>
      match q with
      | [] => Some []
      | [d0; d1] => Some [lowByte (Z.shiftr (quantumVal d0 d1 0 0) 16)]
      | [d0; d1; d2] =>
          let val := quantumVal d0 d1 d2 0 in
          Some [lowByte (Z.shiftr val 16); lowByte (Z.shiftr val 8)]
      | _ => None
      end
  | c :: r =>
      match decodeMap c with
      | Some d =>
          match q with
          | [d0; d1; d2] =>
              let val := quantumVal d0 d1 d2 d in
              match b64decodeFrom r [] with
              | Some out =>
                  Some (lowByte (Z.shiftr val 16) :: lowByte (Z.shiftr val 8)
                        :: lowByte val :: out)
              | None => None
              end
          | _ => b64decodeFrom r (q ++ [d])
          end
      | None =>
          match c with
          | "010"%char | "013"%char => b64decodeFrom r q
          | _ => None
          end
      end
  end.

Definition b64decode (src : list ascii) : option (list ascii) := b64decodeFrom src [].

(** ** Dynamic values *)

Inductive any : Type :=
| ANil
| ABool (b : bool)
| AFloat (f : float64)
| AStr (s : string)
| ASlice (l : list any)
| AMap (m : gmap string any).

(** [m[k]] on a [map[string]any]: the zero value [nil] for a missing key. *)
Definition mapIndex (m : gmap string any) (k : string) : any :=
  match m !! k with Some v => v | None => ANil end.

(** ** encoding/json: Marshal *)

Definition hexDigit (v : Z) : ascii :=
  nth (Z.to_nat v) (s2b "0123456789abcdef") "0"%char.

(** The double-quote byte. *)
Definition dquote : ascii := "034"%char.

(** [htmlSafeSet]: the ASCII bytes written as they are, that is all from the
    space on except the double quote, the backslash and [<], [>], [&]. *)
Definition htmlSafe (c : ascii) : bool :=
  let b := byteZ c in
  (0x20 <=? b) && (b <? 0x80)
  && negb ((b =? 0x22) || (b =? 0x5C) || (b =? 0x3C) || (b =? 0x3E) || (b =? 0x26)).

(** One step of [appendString] (with HTML escaping, as [Marshal] sets it). *)
Definition quoteRune (rw : Z * list ascii) : list ascii :=
  let '(r, bs) := rw in
  match bs with
  | [c] =>
      if isASCII c then
        if htmlSafe c then [c]
        else
          match c with
          | "\"%char | "034"%char => ["\"%char; c]
          | "008"%char => s2b "\b"
          | "012"%char => s2b "\f"
          | "010"%char => s2b "\n"
          | "013"%char => s2b "\r"
          | "009"%char => s2b "\t"
          | _ => s2b "\u00" ++ [hexDigit (Z.shiftr (byteZ c) 4); hexDigit (Z.land (byteZ c) 0xF)]
          end
      else s2b "\ufffd"
  | _ =>
      if (r =? 0x2028) || (r =? 0x2029) then s2b "\u202" ++ [hexDigit (Z.land r 0xF)]
      else bs
  end.

Definition quoteBody (s : list ascii) : list ascii := flat_map quoteRune (runes s).

Definition jsonQuote (s : list ascii) : list ascii :=
  dquote :: quoteBody s ++ [dquote].

Fixpoint joinBytes (sep : list ascii) (l : list (list ascii)) : list ascii :=
  match l with
  | [] => []
  | [x] => x
  | x :: l' => x ++ sep ++ joinBytes sep l'
  end.

Definition allSome {A} (l : list (option A)) : option (list A) :=
  foldr (fun o acc => match o, acc with
                      | Some a, Some r => Some (a :: r)
                      | _, _ => None
                      end) (Some []) l.

Definition keyLess (x y : string * list ascii) : bool := String.ltb (fst x) (fst y).

(** The encoding of a value held in an interface.  [None] is the
    [UnsupportedValueError] for an infinity or a NaN.  Map keys are written
    in sorted order. *)
Fixpoint marshalAny `{GoStd} (v : any) : option (list ascii) :=
  match v with
  | ANil => Some (s2b "null")
  | ABool b => Some (s2b (if b then "true" else "false"))
  | AFloat f => if f64_finite f then Some (s2b (json_floatText f)) else None
  | AStr s => Some (jsonQuote (s2b s))
  | ASlice l =>
      match allSome (map marshalAny l) with
      | Some parts => Some ("["%char :: joinBytes [","%char] parts ++ ["]"%char])
      | None => None
      end
  | AMap m =>
      match map_fold (fun k x acc =>
                        match marshalAny x, acc with
                        | Some t, Some r => Some ((k, t) :: r)
                        | _, _ => None
                        end) (Some []) m with
      | Some fields =>
          Some ("{"%char
                :: joinBytes [","%char]
                     (map (fun kt => jsonQuote (s2b (fst kt)) ++ ":"%char :: snd kt)
                          (sort_Slice keyLess fields))
                ++ ["}"%char])
      | None => None
      end
  end.

(** [json.Marshal(sortVals)] for [sortVals []any]: a nil slice is [null]. *)
Definition json_Marshal `{GoStd} (v : slice any) : result (list ascii) :=
  match v with
  | None => Ok (s2b "null")
  | Some l =>
      match marshalAny (ASlice l) with
      | Some b => Ok b
      | None => Err "json: unsupported value"
      end
  end.

(** ** encoding/json: Unmarshal

    [Unmarshal] first checks the whole input against the JSON grammar
    (nesting at most [maxNestingDepth] deep), then builds the value.  The
    grammar phase is [parseValue], which yields the syntax tree with number
    literals kept as text and string literals unquoted; [toAny] is the
    second phase. *)

Inductive jsyn : Type :=
| SNull
| SBool (b : bool)
| SNum (lit : list ascii)
| SStr (s : list ascii)
| SArr (l : list jsyn)
| SObj (l : list (list ascii * jsyn)).

Inductive parsed (A : Type) : Type :=
| POk (a : A) (rest : list ascii)
| PErr
| PFuel.
Arguments POk {A} a rest.
Arguments PErr {A}.
Arguments PFuel {A}.

Definition isWS (c : ascii) : bool :=
  match c with
  | " " | "009" | "010" | "013" => true
  | _ => false
  end%char.

Fixpoint skipWS (s : list ascii) : list ascii :=
  match s with
  | c :: r => if isWS c then skipWS r else s
  | [] => []
  end.

Definition isDigit (c : ascii) : bool := (0x30 <=? byteZ c) && (byteZ c <=? 0x39).

Fixpoint spanDigits (s : list ascii) : list ascii * list ascii :=
  match s with
  | c :: r =>
      if isDigit c then let '(d, t) := spanDigits r in (c :: d, t) else ([], s)
  | [] => ([], [])
  end.

(** The number grammar: an optional minus sign; an integer part that is
    a single 0 or a non-zero digit followed by digits; an optional fraction
    (a point and at least one digit); an optional exponent (e or E, an
    optional sign, at least one digit).  Each scanner returns the text it
    accepted and what follows it. *)
Definition scanInt (s : list ascii) : option (list ascii * list ascii) :=
  match s with
  | c :: r =>
      if (c =? "0")%char then Some ([c], r)
      else if isDigit c then let '(d, t) := spanDigits r in Some (c :: d, t)
      else None
  | [] => None
  end.

Definition scanFrac (s : list ascii) : option (list ascii * list ascii) :=
  match s with
  | c :: r =>
      if (c =? ".")%char then
        match spanDigits r with
        | ([], _) => None
        | (d, t) => Some (c :: d, t)
        end
      else Some ([], s)
  | [] => Some ([], [])
  end.

Definition scanExp (s : list ascii) : option (list ascii * list ascii) :=
  match s with
  | c :: r =>
      if (c =? "e")%char || (c =? "E")%char then
        let '(sg, r1) := match r with
                         | x :: r' =>
                             if (x =? "+")%char || (x =? "-")%char then ([x], r') else ([], r)
                         | [] => ([], r)
                         end in
        match spanDigits r1 with
        | ([], _) => None
        | (d, t) => Some (c :: sg ++ d, t)
        end
      else Some ([], s)
  | [] => Some ([], [])
  end.

Definition scanNumber (s : list ascii) : option (list ascii * list ascii) :=
  let '(sg, s1) := match s with
                   | c :: r => if (c =? "-")%char then ([c], r) else ([], s)
                   | [] => ([], s)
                   end in
  match scanInt s1 with
  | None => None
  | Some (ip, s2) =>
      match scanFrac s2 with
      | None => None
      | Some (fr, s3) =>
          match scanExp s3 with
          | None => None
          | Some (ex, s4) => Some (sg ++ ip ++ fr ++ ex, s4)
          end
      end
  end.

Definition hexVal (c : ascii) : option Z :=
  let b := byteZ c in
  if (0x30 <=? b) && (b <=? 0x39) then Some (b - 0x30)
  else if (0x61 <=? b) && (b <=? 0x66) then Some (b - 0x61 + 10)
  else if (0x41 <=? b) && (b <=? 0x46) then Some (b - 0x41 + 10)
  else None.

(** [getu4]: the value of a [\uXXXX] escape at the head of [s]; [None] is
    the decoder's -1. *)
Definition getu4 (s : list ascii) : option Z :=
  match s with
  | "\"%char :: "u"%char :: h0 :: h1 :: h2 :: h3 :: _ =>
      match hexVal h0, hexVal h1, hexVal h2, hexVal h3 with
      | Some a, Some b, Some c, Some d => Some (((a * 16 + b) * 16 + c) * 16 + d)
      | _, _, _, _ => None
      end
  | _ => None
  end.

(** [utf16.DecodeRune]: a high and a low surrogate make a code point of a
    supplementary plane, anything else is U+FFFD. *)
Definition utf16_DecodeRune (r1 r2 : Z) : Z :=
  if (0xD800 <=? r1) && (r1 <? 0xDC00) && (0xDC00 <=? r2) && (r2 <? 0xE000)
  then (r1 - 0xD800) * 1024 + (r2 - 0xDC00) + 0x10000
  else RuneError.

(** The body of a string literal up to its closing quote, unquoted as
    [unquoteBytes] does: escapes are resolved, a lone surrogate escape and
    every ill-formed byte become U+FFFD.  A control byte, an unknown escape
    or a missing closing quote is a syntax error ([None]).  Every step
    consumes input, so [fuel] above the length of [s] is never used up. *)
Fixpoint scanString (fuel : nat) (s : list ascii) : option (list ascii * list ascii) :=
  match fuel with
  | O => None
  | S fuel' =>
      let continue (out rest : list ascii) :=
        match scanString fuel' rest with
        | Some (t, after) => Some (out ++ t, after)
        | None => None
        end in
      match s with
      | [] => None
      | c :: r =>
          if ascii_dec c dquote then Some ([], r)
          else if ascii_dec c "\" then
            match r with
            | [] => None
            | e :: r' =>
                match e with
                | "034"%char | "\"%char | "/"%char => continue [e] r'
                | "b"%char => continue ["008"%char] r'
                | "f"%char => continue ["012"%char] r'
                | "n"%char => continue ["010"%char] r'
                | "r"%char => continue ["013"%char] r'
                | "t"%char => continue ["009"%char] r'
                | "u"%char =>
                    match getu4 s with
                    | None => None
                    | Some rr =>
                        let r6 := drop 6 s in
                        if isSurrogate rr then
                          let dec := match getu4 r6 with
                                     | Some rr1 => utf16_DecodeRune rr rr1
                                     | None => RuneError
                                     end in
                          if dec =? RuneError then continue (EncodeRune RuneError) r6
                          else continue (EncodeRune dec) (drop 6 r6)
                        else continue (EncodeRune rr) r6
                    end
                | _ => None
                end
            end
          else if byteZ c <? 0x20 then None
          else if isASCII c then continue [c] r
          else let '(rr, size) := DecodeRune s in continue (EncodeRune rr) (drop size s)
      end
  end.

Definition maxNestingDepth : Z := 10000.

Definition startsWith (c : ascii) (s : list ascii) : bool :=
  match s with
  | x :: _ => (x =? c)%char
  | [] => false
  end.

(** Recursive descent over the grammar.  [depth] is the number of arrays
    and objects that are open.  [PFuel] is reported when the recursion
    budget runs out; [parseJSON] gives a budget that is never used up. *)
Fixpoint parseValue (fuel : nat) (depth : Z) (s : list ascii) : parsed jsyn :=
  match fuel with
  | O => PFuel
  | S fuel' =>
      match s with
      | [] => PErr
      | c :: r =>
          if (c =? "[")%char then
            if maxNestingDepth <=? depth then PErr
            else
              let body := skipWS r in
              if startsWith "]" body then POk (SArr []) (drop 1 body)
              else
                match parseElements fuel' (depth + 1) body with
                | POk l rest => POk (SArr l) rest
                | PErr => PErr
                | PFuel => PFuel
                end
          else if (c =? "{")%char then
            if maxNestingDepth <=? depth then PErr
            else
              let body := skipWS r in
              if startsWith "}" body then POk (SObj []) (drop 1 body)
              else
                match parseMembers fuel' (depth + 1) body with
                | POk l rest => POk (SObj l) rest
                | PErr => PErr
                | PFuel => PFuel
                end
          else if (c =? dquote)%char then
            match scanString (S (length r)) r with
            | Some (str, rest) => POk (SStr str) rest
            | None => PErr
            end
          else if (c =? "t")%char then
            if hasPrefixBytes s (s2b "true") then POk (SBool true) (drop 4 s) else PErr
          else if (c =? "f")%char then
            if hasPrefixBytes s (s2b "false") then POk (SBool false) (drop 5 s) else PErr
          else if (c =? "n")%char then
            if hasPrefixBytes s (s2b "null") then POk SNull (drop 4 s) else PErr
          else
            match scanNumber s with
            | Some (lit, rest) => POk (SNum lit) rest
            | None => PErr
            end
      end
  end

(** The elements of an array after [[]: [s] starts at an element. *)
with parseElements (fuel : nat) (depth : Z) (s : list ascii) : parsed (list jsyn) :=
  match fuel with
  | O => PFuel
  | S fuel' =>
      match parseValue fuel' depth s with
      | POk v rest =>
          match skipWS rest with
          | ","%char :: r =>
              match parseElements fuel' depth (skipWS r) with
              | POk l rest' => POk (v :: l) rest'
              | PErr => PErr
              | PFuel => PFuel
              end
          | "]"%char :: r => POk [v] r
          | _ => PErr
          end
      | PErr => PErr
      | PFuel => PFuel
      end
  end

(** The members of an object after [{]: [s] starts at a key. *)
with parseMembers (fuel : nat) (depth : Z) (s : list ascii)
  : parsed (list (list ascii * jsyn)) :=
  match fuel with
  | O => PFuel
  | S fuel' =>
      match s with
      | c :: r =>
          if (c =? dquote)%char then
            match scanString (S (length r)) r with
            | Some (key, rest) =>
                match skipWS rest with
                | ":"%char :: r1 =>
                    match parseValue fuel' depth (skipWS r1) with
                    | POk v rest1 =>
                        match skipWS rest1 with
                        | ","%char :: r2 =>
                            match parseMembers fuel' depth (skipWS r2) with
                            | POk l rest' => POk ((key, v) :: l) rest'
                            | PErr => PErr
                            | PFuel => PFuel
                            end
                        | "}"%char :: r2 => POk [(key, v)] r2
                        | _ => PErr
                        end
                    | PErr => PErr
                    | PFuel => PFuel
                    end
                | _ => PErr
                end
            | None => PErr
            end
          else PErr
      | [] => PErr
      end
  end.

(** A whole JSON text: one value with optional white space around it. *)
Definition parseJSON (data : list ascii) : option jsyn :=
  match parseValue (2 * length data + 2) 0 (skipWS data) with
  | POk v rest =>
      match skipWS rest with
      | [] => Some v
      | _ => None
      end
  | _ => None
  end.

(** The value stored into an interface: numbers become float64 (a literal
    [strconv.ParseFloat] rejects is an error), objects become maps in which
    the last of several equal keys wins. *)
Fixpoint toAny `{GoStd} (v : jsyn) : option any :=
  match v with
  | SNull => Some ANil
  | SBool b => Some (ABool b)
  | SNum lit =>
      match strconv_ParseFloat (b2s lit) with
      | Some f => Some (AFloat f)
      | None => None
      end
  | SStr s => Some (AStr (b2s s))
  | SArr l =>
      match allSome (map toAny l) with
      | Some vs => Some (ASlice vs)
      | None => None
      end
  | SObj l =>
      match (fix members (l : list (list ascii * jsyn)) (m : gmap string any)
               : option (gmap string any) :=
               match l with
               | [] => Some m
               | (k, x) :: l' =>
                   match toAny x with
                   | Some a => members l' (<[b2s k := a]> m)
                   | None => None
                   end
               end) l ∅ with
      | Some m => Some (AMap m)
      | None => None
      end
  end.

(** [json.Unmarshal(data, &out)] for [out []any] (nil before the call):
    [null] leaves the slice nil, an array fills it, any other value is an
    [UnmarshalTypeError]. *)
Definition json_Unmarshal `{GoStd} (data : list ascii) : result (slice any) :=
  match parseJSON data with
  | None => Err "json: syntax error"
  | Some SNull => Ok None
  | Some (SArr l) =>
      match allSome (map toAny l) with
      | Some vs => Ok (Some vs)
      | None => Err "json: cannot unmarshal number into Go value of type float64"
      end
  | Some _ => Err "json: cannot unmarshal into Go value of type []interface {}"
  end.

(** * The cursor codec *)

Definition decodeCursor `{GoStd} (cursor : string) : result (slice any) :=
  let cursor := TrimSpace cursor in
  if decide (cursor = "") then Ok None
  else
    match b64decode (s2b cursor) with
    | None => Err "invalid cursor"
    | Some blob =>
        match json_Unmarshal blob with
        | Err _ => Err "invalid cursor payload"
        | Ok out => Ok out
        end
    end.

Definition encodeCursor `{GoStd} (sortVals : slice any) : result string :=
  match json_Marshal sortVals with
  | Err e => Err e
  | Ok blob => Ok (b2s (b64encode blob))
  end.

(** ** A library instance for running the code

    [refStd] implements the interface for what the fixtures need: decimal
    integer literals and integer-valued floats below 10^21 (for which Go
    prints plain digits), a stable insertion sort, and no case folding above
    ASCII.  Times are not parsed or printed by this instance. *)

Fixpoint digitsOf (fuel : nat) (n : Z) (acc : list ascii) : list ascii :=
  match fuel with
  | O => acc
  | S fuel' =>
      let acc' := zbyte (0x30 + n mod 10) :: acc in
      if n <? 10 then acc' else digitsOf fuel' (n / 10) acc'
  end.

Definition decimal (n : Z) : list ascii := digitsOf (S (Z.to_nat (Z.log2 n))) n [].

Definition digitsVal (d : list ascii) : Z :=
  fold_left (fun acc c => acc * 10 + (byteZ c - 0x30)) d 0.

Definition refParseFloat (s : string) : option float64 :=
  let b := s2b s in
  let '(neg, d) := match b with
                   | "-"%char :: r => (true, r)
                   | "+"%char :: r => (false, r)
                   | _ => (false, b)
                   end in
  match d with
  | [] => None
  | _ =>
      if forallb isDigit d then
        let f := binary_normalize 53 1024 (digitsVal d) 0 neg in
        let f := if neg then SFopp f else f in
        if f64_finite f then Some f else None
      else None
  end.

Definition refFloatText (f : float64) : string :=
  match f with
  | S754_finite s m e =>
      let a := if 0 <=? e then Z.pos m * 2 ^ e else Z.pos m / 2 ^ (- e) in
      b2s ((if s then ["-"%char] else []) ++ decimal a)
  | S754_zero true => "-0"
  | _ => "0"
  end.

Fixpoint insertBy {A} (less : A -> A -> bool) (x : A) (l : list A) : list A :=
  match l with
  | [] => [x]
  | y :: l' => if less x y then x :: l else y :: insertBy less x l'
  end.

Fixpoint insertionSort {A} (less : A -> A -> bool) (l : list A) : list A :=
  match l with
  | [] => []
  | x :: l' => insertBy less x (insertionSort less l')
  end.

Definition refStd : GoStd := {|
  strconv_ParseFloat := refParseFloat;
  json_floatText := refFloatText;
  unicode_ToLower := fun r => r;
  sort_Slice := @insertionSort;
  time_Parse := fun _ _ => None;
  time_FormatRFC3339 := fun _ => ""
|}.

(** [isoStd] is [refStd] with a printer of times: the date and the time of
    day in UTC, as RFC 3339 writes them, of a time of the years 1 to 9999.
    [civilDate] turns a day counted from 1 January of the year 1 into year,
    month and day of the Gregorian calendar. *)
Definition civilDate (day : Z) : Z * Z * Z :=
  let z := day + 306 in
  let era := z / 146097 in
  let doe := z mod 146097 in
  let yoe := (doe - doe / 1460 + doe / 36524 - doe / 146096) / 365 in
  let doy := doe - (365 * yoe + yoe / 4 - yoe / 100) in
  let mp := (5 * doy + 2) / 153 in
  let d := doy - (153 * mp + 2) / 5 + 1 in
  let m := if mp <? 10 then mp + 3 else mp - 9 in
  (yoe + era * 400 + (if m <=? 2 then 1 else 0), m, d).

Definition pad2 (n : Z) : list ascii :=
  [zbyte (0x30 + n / 10 mod 10); zbyte (0x30 + n mod 10)].

Definition pad4 (n : Z) : list ascii :=
  [zbyte (0x30 + n / 1000 mod 10); zbyte (0x30 + n / 100 mod 10)] ++ pad2 n.

Definition isoText (t : Time) : string :=
  let '(y, m, d) := civilDate (extSec t / 86400) in
  let sod := extSec t mod 86400 in
  b2s (pad4 y ++ "-"%char :: pad2 m ++ "-"%char :: pad2 d ++ "T"%char :: pad2 (sod / 3600)
       ++ ":"%char :: pad2 (sod / 60 mod 60) ++ ":"%char :: pad2 (sod mod 60) ++ ["Z"%char]).

Definition isoStd : GoStd := {|
  strconv_ParseFloat := refParseFloat;
  json_floatText := refFloatText;
  unicode_ToLower := fun r => r;
  sort_Slice := @insertionSort;
  time_Parse := fun _ _ => None;
  time_FormatRFC3339 := isoText
|}.

(** * The metadata extractor *)

(** [asString]: the string held by the interface, or [""]. *)
Definition asString (v : any) : string :=
  match v with AStr s => s | _ => "" end.

(** [asFloat].  A decoded document holds numbers as float64 only, so the
    integer and [json.Number] cases of the type switch are never taken. *)
Definition asFloat `{GoStd} (v : any) : float64 :=
  match v with
  | AFloat x => x
  | AStr x =>
      let s := TrimSpace x in
      if decide (s = "") then f64_zero
      else match strconv_ParseFloat s with
           | Some f => f
           | None => f64_zero
           end
  | _ => f64_zero
  end.

Definition asMap (v : any) : gmap string any :=
  match v with AMap m => m | _ => ∅ end.

(** [asSlice]: a list as it is, a single object as a one-element list. *)
Definition asSlice (v : any) : list any :=
  match v with
  | ASlice t => t
  | AMap t => [AMap t]
  | _ => []
  end.

Definition stringsFromAny (v : any) : list string :=
  match v with
  | AStr t =>
      let s := TrimSpace t in
      if decide (s = "") then [] else [s]
  | ASlice t =>
      filter (fun s => s ≠ "") (map (fun it => TrimSpace (asString it)) t)
  | _ => []
  end.

Definition countAnyItems (v : any) : Z :=
  match v with
  | ASlice t => Z.of_nat (length t)
  | AMap t => Z.of_nat (size t)
  | AStr t => if decide (TrimSpace t = "") then 0 else 1
  | _ => 0
  end.

(** The file name of a path: what follows the last [/], then what follows
    the last backslash of that. *)
Definition pathName (path : list ascii) : list ascii :=
  let name := match afterLast "/" path with Some t => t | None => path end in
  match afterLast "\" name with Some t => t | None => name end.

Definition extFromPath `{GoStd} (path : string) : string :=
  let path := TrimSpace path in
  if decide (path = "") then "unknown"
  else
    match afterLast "." (pathName (s2b path)) with
    | Some (c :: t) => ToLower (TrimSpace (b2s (c :: t)))
    | _ => "unknown"
    end.

Definition baseFromPath (path : string) : string :=
  let path := TrimSpace path in
  if decide (path = "") then ""
  else TrimSpace (b2s (pathName (s2b path))).

(** The [premis:object_dict] of a METS document and the [amdSec_dict] it
    sits in. *)
Definition amdSecDict (root : gmap string any) : gmap string any :=
  asMap (mapIndex (asMap (mapIndex root "amdSec")) "mets:amdSec_dict").

Definition premisObject (root : gmap string any) : gmap string any :=
  let tech := asMap (mapIndex (amdSecDict root) "mets:techMD_dict") in
  let wrap := asMap (mapIndex tech "mets:mdWrap_dict") in
  let xmlData := asMap (mapIndex wrap "mets:xmlData_dict") in
  asMap (mapIndex xmlData "premis:object_dict").

Definition relatedObjectID (item : any) : string :=
  let idDict := asMap (mapIndex (asMap item) "premis:relatedObjectIdentifier_dict") in
  TrimSpace (asString (mapIndex idDict "premis:relatedObjectIdentifierValue")).

Definition extractNormalizedObjectIDs `{GoStd} (mets : any) : list string :=
  match mets with
  | AMap root =>
      let rel := mapIndex (premisObject root) "premis:relationship_dict" in
      let ids : gset string :=
        foldl (fun ids item =>
                 let id := relatedObjectID item in
                 if decide (id = "") then ids else {[id]} ∪ ids)
              ∅ (asSlice rel) in
      sort_Slice String.ltb (elements ids)
  | _ => []
  end.

Definition parseISO `{GoStd} (s : string) : Time :=
  let s := TrimSpace s in
  if decide (s = "") then zeroTime
  else
    match time_Parse "2006-01-02T15:04:05.999999999Z07:00" s with
    | Some t => t
    | None =>
        match time_Parse "2006-01-02T15:04:05Z07:00" s with
        | Some t => t
        | None =>
            match time_Parse "2006-01-02T15:04:05.999999-07:00" s with
            | Some t => t
            | None => zeroTime
            end
        end
    end.

Definition parseIndexedAt `{GoStd} (v : any) : Time :=
  let f := asFloat v in
  if f64_le0 f then zeroTime
  else
    let sec := int64_of_f64 f in
    let nsec := int64_of_f64 (f64_mul (f64_sub f (f64_of_Z sec)) (f64_of_Z 1000000000)) in
    time_Unix sec nsec.

Definition toISO `{GoStd} (t : Time) : string :=
  if IsZero t then "" else time_FormatRFC3339 t.

Definition stripPrefix (p s : list ascii) : list ascii :=
  if hasPrefixBytes s p then drop (length p) s else s.

Definition parseToolVersion (detail : string) : string :=
  let detail := TrimSpace detail in
  if decide (detail = "") then ""
  else
    let '(program, version) :=
      foldl (fun pv part =>
               let p := s2b (TrimSpace (b2s part)) in
               let program :=
                 if hasPrefixBytes p (s2b "program=")
                 then b2s (trimByte dquote (stripPrefix (s2b "program=") p))
                 else fst pv in
               let version :=
                 if hasPrefixBytes p (s2b "version=")
                 then b2s (trimByte dquote (stripPrefix (s2b "version=") p))
                 else snd pv in
               (program, version))
            ("", "") (splitBytes ";" (s2b detail)) in
    if decide (program = "" ∧ version = "") then ""
    else if decide (version = "") then program
    else if decide (program = "") then version
    else program +:+ " " +:+ version.

Record premisEventMeta : Type := {
  EventType : string;
  EventOutcome : string;
  ToolVersion : string
}.

Record objectMeta : Type := {
  om_size : Z;
  om_regKey : string;
  om_formatName : string;
  om_formatVersion : string;
  om_createdByApp : Time;
  om_eventDates : list Time;
  om_premisEvents : list premisEventMeta
}.

Definition premisEvent (eventWrap : any) : gmap string any :=
  let mdWrap := asMap (mapIndex (asMap eventWrap) "mets:mdWrap_dict") in
  let xml := asMap (mapIndex mdWrap "mets:xmlData_dict") in
  asMap (mapIndex xml "premis:event_dict").

Definition extractObjectMeta `{GoStd} (mets : any) : objectMeta :=
  match mets with
  | AMap root =>
      let amdDict := amdSecDict root in
      let obj := premisObject root in
      let objChar := asMap (mapIndex obj "premis:objectCharacteristics_dict") in
      let format := asMap (mapIndex objChar "premis:format_dict") in
      let designation := asMap (mapIndex format "premis:formatDesignation_dict") in
      let registry := asMap (mapIndex format "premis:formatRegistry_dict") in
      let creatingApp := asMap (mapIndex objChar "premis:creatingApplication_dict") in
      let events := asSlice (mapIndex amdDict "mets:digiprovMD_dict") in
      {| om_size := int64_of_f64 (asFloat (mapIndex objChar "premis:size"));
         om_regKey := TrimSpace (asString (mapIndex registry "premis:formatRegistryKey"));
         om_formatName := TrimSpace (asString (mapIndex designation "premis:formatName"));
         om_formatVersion := TrimSpace (asString (mapIndex designation "premis:formatVersion"));
         om_createdByApp :=
           parseISO (asString (mapIndex creatingApp "premis:dateCreatedByApplication"));
         om_eventDates :=
           filter (fun t => IsZero t = false)
                  (map (fun w => parseISO (asString (mapIndex (premisEvent w) "premis:eventDateTime")))
                       events);
         om_premisEvents :=
           filter (fun e => EventType e ≠ "" ∨ EventOutcome e ≠ "" ∨ ToolVersion e ≠ "")
                  (map (fun w =>
                          let ev := premisEvent w in
                          {| EventType := TrimSpace (asString (mapIndex ev "premis:eventType"));
                             EventOutcome :=
                               TrimSpace (asString
                                 (mapIndex (asMap (mapIndex ev "premis:eventOutcomeInformation_dict"))
                                           "premis:eventOutcome"));
                             ToolVersion :=
                               parseToolVersion (TrimSpace (asString
                                 (mapIndex (asMap (mapIndex ev "premis:eventDetailInformation_dict"))
                                           "premis:eventDetail"))) |})
                       events) |}
  | _ =>
      {| om_size := 0; om_regKey := ""; om_formatName := ""; om_formatVersion := "";
         om_createdByApp := zeroTime; om_eventDates := []; om_premisEvents := [] |}
  end.

(** * The streaming aggregator: helpers *)

Record KeyCount : Type := { Key : string; Count : Z }.

Record AIPFileSample : Type := {
  FilePath : string;
  FileUUID : string;
  Bytes : Z;
  Extension : string;
  FormatRegistryKey : string;
  FormatName : string;
  Status : string;
  CreatedByAppDate : string;
  IndexedAt : string
}.

Record AIPFormatVersionCount : Type := {
  fv_FormatRegistryKey : string;
  fv_FormatName : string;
  fv_FormatVersion : string;
  fv_Count : Z
}.

(** [m[k]++] on a [map[string]int64]. *)
Definition incr (k : string) (m : gmap string Z) : gmap string Z :=
  <[k := wrap64 (default 0 (m !! k) + 1)]> m.

Definition keysSorted `{GoStd} (m : gset string) : list string :=
  sort_Slice String.ltb (elements m).

Definition truncateTo {A} (limit : Z) (out : list A) : list A :=
  if (0 <? limit) && (limit <? Z.of_nat (length out)) then take (Z.to_nat limit) out
  else out.

Definition keyCountLess (a b : KeyCount) : bool :=
  if Count a =? Count b then String.ltb (Key a) (Key b) else Count b <? Count a.

Definition topCounts `{GoStd} (m : gmap string Z) (limit : Z) : list KeyCount :=
  truncateTo limit
    (sort_Slice keyCountLess (map (fun kv => {| Key := fst kv; Count := snd kv |}) (map_to_list m))).

(** [strings.SplitN(k, sep, 3)] for a one-byte separator: the third part
    keeps any further separators. *)
Fixpoint cutAt (sep : ascii) (s : list ascii) : list ascii * option (list ascii) :=
  match s with
  | [] => ([], None)
  | x :: s' =>
      if ascii_dec x sep then ([], Some s')
      else let '(h, t) := cutAt sep s' in (x :: h, t)
  end.

Definition splitN3 (sep : ascii) (s : list ascii) : list (list ascii) :=
  match cutAt sep s with
  | (a, None) => [a]
  | (a, Some r) =>
      match cutAt sep r with
      | (b, None) => [a; b]
      | (b, Some c) => [a; b; c]
      end
  end.

Definition formatVersionLess (a b : AIPFormatVersionCount) : bool :=
  if negb (fv_Count a =? fv_Count b) then fv_Count b <? fv_Count a
  else if negb (String.eqb (fv_FormatRegistryKey a) (fv_FormatRegistryKey b))
       then String.ltb (fv_FormatRegistryKey a) (fv_FormatRegistryKey b)
  else if negb (String.eqb (fv_FormatName a) (fv_FormatName b))
       then String.ltb (fv_FormatName a) (fv_FormatName b)
  else String.ltb (fv_FormatVersion a) (fv_FormatVersion b).

Definition unitSep : ascii := "031"%char.

Definition topFormatVersions `{GoStd} (m : gmap string Z) (limit : Z)
  : list AIPFormatVersionCount :=
  truncateTo limit
    (sort_Slice formatVersionLess
       (map (fun kv =>
               let parts := splitN3 unitSep (s2b (fst kv)) in
               {| fv_FormatRegistryKey := b2s (nth 0 parts []);
                  fv_FormatName := b2s (nth 1 parts []);
                  fv_FormatVersion := b2s (nth 2 parts []);
                  fv_Count := snd kv |})
            (map_to_list m))).

Definition round2 (v : float64) : float64 :=
  f64_div (f64_of_Z (int64_of_f64 (f64_add (f64_mul v (f64_of_Z 100)) f64_half)))
          (f64_of_Z 100).

(** The comparator of [pushLargestFile]: larger size first, equal sizes by
    path. *)
Definition largestLess (a b : AIPFileSample) : bool :=
  if Bytes a =? Bytes b then String.ltb (FilePath a) (FilePath b)
  else Bytes b <? Bytes a.

Definition pushLargestFile `{GoStd} (dst : list AIPFileSample) (item : AIPFileSample)
    (limit : Z) : list AIPFileSample :=
  if limit <=? 0 then dst
  else
    let dst := sort_Slice largestLess (dst ++ [item]) in
    if limit <? Z.of_nat (length dst) then take (Z.to_nat limit) dst else dst.

(** The extensions a recognised format is expected to carry: by registry
    key, else by a known description inside the format name. *)
Definition normExt `{GoStd} (v : string) : string :=
  TrimPrefix (ToLower (TrimSpace v)) ".".

Definition addExpected `{GoStd} (expected : gset string) (values : list string) : gset string :=
  foldl (fun e v => let v := normExt v in if decide (v = "") then e else {[v]} ∪ e)
        expected values.

Definition expectedByKey `{GoStd} (key : string) : gset string :=
  if decide (key = "fmt/353") then addExpected ∅ ["tif"; "tiff"]
  else if decide (key = "fmt/11") then addExpected ∅ ["png"]
  else if decide (key = "fmt/4") then addExpected ∅ ["gif"]
  else if decide (key = "fmt/91") then addExpected ∅ ["svg"]
  else if decide (key = "fmt/43") then addExpected ∅ ["jpg"; "jpeg"]
  else if decide (key = "fmt/402") then addExpected ∅ ["tga"]
  else if decide (key = "x-fmt/392") then addExpected ∅ ["jp2"; "j2k"; "jpf"]
  else ∅.

Definition expectedByName `{GoStd} (name : string) : gset string :=
  if Contains name "portable network graphics" then addExpected ∅ ["png"]
  else if Contains name "graphics interchange format" then addExpected ∅ ["gif"]
  else if Contains name "scalable vector graphics" then addExpected ∅ ["svg"]
  else if Contains name "jpeg" then addExpected ∅ ["jpg"; "jpeg"]
  else if Contains name "tiff" then addExpected ∅ ["tif"; "tiff"]
  else ∅.

Definition mismatchByFormat `{GoStd} (regKey formatName ext : string) : bool :=
  let ext := normExt ext in
  if decide (ext = "") then false
  else
    let key := ToLower (TrimSpace regKey) in
    let name := ToLower (TrimSpace formatName) in
    let expected := expectedByKey key in
    let expected := if decide (size expected = 0%nat) then expectedByName name else expected in
    if decide (size expected = 0%nat) then false
    else if decide (ext ∈ expected) then false else true.

(** [rank := int(float64(len(sorted)-1) * float64(p) / 100.0)]: the
    product and the quotient are float64 operations, the conversion to
    [int] truncates. *)
Definition rank (n p : Z) : Z :=
  int64_of_f64 (f64_div (f64_mul (f64_of_Z (n - 1)) (f64_of_Z p)) (f64_of_Z 100)).

Definition percentileInt64 (sorted : list Z) (p : Z) : Z :=
  let n := Z.of_nat (length sorted) in
  if n =? 0 then 0
  else if p <=? 0 then nth 0 sorted 0
  else if 100 <=? p then nth (Z.to_nat (n - 1)) sorted 0
  else
    let rank := rank n p in
    let rank := if rank <? 0 then 0 else rank in
    let rank := if n <=? rank then n - 1 else rank in
    nth (Z.to_nat rank) sorted 0.

(** * The paginated scanner *)

(** The client: [None] is a nil [*Client]. *)
Record Client : Type := { endpoint : string }.

Definition Enabled (c : option Client) : bool :=
  match c with
  | Some cl => if decide (endpoint cl = "") then false else true
  | None => false
  end.

Record searchHit : Type := {
  hit_ID : string;
  hit_Sort : slice any;
  hit_Source : gmap string any
}.

(** The request body of one [_search] call.  [body_search_after] is [None]
    when the key is left out; [body_query] is the AIP UUID of the term
    filter, [None] when there is no filter. *)
Record searchBody : Type := {
  body_size : Z;
  body_source : list string;
  body_sort : list string;
  body_search_after : slice any;
  body_query : option string
}.

(** The search index as the engine sees it through [Client.search]: the
    answer to the [k]-th call of a run, given the index name and the body.
    [Err] covers a transport failure, a cancelled context, a status outside
    2xx and an undecodable response. *)
Definition Index : Type := nat -> string -> searchBody -> result (list searchHit).

(** One call and the answer it got. *)
Definition exchange : Type := (string * searchBody * result (list searchHit))%type.

Definition hitsOf (x : exchange) : list searchHit :=
  match snd x with Ok hits => hits | Err _ => [] end.

Definition searchAfterField (searchAfter : slice any) : slice any :=
  if 0 <? len searchAfter then searchAfter else None.

Record AIPListItem : Type := { AIPUUID : string; SIPName : string }.

Record AIPListResult : Type := { Items : list AIPListItem; NextCursor : string }.

(** The limit in force after the two guards at the head of [ListAIPs]. *)
Definition listLimit (limit : Z) : Z :=
  let limit := if limit <=? 0 then 100 else limit in
  if 500 <? limit then 500 else limit.

(** The page size in force after the two guards at the head of [AIPStats]. *)
Definition statsPageSize (pageSize : Z) : Z :=
  let pageSize := if pageSize <=? 0 then 500 else pageSize in
  if 2000 <? pageSize then 2000 else pageSize.

Definition defaultIndex (index : string) : string :=
  if decide (TrimSpace index = "") then "aipfiles" else index.

(** The inner loop of [ListAIPs] over the hits of one page. *)
Fixpoint drainListHits (limit : Z) (hits : list searchHit)
    (items : list AIPListItem) (seen : gset string) : list AIPListItem * gset string :=
  match hits with
  | [] => (items, seen)
  | h :: rest =>
      let aip := TrimSpace (asString (mapIndex (hit_Source h) "AIPUUID")) in
      if decide (aip = "") then drainListHits limit rest items seen
      else if decide (aip ∈ seen) then drainListHits limit rest items seen
      else
        let seen := {[aip]} ∪ seen in
        let items :=
          items ++ [{| AIPUUID := aip;
                       SIPName := TrimSpace (asString (mapIndex (hit_Source h) "sipName")) |}] in
        if limit <=? Z.of_nat (length items) then (items, seen)
        else drainListHits limit rest items seen
  end.

Definition lastSort (hits : list searchHit) : slice any :=
  match last hits with
  | Some h => hit_Sort h
  | None => None
  end.

Record listState : Type := {
  ls_items : list AIPListItem;
  ls_seen : gset string;
  ls_nextSort : slice any;
  ls_searchAfter : slice any
}.

Definition listBody (limit : Z) (searchAfter : slice any) : searchBody :=
  {| body_size := limit * 3;
     body_source := ["AIPUUID"; "sipName"];
     body_sort := ["AIPUUID"; "FILEUUID"];
     body_search_after := searchAfterField searchAfter;
     body_query := None |}.

(** The page loop of [ListAIPs]: [pagesLeft] pages may still be fetched,
    [page] have been.  Returns the state at loop exit, or the error of the
    failing call, with the calls made. *)
Fixpoint listPages (es : Index) (index : string) (limit : Z) (pagesLeft page : nat)
    (st : listState) (trace : list exchange) : result listState * list exchange :=
  match pagesLeft with
  | O => (Ok st, trace)
  | S pagesLeft' =>
      if Z.of_nat (length (ls_items st)) <? limit then
        let body := listBody limit (ls_searchAfter st) in
        let res := es page index body in
        let trace := trace ++ [(index, body, res)] in
        match res with
        | Err e => (Err e, trace)
        | Ok [] =>
            (Ok {| ls_items := ls_items st; ls_seen := ls_seen st;
                   ls_nextSort := None; ls_searchAfter := ls_searchAfter st |}, trace)
        | Ok hits =>
            let '(items, seen) := drainListHits limit hits (ls_items st) (ls_seen st) in
            let nextSort := lastSort hits in
            if len nextSort =? 0 then
              (Ok {| ls_items := items; ls_seen := seen;
                     ls_nextSort := nextSort; ls_searchAfter := ls_searchAfter st |}, trace)
            else
              listPages es index limit pagesLeft' (S page)
                {| ls_items := items; ls_seen := seen;
                   ls_nextSort := nextSort; ls_searchAfter := nextSort |} trace
        end
      else (Ok st, trace)
  end.

(** [ListAIPs].  The result is paired with the calls made to the index;
    [Ok None] is the [(nil, nil)] of a disabled client. *)
Definition ListAIPs `{GoStd} (c : option Client) (es : Index) (index : string) (limit : Z)
    (cursor : string) : result (option AIPListResult) * list exchange :=
  if negb (Enabled c) then (Ok None, [])
  else
    let index := defaultIndex index in
    let limit := listLimit limit in
    match decodeCursor cursor with
    | Err e => (Err e, [])
    | Ok searchAfter =>
        match listPages es index limit 10 0
                {| ls_items := []; ls_seen := ∅; ls_nextSort := None;
                   ls_searchAfter := searchAfter |} [] with
        | (Err e, trace) => (Err e, trace)
        | (Ok st, trace) =>
            let nextCursor :=
              if 0 <? len (ls_nextSort st) then
                match encodeCursor (ls_nextSort st) with
                | Ok s => s
                | Err _ => ""
                end
              else "" in
            (Ok (Some {| Items := ls_items st; NextCursor := nextCursor |}), trace)
        end
    end.

(** * The streaming aggregator *)

Record AIPStats : Type := {
  st_AIPUUID : string;
  SIPNames : list string;
  FilesTotal : Z;
  UniqueFileUUIDs : Z;
  OriginalsWithNormalized : Z;
  OriginalsWithoutNormalized : Z;
  NormalizedRefsTotal : Z;
  UniqueNormalizedObjectIDs : Z;
  NormalizedByOriginalAvg : float64;
  TotalBytes : Z;
  AverageBytes : float64;
  MinIndexedAt : string;
  MaxIndexedAt : string;
  MinCreatedByAppDate : string;
  MaxCreatedByAppDate : string;
  FirstEventDate : string;
  LastEventDate : string;
  StatusCounts : list KeyCount;
  OriginCounts : list KeyCount;
  AccessionIDCounts : list KeyCount;
  IsPartOfCounts : list KeyCount;
  ArchivematicaVersionCounts : list KeyCount;
  FormatRegistryCounts : list KeyCount;
  FormatNameCounts : list KeyCount;
  FormatVersionCounts : list AIPFormatVersionCount;
  PREMISEventTypeCounts : list KeyCount;
  PREMISEventOutcomeCounts : list KeyCount;
  PREMISToolCounts : list KeyCount;
  MissingIdentifiers : Z;
  UnknownFormats : Z;
  MissingCreatedByAppDate : Z;
  ExtensionFormatMismatch : Z;
  DuplicateFilenameGroups : Z;
  DuplicateFilenameCandidates : Z;
  UniqueFormatSignatures : Z;
  FormatDiversityRatio : float64;
  IndexedLagAvgSeconds : float64;
  IndexedLagP95Seconds : Z;
  LargestFiles : list AIPFileSample;
  ExtensionCounts : list KeyCount;
  RawExtensionCounts : gmap string Z
}.

(** What the scan loop of [AIPStats] updates: the counters it keeps in
    [stats] and its local tables. *)
Record scanState : Type := {
  sc_FilesTotal : Z;
  sc_OriginalsWithNormalized : Z;
  sc_OriginalsWithoutNormalized : Z;
  sc_NormalizedRefsTotal : Z;
  sc_TotalBytes : Z;
  sc_MissingIdentifiers : Z;
  sc_UnknownFormats : Z;
  sc_MissingCreatedByAppDate : Z;
  sc_ExtensionFormatMismatch : Z;
  sc_LargestFiles : list AIPFileSample;
  sc_RawExtensionCounts : gmap string Z;
  sipNames : gset string;
  fileUUIDs : gset string;
  normalizedIDs : gset string;
  statusCounts : gmap string Z;
  originCounts : gmap string Z;
  accessionCounts : gmap string Z;
  isPartOfCounts : gmap string Z;
  amVersionCounts : gmap string Z;
  formatRegistryCounts : gmap string Z;
  formatNameCounts : gmap string Z;
  formatVersionCounts : gmap string Z;
  premisTypeCounts : gmap string Z;
  premisOutcomeCounts : gmap string Z;
  premisToolCounts : gmap string Z;
  formatSignatureSet : gset string;
  basenameCounts : gmap string Z;
  lagSeconds : list Z;
  minIndexedAt : Time;
  maxIndexedAt : Time;
  minCreatedByApp : Time;
  maxCreatedByApp : Time;
  firstEvent : Time;
  lastEvent : Time
}.

Definition initScan : scanState :=
  {| sc_FilesTotal := 0; sc_OriginalsWithNormalized := 0; sc_OriginalsWithoutNormalized := 0;
     sc_NormalizedRefsTotal := 0; sc_TotalBytes := 0; sc_MissingIdentifiers := 0;
     sc_UnknownFormats := 0; sc_MissingCreatedByAppDate := 0; sc_ExtensionFormatMismatch := 0;
     sc_LargestFiles := []; sc_RawExtensionCounts := ∅;
     sipNames := ∅; fileUUIDs := ∅; normalizedIDs := ∅;
     statusCounts := ∅; originCounts := ∅; accessionCounts := ∅; isPartOfCounts := ∅;
     amVersionCounts := ∅; formatRegistryCounts := ∅; formatNameCounts := ∅;
     formatVersionCounts := ∅; premisTypeCounts := ∅; premisOutcomeCounts := ∅;
     premisToolCounts := ∅; formatSignatureSet := ∅; basenameCounts := ∅; lagSeconds := [];
     minIndexedAt := zeroTime; maxIndexedAt := zeroTime;
     minCreatedByApp := zeroTime; maxCreatedByApp := zeroTime;
     firstEvent := zeroTime; lastEvent := zeroTime |}.

(** [if v != "" { m[v]++ }] and [if v != "" { s[v] = struct{}{} }]. *)
Definition incrIf (v : string) (m : gmap string Z) : gmap string Z :=
  if decide (v = "") then m else incr v m.

Definition addIf (v : string) (s : gset string) : gset string :=
  if decide (v = "") then s else {[v]} ∪ s.

Definition earlier (cur t : Time) : Time :=
  if IsZero cur || Before t cur then t else cur.

Definition later (cur t : Time) : Time :=
  if IsZero cur || After t cur then t else cur.

Definition srcString (src : gmap string any) (k : string) : string :=
  TrimSpace (asString (mapIndex src k)).

(** The body of the loop over the hits of a page, for one hit. *)
Definition scanHit `{GoStd} (s : scanState) (h : searchHit) : scanState :=
  let src := hit_Source h in
  let ext := extFromPath (asString (mapIndex src "filePath")) in
  let base := baseFromPath (asString (mapIndex src "filePath")) in
  let indexedAt := parseIndexedAt (mapIndex src "indexedAt") in
  let meta := extractObjectMeta (mapIndex src "METS") in
  let size := om_size meta in
  let size := if size <=? 0 then int64_of_f64 (asFloat (mapIndex src "size")) else size in
  let size := if size <=? 0 then int64_of_f64 (asFloat (mapIndex src "FileSize")) else size in
  let regKey := om_regKey meta in
  let formatName := om_formatName meta in
  let formatVersion := om_formatVersion meta in
  let createdByApp := om_createdByApp meta in
  let hasSignature :=
    bool_decide (regKey ≠ "" ∨ formatName ≠ "" ∨ formatVersion ≠ "") in
  let signature :=
    TrimSpace regKey +:+ String unitSep "" +:+ TrimSpace formatName
    +:+ String unitSep "" +:+ TrimSpace formatVersion in
  let hasCreated := negb (IsZero createdByApp) in
  let rawExt := ToLower (TrimSpace (asString (mapIndex src "fileExtension"))) in
  let rawExt := if decide (rawExt = "") then ext else rawExt in
  let rels := extractNormalizedObjectIDs (mapIndex src "METS") in
  let hasRels := 0 <? Z.of_nat (length rels) in
  {| sc_FilesTotal := wrap64 (sc_FilesTotal s + 1);
     sipNames := addIf (srcString src "sipName") (sipNames s);
     statusCounts := incrIf (srcString src "status") (statusCounts s);
     originCounts := incrIf (srcString src "origin") (originCounts s);
     accessionCounts := incrIf (srcString src "accessionid") (accessionCounts s);
     isPartOfCounts :=
       foldl (fun m v => incr v m) (isPartOfCounts s) (stringsFromAny (mapIndex src "isPartOf"));
     amVersionCounts := incrIf (srcString src "archivematicaVersion") (amVersionCounts s);
     sc_MissingIdentifiers :=
       if countAnyItems (mapIndex src "identifiers") =? 0
       then wrap64 (sc_MissingIdentifiers s + 1) else sc_MissingIdentifiers s;
     fileUUIDs := addIf (srcString src "FILEUUID") (fileUUIDs s);
     sc_RawExtensionCounts := incr ext (sc_RawExtensionCounts s);
     basenameCounts :=
       if decide (base = "") then basenameCounts s else incr (ToLower base) (basenameCounts s);
     minIndexedAt :=
       if IsZero indexedAt then minIndexedAt s else earlier (minIndexedAt s) indexedAt;
     maxIndexedAt :=
       if IsZero indexedAt then maxIndexedAt s else later (maxIndexedAt s) indexedAt;
     sc_TotalBytes := if 0 <? size then wrap64 (sc_TotalBytes s + size) else sc_TotalBytes s;
     sc_LargestFiles :=
       if 0 <? size then
         pushLargestFile (sc_LargestFiles s)
           {| FilePath := srcString src "filePath";
              FileUUID := srcString src "FILEUUID";
              Bytes := size;
              Extension := ext;
              FormatRegistryKey := regKey;
              FormatName := formatName;
              Status := srcString src "status";
              CreatedByAppDate := toISO createdByApp;
              IndexedAt := toISO indexedAt |} 10
       else sc_LargestFiles s;
     formatRegistryCounts := incrIf regKey (formatRegistryCounts s);
     formatNameCounts := incrIf formatName (formatNameCounts s);
     sc_UnknownFormats :=
       if bool_decide (regKey = "" ∧ formatName = "")
       then wrap64 (sc_UnknownFormats s + 1) else sc_UnknownFormats s;
     formatVersionCounts :=
       if hasSignature then incr signature (formatVersionCounts s) else formatVersionCounts s;
     formatSignatureSet :=
       if hasSignature then {[signature]} ∪ formatSignatureSet s else formatSignatureSet s;
     minCreatedByApp :=
       if hasCreated then earlier (minCreatedByApp s) createdByApp else minCreatedByApp s;
     maxCreatedByApp :=
       if hasCreated then later (maxCreatedByApp s) createdByApp else maxCreatedByApp s;
     lagSeconds :=
       if hasCreated && negb (IsZero indexedAt) && After indexedAt createdByApp
       then lagSeconds s ++ [int64_of_f64 (Seconds (Sub indexedAt createdByApp))]
       else lagSeconds s;
     sc_MissingCreatedByAppDate :=
       if hasCreated then sc_MissingCreatedByAppDate s
       else wrap64 (sc_MissingCreatedByAppDate s + 1);
     sc_ExtensionFormatMismatch :=
       if mismatchByFormat regKey formatName rawExt
       then wrap64 (sc_ExtensionFormatMismatch s + 1) else sc_ExtensionFormatMismatch s;
     firstEvent := foldl earlier (firstEvent s) (om_eventDates meta);
     lastEvent := foldl later (lastEvent s) (om_eventDates meta);
     premisTypeCounts :=
       foldl (fun m ev => incrIf (EventType ev) m) (premisTypeCounts s) (om_premisEvents meta);
     premisOutcomeCounts :=
       foldl (fun m ev => incrIf (EventOutcome ev) m) (premisOutcomeCounts s)
             (om_premisEvents meta);
     premisToolCounts :=
       foldl (fun m ev => incrIf (ToolVersion ev) m) (premisToolCounts s) (om_premisEvents meta);
     sc_OriginalsWithNormalized :=
       if hasRels then wrap64 (sc_OriginalsWithNormalized s + 1)
       else sc_OriginalsWithNormalized s;
     sc_NormalizedRefsTotal :=
       if hasRels then wrap64 (sc_NormalizedRefsTotal s + Z.of_nat (length rels))
       else sc_NormalizedRefsTotal s;
     normalizedIDs :=
       if hasRels then foldl (fun ids id => {[id]} ∪ ids) (normalizedIDs s) rels
       else normalizedIDs s;
     sc_OriginalsWithoutNormalized :=
       if hasRels then sc_OriginalsWithoutNormalized s
       else wrap64 (sc_OriginalsWithoutNormalized s + 1) |}.

Definition statsBody (aipUUID : string) (pageSize : Z) (searchAfter : slice any) : searchBody :=
  {| body_size := pageSize;
     body_source :=
       ["AIPUUID"; "sipName"; "FILEUUID"; "filePath"; "fileExtension";
        "status"; "indexedAt"; "size"; "FileSize";
        "origin"; "accessionid"; "isPartOf"; "identifiers"; "archivematicaVersion";
        "METS"];
     body_sort := ["FILEUUID"; "filePath.raw"];
     body_search_after := searchAfterField searchAfter;
     body_query := Some aipUUID |}.

(** The page loop of [AIPStats]. *)
Fixpoint scanPages `{GoStd} (es : Index) (index aipUUID : string) (pageSize : Z)
    (pagesLeft page : nat) (searchAfter : slice any) (s : scanState)
    (trace : list exchange) : result scanState * list exchange :=
  match pagesLeft with
  | O => (Ok s, trace)
  | S pagesLeft' =>
      let body := statsBody aipUUID pageSize searchAfter in
      let res := es page index body in
      let trace := trace ++ [(index, body, res)] in
      match res with
      | Err e => (Err e, trace)
      | Ok [] => (Ok s, trace)
      | Ok hits =>
          let s := foldl scanHit s hits in
          let searchAfter := lastSort hits in
          if len searchAfter =? 0 then (Ok s, trace)
          else scanPages es index aipUUID pageSize pagesLeft' (S page) searchAfter s trace
      end
  end.

(** The loop over [basenameCounts]. *)
Definition duplicateGroups (m : gmap string Z) : Z :=
  map_fold (fun _ n acc => if 1 <? n then wrap64 (acc + 1) else acc) 0 m.

Definition duplicateCandidates (m : gmap string Z) : Z :=
  map_fold (fun _ n acc => if 1 <? n then wrap64 (acc + n) else acc) 0 m.

Definition ratio2 (a b : Z) : float64 := round2 (f64_div (f64_of_Z a) (f64_of_Z b)).

(** What [AIPStats] does after the scan loop. *)
Definition finalize `{GoStd} (aipUUID : string) (s : scanState) : AIPStats :=
  let files := sc_FilesTotal s in
  let signatures := Z.of_nat (size (formatSignatureSet s)) in
  let lags := sort_Slice Z.ltb (lagSeconds s) in
  let hasLag := 0 <? Z.of_nat (length (lagSeconds s)) in
  {| st_AIPUUID := aipUUID;
     SIPNames := keysSorted (sipNames s);
     FilesTotal := files;
     UniqueFileUUIDs := Z.of_nat (size (fileUUIDs s));
     OriginalsWithNormalized := sc_OriginalsWithNormalized s;
     OriginalsWithoutNormalized := sc_OriginalsWithoutNormalized s;
     NormalizedRefsTotal := sc_NormalizedRefsTotal s;
     UniqueNormalizedObjectIDs := Z.of_nat (size (normalizedIDs s));
     NormalizedByOriginalAvg :=
       if 0 <? files then ratio2 (sc_NormalizedRefsTotal s) files else f64_zero;
     TotalBytes := sc_TotalBytes s;
     AverageBytes := if 0 <? files then ratio2 (sc_TotalBytes s) files else f64_zero;
     MinIndexedAt := toISO (minIndexedAt s);
     MaxIndexedAt := toISO (maxIndexedAt s);
     MinCreatedByAppDate := toISO (minCreatedByApp s);
     MaxCreatedByAppDate := toISO (maxCreatedByApp s);
     FirstEventDate := toISO (firstEvent s);
     LastEventDate := toISO (lastEvent s);
     StatusCounts := topCounts (statusCounts s) 20;
     OriginCounts := topCounts (originCounts s) 20;
     AccessionIDCounts := topCounts (accessionCounts s) 20;
     IsPartOfCounts := topCounts (isPartOfCounts s) 20;
     ArchivematicaVersionCounts := topCounts (amVersionCounts s) 20;
     FormatRegistryCounts := topCounts (formatRegistryCounts s) 50;
     FormatNameCounts := topCounts (formatNameCounts s) 50;
     FormatVersionCounts := topFormatVersions (formatVersionCounts s) 50;
     PREMISEventTypeCounts := topCounts (premisTypeCounts s) 50;
     PREMISEventOutcomeCounts := topCounts (premisOutcomeCounts s) 50;
     PREMISToolCounts := topCounts (premisToolCounts s) 50;
     MissingIdentifiers := sc_MissingIdentifiers s;
     UnknownFormats := sc_UnknownFormats s;
     MissingCreatedByAppDate := sc_MissingCreatedByAppDate s;
     ExtensionFormatMismatch := sc_ExtensionFormatMismatch s;
     DuplicateFilenameGroups := duplicateGroups (basenameCounts s);
     DuplicateFilenameCandidates := duplicateCandidates (basenameCounts s);
     UniqueFormatSignatures := signatures;
     FormatDiversityRatio := if 0 <? files then ratio2 signatures files else f64_zero;
     IndexedLagAvgSeconds :=
       if hasLag then
         round2 (f64_div (f64_of_Z (foldl (fun total x => wrap64 (total + x)) 0 lags))
                         (f64_of_Z (Z.of_nat (length lags))))
       else f64_zero;
     IndexedLagP95Seconds := if hasLag then percentileInt64 lags 95 else 0;
     LargestFiles := sc_LargestFiles s;
     ExtensionCounts := topCounts (sc_RawExtensionCounts s) 30;
     RawExtensionCounts := sc_RawExtensionCounts s |}.

(** [AIPStats].  The result is paired with the calls made to the index. *)
Definition AIPStats_run `{GoStd} (c : option Client) (es : Index) (index aipUUID : string)
    (pageSize : Z) : result (option AIPStats) * list exchange :=
  if negb (Enabled c) then (Ok None, [])
  else
    let index := defaultIndex index in
    let aipUUID := TrimSpace aipUUID in
    if decide (aipUUID = "") then (Err "aip uuid required", [])
    else
      let pageSize := statsPageSize pageSize in
      match scanPages es index aipUUID pageSize 1000 0 None initScan [] with
      | (Err e, trace) => (Err e, trace)
      | (Ok s, trace) => (Ok (Some (finalize aipUUID s)), trace)
      end.

(** * The client and the HTTP handlers of the AIP routes *)

(** [strings.TrimRight(s, cutset)] for a one-byte cutset. *)
Definition trimRightByte (c : ascii) (s : list ascii) : list ascii :=
  rev (dropByte c (rev s)).

(** [NewClient].  The HTTP client that carries [timeout] is not part of
    the model of [Client]. *)
Definition NewClient (endpoint : string) (timeout : Z) : option Client :=
  Some {| endpoint := b2s (trimRightByte "/" (s2b (TrimSpace endpoint))) |}.

(** [strconv.Atoi]: an optional sign and decimal digits, within the range
    of [int]; [None] when it reports an error. *)
Definition strconv_Atoi (s : string) : option Z :=
  let b := s2b s in
  let '(neg, d) := match b with
                   | c :: r =>
                       if (c =? "-")%char then (true, r)
                       else if (c =? "+")%char then (false, r)
                       else (false, b)
                   | [] => (false, b)
                   end in
  match d with
  | [] => None
  | _ =>
      if forallb isDigit d then
        let v := if neg then - digitsVal d else digitsVal d in
        if (minInt64 <=? v) && (v <=? maxInt64) then Some v else None
      else None
  end.

(** A request as the handlers read it: the URL path and the parsed query
    ([url.Values]). *)
Record Request : Type := {
  req_Path : string;
  req_Query : gmap string (list string)
}.

(** [r.URL.Query().Get(key)]: the first value of the key, or [""]. *)
Definition queryGet (r : Request) (key : string) : string :=
  match req_Query r !! key with
  | Some (v :: _) => v
  | _ => ""
  end.

Definition parseLimit (r : Request) (defaultLimit : Z) : Z :=
  let raw := queryGet r "limit" in
  if decide (raw = "") then defaultLimit
  else
    match strconv_Atoi raw with
    | Some parsed => if (0 <? parsed) && (parsed <=? 1000) then parsed else defaultLimit
    | None => defaultLimit
    end.

(** The series of the application metrics that the AIP routes feed.
    Counters are [uint64]. *)
Record metricSeries : Type := {
  ms_Count : Z;
  ms_Errors : Z;
  ms_DurationSecondsSum : float64
}.

Record Metrics : Type := {
  externalSeries : gmap (string * string) metricSeries;
  dbQuerySeries : gmap (string * string) metricSeries
}.

Definition wrapU64 (z : Z) : Z := z mod 2 ^ 64.

Definition recordInto (key : string * string) (durationSeconds : float64) (failed : bool)
    (series : gmap (string * string) metricSeries) : gmap (string * string) metricSeries :=
  let row := default {| ms_Count := 0; ms_Errors := 0; ms_DurationSecondsSum := f64_zero |}
                     (series !! key) in
  <[key := {| ms_Count := wrapU64 (ms_Count row + 1);
              ms_Errors := if failed then wrapU64 (ms_Errors row + 1) else ms_Errors row;
              ms_DurationSecondsSum := f64_add (ms_DurationSecondsSum row) durationSeconds |}]>
    series.

Definition recordExternalProbe (target operation : string) (durationSeconds : float64)
    (failed : bool) (m : Metrics) : Metrics :=
  if decide (target = "" \/ operation = "") then m
  else {| externalSeries := recordInto (target, operation) durationSeconds failed
                                       (externalSeries m);
          dbQuerySeries := dbQuerySeries m |}.

Definition recordDBQuery (connector operation : string) (durationSeconds : float64)
    (failed : bool) (m : Metrics) : Metrics :=
  if decide (connector = "" \/ operation = "") then m
  else {| externalSeries := externalSeries m;
          dbQuerySeries := recordInto (connector, operation) durationSeconds failed
                                      (dbQuerySeries m) |}.

(** What a handler passes to [writeJSON]: the status code and the
    payload.  [detail] is absent from the error payloads that have none;
    [sb_data] is the [*AIPStats], [None] for nil. *)
Inductive payload (Package : Type) : Type :=
| ErrorBody (error : string) (detail : option string)
| ListBody (index : string) (limit count : Z) (next_cursor : string) (data : list AIPListItem)
| StatsBody (index aip_uuid : string) (data : option AIPStats)
| PackagesBody (aip_uuid : string) (count : Z) (lookup_uuids : list string)
    (packages : list Package).
Arguments ErrorBody {Package} error detail.
Arguments ListBody {Package} index limit count next_cursor data.
Arguments StatsBody {Package} index aip_uuid data.
Arguments PackagesBody {Package} aip_uuid count lookup_uuids packages.

(** The outcome of serving a request: a response, or the run-time panic of
    a nil dereference. *)
Inductive outcome (Package : Type) : Type :=
| Responded (code : Z) (body : payload Package)
| Panicked.
Arguments Responded {Package} code body.
Arguments Panicked {Package}.

Definition esDisabled {Package} : outcome Package :=
  Responded 503 (ErrorBody "elasticsearch integration disabled (set APP_ES_ENABLED=true)" None).

Definition notFound {Package} : outcome Package :=
  Responded 404 (ErrorBody "not found" None).

(** [aipListHandler].  [elapsed] is the duration the handler measures
    around the call of [ListAIPs]; the result is the outcome with the
    metrics after the request and the calls made to the index. *)
Definition aipListHandler {Package} `{GoStd} (defaultLimit : Z) (index : string)
    (esClient : option Client) (es : Index) (elapsed : float64) (r : Request) (m : Metrics)
  : outcome Package * Metrics * list exchange :=
  if negb (Enabled esClient) then (esDisabled, m, [])
  else
    let limit := parseLimit r defaultLimit in
    let cursor := TrimSpace (queryGet r "cursor") in
    let '(res, trace) := ListAIPs esClient es index limit cursor in
    let m := recordExternalProbe "elasticsearch" "ListAIPs" elapsed (isErr res) m in
    match res with
    | Err e =>
        (Responded 502 (ErrorBody "failed to list AIPs from Elasticsearch" (Some e)), m, trace)
    | Ok None => (Panicked, m, trace)
    | Ok (Some res) =>
        (Responded 200 (ListBody index limit (Z.of_nat (length (Items res)))
                                 (NextCursor res) (Items res)), m, trace)
    end.

(** [aipDetailRouter].  [ssStore] is the storage-service lookup,
    [None] for a nil store. *)
Definition aipDetailRouter {Package} `{GoStd} (defaultPageSize : Z) (index : string)
    (esClient : option Client) (es : Index)
    (ssStore : option (list string -> result (list Package)))
    (elapsed : float64) (r : Request) (m : Metrics)
  : outcome Package * Metrics * list exchange :=
  let trimmed := TrimPrefix (req_Path r) "/api/v1/aips/" in
  match splitBytes "/" (trimByte "/" (s2b trimmed)) with
  | [p0; p1] =>
      if decide (p0 = []) then (notFound, m, [])
      else
        let aipUUID := TrimSpace (b2s p0) in
        if decide (b2s p1 = "stats") then
          if negb (Enabled esClient) then (esDisabled, m, [])
          else
            let pageSize := parseLimit r defaultPageSize in
            let '(res, trace) := AIPStats_run esClient es index aipUUID pageSize in
            let m := recordExternalProbe "elasticsearch" "AIPStats" elapsed (isErr res) m in
            match res with
            | Err e =>
                (Responded 502 (ErrorBody ("failed to fetch AIP stats for " +:+ aipUUID)
                                          (Some e)), m, trace)
            | Ok stats => (Responded 200 (StatsBody index aipUUID stats), m, trace)
            end
        else if decide (b2s p1 = "storage-service") then
          match ssStore with
          | None =>
              (Responded 503
                 (ErrorBody "storage service database integration disabled (set APP_SS_DB_ENABLED=true)"
                            None), m, [])
          | Some lookup =>
              let res := lookup [aipUUID] in
              let m := recordDBQuery "ssdb" "LookupPackagesByUUIDs" elapsed (isErr res) m in
              match res with
              | Err e =>
                  (Responded 502
                     (ErrorBody ("failed to fetch storage service packages for " +:+ aipUUID)
                                (Some e)), m, [])
              | Ok packages =>
                  (Responded 200 (PackagesBody aipUUID (Z.of_nat (length packages))
                                               [aipUUID] packages), m, [])
              end
          end
        else (notFound, m, [])
  | _ => (notFound, m, [])
  end.

(** * Vocabulary of the properties and fixtures *)

(** Predicates in which the properties below are stated, and concrete
    indexes on which they are evaluated. *)

(** ** Input validation (limit and page size) *)

(** The statement of C9 as the specification words it: the value in force is
    within range and is the default whenever the request is not. *)
Definition defaultWhenOutOfRange (used : Z -> Z) (dflt max : Z) : Prop :=
  forall req, 1 <= used req <= max /\ (req <= 0 \/ max < req -> used req = dflt).

(** ** Extension/format mismatch *)

(** The registry keys of the static table and the descriptions looked for
    in a format name. *)
Definition knownRegistryKeys : list string :=
  ["fmt/353"; "fmt/11"; "fmt/4"; "fmt/91"; "fmt/43"; "fmt/402"; "x-fmt/392"].

Definition knownDescriptions : list string :=
  ["portable network graphics"; "graphics interchange format";
   "scalable vector graphics"; "jpeg"; "tiff"].

(** ** The full scan *)

(** The hits of all the pages a run fetched, in order. *)
Definition hitsScanned (trace : list exchange) : list searchHit := flat_map hitsOf trace.

(** The counters of the scan state that C4 and C10 speak of, after [k]
    hits. *)
Definition balanced (s : scanState) (k : Z) : Prop :=
  sc_FilesTotal s = k
  /\ 0 <= sc_OriginalsWithNormalized s
  /\ 0 <= sc_OriginalsWithoutNormalized s
  /\ sc_OriginalsWithNormalized s + sc_OriginalsWithoutNormalized s = k.

(** Reading the outcome of a run. *)
Definition returned {A} (r : result (option A)) : bool :=
  match r with Ok (Some _) => true | _ => false end.

(** The fixture of seven hits: files with and without a size, a format, a
    date or an identifier, served as one page that is followed by an empty
    one. *)
Definition fixtureClient : option Client := Some {| endpoint := "http://es:9200" |}.

Definition fileHit (uuid path : string) (fields : list (string * any)) : searchHit :=
  {| hit_ID := uuid;
     hit_Sort := Some [AStr uuid; AStr path];
     hit_Source := list_to_map (("FILEUUID", AStr uuid) :: ("filePath", AStr path) :: fields) |}.

Definition bareHit (uuid : string) : searchHit :=
  {| hit_ID := uuid; hit_Sort := Some [AStr uuid; ANil]; hit_Source := ∅ |}.

Definition sevenHits : list searchHit :=
  [ fileHit "f1" "objects/a.jpg" [("size", AFloat (f64_of_Z 100))];
    fileHit "f2" "objects/b.png" [("FileSize", AStr "50")];
    fileHit "f3" "objects/c.bin" [("size", AFloat (f64_of_Z 10)); ("identifiers", ASlice [AStr "x"])];
    bareHit "f4";
    fileHit "f5" "objects/A.JPG" [];
    fileHit "f6" "" [("status", AStr "original")];
    bareHit "f7" ].

Definition sevenHitIndex : Index :=
  fun k _ _ => match k with O => Ok sevenHits | _ => Ok [] end.

Definition sevenHitRun : result (option AIPStats) * list exchange :=
  AIPStats_run (H := refStd) fixtureClient sevenHitIndex "aips" "aip-1" 0.

(** A METS document with one related (normalized) object. *)
Definition metsWithRelation (id : string) : any :=
  let wrap (k : string) (v : any) : any := AMap {[ k := v ]} in
  wrap "amdSec" (wrap "mets:amdSec_dict" (wrap "mets:techMD_dict" (wrap "mets:mdWrap_dict"
    (wrap "mets:xmlData_dict" (wrap "premis:object_dict" (wrap "premis:relationship_dict"
      (wrap "premis:relatedObjectIdentifier_dict"
        (wrap "premis:relatedObjectIdentifierValue" (AStr id))))))))).

Definition threeOriginals : list searchHit :=
  [ fileHit "f1" "objects/a.tif" [("METS", metsWithRelation "n1")];
    fileHit "f2" "objects/b.tif" [];
    fileHit "f3" "objects/c.tif" [("METS", metsWithRelation " n3 ")] ].

Definition threeOriginalsIndex : Index :=
  fun k _ _ => match k with O => Ok threeOriginals | _ => Ok [] end.

Definition threeOriginalsRun : result (option AIPStats) * list exchange :=
  AIPStats_run (H := refStd) fixtureClient threeOriginalsIndex "" "aip-1" 500.

Definition originalsOf (r : result (option AIPStats)) : Z * Z :=
  match r with
  | Ok (Some stats) => (OriginalsWithNormalized stats, OriginalsWithoutNormalized stats)
  | _ => (0, 0)
  end.

Definition emptyIndex : Index := fun _ _ _ => Ok [].

Definition emptyRun : result (option AIPStats) * list exchange :=
  AIPStats_run (H := refStd) fixtureClient emptyIndex "aipfiles" "aip-0" 500.

Definition filesOf (r : result (option AIPStats)) : Z :=
  match r with Ok (Some stats) => FilesTotal stats | _ => -1 end.

(** ** The listing *)

(** The items collected so far carry distinct ids, all of them recorded in
    [seen]. *)
Definition distinctItems (items : list AIPListItem) (seen : gset string) : Prop :=
  NoDup (map AIPUUID items) /\ forall x, x ∈ map AIPUUID items -> x ∈ seen.

(** An index in which AIP [a] fills most of the first page and AIP [b]
    straddles the first two. *)
Definition aipHit (aip file : string) : searchHit :=
  {| hit_ID := file;
     hit_Sort := Some [AStr aip; AStr file];
     hit_Source := {[ "AIPUUID" := AStr aip; "sipName" := AStr ("sip-" +:+ aip) ]} |}.

Definition repeatingIndex : Index :=
  fun k _ _ =>
    match k with
    | 0%nat => Ok [aipHit "a" "1"; aipHit "a" "2"; aipHit " a " "3"; aipHit "b" "4"]
    | 1%nat => Ok [aipHit "b" "5"; aipHit "c" "6"; aipHit "a" "7"]
    | _ => Ok []
    end.

Definition repeatingRun : result (option AIPListResult) * list exchange :=
  ListAIPs (H := refStd) fixtureClient repeatingIndex "aipfiles" 5 "".

Definition idsOf (r : result (option AIPListResult)) : list string :=
  match r with Ok (Some x) => map AIPUUID (Items x) | _ => [] end.

(** ** The largest files *)

(** What is known of [sort.Slice]: the result is a rearrangement of the
    input, and when [less] is a strict weak order no element of the result
    is less than one that stands before it.  Elements that [less] does not
    tell apart may come out in any order. *)
Record StrictWeak {A} (less : A -> A -> bool) : Prop := {
  sw_asym : forall a b, less a b = true -> less b a = false;
  sw_negtrans : forall a b c, less a c = true -> less a b = true \/ less b c = true
}.

Definition orderedBy {A} (R : A -> A -> Prop) (l : list A) : Prop :=
  forall i j x y, (i < j)%nat -> l !! i = Some x -> l !! j = Some y -> R x y.

Definition notAfter {A} (less : A -> A -> bool) (x y : A) : Prop := less y x = false.

Class SortLaws (std : GoStd) : Prop := {
  sort_perm : forall A (less : A -> A -> bool) l, sort_Slice less l ≡ₚ l;
  sort_sorted : forall A (less : A -> A -> bool) l,
      StrictWeak less -> orderedBy (notAfter less) (sort_Slice less l)
}.

(** The order of [largest_files]: larger size first, and among equal sizes
    the path not after the next one. *)
Definition largestOrdered (a b : AIPFileSample) : Prop :=
  Bytes b < Bytes a \/ (Bytes a = Bytes b /\ String.le (FilePath a) (FilePath b)).

(** The strict form: equal sizes need strictly increasing paths. *)
Definition largestStrictlyOrdered (a b : AIPFileSample) : Prop :=
  Bytes b < Bytes a
  \/ (Bytes a = Bytes b /\ String.le (FilePath a) (FilePath b) /\ FilePath a <> FilePath b).

(** The state of [largest_files] that every insertion re-establishes. *)
Definition largestInvariant (l : list AIPFileSample) : Prop :=
  (length l <= 10)%nat /\ orderedBy largestOrdered l.

(** An AIP with two files of the same size whose documents carry no path. *)
Definition twinHits : list searchHit :=
  [ {| hit_ID := "1"; hit_Sort := Some [AStr "f1"; ANil];
       hit_Source := {[ "FILEUUID" := AStr "f1"; "size" := AFloat (f64_of_Z 5) ]} |};
    {| hit_ID := "2"; hit_Sort := Some [AStr "f2"; ANil];
       hit_Source := {[ "FILEUUID" := AStr "f2"; "size" := AFloat (f64_of_Z 5) ]} |} ].

Definition twinIndex : Index :=
  fun k _ _ => match k with O => Ok twinHits | _ => Ok [] end.

Definition twinRun : result (option AIPStats) * list exchange :=
  AIPStats_run (H := refStd) fixtureClient twinIndex "aipfiles" "aip-1" 500.

Definition largestOf (r : result (option AIPStats)) : list (Z * string) :=
  match r with
  | Ok (Some stats) => map (fun f => (Bytes f, FilePath f)) (LargestFiles stats)
  | _ => []
  end.

(** Twelve files of sizes 1 to 12, some of them equal in size, scanned in
    two pages. *)
Definition sizedHit (uuid path : string) (size : Z) : searchHit :=
  fileHit uuid path [("size", AFloat (f64_of_Z size))].

Definition twelveFilesIndex : Index :=
  fun k _ _ =>
    match k with
    | 0%nat => Ok [sizedHit "01" "objects/a" 3; sizedHit "02" "objects/b" 12;
                   sizedHit "03" "objects/c" 7; sizedHit "04" "objects/d" 7;
                   sizedHit "05" "objects/e" 1; sizedHit "06" "objects/f" 9]
    | 1%nat => Ok [sizedHit "07" "objects/g" 2; sizedHit "08" "objects/h" 11;
                   sizedHit "09" "objects/i" 5; sizedHit "10" "objects/j" 4;
                   sizedHit "11" "objects/a" 7; sizedHit "12" "objects/l" 8]
    | _ => Ok []
    end.

Definition twelveFilesRun : result (option AIPStats) * list exchange :=
  AIPStats_run (H := refStd) fixtureClient twelveFilesIndex "aipfiles" "aip-1" 6.

(** ** The cursor codec: decoding errors *)

(** The bytes of the URL-safe alphabet. *)
Definition isB64 (c : ascii) : bool :=
  match decodeMap c with Some _ => true | None => false end.

(** The two bytes the decoder skips. *)
Definition isNewline (c : ascii) : bool :=
  match c with "010"%char | "013"%char => true | _ => false end.

(** The number of alphabet bytes of a text. *)
Fixpoint b64count (s : list ascii) : nat :=
  match s with
  | [] => 0
  | c :: r => (if isB64 c then 1 else 0) + b64count r
  end.

(** The texts [RawURLEncoding.DecodeString] accepts: alphabet bytes with
    carriage returns and line feeds among them, the alphabet bytes not being
    one more than a multiple of four. *)
Definition base64Lenient (s : list ascii) : Prop :=
  Forall (fun c => isB64 c || isNewline c = true) s /\ (b64count s mod 4 <> 1)%nat.

(** Every number literal of the tree is one [strconv.ParseFloat] accepts. *)
Fixpoint numbersOK `{GoStd} (v : jsyn) : bool :=
  match v with
  | SNum lit => match strconv_ParseFloat (b2s lit) with Some _ => true | None => false end
  | SArr l => forallb numbersOK l
  | SObj l => forallb (fun kv => numbersOK (snd kv)) l
  | _ => true
  end.

(** The JSON texts [Unmarshal] stores into a [[]any]: [null], or an array
    whose number literals are all accepted. *)
Definition cursorPayload `{GoStd} (blob : list ascii) : Prop :=
  parseJSON blob = Some SNull
  \/ exists l, parseJSON blob = Some (SArr l) /\ forallb numbersOK l = true.

(** URL-safe unpadded base64 in the strict sense: alphabet bytes only, and
    a length that is not one more than a multiple of four. *)
Definition strictBase64 (chars : list ascii) : Prop :=
  Forall (fun c => isB64 c = true) chars /\ (length chars mod 4 <> 1)%nat.

(** Valid URL-safe base64 of a JSON array. *)
Definition base64OfJSONArray (t : string) : Prop :=
  strictBase64 (s2b t)
  /\ exists blob l, b64decode (s2b t) = Some blob /\ parseJSON blob = Some (SArr l).

(** The first part of C8 as the claim words it. *)
Definition failsIffNotArray `{GoStd} : Prop :=
  forall cursor,
    isErr (decodeCursor cursor) = true
    <-> TrimSpace cursor <> "" /\ ~ base64OfJSONArray (TrimSpace cursor).

(** ** The cursor codec: round trip *)

(** *** UTF-8 *)

(** The shapes of a well-formed multi-byte sequence. *)
Definition wide2 (b0 b1 : Z) : Prop := 0xC2 <= b0 <= 0xDF /\ 0x80 <= b1 <= 0xBF.

Definition wide3 (b0 b1 b2 : Z) : Prop :=
  0xE0 <= b0 <= 0xEF /\ 0x80 <= b1 <= 0xBF /\ 0x80 <= b2 <= 0xBF
  /\ (b0 = 0xE0 -> 0xA0 <= b1) /\ (b0 = 0xED -> b1 <= 0x9F).

Definition wide4 (b0 b1 b2 b3 : Z) : Prop :=
  0xF0 <= b0 <= 0xF4 /\ 0x80 <= b1 <= 0xBF /\ 0x80 <= b2 <= 0xBF /\ 0x80 <= b3 <= 0xBF
  /\ (b0 = 0xF0 -> 0x90 <= b1) /\ (b0 = 0xF4 -> b1 <= 0x8F).

(** *** JSON strings: unquoting a quoted string *)

Definition scanNext (fuel : nat) (out X : list ascii) : option (list ascii * list ascii) :=
  match scanString fuel X with
  | Some (t, after) => Some (out ++ t, after)
  | None => None
  end.

(** *** JSON numbers: a literal followed by a delimiter *)

(** A byte that cannot continue a number literal. *)
Definition numberStop (c : ascii) : bool :=
  negb (isDigit c || (c =? ".")%char || (c =? "e")%char || (c =? "E")%char
        || (c =? "+")%char || (c =? "-")%char).

(** *** The values of a cursor *)

(** A sort value of a hit as the decoder produced it: [nil], a boolean, a
    string (which the decoder has made well-formed UTF-8) or a finite
    number, for which the library's float text is a JSON number literal that
    reads back as the same float. *)
Definition cursorScalar `{GoStd} (v : any) : Prop :=
  match v with
  | ANil | ABool _ => True
  | AStr s => utf8_Valid (s2b s) = true
  | AFloat f =>
      f64_finite f = true
      /\ scanNumber (s2b (json_floatText f)) = Some (s2b (json_floatText f), [])
      /\ strconv_ParseFloat (json_floatText f) = Some f
  | _ => False
  end.

Definition cursorTuple `{GoStd} (x : slice any) : Prop :=
  match x with
  | None => True
  | Some l => Forall cursorScalar l
  end.

(** The JSON text and the syntax tree of a scalar. *)
Definition scalarText `{GoStd} (v : any) : list ascii :=
  match v with
  | ANil => s2b "null"
  | ABool b => s2b (if b then "true" else "false")
  | AFloat f => s2b (json_floatText f)
  | AStr s => jsonQuote (s2b s)
  | _ => []
  end.

Definition scalarSyntax `{GoStd} (v : any) : jsyn :=
  match v with
  | ABool b => SBool b
  | AFloat f => SNum (s2b (json_floatText f))
  | AStr s => SStr (s2b s)
  | _ => SNull
  end.

(** *** A sample cursor *)

(** The sort tuple of a hit: an AIP UUID, a file name outside ASCII, a
    number and a missing value. *)
Definition sampleTuple : slice any :=
  Some [AStr "5f0c-a1 <x&y>"; AStr "café/élan"; AFloat (f64_of_Z 1700000000000);
        ANil; ABool true].

(** ** The cursor codec: the JSON grammar *)

(** White space between the tokens. *)
Definition jsonWS (s : list ascii) : Prop := Forall (fun c => isWS c = true) s.

Definition allDigits (s : list ascii) : Prop := Forall (fun c => isDigit c = true) s.

(** [number = [ "-" ] int [ frac ] [ exp ]]. *)
Inductive jsonInt : list ascii -> Prop :=
| int_zero : jsonInt ["0"%char]
| int_digits d ds : isDigit d = true -> d <> "0"%char -> allDigits ds -> jsonInt (d :: ds).

Inductive jsonFrac : list ascii -> Prop :=
| frac_none : jsonFrac []
| frac_some d ds : allDigits (d :: ds) -> jsonFrac ("."%char :: d :: ds).

Inductive jsonExp : list ascii -> Prop :=
| exp_none : jsonExp []
| exp_some e sign d ds :
    e = "e"%char \/ e = "E"%char ->
    sign = [] \/ sign = ["+"%char] \/ sign = ["-"%char] ->
    allDigits (d :: ds) ->
    jsonExp (e :: sign ++ d :: ds).

Definition jsonNumber (s : list ascii) : Prop :=
  exists sign int frac exp,
    s = sign ++ int ++ frac ++ exp
    /\ (sign = [] \/ sign = ["-"%char])
    /\ jsonInt int /\ jsonFrac frac /\ jsonExp exp.

Definition isHexDigit (c : ascii) : bool :=
  let b := byteZ c in
  ((0x30 <=? b) && (b <=? 0x39)) || ((0x61 <=? b) && (b <=? 0x66))
  || ((0x41 <=? b) && (b <=? 0x46)).

(** The byte after a backslash in the short escapes. *)
Definition simpleEscape (c : ascii) : bool :=
  match c with
  | "034" | "\" | "/" | "b" | "f" | "n" | "r" | "t" => true
  | _ => false
  end%char.

(** What stands between the quotes of a string: bytes from 0x20 up other
    than the quote and the backslash (the decoder does not ask for
    well-formed UTF-8), short escapes, and [\u] with four hexadecimal
    digits. *)
Inductive jsonChars : list ascii -> Prop :=
| chars_end : jsonChars []
| chars_byte c s :
    0x20 <= byteZ c -> c <> dquote -> c <> "\"%char -> jsonChars s -> jsonChars (c :: s)
| chars_escape e s :
    simpleEscape e = true -> jsonChars s -> jsonChars ("\"%char :: e :: s)
| chars_unicode h0 h1 h2 h3 s :
    isHexDigit h0 = true -> isHexDigit h1 = true ->
    isHexDigit h2 = true -> isHexDigit h3 = true ->
    jsonChars s ->
    jsonChars ("\"%char :: "u"%char :: h0 :: h1 :: h2 :: h3 :: s).

(** [jsonValue fits d s]: [s] is a JSON value whose arrays and objects are
    nested at most [d] deep and whose numbers all satisfy [fits].
    [jsonItems] are the elements of an array that is not empty, separated
    by commas, and [jsonPairs] the members of such an object; white space
    may stand around every element, key and value. *)
Inductive jsonValue (fits : list ascii -> Prop) : nat -> list ascii -> Prop :=
| json_null d : jsonValue fits d (s2b "null")
| json_true d : jsonValue fits d (s2b "true")
| json_false d : jsonValue fits d (s2b "false")
| json_number d lit : jsonNumber lit -> fits lit -> jsonValue fits d lit
| json_string d body : jsonChars body -> jsonValue fits d (dquote :: body ++ [dquote])
| json_array_empty d w : jsonWS w -> jsonValue fits (S d) ("["%char :: w ++ ["]"%char])
| json_array d body :
    jsonItems fits d body -> jsonValue fits (S d) ("["%char :: body ++ ["]"%char])
| json_object_empty d w : jsonWS w -> jsonValue fits (S d) ("{"%char :: w ++ ["}"%char])
| json_object d body :
    jsonPairs fits d body -> jsonValue fits (S d) ("{"%char :: body ++ ["}"%char])
with jsonItems (fits : list ascii -> Prop) : nat -> list ascii -> Prop :=
| items_last d w1 v w2 :
    jsonWS w1 -> jsonValue fits d v -> jsonWS w2 -> jsonItems fits d (w1 ++ v ++ w2)
| items_more d w1 v w2 rest :
    jsonWS w1 -> jsonValue fits d v -> jsonWS w2 -> jsonItems fits d rest ->
    jsonItems fits d (w1 ++ v ++ w2 ++ ","%char :: rest)
with jsonPairs (fits : list ascii -> Prop) : nat -> list ascii -> Prop :=
| pairs_last d w1 k w2 w3 v w4 :
    jsonWS w1 -> jsonChars k -> jsonWS w2 -> jsonWS w3 -> jsonValue fits d v -> jsonWS w4 ->
    jsonPairs fits d (w1 ++ dquote :: k ++ dquote :: w2 ++ ":"%char :: w3 ++ v ++ w4)
| pairs_more d w1 k w2 w3 v w4 rest :
    jsonWS w1 -> jsonChars k -> jsonWS w2 -> jsonWS w3 -> jsonValue fits d v -> jsonWS w4 ->
    jsonPairs fits d rest ->
    jsonPairs fits d (w1 ++ dquote :: k ++ dquote :: w2 ++ ":"%char :: w3 ++ v ++ w4
                      ++ ","%char :: rest).

(** A number literal that [strconv.ParseFloat] accepts. *)
Definition fitsFloat64 `{GoStd} (lit : list ascii) : Prop :=
  is_Some (strconv_ParseFloat (b2s lit)).

(** The JSON texts a cursor may hold: white space, then [null] or an array
    nested at most [maxNestingDepth] deep whose numbers fit a float64, then
    white space. *)
Definition jsonCursorText `{GoStd} (blob : list ascii) : Prop :=
  exists w1 v w2,
    blob = w1 ++ v ++ w2 /\ jsonWS w1 /\ jsonWS w2
    /\ jsonValue fitsFloat64 (Z.to_nat maxNestingDepth) v
    /\ (v = s2b "null" \/ head v = Some "["%char).

(** What the tree of a text tells about the text: [null] is read from the
    literal, an array from a text that opens with a bracket. *)
Definition kindOK (v : jsyn) (text : list ascii) : Prop :=
  match v with
  | SNull => text = s2b "null"
  | SArr _ => head text = Some "["%char
  | _ => True
  end.

Scheme jsonValue_mut := Minimality for jsonValue Sort Prop
  with jsonItems_mut := Minimality for jsonItems Sort Prop
  with jsonPairs_mut := Minimality for jsonPairs Sort Prop.

Combined Scheme json_mutind from jsonValue_mut, jsonItems_mut, jsonPairs_mut.

(** ** The cursor codec: base64 texts *)

(** The six-bit values of the alphabet bytes of a text, in order. *)
Definition sextets (chars : list ascii) : list Z := omap decodeMap chars.

(** The bits of a six-bit value, the highest first. *)
Definition sextetBits (v : Z) : list bool :=
  [Z.testbit v 5; Z.testbit v 4; Z.testbit v 3; Z.testbit v 2; Z.testbit v 1; Z.testbit v 0].

(** Bits taken eight at a time, the highest first; fewer than eight bits at
    the end are dropped. *)
Fixpoint packBytes (bits : list bool) : list ascii :=
  match bits with
  | b7 :: b6 :: b5 :: b4 :: b3 :: b2 :: b1 :: b0 :: r =>
      Ascii b0 b1 b2 b3 b4 b5 b6 b7 :: packBytes r
  | _ => []
  end.

(** The bytes a base64 text stands for. *)
Definition base64Value (chars : list ascii) : list ascii :=
  packBytes (concat (map sextetBits (sextets chars))).

(** The cursors that decode: base64, as the decoder reads it, of a JSON
    text a cursor may hold. *)
Definition cursorText `{GoStd} (t : string) : Prop :=
  base64Lenient (s2b t) /\ jsonCursorText (base64Value (s2b t)).

(** [n] brackets opened and closed: an empty array inside [n - 1] arrays. *)
Definition nestedArrays (n : nat) : list ascii :=
  replicate n "["%char ++ replicate n "]"%char.

(** What may follow a number literal. *)
Definition followsNumber (X : list ascii) : Prop :=
  match X with x :: _ => numberStop x = true | [] => True end.

(** The first byte of a value: not white space and none of the
    punctuation that follows a value. *)
Definition valueHead (c : ascii) : bool :=
  negb (isWS c || (c =? "]")%char || (c =? "}")%char || (c =? ",")%char || (c =? ":")%char).

(** ** Pagination *)

(** Every call but the last was answered with a page that is not empty and
    whose last hit carries sort values, and the call after it asks for what
    follows those values. *)
Definition resumes (trace : list exchange) : Prop :=
  forall i x y,
    trace !! i = Some x -> trace !! S i = Some y ->
    exists hits,
      snd x = Ok hits /\ hits <> [] /\ 0 < len (lastSort hits)
      /\ body_search_after (snd (fst y)) = lastSort hits.

(** The AIP id and the label of a hit, as [ListAIPs] reads them. *)
Definition hitAIP (h : searchHit) : string :=
  TrimSpace (asString (mapIndex (hit_Source h) "AIPUUID")).

Definition hitSIPName (h : searchHit) : string :=
  TrimSpace (asString (mapIndex (hit_Source h) "sipName")).

(** [it] was made from the first of [hits] that carries its id. *)
Definition firstHitOf (hits : list searchHit) (it : AIPListItem) : Prop :=
  exists pre h post,
    hits = pre ++ h :: post
    /\ hitAIP h = AIPUUID it /\ hitSIPName h = SIPName it
    /\ forall h', h' ∈ pre -> hitAIP h' <> AIPUUID it.

(** The listing of [repeatingIndex] with a limit of two: the limit is
    reached on the first page. *)
Definition limitedRun : result (option AIPListResult) * list exchange :=
  ListAIPs (H := refStd) fixtureClient repeatingIndex "aipfiles" 2 "".

(** The sort values of the last hit of the last page fetched. *)
Definition lastSortOf (trace : list exchange) : slice any :=
  match last trace with
  | Some x => lastSort (hitsOf x)
  | None => None
  end.

(** An index that answers the first call and fails on the second. *)
Definition failingIndex : Index :=
  fun k _ _ =>
    match k with
    | 0%nat => Ok [aipHit "a" "1"; aipHit "b" "2"]
    | _ => Err "elasticsearch status=503 body=unavailable"
    end.

Definition failingRun : result (option AIPListResult) * list exchange :=
  ListAIPs (H := refStd) fixtureClient failingIndex "aipfiles" 10 "".

(** A scan of two pages whose third call fails. *)
Definition brokenScanIndex : Index :=
  fun k _ _ =>
    match k with
    | 0%nat => Ok [fileHit "f1" "objects/a.tif" []]
    | 1%nat => Ok [fileHit "f2" "objects/b.tif" []]
    | _ => Err "elasticsearch status=502 body="
    end.

Definition brokenScanRun : result (option AIPStats) * list exchange :=
  AIPStats_run (H := refStd) fixtureClient brokenScanIndex "aipfiles" " aip-1 " 1.

(** The state of the listing after the hits [done] have been looked at:
    every item comes from the first hit with its id, and, as long as the
    limit has not been reached, every id looked at has been recorded. *)
Definition listedFrom (limit : Z) (done : list searchHit) (items : list AIPListItem)
    (seen : gset string) : Prop :=
  (forall it, it ∈ items -> AIPUUID it <> "" /\ firstHitOf done it)
  /\ (Z.of_nat (length items) < limit ->
      forall h, h ∈ done -> hitAIP h <> "" -> hitAIP h ∈ seen).

(** ** Counters of the full scan *)

(** The sum of the counts of a bucket map. *)
Definition sumCounts (m : gmap string Z) : Z := map_fold (fun _ v acc => v + acc) 0 m.

(** The counters that a hit moves by at most one, after [k] hits. *)
Definition tallied (s : scanState) (k : Z) : Prop :=
  sc_FilesTotal s = k
  /\ 0 <= sc_MissingIdentifiers s <= k
  /\ 0 <= sc_UnknownFormats s <= k
  /\ 0 <= sc_MissingCreatedByAppDate s <= k
  /\ 0 <= sc_ExtensionFormatMismatch s <= k
  /\ Z.of_nat (size (fileUUIDs s)) <= k
  /\ Z.of_nat (size (formatSignatureSet s)) <= k
  /\ Z.of_nat (size (sipNames s)) <= k
  /\ sumCounts (sc_RawExtensionCounts s) = k
  /\ (forall ext n, sc_RawExtensionCounts s !! ext = Some n -> 1 <= n).

(** ** Sizes of the files of a scan *)

(** The size [AIPStats] takes for a hit: the PREMIS size of the METS
    document, else the [size] field, else the [FileSize] field. *)
Definition hitSize `{GoStd} (h : searchHit) : Z :=
  let src := hit_Source h in
  let size := om_size (extractObjectMeta (mapIndex src "METS")) in
  let size := if size <=? 0 then int64_of_f64 (asFloat (mapIndex src "size")) else size in
  if size <=? 0 then int64_of_f64 (asFloat (mapIndex src "FileSize")) else size.

(** The row [AIPStats] offers to the largest-files list for a hit of
    positive size. *)
Definition hitSample `{GoStd} (h : searchHit) : option AIPFileSample :=
  let src := hit_Source h in
  let meta := extractObjectMeta (mapIndex src "METS") in
  if 0 <? hitSize h then
    Some {| FilePath := srcString src "filePath";
            FileUUID := srcString src "FILEUUID";
            Bytes := hitSize h;
            Extension := extFromPath (asString (mapIndex src "filePath"));
            FormatRegistryKey := om_regKey meta;
            FormatName := om_formatName meta;
            Status := srcString src "status";
            CreatedByAppDate := toISO (om_createdByApp meta);
            IndexedAt := toISO (parseIndexedAt (mapIndex src "indexedAt")) |}
  else None.

Definition sumBytes (l : list AIPFileSample) : Z := foldr (fun f acc => Bytes f + acc) 0 l.

(** [kept] holds the largest of [all]: what is left out is no larger than
    anything kept, and nothing is left out while there is room. *)
Definition keepsLargest (all kept : list AIPFileSample) : Prop :=
  exists rest,
    all ≡ₚ kept ++ rest
    /\ (length kept <= 10)%nat
    /\ (rest <> [] -> length kept = 10%nat)
    /\ forall x y, x ∈ rest -> y ∈ kept -> Bytes x <= Bytes y.

(** ** Orders of the sorted outputs *)

(** Strictly ascending strings. *)
Definition ascending (a b : string) : Prop := String.ltb a b = true.

(** The order of a count list: larger count first, equal counts by
    strictly ascending key. *)
Definition rankedBefore (a b : KeyCount) : Prop :=
  Count b < Count a \/ (Count a = Count b /\ ascending (Key a) (Key b)).

(** ** Buckets of the full scan *)

(** The number of [hits] whose field [f] reads [k]. *)
Definition countOf (f : searchHit -> string) (hits : list searchHit) (k : string) : Z :=
  Z.of_nat (length (filter (fun h => f h = k) hits)).

(** A bucket map fed with the field [f] of every hit, blank values left
    out. *)
Definition tally (f : searchHit -> string) (m : gmap string Z) (hits : list searchHit)
  : gmap string Z :=
  foldl (fun m h => incrIf (f h) m) m hits.

(** The fields of a hit that [AIPStats] counts one value per file. *)
Definition hitField (k : string) (h : searchHit) : string := srcString (hit_Source h) k.

Definition hitRegistryKey `{GoStd} (h : searchHit) : string :=
  om_regKey (extractObjectMeta (mapIndex (hit_Source h) "METS")).

Definition hitFormatName `{GoStd} (h : searchHit) : string :=
  om_formatName (extractObjectMeta (mapIndex (hit_Source h) "METS")).

(** Every entry of [out] has a key that is not blank and counts the hits
    whose field [f] reads that key. *)
Definition countsExactly (f : searchHit -> string) (hits : list searchHit)
    (out : list KeyCount) : Prop :=
  forall kc, kc ∈ out ->
             Key kc <> "" /\ 1 <= Count kc /\ Count kc = countOf f hits (Key kc).

Definition statusOf (r : result (option AIPStats)) : list (string * Z) :=
  match r with
  | Ok (Some stats) => map (fun kc => (Key kc, Count kc)) (StatusCounts stats)
  | _ => []
  end.

(** The ids of the normalized objects a hit refers to. *)
Definition hitRels `{GoStd} (h : searchHit) : list string :=
  extractNormalizedObjectIDs (mapIndex (hit_Source h) "METS").

(** Three files of two SIPs. *)
Definition namedHits : list searchHit :=
  [ fileHit "f1" "objects/a.tif" [("sipName", AStr "b-sip")];
    fileHit "f2" "objects/b.tif" [("sipName", AStr " a-sip ")];
    fileHit "f3" "objects/c.tif" [("sipName", AStr "b-sip"); ("METS", metsWithRelation "n1")];
    fileHit "f4" "objects/d.tif" [("sipName", AStr "  "); ("METS", metsWithRelation "n1")] ].

Definition namedIndex : Index :=
  fun k _ _ => match k with O => Ok namedHits | _ => Ok [] end.

Definition namedRun : result (option AIPStats) * list exchange :=
  AIPStats_run (H := refStd) fixtureClient namedIndex "aipfiles" "aip-1" 500.

Definition sipNamesOf (r : result (option AIPStats)) : list string :=
  match r with Ok (Some stats) => SIPNames stats | _ => [] end.

Definition refsOf (r : result (option AIPStats)) : Z * Z :=
  match r with
  | Ok (Some stats) => (NormalizedRefsTotal stats, UniqueNormalizedObjectIDs stats)
  | _ => (0, 0)
  end.

(** ** Percentiles *)

(** The nearest-rank index of the percentile [p] in [n > 0] samples:
    [floor((n - 1) * p / 100)] between the two ends. *)
Definition percentileIndex (n p : Z) : Z :=
  if p <=? 0 then 0 else if 100 <=? p then n - 1 else (n - 1) * p / 100.

(** The float64 of a positive integer below 2^53: a mantissa of 53 bits
    and the exponent that goes with it. *)
Definition reprInt (f : float64) (z : Z) : Prop :=
  exists M e, f = S754_finite false M e
              /\ 2 ^ 52 <= Z.pos M < 2 ^ 53 /\ -52 <= e <= 0 /\ Z.pos M = z * 2 ^ (- e).

(** C2 as the claim words it: on every non-empty ascending slice, whatever
    its length. *)
Definition nearestRankOnEverySlice : Prop :=
  forall (sorted : list Z) (p : Z),
    sorted <> [] -> Sorted Z.le sorted -> 0 < p < 100 ->
    sorted !! Z.to_nat ((Z.of_nat (length sorted) - 1) * p / 100)
    = Some (percentileInt64 sorted p).

(** The length of a slice on which the rank computed on float64 is one
    below the quotient: [float64(2^53 + 1)] is [2^53]. *)
Definition longSlice : Z := 2 ^ 53 + 2.

(** ** Format versions *)

(** The key under which [AIPStats] counts a format version: registry key,
    name and version joined by the unit separator. *)
Definition formatSignature (regKey formatName formatVersion : string) : string :=
  regKey +:+ String unitSep "" +:+ formatName +:+ String unitSep "" +:+ formatVersion.

(** The row [topFormatVersions] makes of a map entry. *)
Definition formatVersionRow (kv : string * Z) : AIPFormatVersionCount :=
  let parts := splitN3 unitSep (s2b (fst kv)) in
  {| fv_FormatRegistryKey := b2s (nth 0 parts []);
     fv_FormatName := b2s (nth 1 parts []);
     fv_FormatVersion := b2s (nth 2 parts []);
     fv_Count := snd kv |}.

(** ** Paths *)

(** A byte that is ASCII and not white space. *)
Definition plainByte (c : ascii) : bool := isASCII c && negb (asciiSpace c).

(** [dir] and [name] are the two parts of the path [p]: [name] is what
    follows the last separator, [dir] what comes before, separator
    included. *)
Definition lastComponent (p dir name : list ascii) : Prop :=
  p = dir ++ name
  /\ ("/"%char ∉ name) /\ ("\"%char ∉ name)
  /\ (dir = [] \/ exists d s, dir = d ++ [s] /\ (s = "/"%char \/ s = "\"%char)).

Definition samplePath : string := " objects/sub dir/ Scan.01. TIF ".

(** ** Cursor texts *)

(** A sort value that is not a list or an object. *)
Definition scalarValue (v : any) : Prop :=
  match v with
  | ASlice _ | AMap _ => False
  | _ => True
  end.

(** A number that JSON cannot express. *)
Definition nonFinite (v : any) : Prop :=
  match v with
  | AFloat f => f64_finite f = false
  | _ => False
  end.

(** ** Dates of the full scan *)

Definition hitIndexedAt `{GoStd} (h : searchHit) : Time :=
  parseIndexedAt (mapIndex (hit_Source h) "indexedAt").

Definition hitCreated `{GoStd} (h : searchHit) : Time :=
  om_createdByApp (extractObjectMeta (mapIndex (hit_Source h) "METS")).

Definition hitEvents `{GoStd} (h : searchHit) : list Time :=
  om_eventDates (extractObjectMeta (mapIndex (hit_Source h) "METS")).

(** The dates that count: those that are not the zero time. *)
Definition setDates (l : list Time) : list Time := filter (fun t => IsZero t = false) l.

(** [first] and [last] are the earliest and the latest of [dates], or both
    the zero time when there is none. *)
Definition extremes (dates : list Time) (first last : Time) : Prop :=
  (dates = [] /\ first = zeroTime /\ last = zeroTime)
  \/ (first ∈ dates /\ last ∈ dates
      /\ forall t, t ∈ dates -> Before t first = false /\ After t last = false).

Definition earliest (dates : list Time) : Time := foldl earlier zeroTime dates.
Definition latest (dates : list Time) : Time := foldl later zeroTime dates.

(** Files indexed at different times, one of them without a time.  The
    last time is so large that its seconds wrap around when [time.Unix]
    moves them to the internal epoch, which makes it the earliest. *)
Definition datedHits : list searchHit :=
  [ fileHit "f1" "objects/a.tif" [("indexedAt", AFloat (f64_of_Z 1700000000))];
    fileHit "f2" "objects/b.tif" [("indexedAt", AStr "1600000000")];
    fileHit "f3" "objects/c.tif" [];
    fileHit "f4" "objects/d.tif" [("indexedAt", AFloat (f64_of_Z 1650000000))];
    fileHit "f5" "objects/e.tif" [("indexedAt", AFloat (f64_of_Z (2 ^ 63 - 1024)))] ].

Definition datedIndex : Index :=
  fun k _ _ => match k with O => Ok datedHits | _ => Ok [] end.

Definition datedRun : result (option AIPStats) * list exchange :=
  AIPStats_run (H := refStd) fixtureClient datedIndex "aipfiles" "aip-1" 500.

(** The first four of these files, their dates printed. *)
Definition calendarIndex : Index :=
  fun k _ _ => match k with O => Ok (take 4 datedHits) | _ => Ok [] end.

Definition calendarRun : result (option AIPStats) * list exchange :=
  AIPStats_run (H := isoStd) fixtureClient calendarIndex "aipfiles" "aip-1" 500.

(** ** Flags of a file *)

(** The number of hits with the flag [b]. *)
Definition countIf (b : searchHit -> bool) (hits : list searchHit) : Z :=
  Z.of_nat (length (filter (fun h => b h = true) hits)).

Definition missesIdentifiers (h : searchHit) : bool :=
  countAnyItems (mapIndex (hit_Source h) "identifiers") =? 0.

Definition formatUnknown `{GoStd} (h : searchHit) : bool :=
  bool_decide (hitRegistryKey h = "" /\ hitFormatName h = "").

Definition missesCreated `{GoStd} (h : searchHit) : bool := IsZero (hitCreated h).

(** The extension [AIPStats] compares with the format: the [fileExtension]
    field, else the extension of the path. *)
Definition hitRawExt `{GoStd} (h : searchHit) : string :=
  let rawExt := ToLower (TrimSpace (asString (mapIndex (hit_Source h) "fileExtension"))) in
  if decide (rawExt = "") then extFromPath (asString (mapIndex (hit_Source h) "filePath"))
  else rawExt.

Definition hitMismatch `{GoStd} (h : searchHit) : bool :=
  mismatchByFormat (hitRegistryKey h) (hitFormatName h) (hitRawExt h).

Definition isNormalized `{GoStd} (h : searchHit) : bool :=
  0 <? Z.of_nat (length (hitRels h)).

Definition flagsOf (r : result (option AIPStats)) : list Z :=
  match r with
  | Ok (Some stats) =>
      [MissingIdentifiers stats; UnknownFormats stats; MissingCreatedByAppDate stats;
       ExtensionFormatMismatch stats]
  | _ => []
  end.

(** ** Duplicate file names *)

(** The file-name counts after [k] hits: at most one count per hit. *)
Definition basenamesTallied (s : scanState) (k : Z) : Prop :=
  sumCounts (basenameCounts s) <= k
  /\ forall name n, basenameCounts s !! name = Some n -> 1 <= n.

Definition duplicatesOf (r : result (option AIPStats)) : Z * Z :=
  match r with
  | Ok (Some stats) => (DuplicateFilenameGroups stats, DuplicateFilenameCandidates stats)
  | _ => (0, 0)
  end.

(** ** Tool versions *)

(** Text that a pair of double quotes can hold in an event detail: no
    semicolon, and no double quote at either end. *)
Definition quotable (w : list ascii) : Prop :=
  (";"%char ∉ w) /\ head w <> Some dquote /\ last w <> Some dquote.

Definition sampleProgram : list ascii := s2b "ClamAV (clamd)".
Definition sampleVersion : list ascii := s2b "ClamAV 0.102.2".

(** The event detail that gives the program and the version, each in
    double quotes, after [program=] and [version=]. *)
Definition toolDetail (program version : list ascii) : string :=
  b2s (s2b "program=" ++ dquote :: program ++ dquote :: s2b "; version="
       ++ dquote :: version ++ [dquote]).

(** ** Distinct values *)

(** The values of a field over the hits, blanks left out. *)
Definition fieldValues (k : string) (hits : list searchHit) : list string :=
  filter (fun x => x <> "") (map (hitField k) hits).

(** ** The HTTP routes *)

(** The count and error counters of a series, 0 when the series does not
    exist yet. *)
Definition seriesCount (series : gmap (string * string) metricSeries) (key : string * string)
  : Z :=
  match series !! key with Some row => ms_Count row | None => 0 end.

Definition seriesErrors (series : gmap (string * string) metricSeries) (key : string * string)
  : Z :=
  match series !! key with Some row => ms_Errors row | None => 0 end.

Definition responseCode {Package} (o : outcome Package) : Z :=
  match o with Responded code _ => code | Panicked => 0 end.

(** The path of the statistics of an AIP. *)
Definition statsPath (id : list ascii) : string :=
  b2s (s2b "/api/v1/aips/" ++ id ++ s2b "/stats").

(** ** Sample tables *)

Definition sampleCounts : gmap string Z := {[ "tiff" := 2; "pdf" := 5; "xml" := 2 ]}.

Definition sampleVersionCounts : gmap string Z :=
  {[ formatSignature "fmt/353" "TIFF" "6.0" := 3; formatSignature "fmt/18" "PDF" "1.4" := 1 ]}.

(** * Properties *)

(** ** Machine integers *)

Lemma wrap64_id z : minInt64 <= z <= maxInt64 -> wrap64 z = z.
Proof.
  unfold wrap64, minInt64, maxInt64. intros Hz.
  rewrite Z.mod_small; lia.
Qed.

(** ** Input validation (limit and page size) *)

Lemma listLimit_range limit : 1 <= listLimit limit <= 500.
Proof. unfold listLimit. repeat case_match; lia. Qed.

Lemma statsPageSize_range pageSize : 1 <= statsPageSize pageSize <= 2000.
Proof. unfold statsPageSize. repeat case_match; lia. Qed.

(** Every call [listPages] makes asks for three times the limit. *)
Lemma listPages_sizes es index limit pagesLeft page st trace :
  Forall (fun x => body_size (snd (fst x)) = limit * 3) trace ->
  Forall (fun x => body_size (snd (fst x)) = limit * 3)
         (snd (listPages es index limit pagesLeft page st trace)).
Proof.
  revert page st trace.
  induction pagesLeft as [|n IH]; intros page st trace Htr; cbn [listPages]; [done|].
  case_match; [|done].
  assert (Forall (fun x => body_size (snd (fst x)) = limit * 3)
            (trace ++ [(index, listBody limit (ls_searchAfter st),
                        es page index (listBody limit (ls_searchAfter st)))])) as Htr'.
  { apply Forall_app. split; [done|]. by constructor. }
  destruct (es page index (listBody limit (ls_searchAfter st))) as [[|h hits]|e]; try done.
  destruct (drainListHits limit (h :: hits) (ls_items st) (ls_seen st)) as [items seen].
  case_match; [done|]. by apply IH.
Qed.

(** Every call [scanPages] makes asks for the page size. *)
Lemma scanPages_sizes `{GoStd} es index aip pageSize pagesLeft page sa s trace :
  Forall (fun x => body_size (snd (fst x)) = pageSize) trace ->
  Forall (fun x => body_size (snd (fst x)) = pageSize)
         (snd (scanPages es index aip pageSize pagesLeft page sa s trace)).
Proof.
  revert page sa s trace.
  induction pagesLeft as [|n IH]; intros page sa s trace Htr; cbn [scanPages]; [done|].
  assert (Forall (fun x => body_size (snd (fst x)) = pageSize)
            (trace ++ [(index, statsBody aip pageSize sa,
                        es page index (statsBody aip pageSize sa))])) as Htr'.
  { apply Forall_app. split; [done|]. by constructor. }
  destruct (es page index (statsBody aip pageSize sa)) as [[|h hits]|e]; try done.
  case_match; [done|]. by apply IH.
Qed.

(** C9, as stated, fails: a listing limit of 501 is out of range and is
    replaced by the maximum 500, not by the default 100 (and a page size of
    2001 by 2000, not 500). *)
Lemma limit_above_max_is_not_defaulted :
  ~ defaultWhenOutOfRange listLimit 100 500 /\
  ~ defaultWhenOutOfRange statsPageSize 500 2000.
Proof.
  split; intros Hc.
  - destruct (Hc 501) as [_ Hd]. specialize (Hd (or_intror eq_refl)). discriminate Hd.
  - destruct (Hc 2001) as [_ Hd]. specialize (Hd (or_intror eq_refl)). discriminate Hd.
Qed.

(** C9 (amended).  The listing limit and the full-scan page size in force
    lie in [[1, 500]] and [[1, 2000]]; a request of at most 0 is replaced by
    the default (100, 500), a request above the maximum by the maximum, and
    a request in range is kept.  The value in force is the one every query
    of the run carries: three times the limit for a listing, the page size
    for a full scan. *)
Theorem limits_clamped_with_default :
  (forall limit,
      1 <= listLimit limit <= 500
      /\ (limit <= 0 -> listLimit limit = 100)
      /\ (500 < limit -> listLimit limit = 500)
      /\ (1 <= limit <= 500 -> listLimit limit = limit))
  /\ (forall pageSize,
      1 <= statsPageSize pageSize <= 2000
      /\ (pageSize <= 0 -> statsPageSize pageSize = 500)
      /\ (2000 < pageSize -> statsPageSize pageSize = 2000)
      /\ (1 <= pageSize <= 2000 -> statsPageSize pageSize = pageSize))
  /\ (forall (std : GoStd) c es index limit cursor,
      Forall (fun x => body_size (snd (fst x)) = listLimit limit * 3)
             (snd (ListAIPs c es index limit cursor)))
  /\ (forall (std : GoStd) c es index aipUUID pageSize,
      Forall (fun x => body_size (snd (fst x)) = statsPageSize pageSize)
             (snd (AIPStats_run c es index aipUUID pageSize))).
Proof.
  repeat split; try (unfold listLimit, statsPageSize; repeat case_match; lia).
  - intros std c es index limit cursor.
    unfold ListAIPs. case_match; [constructor|].
    destruct (decodeCursor cursor) as [sa|e]; [|constructor].
    pose proof (listPages_sizes es (defaultIndex index) (listLimit limit) 10 0
      {| ls_items := []; ls_seen := ∅; ls_nextSort := None; ls_searchAfter := sa |} []
      (Forall_nil_2 _)) as Hs.
    destruct (listPages _ _ _ _ _ _ _) as [[st|e] trace]; exact Hs.
  - intros std c es index aipUUID pageSize.
    unfold AIPStats_run. case_match; [constructor|].
    case_match; [constructor|].
    pose proof (scanPages_sizes es (defaultIndex index) (TrimSpace aipUUID)
      (statsPageSize pageSize) 1000 0 None initScan [] (Forall_nil_2 _)) as Hs.
    destruct (scanPages _ _ _ _ _ _ _ _ _) as [[s|e] trace]; exact Hs.
Qed.

(** ** Percentiles *)

(** *** float64: integers below 2^53 and their quotient by 100 *)

Lemma digits2_pos_bounds m :
  2 ^ (Z.pos (digits2_pos m) - 1) <= Z.pos m < 2 ^ Z.pos (digits2_pos m).
Proof.
  induction m as [m IH|m IH|]; cbn [digits2_pos]; [| |simpl; lia].
  - rewrite Pos2Z.inj_succ. set (d := Z.pos (digits2_pos m)) in *.
    replace (Z.succ d - 1) with d by lia.
    assert (2 ^ d = 2 * 2 ^ (d - 1)) as Hd.
    { replace d with (Z.succ (d - 1)) at 1 by lia. apply Z.pow_succ_r. lia. }
    rewrite Z.pow_succ_r by lia. lia.
  - rewrite Pos2Z.inj_succ. set (d := Z.pos (digits2_pos m)) in *.
    replace (Z.succ d - 1) with d by lia.
    assert (2 ^ d = 2 * 2 ^ (d - 1)) as Hd.
    { replace d with (Z.succ (d - 1)) at 1 by lia. apply Z.pow_succ_r. lia. }
    rewrite Z.pow_succ_r by lia. lia.
Qed.

Lemma digits2_pos_unique m d :
  2 ^ (d - 1) <= Z.pos m < 2 ^ d -> Z.pos (digits2_pos m) = d.
Proof.
  intros [Hlo Hhi]. pose proof (digits2_pos_bounds m) as [Hlo' Hhi'].
  assert (0 < d) as Hd.
  { destruct (Z.ltb_spec 0 d); [done|]. exfalso.
    destruct (Z.eqb_spec d 0) as [->|]; [simpl in Hhi; lia|].
    rewrite Z.pow_neg_r in Hhi by lia. lia. }
  assert (d - 1 < Z.pos (digits2_pos m)) as H1.
  { apply (Z.pow_lt_mono_r_iff 2); lia. }
  assert (Z.pos (digits2_pos m) - 1 < d) as H2.
  { apply (Z.pow_lt_mono_r_iff 2); lia. }
  lia.
Qed.

Lemma iter_pos_nat {A} (f : A -> A) p x :
  SpecFloat.iter_pos f p x = Nat.iter (Pos.to_nat p) f x.
Proof.
  revert x. induction p as [p IH|p IH|]; intros x; cbn [SpecFloat.iter_pos]; [| |done].
  - rewrite !IH, Pos2Nat.inj_xI.
    replace (2 * Pos.to_nat p)%nat with (Pos.to_nat p + Pos.to_nat p)%nat by lia.
    by rewrite Nat.iter_succ_r, Nat.iter_add.
  - rewrite !IH, Pos2Nat.inj_xO.
    replace (2 * Pos.to_nat p)%nat with (Pos.to_nat p + Pos.to_nat p)%nat by lia.
    by rewrite Nat.iter_add.
Qed.

Lemma shr_1_even x :
  0 <= x ->
  shr_1 {| shr_m := 2 * x; shr_r := false; shr_s := false |}
  = {| shr_m := x; shr_r := false; shr_s := false |}.
Proof. intros Hx. destruct x as [|x|x]; [done|done|lia]. Qed.

Lemma shr_exact n x :
  0 <= x ->
  Nat.iter n shr_1 {| shr_m := x * 2 ^ Z.of_nat n; shr_r := false; shr_s := false |}
  = {| shr_m := x; shr_r := false; shr_s := false |}.
Proof.
  revert x. induction n as [|n IH]; intros x Hx.
  - simpl. by rewrite Z.mul_1_r.
  - rewrite Nat.iter_succ. rewrite Nat2Z.inj_succ, Z.pow_succ_r by lia.
    replace (x * (2 * 2 ^ Z.of_nat n)) with (2 * x * 2 ^ Z.of_nat n) by lia.
    rewrite IH by lia. by apply shr_1_even.
Qed.

Lemma shr_shift x e j :
  0 <= x -> 0 <= j ->
  shr {| shr_m := x * 2 ^ j; shr_r := false; shr_s := false |} e j
  = ({| shr_m := x; shr_r := false; shr_s := false |}, e + j).
Proof.
  intros Hx Hj. destruct j as [|j|j]; [|clear Hj|lia].
  - simpl. by rewrite Z.mul_1_r, Z.add_0_r.
  - cbn [shr]. rewrite iter_pos_nat. f_equal.
    rewrite <- (positive_nat_Z j) at 1. by apply shr_exact.
Qed.

Lemma Zdigits2_unique x d : 0 < x -> 2 ^ (d - 1) <= x < 2 ^ d -> Zdigits2 x = d.
Proof.
  intros Hx Hd. destruct x as [|x|x]; [lia| |lia]. cbn [Zdigits2].
  by apply digits2_pos_unique.
Qed.

Lemma fexp64 x : -1021 <= x -> fexp 53 1024 x = x - 53.
Proof. intros Hx. unfold fexp, emin. lia. Qed.

(** Rounding a value that fits the format gives the value. *)
Lemma round_exact M j e :
  2 ^ 52 <= Z.pos M < 2 ^ 53 -> 0 <= j -> -1074 <= e <= 971 ->
  binary_round_aux 53 1024 false (Z.pos M * 2 ^ j) (e - j) loc_Exact = S754_finite false M e.
Proof.
  intros HM Hj He. unfold binary_round_aux, shr_fexp.
  assert (0 < 2 ^ j) as Hpow by (apply Z.pow_pos_nonneg; lia).
  rewrite (Zdigits2_unique (Z.pos M * 2 ^ j) (53 + j)).
  2:{ nia. }
  2:{ replace (53 + j - 1) with (52 + j) by lia. rewrite !Z.pow_add_r by lia. nia. }
  replace (fexp 53 1024 (53 + j + (e - j)) - (e - j)) with j by (unfold fexp, emin; lia).
  cbn [shr_record_of_loc]. rewrite shr_shift by lia.
  cbn [shr_m loc_of_shr_record round_nearest_even].
  rewrite (Zdigits2_unique (Z.pos M) 53) by (simpl; lia).
  replace (fexp 53 1024 (53 + (e - j + j)) - (e - j + j)) with 0 by (unfold fexp, emin; lia).
  cbn [shr shr_m shr_record_of_loc].
  replace (e - j + j) with e by lia.
  destruct (Z.leb_spec e (1024 - 53)); [done|lia].
Qed.

Lemma Pos_iter_xO p k : Z.pos (Pos.iter xO p k) = Z.pos p * 2 ^ Z.pos k.
Proof.
  induction k as [|k IH] using Pos.peano_ind.
  - simpl. lia.
  - rewrite Pos.iter_succ, Pos2Z.inj_xO, IH, Pos2Z.inj_succ, Z.pow_succ_r by lia. lia.
Qed.

Lemma digits_exist z : 0 < z < 2 ^ 53 -> exists d, 1 <= d <= 53 /\ 2 ^ (d - 1) <= z < 2 ^ d.
Proof.
  intros Hz. exists (Z.log2 z + 1).
  pose proof (Z.log2_spec z ltac:(lia)) as [Hlo Hhi].
  pose proof (Z.log2_nonneg z).
  replace (Z.log2 z + 1 - 1) with (Z.log2 z) by lia.
  replace (Z.succ (Z.log2 z)) with (Z.log2 z + 1) in Hhi by lia.
  split; [|done]. split; [lia|].
  assert (Z.log2 z < 53); [|lia].
  apply (Z.pow_lt_mono_r_iff 2); lia.
Qed.

Lemma f64_of_Z_int z : 0 < z < 2 ^ 53 -> reprInt (f64_of_Z z) z.
Proof.
  intros Hz. destruct (digits_exist z Hz) as (d & Hd & Hzd).
  destruct z as [|zp|zp]; [lia| |lia].
  unfold f64_of_Z, binary_normalize, binary_round.
  rewrite (digits2_pos_unique zp d) by done.
  replace (fexp 53 1024 (d + 0)) with (d - 53) by (unfold fexp, emin; lia).
  unfold shl_align.
  assert (0 < 2 ^ (53 - d)) as Hpow by (apply Z.pow_pos_nonneg; lia).
  assert (2 ^ (d - 1) * 2 ^ (53 - d) = 2 ^ 52) as Hlo.
  { rewrite <- Z.pow_add_r by lia. f_equal. lia. }
  assert (2 ^ d * 2 ^ (53 - d) = 2 ^ 53) as Hhi.
  { rewrite <- Z.pow_add_r by lia. f_equal. lia. }
  destruct (d - 53 - 0) as [|k|k] eqn:Hk; [|lia|].
  - assert (d = 53) as -> by lia.
    pose proof (round_exact zp 0 0 ltac:(simpl in *; lia) ltac:(lia) ltac:(lia)) as Hr.
    rewrite Z.mul_1_r in Hr. change (0 - 0) with 0 in Hr. change (53 - 53) with 0.
    rewrite Hr. exists zp, 0. repeat split; simpl in *; lia.
  - assert (53 - d = Z.pos k) as Hkd by lia.
    pose proof (Pos_iter_xO zp k) as Hit. rewrite <- Hkd in Hit.
    pose proof (round_exact (Pos.iter xO zp k) 0 (d - 53) ltac:(nia) ltac:(lia) ltac:(lia)) as Hr.
    rewrite Z.mul_1_r, Z.sub_0_r in Hr. rewrite Hr.
    exists (Pos.iter xO zp k), (d - 53). repeat split; try lia; try nia.
    rewrite Hit. f_equal. f_equal. lia.
Qed.

Lemma f64_mul_int fa fb a b :
  reprInt fa a -> reprInt fb b -> 0 < a * b < 2 ^ 53 -> reprInt (f64_mul fa fb) (a * b).
Proof.
  intros (Ma & ea & -> & HMa & Hea & Ha) (Mb & eb & -> & HMb & Heb & Hb) Hm.
  destruct (digits_exist (a * b) Hm) as (d & Hd & Hmd).
  unfold f64_mul, SFmul. cbn [xorb]. rewrite Pos2Z.inj_mul.
  assert (0 < 2 ^ (53 - d)) as Hpow by (apply Z.pow_pos_nonneg; lia).
  assert (2 ^ (d - 1) * 2 ^ (53 - d) = 2 ^ 52) as Hlo.
  { rewrite <- Z.pow_add_r by lia. f_equal. lia. }
  assert (2 ^ d * 2 ^ (53 - d) = 2 ^ 53) as Hhi.
  { rewrite <- Z.pow_add_r by lia. f_equal. lia. }
  set (M := a * b * 2 ^ (53 - d)).
  assert (2 ^ 52 <= M < 2 ^ 53) as HM by (unfold M; nia).
  assert (Z.pos Ma * Z.pos Mb = a * b * 2 ^ (- ea - eb)) as Hprod.
  { rewrite Ha, Hb. replace (- ea - eb) with (- ea + - eb) by lia.
    rewrite Z.pow_add_r by lia. lia. }
  set (j := - ea - eb - (53 - d)).
  assert (0 <= j) as Hj.
  { unfold j. assert (104 < d + (- ea - eb)); [|lia].
    apply (Z.pow_lt_mono_r_iff 2); [lia|lia|].
    rewrite Z.pow_add_r by lia.
    assert (0 < 2 ^ (- ea - eb)) by (apply Z.pow_pos_nonneg; lia).
    change (2 ^ 104) with (2 ^ 52 * 2 ^ 52). nia. }
  assert (Z.pos Ma * Z.pos Mb = Z.pos (Z.to_pos M) * 2 ^ j) as ->.
  { rewrite Z2Pos.id by lia. unfold M, j. rewrite Hprod.
    replace (- ea - eb) with (53 - d + (- ea - eb - (53 - d))) at 1 by lia.
    rewrite Z.pow_add_r by lia. lia. }
  replace (ea + eb) with (d - 53 - j) by (unfold j; lia).
  rewrite round_exact by (rewrite ?Z2Pos.id; lia).
  exists (Z.to_pos M), (d - 53). rewrite Z2Pos.id by lia.
  repeat split; try lia. unfold M. f_equal. f_equal. lia.
Qed.

Lemma f64_of_Z_100 : f64_of_Z 100 = S754_finite false 7036874417766400 (-46).
Proof. reflexivity. Qed.

Lemma div_eucl_div_mod a b : Z.div_eucl a b = (a / b, a mod b).
Proof. unfold Z.div, Z.modulo. by destruct (Z.div_eucl a b). Qed.

Lemma shr_record_of_loc_m q l : shr_m (shr_record_of_loc q l) = q.
Proof. by destruct l as [|[]]. Qed.

Lemma loc_of_shr_record_of_loc q l : loc_of_shr_record (shr_record_of_loc q l) = l.
Proof. by destruct l as [|[]]. Qed.

Lemma round_nearest_even_cases q l :
  round_nearest_even q l = q \/ round_nearest_even q l = q + 1.
Proof. destruct l as [|[]]; simpl; auto. destruct (Z.even q); auto. Qed.

(** The second step of [binary_round_aux]: a mantissa of 53 bits stays, the
    mantissa 2^53 loses a bit; the integer part of the value is the
    same. *)
Lemma round_finish m1 e1 :
  2 ^ 52 <= m1 <= 2 ^ 53 -> -60 <= e1 <= -2 ->
  int64_of_f64
    (let '(mrs, e2) := shr_fexp 53 1024 m1 e1 loc_Exact in
     match shr_m mrs with
     | 0 => S754_zero false
     | Z.pos m => if e2 <=? 1024 - 53 then S754_finite false m e2 else S754_infinity false
     | Z.neg _ => S754_nan
     end)
  = m1 / 2 ^ (- e1).
Proof.
  intros Hm He. unfold shr_fexp.
  assert (0 < 2 ^ (- e1)) as Hpow by (apply Z.pow_pos_nonneg; lia).
  assert (m1 / 2 ^ (- e1) <= m1) as Hle.
  { apply Z.div_le_upper_bound; [lia|]. nia. }
  assert (0 <= m1 / 2 ^ (- e1)) as Hge by (apply Z.div_pos; lia).
  destruct (Z.eqb_spec m1 (2 ^ 53)) as [->|Hne].
  - change (Zdigits2 (2 ^ 53)) with 54.
    replace (fexp 53 1024 (54 + e1) - e1) with 1 by (unfold fexp, emin; lia).
    change (2 ^ 53) with 9007199254740992.
    cbn -[Z.pow Z.leb Z.ltb Z.div].
    destruct (Z.leb_spec (e1 + 1) (1024 - 53)); [|lia].
    cbn -[Z.pow Z.leb Z.ltb Z.div Z.opp].
    destruct (Z.leb_spec 0 (e1 + 1)); [lia|].
    assert (0 < 2 ^ (- (e1 + 1))) as Hpow1 by (apply Z.pow_pos_nonneg; lia).
    assert (9007199254740992 / 2 ^ (- e1) = 4503599627370496 / 2 ^ (- (e1 + 1))) as ->.
    { replace (2 ^ (- e1)) with (2 * 2 ^ (- (e1 + 1))).
      2:{ rewrite <- Z.pow_succ_r by lia. f_equal. lia. }
      change 9007199254740992 with (2 * 4503599627370496).
      by rewrite Z.div_mul_cancel_l by lia. }
    assert (0 <= 4503599627370496 / 2 ^ (- (e1 + 1)) <= 4503599627370496) as Hv.
    { split; [apply Z.div_pos; lia|]. apply Z.div_le_upper_bound; [lia|]. nia. }
    unfold minInt64, maxInt64.
    set (v := 4503599627370496 / 2 ^ (- (e1 + 1))) in *.
    destruct (Z.leb_spec (- 2 ^ 63) v), (Z.leb_spec v (2 ^ 63 - 1)); simpl; lia.
  - rewrite (Zdigits2_unique m1 53) by lia.
    replace (fexp 53 1024 (53 + e1) - e1) with 0 by (unfold fexp, emin; lia).
    cbn [shr shr_m shr_record_of_loc].
    destruct m1 as [|m1|m1]; [lia| |lia].
    destruct (Z.leb_spec e1 (1024 - 53)); [|lia].
    cbn -[Z.pow Z.leb Z.ltb Z.div Z.opp].
    destruct (Z.leb_spec 0 e1); [lia|].
    unfold minInt64, maxInt64.
    set (v := Z.pos m1 / 2 ^ (- e1)) in *.
    destruct (Z.leb_spec (- 2 ^ 63) v), (Z.leb_spec v (2 ^ 63 - 1)); simpl; lia.
Qed.

(** The integer part of a rounded value whose neighbours have the same
    integer part. *)
Lemma round_aux_trunc q g l k :
  2 ^ 52 <= q < 2 ^ 54 -> 7 <= g <= 59 ->
  q / 2 ^ g = k -> (q + 1) / 2 ^ g = k ->
  int64_of_f64 (binary_round_aux 53 1024 false q (- g) l) = k.
Proof.
  intros Hq Hg Hk Hk1. unfold binary_round_aux.
  assert (0 < 2 ^ g) as Hpow by (apply Z.pow_pos_nonneg; lia).
  destruct (Z.ltb_spec q (2 ^ 53)) as [Hlt|Hge].
  - (* 53 bits: no shift before rounding *)
    unfold shr_fexp at 1.
    rewrite (Zdigits2_unique q 53) by lia.
    replace (fexp 53 1024 (53 + - g) - - g) with 0 by (unfold fexp, emin; lia).
    cbn [shr]. cbv beta iota. rewrite shr_record_of_loc_m, loc_of_shr_record_of_loc.
    pose proof (round_nearest_even_cases q l) as Hr.
    rewrite round_finish by (destruct Hr as [Hr|Hr]; rewrite ?Hr; lia).
    rewrite Z.opp_involutive. by destruct Hr as [-> | ->].
  - (* 54 bits: one shift before rounding *)
    unfold shr_fexp at 1.
    rewrite (Zdigits2_unique q 54) by lia.
    replace (fexp 53 1024 (54 + - g) - - g) with 1 by (unfold fexp, emin; lia).
    cbn [shr SpecFloat.iter_pos].
    assert (exists r s,
              shr_1 (shr_record_of_loc q l)
              = {| shr_m := q / 2; shr_r := r; shr_s := s |}
              /\ (r = true -> q = 2 * (q / 2) + 1)) as (r & s & -> & Hodd).
    { destruct q as [|[q|q|]|q]; try lia.
      - assert (Z.pos q~1 / 2 = Z.pos q) as ->.
        { rewrite Pos2Z.inj_xI, Z.mul_comm, Z.div_add_l by lia. change (1 / 2) with 0. lia. }
        exists true. destruct l as [|[]]; eexists; (split; [reflexivity|]); intros _; lia.
      - assert (Z.pos q~0 / 2 = Z.pos q) as ->.
        { rewrite Pos2Z.inj_xO, Z.mul_comm, Z.div_mul by lia. done. }
        exists false. destruct l as [|[]]; eexists; (split; [reflexivity|done]). }
    cbn [shr_m].
    set (l1 := loc_of_shr_record {| shr_m := q / 2; shr_r := r; shr_s := s |}).
    assert (2 ^ g = 2 * 2 ^ (- (- g + 1))) as Hg2.
    { rewrite <- Z.pow_succ_r by lia. f_equal. lia. }
    assert (2 ^ 52 <= q / 2 < 2 ^ 53) as Hhalf.
    { split; [apply Z.div_le_lower_bound; lia|apply Z.div_lt_upper_bound; lia]. }
    assert (round_nearest_even (q / 2) l1 = q / 2
            \/ (round_nearest_even (q / 2) l1 = q / 2 + 1 /\ q = 2 * (q / 2) + 1)) as Hcases.
    { unfold l1. destruct r, s; cbn [loc_of_shr_record round_nearest_even]; auto.
      destruct (Z.even (q / 2)); auto. }
    cbv beta iota.
    rewrite round_finish by (destruct Hcases as [Hr|[Hr _]]; rewrite ?Hr; lia).
    assert (0 < 2 ^ (- (- g + 1))) as Hpow1 by (apply Z.pow_pos_nonneg; lia).
    destruct Hcases as [-> | [-> Hq2]].
    + rewrite <- Hk, Hg2, <- Z.div_div by lia. done.
    + rewrite <- Hk1, Hg2, <- Z.div_div by lia. f_equal.
      rewrite Hq2 at 2. replace (2 * (q / 2) + 1 + 1) with ((q / 2 + 1) * 2) by lia.
      by rewrite Z.div_mul by lia.
Qed.

Lemma f64_div_100 fm m :
  reprInt fm m -> 0 < m < 2 ^ 53 ->
  int64_of_f64 (f64_div fm (f64_of_Z 100)) = m / 100.
Proof.
  intros (M & e & -> & HM & He & Hm) Hrange.
  rewrite f64_of_Z_100. unfold f64_div, SFdiv, SFdiv_core_binary. cbn [xorb].
  rewrite (Zdigits2_unique (Z.pos M) 53) by lia.
  change (Zdigits2 7036874417766400) with 53.
  replace (Z.min (fexp 53 1024 (53 + e - (53 + -46))) (e - -46)) with (e - 7)
    by (unfold fexp, emin; lia).
  replace (e - -46 - (e - 7)) with 53 by lia.
  rewrite Z.shiftl_mul_pow2 by lia. rewrite div_eucl_div_mod.
  set (q := Z.pos M * 2 ^ 53 / 7036874417766400).
  set (g := 7 - e).
  assert (0 < 2 ^ (- e)) as Hpe by (apply Z.pow_pos_nonneg; lia).
  assert (2 ^ g = 128 * 2 ^ (- e)) as Hg.
  { unfold g. replace (7 - e) with (7 + - e) by lia. by rewrite Z.pow_add_r by lia. }
  assert (q = m * 2 ^ g / 100) as Hq.
  { unfold q. rewrite Hm, Hg.
    replace (m * 2 ^ (- e) * 2 ^ 53) with (m * (128 * 2 ^ (- e)) * 70368744177664) by lia.
    change 7036874417766400 with (100 * 70368744177664).
    by rewrite Z.div_mul_cancel_r by lia. }
  replace (e - 7) with (- g) by (unfold g; lia).
  assert (0 < 2 ^ g) as Hpg by lia.
  assert (128 <= 2 ^ g) as H128 by lia.
  pose proof (Z.div_mod m 100 ltac:(lia)) as Hdm.
  pose proof (Z.mod_pos_bound m 100 ltac:(lia)) as Hmod.
  set (k := m / 100) in *. set (t := m mod 100) in *.
  assert (q = k * 2 ^ g + t * 2 ^ g / 100) as Hq'.
  { rewrite Hq, Hdm. replace ((100 * k + t) * 2 ^ g) with (k * 2 ^ g * 100 + t * 2 ^ g) by lia.
    rewrite Z.div_add_l by lia. done. }
  assert (0 <= t * 2 ^ g / 100) as Hr0 by (apply Z.div_pos; nia).
  assert (t * 2 ^ g / 100 + 1 < 2 ^ g) as Hr1.
  { assert (t * 2 ^ g / 100 < 2 ^ g - 1); [|lia].
    apply Z.div_lt_upper_bound; [lia|]. nia. }
  apply round_aux_trunc.
  - unfold q. split.
    + apply Z.div_le_lower_bound; [lia|]. nia.
    + apply Z.div_lt_upper_bound; [lia|]. nia.
  - unfold g. lia.
  - rewrite Hq'. rewrite Z.div_add_l by lia. rewrite Z.div_small by lia. lia.
  - rewrite Hq'. replace (k * 2 ^ g + t * 2 ^ g / 100 + 1) with (k * 2 ^ g + (t * 2 ^ g / 100 + 1)) by lia.
    rewrite Z.div_add_l by lia. rewrite Z.div_small by lia. lia.
Qed.

(** The rank [percentileInt64] computes on floats is the integer quotient,
    as long as the product [(n - 1) * p] is below 2^53. *)
Lemma rank_quotient n p :
  1 <= n -> 0 < p < 100 -> (n - 1) * p < 2 ^ 53 ->
  rank n p = (n - 1) * p / 100.
Proof.
  intros Hn Hp Hprod. unfold rank.
  pose proof (f64_of_Z_int p ltac:(lia)) as Hfp.
  destruct (Z.eqb_spec n 1) as [->|Hne].
  - destruct Hfp as (M & e & -> & _). reflexivity.
  - assert (0 < (n - 1) * p) as Hpos by nia.
    apply f64_div_100; [|lia].
    apply f64_mul_int; [apply f64_of_Z_int; nia|done|lia].
Qed.

Lemma quotient_bounds n p : 1 <= n -> 0 < p < 100 -> 0 <= (n - 1) * p / 100 <= n - 1.
Proof.
  intros Hn Hp. split.
  - apply Z.div_pos; nia.
  - apply Z.div_le_upper_bound; nia.
Qed.

(** In a slice of at most 2^46 elements the rank is the integer quotient. *)
Lemma rank_in_slice n p :
  1 <= n <= 2 ^ 46 -> 0 < p < 100 ->
  rank n p = (n - 1) * p / 100 /\ 0 <= rank n p <= n - 1.
Proof.
  intros Hn Hp.
  assert (rank n p = (n - 1) * p / 100) as Hr.
  { apply rank_quotient; [lia|lia|]. change (2 ^ 53) with (2 ^ 46 * 128). nia. }
  split; [done|]. rewrite Hr. apply quotient_bounds; lia.
Qed.

Lemma nth_lookup_Z (l : list Z) (i : nat) :
  (i < length l)%nat -> l !! i = Some (nth i l 0).
Proof.
  revert i. induction l as [|x l IH]; intros [|i] Hi; simpl in *; try lia; [done|].
  apply IH. lia.
Qed.

Lemma StronglySorted_lookup_le (l : list Z) (i j : nat) (x y : Z) :
  StronglySorted Z.le l -> (i <= j)%nat -> l !! i = Some x -> l !! j = Some y -> x <= y.
Proof.
  intros Hs. revert i j. induction Hs as [|a l Hs IH Hall]; intros i j Hij Hi Hj.
  - done.
  - destruct i as [|i], j as [|j]; simpl in *; simplify_eq; try lia.
    + rewrite List.Forall_forall in Hall. apply Hall.
      apply list_elem_of_In. by eapply list_elem_of_lookup_2.
    + eapply IH; [|done..]. lia.
Qed.

(** C2 (amended).  On a non-empty ascending slice, [percentileInt64]
    returns the minimum for [p <= 0] and the maximum for [p >= 100]; for
    [0 < p < 100] and a slice of at most 2^46 elements it returns the
    element at index [floor((len - 1) * p / 100)], with no interpolation.
    The index is computed on float64, which is exact as long as
    [(len - 1) * p] is below 2^53. *)
Theorem percentile_nearest_rank (sorted : list Z) (p : Z) :
  sorted <> [] ->
  Sorted Z.le sorted ->
  let r := percentileInt64 sorted p in
  (p <= 0 -> r ∈ sorted /\ forall x, x ∈ sorted -> r <= x)
  /\ (100 <= p -> r ∈ sorted /\ forall x, x ∈ sorted -> x <= r)
  /\ (0 < p < 100 -> Z.of_nat (length sorted) <= 2 ^ 46 ->
      sorted !! Z.to_nat ((Z.of_nat (length sorted) - 1) * p / 100) = Some r).
Proof.
  intros Hne Hsorted r.
  assert (StronglySorted Z.le sorted) as Hs.
  { apply Sorted_StronglySorted; [|done]. intros a b c. apply Z.le_trans. }
  assert (1 <= Z.of_nat (length sorted)) as Hn.
  { destruct sorted; [done|]. simpl. lia. }
  subst r. unfold percentileInt64.
  destruct (Z.eqb_spec (Z.of_nat (length sorted)) 0) as [?|_]; [lia|].
  repeat split.
  - destruct (Z.leb_spec p 0); [|lia].
    eapply list_elem_of_lookup_2, nth_lookup_Z. lia.
  - intros x Hx. destruct (Z.leb_spec p 0); [|lia].
    apply list_elem_of_lookup_1 in Hx as [j Hj].
    eapply (StronglySorted_lookup_le sorted 0 j); [done| lia | | done].
    apply nth_lookup_Z. lia.
  - destruct (Z.leb_spec p 0); [lia|]. destruct (Z.leb_spec 100 p); [|lia].
    eapply list_elem_of_lookup_2, nth_lookup_Z. lia.
  - intros x Hx. destruct (Z.leb_spec p 0); [lia|]. destruct (Z.leb_spec 100 p); [|lia].
    apply list_elem_of_lookup_1 in Hx as [j Hj].
    pose proof (lookup_lt_Some _ _ _ Hj) as Hlt.
    eapply (StronglySorted_lookup_le sorted j (Z.to_nat (Z.of_nat (length sorted) - 1)));
      [done| lia | done |].
    apply nth_lookup_Z. lia.
  - intros Hp Hlen. destruct (Z.leb_spec p 0); [lia|]. destruct (Z.leb_spec 100 p); [lia|].
    destruct (rank_in_slice (Z.of_nat (length sorted)) p ltac:(lia) Hp) as [Hq Hr].
    cbv zeta.
    destruct (Z.ltb_spec (rank (Z.of_nat (length sorted)) p) 0); [lia|].
    destruct (Z.leb_spec (Z.of_nat (length sorted)) (rank (Z.of_nat (length sorted)) p)); [lia|].
    rewrite <- Hq. apply nth_lookup_Z. lia.
Qed.

(** The percentile of the lag samples [3; 5; 8; 13] at 0, 50, 95 and 100. *)
Lemma percentile_nearest_rank_witness :
  let s := [3; 5; 8; 13] in
  (percentileInt64 s 0 = 3 /\ percentileInt64 s 50 = 5
   /\ percentileInt64 s 95 = 8 /\ percentileInt64 s 100 = 13)
  /\ s !! Z.to_nat ((Z.of_nat (length s) - 1) * 95 / 100) = Some (percentileInt64 s 95).
Proof.
  split; [vm_compute; auto|].
  apply (percentile_nearest_rank [3; 5; 8; 13] 95); [done | | lia | simpl; lia].
  repeat constructor; lia.
Defined.

(** *** Slices too long for float64 *)

Lemma Sorted_seqZ m n : Sorted Z.le (seqZ m n).
Proof.
  destruct (Z.le_gt_cases n 0) as [Hn|Hn]; [rewrite seqZ_nil by done; constructor|].
  rewrite <- (Z2Nat.id n) by lia. generalize (Z.to_nat n). clear. intros k. revert m.
  induction k as [|k IH]; intros m; [constructor|].
  rewrite seqZ_cons by lia. replace (Z.pred (Z.of_nat (S k))) with (Z.of_nat k) by lia.
  constructor; [apply IH|].
  destruct k as [|k]; [constructor|]. rewrite seqZ_cons by lia. constructor. lia.
Qed.

Lemma seqZ_nonempty m n : 0 < n -> seqZ m n <> [].
Proof. intros Hn. by rewrite seqZ_cons by lia. Qed.

(** On the slice [0, 1, ..., n - 1] a rank that is not the quotient shows. *)
Lemma seqZ_rank_differs n p r :
  0 < n -> 0 < p < 100 -> rank n p = r -> 0 <= r < n -> r <> (n - 1) * p / 100 ->
  seqZ 0 n !! Z.to_nat ((Z.of_nat (length (seqZ 0 n)) - 1) * p / 100)
  <> Some (percentileInt64 (seqZ 0 n) p).
Proof.
  intros Hn Hp Hrank Hr Hne. unfold percentileInt64.
  rewrite length_seqZ, Z2Nat.id by lia. rewrite Hrank.
  destruct (Z.eqb_spec n 0); [lia|]. destruct (Z.leb_spec p 0); [lia|].
  destruct (Z.leb_spec 100 p); [lia|]. cbv zeta.
  destruct (Z.ltb_spec r 0); [lia|]. destruct (Z.leb_spec n r); [lia|].
  pose proof (quotient_bounds n p ltac:(lia) Hp) as Hq.
  rewrite lookup_seqZ_lt by lia.
  assert (seqZ 0 n !! Z.to_nat r = Some (nth (Z.to_nat r) (seqZ 0 n) 0)) as Hnth.
  { apply nth_lookup_Z. rewrite length_seqZ. lia. }
  rewrite lookup_seqZ_lt in Hnth by lia. injection Hnth as <-.
  intros [= Heq]. lia.
Qed.

(** C2, as stated, fails on a slice of 2^53 + 2 elements: the float64 of
    2^53 + 1 is 2^53, the rank for [p = 99] comes out as 8917127262193582,
    and [floor((2^53 + 1) * 99 / 100)] is 8917127262193583. *)
Lemma long_slice_rank_differs : ~ nearestRankOnEverySlice.
Proof.
  intros Hclaim.
  apply (seqZ_rank_differs longSlice 99 8917127262193582).
  - reflexivity.
  - split; reflexivity.
  - vm_compute. reflexivity.
  - split; [discriminate|reflexivity].
  - vm_compute. discriminate.
  - apply Hclaim; [apply seqZ_nonempty; reflexivity|apply Sorted_seqZ|split; reflexivity].
Qed.

(** ** Extension/format mismatch *)

Lemma expectedByKey_unknown `{GoStd} key :
  key ∉ knownRegistryKeys -> expectedByKey key = ∅.
Proof.
  intros Hk. unfold expectedByKey.
  repeat (case_decide; [exfalso; apply Hk; subst key; unfold knownRegistryKeys; set_solver|]).
  done.
Qed.

Lemma expectedByName_unknown `{GoStd} name :
  (forall d, d ∈ knownDescriptions -> Contains name d = false) -> expectedByName name = ∅.
Proof.
  intros Hn. unfold expectedByName.
  rewrite !Hn; [done|unfold knownDescriptions; set_solver..].
Qed.

(** C5.  For the JPEG registry key [fmt/43] the extension [png] is a
    mismatch and the extension [jpg] is not, whatever the format name; and
    when the registry key is not in the static table and the format name
    contains no known description, no extension is a mismatch. *)
Theorem mismatch_by_format_cases :
  (forall (std : GoStd) formatName, mismatchByFormat "fmt/43" formatName "png" = true)
  /\ (forall (std : GoStd) formatName, mismatchByFormat "fmt/43" formatName "jpg" = false)
  /\ (forall (std : GoStd) regKey formatName ext,
        ToLower (TrimSpace regKey) ∉ knownRegistryKeys ->
        (forall d, d ∈ knownDescriptions ->
                   Contains (ToLower (TrimSpace formatName)) d = false) ->
        mismatchByFormat regKey formatName ext = false).
Proof.
  split; [|split].
  - intros std formatName. vm_compute. reflexivity.
  - intros std formatName. vm_compute. reflexivity.
  - intros std regKey formatName ext Hkey Hname. unfold mismatchByFormat.
    case_decide; [done|].
    rewrite (expectedByKey_unknown _ Hkey), (expectedByName_unknown _ Hname).
    rewrite size_empty. by rewrite !decide_True.
Qed.

(** A hit with an unlisted registry key and an unrecognised format name. *)
Lemma mismatch_by_format_cases_witness :
  mismatchByFormat (H := refStd) "fmt/9999" "Opaque container" "bin" = false.
Proof.
  apply (proj2 (proj2 mismatch_by_format_cases) refStd).
  - vm_compute. intros Hin. repeat (apply elem_of_cons in Hin as [Hin|Hin]; [discriminate|]).
    by apply elem_of_nil in Hin.
  - intros d Hd. unfold knownDescriptions in Hd.
    repeat (apply elem_of_cons in Hd as [->|Hd]; [vm_compute; reflexivity|]).
    by apply elem_of_nil in Hd.
Defined.

(** ** The full scan *)

(** The scan loop folds [scanHit] over the hits of the pages it fetched. *)
Lemma scanPages_fold `{GoStd} es index aip pageSize pagesLeft page sa s trace s' trace' :
  scanPages es index aip pageSize pagesLeft page sa s trace = (Ok s', trace') ->
  exists new, trace' = trace ++ new /\ s' = foldl scanHit s (hitsScanned new).
Proof.
  revert page sa s trace.
  induction pagesLeft as [|n IH]; intros page sa s trace Hrun; cbn [scanPages] in Hrun.
  { simplify_eq. exists []. by rewrite app_nil_r. }
  destruct (es page index (statsBody aip pageSize sa)) as [[|h hits]|e] eqn:Hres.
  - simplify_eq. eexists [_]. split; [done|]. unfold hitsScanned, hitsOf. by simpl.
  - destruct (len (lastSort (h :: hits)) =? 0).
    + simplify_eq. eexists [_]. split; [done|].
      unfold hitsScanned, hitsOf. simpl. by rewrite app_nil_r.
    + apply IH in Hrun as (new & -> & ->).
      eexists (_ :: new). split; [by rewrite <- app_assoc|].
      unfold hitsScanned, hitsOf. cbn [flat_map snd]. by rewrite foldl_app.
  - simplify_eq.
Qed.

(** A run that returns statistics finalizes the fold over the scanned hits. *)
Lemma AIPStats_run_fold `{GoStd} c es index aipUUID pageSize stats trace :
  AIPStats_run c es index aipUUID pageSize = (Ok (Some stats), trace) ->
  stats = finalize (TrimSpace aipUUID) (foldl scanHit initScan (hitsScanned trace)).
Proof.
  unfold AIPStats_run. intros Hrun.
  destruct (negb (Enabled c)); [simplify_eq|].
  case_decide; [simplify_eq|].
  destruct (scanPages _ _ _ _ _ _ _ _ _) as [[s|e] tr] eqn:Hscan; [|simplify_eq].
  apply scanPages_fold in Hscan as (new & Htr & ->). simpl in Htr. by simplify_eq.
Qed.

Lemma scanHit_FilesTotal `{GoStd} s h :
  sc_FilesTotal (scanHit s h) = wrap64 (sc_FilesTotal s + 1).
Proof. reflexivity. Qed.

(** One hit moves exactly one of the two counters of originals: the first
    when the hit has a normalized-object reference, the second when it has
    none. *)
Lemma scanHit_originals `{GoStd} s h :
  let rels := extractNormalizedObjectIDs (mapIndex (hit_Source h) "METS") in
  (rels <> []
   /\ sc_OriginalsWithNormalized (scanHit s h) = wrap64 (sc_OriginalsWithNormalized s + 1)
   /\ sc_OriginalsWithoutNormalized (scanHit s h) = sc_OriginalsWithoutNormalized s)
  \/ (rels = []
      /\ sc_OriginalsWithNormalized (scanHit s h) = sc_OriginalsWithNormalized s
      /\ sc_OriginalsWithoutNormalized (scanHit s h)
         = wrap64 (sc_OriginalsWithoutNormalized s + 1)).
Proof.
  intros rels. unfold scanHit. cbn [sc_OriginalsWithNormalized sc_OriginalsWithoutNormalized].
  fold rels. destruct rels as [|r rels']; [right|left]; simpl; repeat split; done.
Qed.

Lemma balanced_step `{GoStd} s h k :
  balanced s k -> 0 <= k < maxInt64 -> balanced (scanHit s h) (k + 1).
Proof.
  intros (Hft & Hw & Hwo & Hsum) Hk. unfold balanced.
  rewrite scanHit_FilesTotal, Hft.
  assert (forall z, 0 <= z <= k -> wrap64 (z + 1) = z + 1) as Hwrap.
  { intros z Hz. apply wrap64_id. unfold minInt64, maxInt64 in *. lia. }
  rewrite (Hwrap k) by lia. split; [done|].
  destruct (scanHit_originals s h) as [(_ & -> & ->)|(_ & -> & ->)];
    rewrite Hwrap by lia; lia.
Qed.

Lemma balanced_fold `{GoStd} hits s k :
  balanced s k -> 0 <= k -> k + Z.of_nat (length hits) <= maxInt64 ->
  balanced (foldl scanHit s hits) (k + Z.of_nat (length hits)).
Proof.
  revert s k. induction hits as [|h hits IH]; intros s k Hb Hk Hmax;
    cbn [foldl length] in *.
  - by rewrite Z.add_0_r.
  - replace (k + Z.of_nat (S (length hits)))
      with ((k + 1) + Z.of_nat (length hits)) by lia.
    apply IH; [apply balanced_step; [done|lia] | lia | lia].
Qed.

Lemma balanced_init : balanced initScan 0.
Proof. unfold balanced. simpl. lia. Qed.

Lemma returned_inv {A} (r : result (option A)) :
  returned r = true -> exists a, r = Ok (Some a).
Proof. destruct r as [[a|]|e]; [eauto|done..]. Qed.

Lemma run_pair {A B} (r : A * B) (a : A) : fst r = a -> r = (a, snd r).
Proof. intros <-. by destruct r. Qed.

(** C4.  When a full scan returns statistics, [files_total] is the number
    of hits of all the pages the scan fetched, whatever the hits contain
    (the count is kept in an int64, hence the bound). *)
Theorem files_total_counts_hits (std : GoStd) c es index aipUUID pageSize stats trace :
  AIPStats_run c es index aipUUID pageSize = (Ok (Some stats), trace) ->
  Z.of_nat (length (hitsScanned trace)) <= maxInt64 ->
  FilesTotal stats = Z.of_nat (length (hitsScanned trace)).
Proof.
  intros Hrun Hmax. rewrite (AIPStats_run_fold _ _ _ _ _ _ _ Hrun).
  cbn [finalize FilesTotal].
  pose proof (balanced_fold (hitsScanned trace) initScan 0 balanced_init) as Hb.
  destruct Hb as (Hft & _); [lia|lia|]. rewrite Hft. lia.
Qed.

(** The seven-hit fixture yields [files_total = 7]. *)
Lemma files_total_counts_hits_witness :
  exists stats,
    fst sevenHitRun = Ok (Some stats)
    /\ length (hitsScanned (snd sevenHitRun)) = 7%nat
    /\ FilesTotal stats = 7.
Proof.
  destruct (returned_inv (fst sevenHitRun)) as [stats Hfst]; [vm_compute; reflexivity|].
  exists stats. split; [done|].
  assert (length (hitsScanned (snd sevenHitRun)) = 7%nat) as Hlen
    by (vm_compute; reflexivity).
  split; [done|].
  rewrite (files_total_counts_hits refStd _ _ _ _ _ _ _ (run_pair _ _ Hfst));
    rewrite Hlen; [done|]. unfold maxInt64. lia.
Defined.

(** C10.  Every hit of a full scan adds one to exactly one of
    [originals_with_normalized] (the hit has a normalized-object reference)
    and [originals_without_normalized] (it has none), and leaves the other
    as it was; so the two sum to [files_total] in the statistics returned
    (the counters are int64, hence the bound). *)
Theorem originals_partition_files_total (std : GoStd) :
  (forall s h,
      let rels := extractNormalizedObjectIDs (mapIndex (hit_Source h) "METS") in
      (rels <> []
       /\ sc_OriginalsWithNormalized (scanHit s h) = wrap64 (sc_OriginalsWithNormalized s + 1)
       /\ sc_OriginalsWithoutNormalized (scanHit s h) = sc_OriginalsWithoutNormalized s)
      \/ (rels = []
          /\ sc_OriginalsWithNormalized (scanHit s h) = sc_OriginalsWithNormalized s
          /\ sc_OriginalsWithoutNormalized (scanHit s h)
             = wrap64 (sc_OriginalsWithoutNormalized s + 1)))
  /\ (forall c es index aipUUID pageSize stats trace,
      AIPStats_run c es index aipUUID pageSize = (Ok (Some stats), trace) ->
      Z.of_nat (length (hitsScanned trace)) <= maxInt64 ->
      OriginalsWithNormalized stats + OriginalsWithoutNormalized stats = FilesTotal stats).
Proof.
  split; [apply scanHit_originals|].
  intros c es index aipUUID pageSize stats trace Hrun Hmax.
  rewrite (AIPStats_run_fold _ _ _ _ _ _ _ Hrun).
  cbn [finalize FilesTotal OriginalsWithNormalized OriginalsWithoutNormalized].
  pose proof (balanced_fold (hitsScanned trace) initScan 0 balanced_init) as Hb.
  destruct Hb as (Hft & _ & _ & Hsum); [lia|lia|]. by rewrite Hft, Hsum.
Qed.

(** Three originals, two of them normalized. *)
Lemma originals_partition_files_total_witness :
  exists stats,
    fst threeOriginalsRun = Ok (Some stats)
    /\ OriginalsWithNormalized stats = 2 /\ OriginalsWithoutNormalized stats = 1
    /\ OriginalsWithNormalized stats + OriginalsWithoutNormalized stats = FilesTotal stats.
Proof.
  destruct (returned_inv (fst threeOriginalsRun)) as [stats Hfst]; [vm_compute; reflexivity|].
  exists stats. split; [done|].
  assert (originalsOf (fst threeOriginalsRun) = (2, 1)) as Hcounts by (vm_compute; reflexivity).
  rewrite Hfst in Hcounts. injection Hcounts as Hw Hwo. split; [done|]. split; [done|].
  apply (proj2 (originals_partition_files_total refStd) _ _ _ _ _ _ _ (run_pair _ _ Hfst)).
  assert (length (hitsScanned (snd threeOriginalsRun)) = 3%nat) as -> by (vm_compute; reflexivity).
  unfold maxInt64. lia.
Defined.

(** C6.  When a full scan ends with [files_total = 0], the two averages and
    the diversity ratio are exactly 0: the quotients by [files_total] are
    taken only under the guard [files_total > 0]. *)
Theorem zero_files_zero_ratios (std : GoStd) c es index aipUUID pageSize stats trace :
  AIPStats_run c es index aipUUID pageSize = (Ok (Some stats), trace) ->
  FilesTotal stats = 0 ->
  NormalizedByOriginalAvg stats = f64_zero
  /\ AverageBytes stats = f64_zero
  /\ FormatDiversityRatio stats = f64_zero.
Proof.
  intros Hrun. rewrite (AIPStats_run_fold _ _ _ _ _ _ _ Hrun).
  cbn [finalize FilesTotal NormalizedByOriginalAvg AverageBytes FormatDiversityRatio].
  intros ->. done.
Qed.

(** An AIP without files in the index. *)
Lemma zero_files_zero_ratios_witness :
  exists stats,
    fst emptyRun = Ok (Some stats)
    /\ FilesTotal stats = 0
    /\ NormalizedByOriginalAvg stats = f64_zero
    /\ AverageBytes stats = f64_zero
    /\ FormatDiversityRatio stats = f64_zero.
Proof.
  destruct (returned_inv (fst emptyRun)) as [stats Hfst]; [vm_compute; reflexivity|].
  exists stats. split; [done|].
  assert (filesOf (fst emptyRun) = 0) as Hzero by (vm_compute; reflexivity).
  rewrite Hfst in Hzero. simpl in Hzero. split; [done|].
  exact (zero_files_zero_ratios refStd _ _ _ _ _ _ _ (run_pair _ _ Hfst) Hzero).
Defined.

(** ** The listing *)

Lemma drainListHits_distinct limit hits items seen :
  distinctItems items seen ->
  distinctItems (drainListHits limit hits items seen).1 (drainListHits limit hits items seen).2.
Proof.
  revert items seen. induction hits as [|h hits IH]; intros items seen Hinv;
    cbn [drainListHits]; [done|].
  set (aip := TrimSpace (asString (mapIndex (hit_Source h) "AIPUUID"))).
  case_decide; [by apply IH|].
  case_decide as Hseen; [by apply IH|].
  match goal with
  | |- context [drainListHits limit hits ?it ?sn] =>
      assert (distinctItems it sn) as Hinv'
  end.
  { destruct Hinv as [Hnd Hsub]. split.
    - rewrite map_app. simpl. apply NoDup_app. split; [done|]. split.
      + intros x Hx Hx'. apply list_elem_of_singleton in Hx'. subst x.
        apply Hseen. by apply Hsub.
      + apply NoDup_singleton.
    - intros x. rewrite map_app. simpl. rewrite elem_of_app, list_elem_of_singleton.
      intros [Hx| ->]; [apply Hsub in Hx|]; set_solver. }
  case_match; [done|]. by apply IH.
Qed.

Lemma listPages_distinct es index limit pagesLeft page st trace st' trace' :
  distinctItems (ls_items st) (ls_seen st) ->
  listPages es index limit pagesLeft page st trace = (Ok st', trace') ->
  distinctItems (ls_items st') (ls_seen st').
Proof.
  revert page st trace.
  induction pagesLeft as [|n IH]; intros page st trace Hinv Hrun; cbn [listPages] in Hrun.
  { by simplify_eq. }
  case_match; [|by simplify_eq].
  destruct (es page index (listBody limit (ls_searchAfter st))) as [[|h hits]|e].
  - by simplify_eq.
  - pose proof (drainListHits_distinct limit (h :: hits) _ _ Hinv) as Hinv'.
    destruct (drainListHits limit (h :: hits) (ls_items st) (ls_seen st)) as [items seen].
    case_match; [by simplify_eq|].
    by eapply IH in Hrun.
  - simplify_eq.
Qed.

(** C3.  The items [ListAIPs] returns never repeat an AIP UUID, however
    often an id occurs among the hits of a page or across pages. *)
Theorem listing_has_no_duplicate_ids (std : GoStd) c es index limit cursor r trace :
  ListAIPs c es index limit cursor = (Ok (Some r), trace) ->
  NoDup (map AIPUUID (Items r)).
Proof.
  unfold ListAIPs. intros Hrun.
  destruct (negb (Enabled c)); [simplify_eq|].
  destruct (decodeCursor cursor) as [sa|e]; [|simplify_eq].
  destruct (listPages _ _ _ _ _ _ _) as [[st|e] tr] eqn:Hpages; [|simplify_eq].
  apply listPages_distinct in Hpages as [Hnd _].
  - by simplify_eq.
  - split; [constructor|]. simpl. intros x Hx. by apply elem_of_nil in Hx.
Qed.

Lemma listing_has_no_duplicate_ids_witness :
  exists r,
    fst repeatingRun = Ok (Some r)
    /\ map AIPUUID (Items r) = ["a"; "b"; "c"]
    /\ NoDup (map AIPUUID (Items r)).
Proof.
  destruct (returned_inv (fst repeatingRun)) as [r Hfst]; [vm_compute; reflexivity|].
  exists r. split; [done|].
  assert (idsOf (fst repeatingRun) = ["a"; "b"; "c"]) as Hids by (vm_compute; reflexivity).
  rewrite Hfst in Hids. split; [done|].
  exact (listing_has_no_duplicate_ids refStd _ _ _ _ _ _ _ (run_pair _ _ Hfst)).
Defined.

(** ** The largest files *)

Lemma String_ltb_leb a b : String.ltb a b = negb (String.leb b a).
Proof.
  unfold String.ltb, String.leb. rewrite (String.compare_antisym b a).
  by destruct (String.compare a b).
Qed.

Lemma String_ltb_asym a b : String.ltb a b = true -> String.ltb b a = false.
Proof.
  unfold String.ltb. rewrite (String.compare_antisym b a).
  by destruct (String.compare a b).
Qed.

Lemma String_ltb_negtrans a b c :
  String.ltb a c = true -> String.ltb a b = true \/ String.ltb b c = true.
Proof.
  rewrite !String_ltb_leb. intros Hac.
  destruct (String.leb b a) eqn:Hba; [|by left].
  destruct (String.leb c b) eqn:Hcb; [|by right].
  exfalso. assert (String.le c a) as Hca.
  { transitivity b; unfold String.le; by rewrite ?Hcb, ?Hba. }
  unfold String.le in Hca. destruct (String.leb c a); done.
Qed.

Lemma largestLess_StrictWeak : StrictWeak largestLess.
Proof.
  split.
  - intros a b. unfold largestLess.
    destruct (Z.eqb_spec (Bytes a) (Bytes b)) as [Heq|Hne].
    + rewrite Heq, Z.eqb_refl. apply String_ltb_asym.
    + destruct (Z.eqb_spec (Bytes b) (Bytes a)); [congruence|]. lia.
  - intros a b c. unfold largestLess.
    destruct (Z.eqb_spec (Bytes a) (Bytes c)), (Z.eqb_spec (Bytes a) (Bytes b)),
      (Z.eqb_spec (Bytes b) (Bytes c)); try lia; try apply String_ltb_negtrans;
      intros; lia.
Qed.

Lemma notAfter_largestLess a b : notAfter largestLess a b <-> largestOrdered a b.
Proof.
  unfold notAfter, largestLess, largestOrdered.
  destruct (Z.eqb_spec (Bytes b) (Bytes a)) as [Heq|Hne].
  - rewrite String_ltb_leb, negb_false_iff. unfold String.le.
    split.
    + intros Hle. right. split; [done|]. by rewrite Hle.
    + intros [?|[_ Hle]]; [lia|]. by destruct (String.leb (FilePath a) (FilePath b)).
  - rewrite Z.ltb_ge. split; [intros; left; lia|]. intros [?|[? _]]; [lia|congruence].
Qed.

Lemma orderedBy_take {A} (R : A -> A -> Prop) n l : orderedBy R l -> orderedBy R (take n l).
Proof.
  intros Hl i j x y Hij Hi Hj.
  apply lookup_take_Some in Hi as [Hi _]. apply lookup_take_Some in Hj as [Hj _].
  by eapply Hl.
Qed.

Lemma orderedBy_impl {A} (R Q : A -> A -> Prop) l :
  (forall x y, R x y -> Q x y) -> orderedBy R l -> orderedBy Q l.
Proof. intros HRQ Hl i j x y Hij Hi Hj. eapply HRQ, Hl; eauto. Qed.

Lemma pushLargestFile_invariant `{SortLaws} dst item :
  largestInvariant (pushLargestFile dst item 10).
Proof.
  unfold pushLargestFile, largestInvariant. cbn [Z.leb Z.compare].
  assert (orderedBy largestOrdered (sort_Slice largestLess (dst ++ [item]))) as Hsorted.
  { eapply orderedBy_impl; [apply notAfter_largestLess|].
    apply sort_sorted, largestLess_StrictWeak. }
  destruct (Z.ltb_spec 10 (Z.of_nat (length (sort_Slice largestLess (dst ++ [item]))))).
  - split; [rewrite length_take; lia|]. by apply orderedBy_take.
  - split; [lia|done].
Qed.

Lemma orderedBy_nil {A} (R : A -> A -> Prop) : orderedBy R [].
Proof. intros i j x y _ Hi. by rewrite lookup_nil in Hi. Qed.

Lemma scanHit_largest `{SortLaws} s h :
  largestInvariant (sc_LargestFiles s) -> largestInvariant (sc_LargestFiles (scanHit s h)).
Proof.
  intros Hinv. unfold scanHit. cbn [sc_LargestFiles].
  case_match; [apply pushLargestFile_invariant|done].
Qed.

Lemma fold_scanHit_largest `{SortLaws} hits s :
  largestInvariant (sc_LargestFiles s) ->
  largestInvariant (sc_LargestFiles (foldl scanHit s hits)).
Proof.
  revert s. induction hits as [|h hits IH]; intros s Hinv; cbn [foldl]; [done|].
  by apply IH, scanHit_largest.
Qed.

(** C7, as stated, fails: two files that agree in size and in path are both
    kept, so the list is not strictly sorted by size and then path. *)
Lemma largest_files_ties_not_strict :
  exists stats,
    fst twinRun = Ok (Some stats)
    /\ ~ orderedBy largestStrictlyOrdered (LargestFiles stats).
Proof.
  destruct (returned_inv (fst twinRun)) as [stats Hfst]; [vm_compute; reflexivity|].
  exists stats. split; [done|].
  assert (largestOf (fst twinRun) = [(5, ""); (5, "")]) as Hl by (vm_compute; reflexivity).
  rewrite Hfst in Hl. simpl in Hl.
  destruct (LargestFiles stats) as [|x [|y [|z l]]]; try discriminate Hl.
  injection Hl as Hx1 Hx2 Hy1 Hy2.
  intros Hc. destruct (Hc 0%nat 1%nat x y (le_n _) eq_refl eq_refl) as [Hlt|(_ & _ & Hne)].
  - lia.
  - apply Hne. congruence.
Qed.

(** The insertion sort of [refStd] meets the laws of [sort.Slice]. *)
Lemma insertBy_perm {A} (less : A -> A -> bool) x l : insertBy less x l ≡ₚ x :: l.
Proof.
  induction l as [|y l IH]; simpl; [done|].
  destruct (less x y); [done|]. rewrite IH. apply Permutation_swap.
Qed.

Lemma insertionSort_perm {A} (less : A -> A -> bool) l : insertionSort less l ≡ₚ l.
Proof.
  induction l as [|x l IH]; simpl; [done|]. by rewrite insertBy_perm, IH.
Qed.

Lemma insertBy_sorted {A} (less : A -> A -> bool) x l :
  StrictWeak less ->
  StronglySorted (notAfter less) l -> StronglySorted (notAfter less) (insertBy less x l).
Proof.
  intros Hsw Hs. induction Hs as [|y l Hs IH Hall]; simpl.
  - repeat constructor.
  - destruct (less x y) eqn:Hxy.
    + constructor; [by constructor|]. constructor.
      * by apply (sw_asym _ Hsw).
      * rewrite List.Forall_forall in *. intros z Hz. unfold notAfter in *.
        destruct (less z x) eqn:Hzx; [|done].
        destruct (sw_negtrans _ Hsw z y x Hzx) as [Hzy|Hyx].
        -- by rewrite (Hall z Hz) in Hzy.
        -- by rewrite (sw_asym _ Hsw _ _ Hxy) in Hyx.
    + constructor; [done|].
      rewrite List.Forall_forall in *. intros z Hz.
      apply list_elem_of_In in Hz. rewrite insertBy_perm in Hz.
      apply elem_of_cons in Hz as [->|Hz]; [done|].
      apply Hall. by apply list_elem_of_In.
Qed.

Lemma insertionSort_sorted {A} (less : A -> A -> bool) l :
  StrictWeak less -> StronglySorted (notAfter less) (insertionSort less l).
Proof.
  intros Hsw. induction l as [|x l IH]; simpl; [constructor|]. by apply insertBy_sorted.
Qed.

Lemma StronglySorted_orderedBy {A} (R : A -> A -> Prop) l :
  StronglySorted R l -> orderedBy R l.
Proof.
  intros Hs. induction Hs as [|a l Hs IH Hall]; intros i j x y Hij Hi Hj.
  - by rewrite lookup_nil in Hi.
  - destruct j as [|j]; [lia|]. destruct i as [|i]; simpl in *.
    + simplify_eq. rewrite List.Forall_forall in Hall. apply Hall.
      apply list_elem_of_In. by eapply list_elem_of_lookup_2.
    + eapply IH; [|done..]. lia.
Qed.

#[global] Instance refStd_laws : SortLaws refStd.
Proof.
  split.
  - intros A less l. apply insertionSort_perm.
  - intros A less l Hsw. apply StronglySorted_orderedBy. by apply insertionSort_sorted.
Qed.

(** C7 (amended).  After every insertion into the largest-files list, and
    in the [largest_files] a full scan returns, the list has at most ten
    entries and is sorted by size descending with equal sizes ordered by
    path ascending: of two entries the earlier one has the larger size, or
    the same size and a path that is not after the later one's.  Entries
    that agree in size and path are both kept, in either order. *)
Theorem largest_files_bounded_sorted (std : GoStd) (laws : SortLaws std) :
  (forall dst item,
      (length (pushLargestFile dst item 10) <= 10)%nat
      /\ orderedBy largestOrdered (pushLargestFile dst item 10))
  /\ (forall c es index aipUUID pageSize stats trace,
      AIPStats_run c es index aipUUID pageSize = (Ok (Some stats), trace) ->
      (length (LargestFiles stats) <= 10)%nat
      /\ orderedBy largestOrdered (LargestFiles stats)).
Proof.
  split.
  - intros dst item. apply pushLargestFile_invariant.
  - intros c es index aipUUID pageSize stats trace Hrun.
    rewrite (AIPStats_run_fold _ _ _ _ _ _ _ Hrun). cbn [finalize LargestFiles].
    apply fold_scanHit_largest. split; [simpl; lia|apply orderedBy_nil].
Qed.

Lemma largest_files_bounded_sorted_witness :
  exists stats,
    fst twelveFilesRun = Ok (Some stats)
    /\ map fst (largestOf (fst twelveFilesRun)) = [12; 11; 9; 8; 7; 7; 7; 5; 4; 3]
    /\ (length (LargestFiles stats) <= 10)%nat
    /\ orderedBy largestOrdered (LargestFiles stats).
Proof.
  destruct (returned_inv (fst twelveFilesRun)) as [stats Hfst]; [vm_compute; reflexivity|].
  exists stats. split; [done|]. split; [vm_compute; reflexivity|].
  exact (proj2 (largest_files_bounded_sorted refStd refStd_laws) _ _ _ _ _ _ _
           (run_pair _ _ Hfst)).
Defined.

(** ** The cursor codec: what the decoders accept *)

Lemma b64decodeFrom_defined src q :
  (length q < 4)%nat ->
  is_Some (b64decodeFrom src q) <->
  Forall (fun c => isB64 c || isNewline c = true) src
  /\ ((length q + b64count src) mod 4 <> 1)%nat.
Proof.
  revert q. induction src as [|c r IH]; intros q Hq.
  - cbn [b64decodeFrom b64count]. rewrite Nat.add_0_r.
    destruct q as [|d0 [|d1 [|d2 [|d3 q]]]]; simpl in *; try lia.
    + split; [intros _; split; [constructor|lia]|intros _; eauto].
    + split; [intros [? [=]]|intros [_ ?]; lia].
    + split; [intros _; split; [constructor|lia]|intros _; eauto].
    + split; [intros _; split; [constructor|lia]|intros _; eauto].
  - cbn [b64decodeFrom b64count]. unfold isB64 at 2.
    destruct (decodeMap c) as [d|] eqn:Hd.
    + assert (isB64 c || isNewline c = true) as Hc by (unfold isB64; by rewrite Hd).
      rewrite Forall_cons.
      destruct q as [|d0 [|d1 [|d2 [|d3 q]]]]; simpl in Hq; try lia.
      * rewrite (IH [d]) by (simpl; lia). simpl. tauto.
      * rewrite (IH [d0; d]) by (simpl; lia). simpl.
        replace (1 + (1 + b64count r))%nat with (2 + b64count r)%nat by lia. tauto.
      * rewrite (IH [d0; d1; d]) by (simpl; lia). simpl.
        replace (2 + (1 + b64count r))%nat with (3 + b64count r)%nat by lia. tauto.
      * cbn [length].
        replace (3 + (1 + b64count r))%nat with (b64count r + 1 * 4)%nat by lia.
        rewrite Nat.Div0.mod_add.
        specialize (IH [] ltac:(simpl; lia)). simpl in IH.
        destruct (b64decodeFrom r []) as [out|].
        -- split; [intros _|eauto]. split; [split; [done|]|]; apply IH; eauto.
        -- split; [intros [? [=]]|]. intros [[_ Hr] Hm].
           assert (is_Some (@None (list ascii))) as [? [=]]. apply IH. done.
    + rewrite Forall_cons. unfold isB64 at 1. rewrite Hd. simpl.
      destruct (isNewline c) eqn:Hnl.
      * assert (b64decodeFrom r q = match c with
                                    | "010"%char | "013"%char => b64decodeFrom r q
                                    | _ => None
                                    end) as <-.
        { revert Hnl. unfold isNewline.
          destruct c as [[] [] [] [] [] [] [] []]; simpl; congruence. }
        rewrite (IH q Hq). tauto.
      * assert (match c with
                | "010"%char | "013"%char => b64decodeFrom r q
                | _ => None
                end = None) as ->.
        { revert Hnl. unfold isNewline.
          destruct c as [[] [] [] [] [] [] [] []]; simpl; congruence. }
        split; [intros [? [=]]|]. intros [[[=] _] _].
Qed.

(** Induction on a syntax tree with the hypothesis for every element of an
    array and every member of an object. *)
Lemma jsyn_nested_ind (P : jsyn -> Prop) :
  P SNull -> (forall b, P (SBool b)) -> (forall lit, P (SNum lit)) -> (forall s, P (SStr s)) ->
  (forall l, Forall P l -> P (SArr l)) ->
  (forall l, Forall (fun kv => P (snd kv)) l -> P (SObj l)) ->
  forall v, P v.
Proof.
  intros Hnull Hbool Hnum Hstr Harr Hobj. fix IH 1.
  intros [|b|lit|s|l|l]; [exact Hnull|apply Hbool|apply Hnum|apply Hstr| |].
  - apply Harr. induction l as [|x l IHl]; constructor; [apply IH|apply IHl].
  - apply Hobj. induction l as [|[k x] l IHl]; constructor; [apply IH|apply IHl].
Qed.

Ltac some_iff :=
  split;
  [ first [ by eauto | by intros []%is_Some_None ]
  | first [ by eauto | discriminate | by intros [[]%is_Some_None _]
          | by intros [_ []%is_Some_None] ] ].

Lemma allSome_defined {A B} (f : A -> option B) (ok : A -> bool) (l : list A) :
  Forall (fun x => is_Some (f x) <-> ok x = true) l ->
  is_Some (allSome (map f l)) <-> forallb ok l = true.
Proof.
  induction 1 as [|x l Hx _ IH]; simpl; [by eauto|].
  rewrite andb_true_iff, <- Hx, <- IH.
  destruct (f x), (allSome (map f l)); some_iff.
Qed.

Lemma toAny_defined `{GoStd} v : is_Some (toAny v) <-> numbersOK v = true.
Proof.
  revert v. apply jsyn_nested_ind; [| intros b | intros lit | intros s | intros l IH | intros l IH];
    cbn [toAny numbersOK]; try (split; eauto; fail).
  - destruct (strconv_ParseFloat (b2s lit)); some_iff.
  - rewrite <- (allSome_defined toAny numbersOK l IH).
    destruct (allSome (map toAny l)); some_iff.
  - match goal with
    | |- is_Some (match ?fx l ∅ with _ => _ end) <-> _ =>
        assert (forall m, is_Some (fx l m) <-> forallb (fun kv => numbersOK (snd kv)) l = true)
          as Hm
    end.
    { induction l as [|[k x] l IHl]; intros m; simpl; [by eauto|].
      apply Forall_cons in IH as [Hx IH]. specialize (IHl IH). simpl in Hx.
      rewrite andb_true_iff, <- Hx.
      destruct (toAny x) as [a|].
      - rewrite IHl. split; eauto. intros [_ ?]. done.
      - some_iff. }
    rewrite <- (Hm ∅).
    match goal with
    | |- is_Some (match ?t with _ => _ end) <-> _ => destruct t
    end; some_iff.
Qed.

Lemma json_Unmarshal_defined `{GoStd} blob :
  isErr (json_Unmarshal blob) = false <-> cursorPayload blob.
Proof.
  unfold json_Unmarshal, cursorPayload.
  destruct (parseJSON blob) as [[|b|lit|s|l|l]|]; simpl;
    try (split; [discriminate|intros [[=]|(l' & [=] & _)]]; fail).
  - split; [by left|done].
  - pose proof (allSome_defined toAny numbersOK l) as Hall.
    rewrite Forall_forall in Hall. specialize (Hall (fun x _ => toAny_defined x)).
    destruct (allSome (map toAny l)) as [vs|]; simpl.
    + split; [intros _; right; exists l; split; [done|]; apply Hall; eauto|done].
    + split; [discriminate|]. intros [[=]|(l' & [= <-] & Hok)].
      apply Hall in Hok as [? [=]].
Qed.

Lemma b64decode_defined chars : is_Some (b64decode chars) <-> base64Lenient chars.
Proof.
  unfold b64decode, base64Lenient. rewrite b64decodeFrom_defined by (simpl; lia). done.
Qed.

(** ** The cursor codec: round trip *)

(** *** Bytes *)

Lemma byteZ_range c : 0 <= byteZ c < 256.
Proof.
  unfold byteZ. pose proof (N_ascii_bounded c) as Hb. lia.
Qed.

Lemma zbyte_byteZ c : zbyte (byteZ c) = c.
Proof. unfold zbyte, byteZ. rewrite N2Z.id. apply ascii_N_embedding. Qed.

Lemma byteZ_zbyte z : 0 <= z < 256 -> byteZ (zbyte z) = z.
Proof.
  intros Hz. unfold zbyte, byteZ. rewrite N_ascii_embedding by lia. lia.
Qed.

Lemma s2b_b2s l : s2b (b2s l) = l.
Proof. apply list_ascii_of_string_of_list_ascii. Qed.

Lemma b2s_s2b s : b2s (s2b s) = s.
Proof. apply string_of_list_ascii_of_string. Qed.

(** *** base64: bit operations as arithmetic *)

Lemma lor_shiftl_add hi lo k :
  0 <= k -> 0 <= lo < 2 ^ k -> Z.lor (Z.shiftl hi k) lo = hi * 2 ^ k + lo.
Proof.
  intros Hk Hlo. rewrite Z.shiftl_mul_pow2 by done.
  rewrite <- Z.lxor_lor, <- Z.add_nocarry_lxor; try done.
  all: apply Z.bits_inj'; intros n Hn; rewrite Z.land_spec, Z.bits_0.
  all: destruct (Z.lt_ge_cases n k) as [Hlt|Hge].
  all: try (rewrite Z.mul_pow2_bits_low by lia; done).
  all: destruct (Z.eq_dec lo 0) as [->|Hne]; [by rewrite Z.bits_0, andb_false_r|].
  all: rewrite (Z.bits_above_log2 lo n), andb_false_r; try done; try lia.
  all: apply Z.lt_le_trans with k; [|done]; apply Z.log2_lt_pow2; lia.
Qed.

Lemma land_ones_mod a k : 0 <= k -> Z.land a (2 ^ k - 1) = a mod 2 ^ k.
Proof.
  intros Hk. replace (2 ^ k - 1) with (Z.ones k) by (rewrite Z.ones_equiv; lia).
  by apply Z.land_ones.
Qed.

Ltac pows :=
  change (2 ^ 6) with 64 in *; change (2 ^ 8) with 256 in *;
  change (2 ^ 12) with 4096 in *; change (2 ^ 16) with 65536 in *;
  change (2 ^ 18) with 262144 in *; change (2 ^ 24) with 16777216 in *.

Lemma lor_shl (hi lo k : Z) (p : Z) :
  0 <= k -> p = 2 ^ k -> 0 <= lo < p -> Z.lor (hi * p) lo = hi * p + lo.
Proof.
  intros Hk -> Hlo. rewrite <- (lor_shiftl_add hi lo k) by done.
  by rewrite Z.shiftl_mul_pow2.
Qed.

Lemma quantumVal_add d0 d1 d2 d3 :
  0 <= d0 < 64 -> 0 <= d1 < 64 -> 0 <= d2 < 64 -> 0 <= d3 < 64 ->
  quantumVal d0 d1 d2 d3 = d0 * 262144 + d1 * 4096 + d2 * 64 + d3.
Proof.
  intros H0 H1 H2 H3. unfold quantumVal. rewrite !Z.shiftl_mul_pow2 by lia. pows.
  rewrite (lor_shl d0 (d1 * 4096) 18) by (done || lia).
  replace (d0 * 262144 + d1 * 4096) with ((d0 * 64 + d1) * 4096) by lia.
  rewrite (lor_shl _ (d2 * 64) 12) by (done || lia).
  replace ((d0 * 64 + d1) * 4096 + d2 * 64) with ((d0 * 4096 + d1 * 64 + d2) * 64) by lia.
  rewrite (lor_shl _ d3 6) by (done || lia). lia.
Qed.

Lemma groupVal_add b0 b1 b2 :
  0 <= b0 < 256 -> 0 <= b1 < 256 -> 0 <= b2 < 256 ->
  Z.lor (Z.lor (Z.shiftl b0 16) (Z.shiftl b1 8)) b2 = b0 * 65536 + b1 * 256 + b2.
Proof.
  intros H0 H1 H2. rewrite !Z.shiftl_mul_pow2 by lia. pows.
  rewrite (lor_shl b0 (b1 * 256) 16) by (done || lia).
  replace (b0 * 65536 + b1 * 256) with ((b0 * 256 + b1) * 256) by lia.
  rewrite (lor_shl _ b2 8) by (done || lia). lia.
Qed.

Lemma sextet_div val k :
  0 <= k -> Z.land (Z.shiftr val k) 0x3F = (val / 2 ^ k) mod 64.
Proof.
  intros Hk. change 0x3F with (2 ^ 6 - 1).
  by rewrite Z.shiftr_div_pow2, land_ones_mod by lia.
Qed.

Lemma octet_div val k :
  0 <= k -> Z.land (Z.shiftr val k) 0xFF = (val / 2 ^ k) mod 256.
Proof.
  intros Hk. change 0xFF with (2 ^ 8 - 1).
  by rewrite Z.shiftr_div_pow2, land_ones_mod by lia.
Qed.

Lemma sextet_range val k : 0 <= (val / 2 ^ k) mod 64 < 64.
Proof. apply Z.mod_pos_bound. lia. Qed.

(** A full group: the four digits of three bytes give the bytes back. *)
Lemma b64_group3 b0 b1 b2 :
  0 <= b0 < 256 -> 0 <= b1 < 256 -> 0 <= b2 < 256 ->
  let val := b0 * 65536 + b1 * 256 + b2 in
  let q := quantumVal ((val / 2 ^ 18) mod 64) ((val / 2 ^ 12) mod 64)
                      ((val / 2 ^ 6) mod 64) ((val / 2 ^ 0) mod 64) in
  (q / 2 ^ 16) mod 256 = b0 /\ (q / 2 ^ 8) mod 256 = b1 /\ (q / 2 ^ 0) mod 256 = b2.
Proof.
  intros H0 H1 H2 val q. unfold q.
  rewrite quantumVal_add by apply sextet_range.
  change (2 ^ 0) with 1. pows. rewrite !Z.div_1_r.
  assert (0 <= val < 16777216) as Hval by (unfold val; lia).
  replace ((val / 262144) mod 64 * 262144 + (val / 4096) mod 64 * 4096
           + (val / 64) mod 64 * 64 + val mod 64) with val
    by (clear -Hval; Z.div_mod_to_equations; lia).
  unfold val. clear -H0 H1 H2. repeat split; Z.div_mod_to_equations; lia.
Qed.

(** A final group of two bytes (three digits). *)
Lemma b64_group2 b0 b1 :
  0 <= b0 < 256 -> 0 <= b1 < 256 ->
  let val := b0 * 65536 + b1 * 256 + 0 in
  let q := quantumVal ((val / 2 ^ 18) mod 64) ((val / 2 ^ 12) mod 64)
                      ((val / 2 ^ 6) mod 64) 0 in
  (q / 2 ^ 16) mod 256 = b0 /\ (q / 2 ^ 8) mod 256 = b1.
Proof.
  intros H0 H1 val q. unfold q.
  rewrite quantumVal_add by (apply sextet_range || lia). pows.
  assert (0 <= val < 16777216 /\ val mod 256 = 0) as Hval
    by (unfold val; split; [lia|Z.div_mod_to_equations; lia]).
  replace ((val / 262144) mod 64 * 262144 + (val / 4096) mod 64 * 4096
           + (val / 64) mod 64 * 64 + 0) with val
    by (clear -Hval; Z.div_mod_to_equations; lia).
  unfold val. clear -H0 H1. repeat split; Z.div_mod_to_equations; lia.
Qed.

(** A final group of one byte (two digits). *)
Lemma b64_group1 b0 :
  0 <= b0 < 256 ->
  let val := b0 * 65536 + 0 * 256 + 0 in
  let q := quantumVal ((val / 2 ^ 18) mod 64) ((val / 2 ^ 12) mod 64) 0 0 in
  (q / 2 ^ 16) mod 256 = b0.
Proof.
  intros H0 val q. unfold q.
  rewrite quantumVal_add by (apply sextet_range || lia). pows.
  assert (0 <= val < 16777216 /\ val mod 65536 = 0) as Hval
    by (unfold val; split; [lia|Z.div_mod_to_equations; lia]).
  replace ((val / 262144) mod 64 * 262144 + (val / 4096) mod 64 * 4096 + 0 * 64 + 0)
    with (val - val mod 4096) by (clear -Hval; Z.div_mod_to_equations; lia).
  unfold val. clear -H0. Z.div_mod_to_equations. lia.
Qed.

(** *** base64: decoding an encoded text *)

Lemma b64char_table :
  forallb (fun n => match decodeMap (b64char (Z.of_nat n)) with
                    | Some d => d =? Z.of_nat n
                    | None => false
                    end) (seq 0 64) = true.
Proof. vm_compute. reflexivity. Qed.

Lemma decodeMap_b64char v : 0 <= v < 64 -> decodeMap (b64char v) = Some v.
Proof.
  intros Hv. pose proof b64char_table as Ht.
  rewrite forallb_forall in Ht. specialize (Ht (Z.to_nat v)).
  rewrite Z2Nat.id in Ht by lia.
  destruct (decodeMap (b64char v)) as [d|].
  - f_equal. apply Z.eqb_eq, Ht. apply in_seq. lia.
  - discriminate Ht. apply in_seq. lia.
Qed.

Lemma b64decode_encode blob : b64decode (b64encode blob) = Some blob.
Proof.
  unfold b64decode.
  assert (forall n blob, (length blob < n)%nat -> b64decodeFrom (b64encode blob) [] = Some blob)
    as Hn; [|apply (Hn (S (length blob))); lia].
  clear blob. induction n as [|n IH]; intros blob Hlen; [lia|].
  destruct blob as [|c0 [|c1 [|c2 r]]].
  - done.
  - pose proof (byteZ_range c0) as H0.
    pose proof (b64_group1 (byteZ c0) H0) as Hb0. cbv zeta in Hb0.
    cbn [b64encode].
    replace (Z.shiftl (byteZ c0) 16)
      with (Z.lor (Z.lor (Z.shiftl (byteZ c0) 16) (Z.shiftl 0 8)) 0)
      by (change (Z.shiftl 0 8) with 0; by rewrite !Z.lor_0_r).
    rewrite groupVal_add, !sextet_div by lia.
    repeat (cbn [app b64decodeFrom]; rewrite ?decodeMap_b64char by apply sextet_range).
    unfold lowByte. by rewrite octet_div, Hb0, zbyte_byteZ by lia.
  - pose proof (byteZ_range c0) as H0. pose proof (byteZ_range c1) as H1.
    pose proof (b64_group2 (byteZ c0) (byteZ c1) H0 H1) as [Hb0 Hb1]. cbv zeta in Hb0, Hb1.
    cbn [b64encode].
    rewrite <- (Z.lor_0_r (Z.lor (Z.shiftl (byteZ c0) 16) (Z.shiftl (byteZ c1) 8))).
    rewrite groupVal_add, !sextet_div by lia.
    repeat (cbn [app b64decodeFrom]; rewrite ?decodeMap_b64char by apply sextet_range).
    unfold lowByte. by rewrite !octet_div, Hb0, Hb1, !zbyte_byteZ by lia.
  - pose proof (byteZ_range c0) as H0. pose proof (byteZ_range c1) as H1.
    pose proof (byteZ_range c2) as H2.
    pose proof (b64_group3 (byteZ c0) (byteZ c1) (byteZ c2) H0 H1 H2) as (Hb0 & Hb1 & Hb2).
    cbv zeta in Hb0, Hb1, Hb2.
    cbn [b64encode]. rewrite groupVal_add by lia.
    rewrite <- (Z.shiftr_0_r (byteZ c0 * 65536 + byteZ c1 * 256 + byteZ c2)) at 4.
    rewrite !sextet_div by lia.
    repeat (cbn [app b64decodeFrom]; rewrite ?decodeMap_b64char by apply sextet_range).
    rewrite IH by (simpl in Hlen; lia).
    unfold lowByte.
    rewrite <- (Z.shiftr_0_r (quantumVal _ _ _ _)) at 3.
    by rewrite !octet_div, Hb0, Hb1, Hb2, !zbyte_byteZ by lia.
Qed.

(** *** base64: the encoded text *)

Lemma land63_range x : 0 <= Z.land x 0x3F < 64.
Proof.
  change 0x3F with (2 ^ 6 - 1). rewrite land_ones_mod by lia. apply Z.mod_pos_bound. lia.
Qed.

Lemma isB64_b64char v : 0 <= v < 64 -> isB64 (b64char v) = true.
Proof. intros Hv. unfold isB64. by rewrite decodeMap_b64char. Qed.

Lemma b64encode_chars blob : Forall (fun c => isB64 c = true) (b64encode blob).
Proof.
  assert (forall n blob, (length blob < n)%nat ->
                         Forall (fun c => isB64 c = true) (b64encode blob)) as Hn;
    [|apply (Hn (S (length blob))); lia].
  clear blob. induction n as [|n IH]; intros blob Hlen; [lia|].
  destruct blob as [|c0 [|c1 [|c2 r]]]; cbn [b64encode].
  - constructor.
  - repeat constructor; apply isB64_b64char, land63_range.
  - repeat constructor; apply isB64_b64char, land63_range.
  - repeat (constructor; [apply isB64_b64char, land63_range|]).
    apply IH. simpl in Hlen. lia.
Qed.

Lemma b64encode_nonempty blob : blob <> [] -> b64encode blob <> [].
Proof. destruct blob as [|c0 [|c1 [|c2 r]]]; done. Qed.

(** An alphabet byte is a plain ASCII byte that is not white space. *)
Lemma isB64_plain c : isB64 c = true -> asciiSpace c = false /\ byteZ c < 0x80.
Proof.
  destruct c as [[] [] [] [] [] [] [] []];
    vm_compute; first [ discriminate | intros _; split; reflexivity ].
Qed.

Lemma space2_ascii b0 b1 : b0 < 0x80 -> space2 b0 b1 = false.
Proof. intros Hb. unfold space2. destruct (Z.eqb_spec b0 0xC2); [lia|done]. Qed.

Lemma space3_ascii b0 b1 b2 : b0 < 0x80 -> space3 b0 b1 b2 = false.
Proof.
  intros Hb. unfold space3.
  destruct (Z.eqb_spec b0 0xE1), (Z.eqb_spec b0 0xE2), (Z.eqb_spec b0 0xE3);
    first [ lia | done ].
Qed.

Lemma dropSpaces_plain back l :
  Forall (fun c => isB64 c = true) l -> dropSpaces back l = l.
Proof.
  intros Hl. destruct l as [|c0 [|c1 [|c2 r]]]; [done|..];
    repeat match goal with
           | H : Forall _ (_ :: _) |- _ => apply Forall_cons in H as [?%isB64_plain H]
           end; destruct_and?; cbn [dropSpaces];
    repeat match goal with
           | H : asciiSpace _ = false |- _ => rewrite H
           end; try done.
  - destruct back; by rewrite space2_ascii.
  - destruct back; rewrite space2_ascii by done; by rewrite space3_ascii.
Qed.

Lemma trimSpaceBytes_plain l :
  Forall (fun c => isB64 c = true) l -> trimSpaceBytes l = l.
Proof.
  intros Hl. unfold trimSpaceBytes. rewrite (dropSpaces_plain false l Hl).
  rewrite dropSpaces_plain; [apply rev_involutive|].
  apply Forall_forall. intros c Hc. rewrite Forall_forall in Hl. apply Hl.
  apply list_elem_of_In. apply list_elem_of_In in Hc. by apply in_rev.
Qed.

(** *** UTF-8 *)

(** Resolve the boolean tests of the goal that arithmetic decides. *)
Ltac decide_tests :=
  repeat match goal with
         | |- context [if ?b then _ else _] =>
             first [ replace b with true by lia | replace b with false by lia ]
         end.

Lemma DecodeRune_shape s r w :
  DecodeRune s = (r, w) -> (1 < w)%nat ->
  (exists c0 c1 t, s = c0 :: c1 :: t /\ w = 2%nat /\ wide2 (byteZ c0) (byteZ c1)
                   /\ r = (byteZ c0 - 0xC0) * 64 + (byteZ c1 - 0x80))
  \/ (exists c0 c1 c2 t, s = c0 :: c1 :: c2 :: t /\ w = 3%nat
                          /\ wide3 (byteZ c0) (byteZ c1) (byteZ c2)
                          /\ r = (byteZ c0 - 0xE0) * 4096 + (byteZ c1 - 0x80) * 64
                                 + (byteZ c2 - 0x80))
  \/ (exists c0 c1 c2 c3 t, s = c0 :: c1 :: c2 :: c3 :: t /\ w = 4%nat
                             /\ wide4 (byteZ c0) (byteZ c1) (byteZ c2) (byteZ c3)
                             /\ r = (byteZ c0 - 0xF0) * 262144 + (byteZ c1 - 0x80) * 4096
                                    + (byteZ c2 - 0x80) * 64 + (byteZ c3 - 0x80)).
Proof.
  unfold DecodeRune, isCont, wide2, wide3, wide4. intros Hdec Hw.
  destruct s as [|c0 s]; [simplify_eq; lia|].
  destruct (byteZ c0 <? 0x80) eqn:E1; [simplify_eq; lia|].
  destruct ((byteZ c0 <? 0xC2) || (0xF4 <? byteZ c0)) eqn:E2; [simplify_eq; lia|].
  destruct s as [|c1 s]; [simplify_eq; lia|].
  match type of Hdec with
  | context [if (byteZ c1 <? ?lo) || (?hi <? byteZ c1) then _ else _] =>
      set (L := lo) in *; set (U := hi) in *;
      assert (0x80 <= L /\ U <= 0xBF
              /\ (byteZ c0 = 0xE0 -> L = 0xA0) /\ (byteZ c0 = 0xF0 -> L = 0x90)
              /\ (byteZ c0 = 0xED -> U = 0x9F) /\ (byteZ c0 = 0xF4 -> U = 0x8F)) as Hlh
        by (subst L U; repeat case_match; lia)
  end.
  clearbody L U.
  destruct ((byteZ c1 <? L) || (U <? byteZ c1)) eqn:E3; [simplify_eq; lia|].
  destruct (byteZ c0 <? 0xE0) eqn:E4.
  { left. simplify_eq. exists c0, c1, s. repeat split; lia. }
  destruct s as [|c2 s]; [simplify_eq; lia|].
  destruct (negb ((0x80 <=? byteZ c2) && (byteZ c2 <=? 0xBF))) eqn:E5; [simplify_eq; lia|].
  destruct (byteZ c0 <? 0xF0) eqn:E6.
  { right. left. simplify_eq. exists c0, c1, c2, s. repeat split; lia. }
  destruct s as [|c3 s]; [simplify_eq; lia|].
  destruct (negb ((0x80 <=? byteZ c3) && (byteZ c3 <=? 0xBF))) eqn:E7; [simplify_eq; lia|].
  right. right. simplify_eq. exists c0, c1, c2, c3, s. repeat split; lia.
Qed.

Ltac encode_rune_tac :=
  unfold EncodeRune, isSurrogate, MaxRune, RuneError; decide_tests;
  repeat match goal with
         | |- zbyte ?z :: _ = ?c :: _ =>
             replace z with (byteZ c) by (Z.div_mod_to_equations; lia);
             rewrite (zbyte_byteZ c); f_equal
         end; reflexivity.

Lemma EncodeRune_wide2 c0 c1 :
  wide2 (byteZ c0) (byteZ c1) ->
  EncodeRune ((byteZ c0 - 0xC0) * 64 + (byteZ c1 - 0x80)) = [c0; c1].
Proof. unfold wide2. intros Hw. encode_rune_tac. Qed.

Lemma EncodeRune_wide3 c0 c1 c2 :
  wide3 (byteZ c0) (byteZ c1) (byteZ c2) ->
  EncodeRune ((byteZ c0 - 0xE0) * 4096 + (byteZ c1 - 0x80) * 64 + (byteZ c2 - 0x80))
  = [c0; c1; c2].
Proof. unfold wide3. intros Hw. encode_rune_tac. Qed.

Lemma EncodeRune_wide4 c0 c1 c2 c3 :
  wide4 (byteZ c0) (byteZ c1) (byteZ c2) (byteZ c3) ->
  EncodeRune ((byteZ c0 - 0xF0) * 262144 + (byteZ c1 - 0x80) * 4096
              + (byteZ c2 - 0x80) * 64 + (byteZ c3 - 0x80))
  = [c0; c1; c2; c3].
Proof. unfold wide4. intros Hw. encode_rune_tac. Qed.

Ltac decode_rune_tac :=
  unfold DecodeRune, isCont;
  repeat (decide_tests;
          try match goal with
              | |- context [if ?a =? ?b then _ else _] => destruct (Z.eqb_spec a b)
              end);
  reflexivity.

Lemma DecodeRune_wide2 c0 c1 X :
  wide2 (byteZ c0) (byteZ c1) ->
  DecodeRune (c0 :: c1 :: X) = ((byteZ c0 - 0xC0) * 64 + (byteZ c1 - 0x80), 2%nat).
Proof. unfold wide2. intros Hw. decode_rune_tac. Qed.

Lemma DecodeRune_wide3 c0 c1 c2 X :
  wide3 (byteZ c0) (byteZ c1) (byteZ c2) ->
  DecodeRune (c0 :: c1 :: c2 :: X)
  = ((byteZ c0 - 0xE0) * 4096 + (byteZ c1 - 0x80) * 64 + (byteZ c2 - 0x80), 3%nat).
Proof. unfold wide3. intros Hw. decode_rune_tac. Qed.

Lemma DecodeRune_wide4 c0 c1 c2 c3 X :
  wide4 (byteZ c0) (byteZ c1) (byteZ c2) (byteZ c3) ->
  DecodeRune (c0 :: c1 :: c2 :: c3 :: X)
  = ((byteZ c0 - 0xF0) * 262144 + (byteZ c1 - 0x80) * 4096
     + (byteZ c2 - 0x80) * 64 + (byteZ c3 - 0x80), 4%nat).
Proof. unfold wide4. intros Hw. decode_rune_tac. Qed.

(** A well-formed multi-byte sequence is the encoding of the rune it decodes
    to, and decoding looks at no byte after it. *)
Lemma DecodeRune_wide s r w :
  DecodeRune s = (r, w) -> (1 < w)%nat ->
  EncodeRune r = take w s
  /\ length (take w s) = w
  /\ 0x80 <= r
  /\ (forall X, DecodeRune (take w s ++ X) = (r, w))
  /\ (exists c0 t, take w s = c0 :: t /\ 0x80 <= byteZ c0).
Proof.
  intros Hdec Hw.
  destruct (DecodeRune_shape s r w Hdec Hw)
    as [(c0 & c1 & t & -> & -> & Hs & ->)
       |[(c0 & c1 & c2 & t & -> & -> & Hs & ->)
        |(c0 & c1 & c2 & c3 & t & -> & -> & Hs & ->)]]; cbn [take app].
  - split; [by apply EncodeRune_wide2|]. split; [done|].
    split; [unfold wide2 in Hs; lia|]. split; [intros X; by apply DecodeRune_wide2|].
    exists c0, [c1]. split; [done|]. unfold wide2 in Hs. lia.
  - split; [by apply EncodeRune_wide3|]. split; [done|].
    split; [unfold wide3 in Hs; lia|]. split; [intros X; by apply DecodeRune_wide3|].
    exists c0, [c1; c2]. split; [done|]. unfold wide3 in Hs. lia.
  - split; [by apply EncodeRune_wide4|]. split; [done|].
    split; [unfold wide4 in Hs; lia|]. split; [intros X; by apply DecodeRune_wide4|].
    exists c0, [c1; c2; c3]. split; [done|]. unfold wide4 in Hs. lia.
Qed.

(** *** JSON strings: unquoting a quoted string *)

Lemma scan_quote_ascii c X fuel :
  isASCII c = true ->
  scanString (S fuel) (quoteRune (byteZ c, [c]) ++ X) = scanNext fuel [c] X.
Proof.
  destruct c as [[] [] [] [] [] [] [] []]; intros Hc; try discriminate Hc; reflexivity.
Qed.

Lemma scanString_wide c0 t X fuel :
  0x80 <= byteZ c0 ->
  scanString (S fuel) (c0 :: t ++ X)
  = let '(rr, size) := DecodeRune (c0 :: t ++ X) in
    scanNext fuel (EncodeRune rr) (drop size (c0 :: t ++ X)).
Proof.
  intros Hc. cbn [scanString].
  destruct (ascii_dec c0 dquote) as [->|_]; [vm_compute in Hc; done|].
  destruct (ascii_dec c0 "\") as [->|_]; [vm_compute in Hc; done|].
  unfold isASCII. replace (byteZ c0 <? 0x20) with false by lia.
  replace (byteZ c0 <? 0x80) with false by lia. reflexivity.
Qed.

Lemma scan_quote_wide s r w X fuel :
  DecodeRune s = (r, w) -> (1 < w)%nat ->
  scanString (S fuel) (quoteRune (r, take w s) ++ X) = scanNext fuel (take w s) X.
Proof.
  intros Hdec Hw.
  destruct (DecodeRune_wide s r w Hdec Hw) as (Henc & Hlen & Hr & Happ & c0 & t & Hbs & Hc0).
  unfold quoteRune. rewrite Hbs.
  destruct t as [|c1 t]; [rewrite Hbs in Hlen; simpl in Hlen; lia|].
  destruct ((r =? 0x2028) || (r =? 0x2029)) eqn:Hsep.
  - rewrite <- Hbs, <- Henc.
    assert (r = 0x2028 \/ r = 0x2029) as [-> | ->] by lia; reflexivity.
  - rewrite <- app_comm_cons, scanString_wide by done.
    rewrite app_comm_cons, <- Hbs, Happ.
    replace (drop w (take w s ++ X)) with (drop (length (take w s)) (take w s ++ X))
      by (by rewrite Hlen).
    by rewrite drop_app_length, Henc.
Qed.

Lemma quoteRune_nonempty r bs : bs <> [] -> quoteRune (r, bs) <> [].
Proof.
  intros Hbs. unfold quoteRune. destruct bs as [|c [|c' bs]]; [done| |].
  - destruct c as [[] [] [] [] [] [] [] []]; discriminate.
  - destruct ((r =? 0x2028) || (r =? 0x2029)); discriminate.
Qed.

Lemma DecodeRune_width s : s <> [] -> (1 <= snd (DecodeRune s) <= length s)%nat.
Proof.
  intros Hs. destruct (DecodeRune s) as [r w] eqn:Hdec.
  destruct (decide (1 < w)%nat) as [Hw|Hw].
  - destruct (DecodeRune_wide s r w Hdec Hw) as (_ & Hlen & _). simpl.
    rewrite length_take in Hlen. lia.
  - simpl. destruct s as [|c0 s]; [done|]. simpl. split; [|lia].
    unfold DecodeRune in Hdec. repeat case_match; simplify_eq; lia.
Qed.

Lemma scan_quoteBody n : forall s F X,
  (length s <= n)%nat ->
  forallb validRune (runesFrom n s) = true ->
  (length (runesFrom n s) < F)%nat ->
  scanString F (flat_map quoteRune (runesFrom n s) ++ dquote :: X) = Some (s, X).
Proof.
  induction n as [|n IH]; intros s F X Hn Hvalid HF.
  { destruct s; [|simpl in Hn; lia]. destruct F; [simpl in HF; lia|]. reflexivity. }
  destruct s as [|c0 s0].
  { destruct F; [simpl in HF; lia|]. reflexivity. }
  cbn [runesFrom] in *. destruct (DecodeRune (c0 :: s0)) as [r w] eqn:Hdec.
  pose proof (DecodeRune_width (c0 :: s0) ltac:(done)) as Hwidth. rewrite Hdec in Hwidth.
  simpl in Hwidth.
  cbn [forallb flat_map length] in *. apply andb_true_iff in Hvalid as [Hv Hvalid].
  destruct F as [|F]; [lia|].
  assert (length (drop w (c0 :: s0)) <= n)%nat as Hn'.
  { rewrite length_drop. simpl in *. lia. }
  specialize (IH (drop w (c0 :: s0)) F X Hn' Hvalid ltac:(lia)).
  rewrite <- app_assoc.
  destruct (decide (1 < w)%nat) as [Hw|Hw].
  - rewrite (scan_quote_wide _ _ _ _ _ Hdec Hw). unfold scanNext. rewrite IH.
    by rewrite take_drop.
  - assert (w = 1%nat) as -> by lia.
    unfold validRune in Hv. cbn [fst snd take length] in *.
    unfold DecodeRune in Hdec.
    destruct (byteZ c0 <? 0x80) eqn:Hascii.
    + injection Hdec as <-. rewrite scan_quote_ascii by done.
      unfold scanNext. rewrite IH. reflexivity.
    + assert (r = RuneError) as -> by (repeat case_match; simplify_eq; done).
      discriminate Hv.
Qed.

(** *** The recursion budgets of the JSON reader are never used up *)

Lemma skipWS_length s : (length (skipWS s) <= length s)%nat.
Proof.
  induction s as [|c s IH]; simpl; [done|]. destruct (isWS c); simpl; lia.
Qed.

Lemma spanDigits_length s d t :
  spanDigits s = (d, t) -> (length d + length t = length s)%nat.
Proof.
  revert d t. induction s as [|c s IH]; intros d t Hs; simpl in *; [by simplify_eq|].
  destruct (isDigit c); [|by simplify_eq].
  destruct (spanDigits s) as [d' t'] eqn:Hs'. simplify_eq. simpl.
  specialize (IH d' t eq_refl). lia.
Qed.

Lemma scanNumber_rest s lit rest :
  scanNumber s = Some (lit, rest) -> (length rest < length s)%nat.
Proof.
  unfold scanNumber.
  assert (forall s1 ip s2, scanInt s1 = Some (ip, s2) -> (length s2 < length s1)%nat) as Hint.
  { intros [|c s1] ip s2 Hi; simpl in Hi; [done|].
    destruct (c =? "0")%char; [simplify_eq; simpl; lia|].
    destruct (isDigit c); [|done].
    destruct (spanDigits s1) as [d t] eqn:Hs. apply spanDigits_length in Hs.
    simplify_eq. simpl. lia. }
  assert (forall s2 fr s3, scanFrac s2 = Some (fr, s3) -> (length s3 <= length s2)%nat) as Hfrac.
  { intros [|c s2] fr s3 Hf; simpl in Hf; [by simplify_eq|].
    destruct (c =? ".")%char; [|simplify_eq; simpl; lia].
    destruct (spanDigits s2) as [d t] eqn:Hs. apply spanDigits_length in Hs.
    destruct d; simplify_eq. simpl in *. lia. }
  assert (forall s3 ex s4, scanExp s3 = Some (ex, s4) -> (length s4 <= length s3)%nat) as Hexp.
  { intros [|c s3] ex s4 He; simpl in He; [by simplify_eq|].
    destruct ((c =? "e")%char || (c =? "E")%char); [|simplify_eq; simpl; lia].
    destruct s3 as [|y s3]; simpl in He; [done|].
    destruct ((y =? "+")%char || (y =? "-")%char).
    - destruct (spanDigits s3) as [d t] eqn:Hs. apply spanDigits_length in Hs.
      destruct d; simplify_eq. simpl in *. lia.
    - destruct (spanDigits (y :: s3)) as [d t] eqn:Hs. apply spanDigits_length in Hs.
      destruct d; simplify_eq. simpl in *. lia. }
  intros Hn.
  assert (exists s1, (length s1 <= length s)%nat
                     /\ match scanInt s1 with
                        | Some (ip, s2) =>
                            match scanFrac s2 with
                            | Some (fr, s3) =>
                                match scanExp s3 with
                                | Some (ex, s4) => s4 = rest
                                | None => False
                                end
                            | None => False
                            end
                        | None => False
                        end) as (s1 & Hlen & Hm).
  { destruct s as [|c s]; [done|]. destruct (c =? "-")%char.
    - exists s. split; [simpl; lia|]. repeat case_match; by simplify_eq.
    - exists (c :: s). split; [done|]. repeat case_match; by simplify_eq. }
  destruct (scanInt s1) as [[ip s2]|] eqn:Hi; [|done].
  destruct (scanFrac s2) as [[fr s3]|] eqn:Hf; [|done].
  destruct (scanExp s3) as [[ex s4]|] eqn:He; [|done]. subst s4.
  apply Hint in Hi. apply Hfrac in Hf. apply Hexp in He. lia.
Qed.

Lemma getu4_length s rr : getu4 s = Some rr -> (6 <= length s)%nat.
Proof.
  unfold getu4. intros Hu.
  destruct s as [|a0 [|a1 [|h0 [|h1 [|h2 [|h3 s']]]]]]; simpl; try lia;
    repeat case_match; simplify_eq.
Qed.

Lemma scanString_rest fuel s t rest :
  scanString fuel s = Some (t, rest) -> (length rest < length s)%nat.
Proof.
  revert s t rest. induction fuel as [|fuel IH]; intros s t rest Hs; [done|].
  assert (forall out X, (length X < length s)%nat ->
                        match scanString fuel X with
                        | Some (t', after) => Some (out ++ t', after)
                        | None => None
                        end = Some (t, rest) -> (length rest < length s)%nat) as Hnext.
  { intros out X HX Hc. destruct (scanString fuel X) as [[t' after]|] eqn:Hx; [|done].
    apply IH in Hx. simplify_eq. lia. }
  cbn [scanString] in Hs. destruct s as [|c r]; [done|].
  destruct (ascii_dec c dquote) as [|Hq]; [simplify_eq; simpl; lia|].
  destruct (ascii_dec c "\") as [|Hb].
  - destruct r as [|esc r']; [done|].
    destruct (getu4 (c :: esc :: r')) as [rr|] eqn:Hu.
    + apply getu4_length in Hu.
      assert (length (drop 6 (c :: esc :: r')) < length (c :: esc :: r'))%nat as Hd6
          by (rewrite length_drop; lia).
      assert (length (drop 6 (drop 6 (c :: esc :: r'))) < length (c :: esc :: r'))%nat as Hd12
          by (rewrite !length_drop; lia).
      destruct esc as [[] [] [] [] [] [] [] []]; cbn beta iota in Hs; try done;
        try (apply (Hnext _ r') in Hs; [done|simpl; lia]).
      destruct (isSurrogate rr); [|by eapply Hnext; [|exact Hs]].
      destruct (_ =? RuneError); by eapply Hnext; [|exact Hs].
    + destruct esc as [[] [] [] [] [] [] [] []]; cbn beta iota in Hs; try done;
        apply (Hnext _ r') in Hs; try done; simpl; lia.
  - destruct (byteZ c <? 0x20); [done|].
    destruct (isASCII c).
    + apply (Hnext [c] r) in Hs; simpl in *; lia.
    + destruct (DecodeRune (c :: r)) as [rr size] eqn:Hdec.
      pose proof (DecodeRune_width (c :: r) ltac:(done)) as Hw. rewrite Hdec in Hw. simpl in Hw.
      apply Hnext in Hs; [done|rewrite length_drop; simpl; lia].
Qed.

(** A budget above the length of the input is as good as any other: the
    [None] of [scanString] is then a syntax error of the literal. *)
Lemma scanString_fuel f1 f2 s :
  (length s < f1)%nat -> (length s < f2)%nat -> scanString f1 s = scanString f2 s.
Proof.
  revert f2 s. induction f1 as [|f1 IH]; intros f2 s H1 H2; [lia|].
  destruct f2 as [|f2]; [lia|].
  assert (forall X, (length X < length s)%nat -> scanString f1 X = scanString f2 X) as Hnext
      by (intros X HX; apply IH; lia).
  cbn [scanString]. destruct s as [|c r]; [done|].
  destruct (ascii_dec c dquote) as [|Hq]; [done|].
  destruct (ascii_dec c "\") as [|Hb].
  - destruct r as [|esc r']; [done|].
    pose proof (Hnext r' ltac:(simpl; lia)) as Hr'.
    destruct (getu4 (c :: esc :: r')) as [rr|] eqn:Hu.
    + apply getu4_length in Hu.
      rewrite (Hnext (drop 6 (c :: esc :: r'))) by (rewrite length_drop; lia).
      rewrite (Hnext (drop 6 (drop 6 (c :: esc :: r')))) by (rewrite !length_drop; lia).
      destruct esc as [[] [] [] [] [] [] [] []]; cbn beta iota; try done; by rewrite Hr'.
    + destruct esc as [[] [] [] [] [] [] [] []]; cbn beta iota; try done; by rewrite Hr'.
  - destruct (byteZ c <? 0x20); [done|].
    destruct (isASCII c).
    + by rewrite (Hnext r) by (simpl; lia).
    + destruct (DecodeRune (c :: r)) as [rr size] eqn:Hdec.
      pose proof (DecodeRune_width (c :: r) ltac:(done)) as Hw. rewrite Hdec in Hw. simpl in Hw.
      by rewrite Hnext by (rewrite length_drop; simpl; lia).
Qed.

Lemma parse_consumes fuel :
  (forall depth s v rest, parseValue fuel depth s = POk v rest -> (length rest < length s)%nat)
  /\ (forall depth s l rest,
        parseElements fuel depth s = POk l rest -> (length rest < length s)%nat)
  /\ (forall depth s l rest,
        parseMembers fuel depth s = POk l rest -> (length rest < length s)%nat).
Proof.
  induction fuel as [|fuel (IHv & IHe & IHm)]; [done|].
  split; [|split]; intros depth s.
  - intros v rest Hp. cbn [parseValue] in Hp. destruct s as [|c r]; [done|].
    pose proof (skipWS_length r) as Hws.
    repeat case_match; simplify_eq; cbn zeta; rewrite ?length_drop;
      repeat match goal with
             | H : parseElements _ _ _ = POk _ _ |- _ => apply IHe in H
             | H : parseMembers _ _ _ = POk _ _ |- _ => apply IHm in H
             | H : scanString _ _ = Some _ |- _ => apply scanString_rest in H
             | H : scanNumber _ = Some _ |- _ => apply scanNumber_rest in H
             end; simpl in *; lia.
  - intros l rest Hp. cbn [parseElements] in Hp.
    destruct (parseValue fuel depth s) as [v rest0| |] eqn:Hv; [|done..].
    apply IHv in Hv. pose proof (skipWS_length rest0) as Hws.
    destruct (skipWS rest0) as [|x r] eqn:Hr; [done|]. simpl in Hws.
    destruct x as [[] [] [] [] [] [] [] []]; cbn beta iota in Hp; try done;
      try (simplify_eq; lia).
    destruct (parseElements fuel depth (skipWS r)) as [l' rest'| |] eqn:He; [|done..].
    apply IHe in He. pose proof (skipWS_length r). simplify_eq. lia.
  - intros l rest Hp. cbn [parseMembers] in Hp. destruct s as [|c r]; [done|].
    destruct (c =? dquote)%char; [|done].
    destruct (scanString (S (length r)) r) as [[key rest0]|] eqn:Hk; [|done].
    apply scanString_rest in Hk. pose proof (skipWS_length rest0) as Hws.
    destruct (skipWS rest0) as [|x r1] eqn:Hr; [done|]. simpl in Hws.
    destruct x as [[] [] [] [] [] [] [] []]; cbn beta iota in Hp; try done.
    destruct (parseValue fuel depth (skipWS r1)) as [v rest1| |] eqn:Hv; [|done..].
    apply IHv in Hv. pose proof (skipWS_length r1). pose proof (skipWS_length rest1) as Hws1.
    destruct (skipWS rest1) as [|y r2] eqn:Hr1; [done|]. simpl in Hws1.
    destruct y as [[] [] [] [] [] [] [] []]; cbn beta iota in Hp; try done;
      try (simplify_eq; simpl; lia).
    destruct (parseMembers fuel depth (skipWS r2)) as [l' rest'| |] eqn:Hm; [|done..].
    apply IHm in Hm. pose proof (skipWS_length r2). simplify_eq. simpl. lia.
Qed.

(** Two units of budget for every byte are enough: [PFuel] is never the
    answer, so [PErr] stands for a syntax error of the text. *)
Lemma parse_budget fuel :
  (forall depth s, (2 * length s + 1 <= fuel)%nat -> parseValue fuel depth s <> PFuel)
  /\ (forall depth s, (2 * length s + 2 <= fuel)%nat -> parseElements fuel depth s <> PFuel)
  /\ (forall depth s, (2 * length s + 2 <= fuel)%nat -> parseMembers fuel depth s <> PFuel).
Proof.
  induction fuel as [|fuel (IHv & IHe & IHm)]; [repeat split; intros; lia|].
  split; [|split]; intros depth s Hf.
  - cbn [parseValue]. destruct s as [|c r]; [done|]. simpl in Hf.
    pose proof (skipWS_length r) as Hws.
    assert (parseElements fuel (depth + 1) (skipWS r) <> PFuel) by (apply IHe; lia).
    assert (parseMembers fuel (depth + 1) (skipWS r) <> PFuel) by (apply IHm; lia).
    repeat case_match; done.
  - cbn [parseElements].
    pose proof (IHv depth s ltac:(lia)) as Hv.
    destruct (parseValue fuel depth s) as [v rest0| |] eqn:Hp; [|done..].
    apply parse_consumes in Hp. pose proof (skipWS_length rest0) as Hws.
    destruct (skipWS rest0) as [|x r] eqn:Hr; [done|]. simpl in Hws.
    pose proof (skipWS_length r).
    assert (parseElements fuel depth (skipWS r) <> PFuel) by (apply IHe; lia).
    destruct x as [[] [] [] [] [] [] [] []]; cbn beta iota; try done.
    by destruct (parseElements fuel depth (skipWS r)).
  - cbn [parseMembers]. destruct s as [|c r]; [done|]. simpl in Hf.
    destruct (c =? dquote)%char; [|done].
    destruct (scanString (S (length r)) r) as [[key rest0]|] eqn:Hk; [|done].
    apply scanString_rest in Hk. pose proof (skipWS_length rest0) as Hws.
    destruct (skipWS rest0) as [|x r1] eqn:Hr; [done|]. simpl in Hws.
    pose proof (skipWS_length r1).
    pose proof (IHv depth (skipWS r1) ltac:(lia)) as Hv.
    destruct x as [[] [] [] [] [] [] [] []]; cbn beta iota; try done.
    destruct (parseValue fuel depth (skipWS r1)) as [v rest1| |] eqn:Hp; [|done..].
    apply parse_consumes in Hp. pose proof (skipWS_length rest1) as Hws1.
    destruct (skipWS rest1) as [|y r2] eqn:Hr1; [done|]. simpl in Hws1.
    pose proof (skipWS_length r2).
    assert (parseMembers fuel depth (skipWS r2) <> PFuel) by (apply IHm; lia).
    destruct y as [[] [] [] [] [] [] [] []]; cbn beta iota; try done.
    by destruct (parseMembers fuel depth (skipWS r2)).
Qed.

Lemma parseJSON_budget data :
  parseValue (2 * length data + 2) 0 (skipWS data) <> PFuel.
Proof.
  apply parse_budget. pose proof (skipWS_length data). lia.
Qed.

(** *** JSON numbers: a literal followed by a delimiter *)

Lemma spanDigits_app l d t x X :
  spanDigits l = (d, t) -> isDigit x = false ->
  spanDigits (l ++ x :: X) = (d, t ++ x :: X).
Proof.
  revert d t. induction l as [|c l IH]; intros d t Hl Hx; simpl in *.
  - simplify_eq. by rewrite Hx.
  - destruct (isDigit c); [|by simplify_eq].
    destruct (spanDigits l) as [d' t'] eqn:Hs. simplify_eq.
    by rewrite (IH d' t).
Qed.

Lemma scanInt_app l a t x X :
  scanInt l = Some (a, t) -> isDigit x = false ->
  scanInt (l ++ x :: X) = Some (a, t ++ x :: X).
Proof.
  intros Hl Hx. destruct l as [|c l]; [done|]. simpl in *.
  destruct (c =? "0")%char; [by simplify_eq|].
  destruct (isDigit c); [|done].
  destruct (spanDigits l) as [d' t'] eqn:Hs. simplify_eq.
  by rewrite (spanDigits_app _ _ _ _ _ Hs Hx).
Qed.

Lemma numberStop_digit x : numberStop x = true -> isDigit x = false.
Proof. unfold numberStop. destruct (isDigit x); [done|done]. Qed.

Lemma scanFrac_app l a t x X :
  scanFrac l = Some (a, t) -> numberStop x = true ->
  scanFrac (l ++ x :: X) = Some (a, t ++ x :: X).
Proof.
  intros Hl Hx. pose proof (numberStop_digit x Hx) as Hd.
  destruct l as [|c l]; simpl in *.
  - simplify_eq. unfold numberStop in Hx.
    destruct (x =? ".")%char; [|done]. by rewrite !orb_true_r in Hx.
  - destruct (c =? ".")%char; [|by simplify_eq].
    destruct (spanDigits l) as [d' t'] eqn:Hs.
    rewrite (spanDigits_app _ _ _ _ _ Hs Hd). by destruct d'; simplify_eq.
Qed.

Lemma scanExp_app l a t x X :
  scanExp l = Some (a, t) -> numberStop x = true ->
  scanExp (l ++ x :: X) = Some (a, t ++ x :: X).
Proof.
  intros Hl Hx. pose proof (numberStop_digit x Hx) as Hd.
  destruct l as [|c l]; simpl in *.
  - simplify_eq. unfold numberStop in Hx.
    destruct (x =? "e")%char, (x =? "E")%char; try done;
      by rewrite ?orb_true_r in Hx.
  - destruct ((c =? "e")%char || (c =? "E")%char); [|by simplify_eq].
    destruct l as [|y l]; simpl in *; [done|].
    destruct ((y =? "+")%char || (y =? "-")%char).
    + destruct (spanDigits l) as [d' t'] eqn:Hs.
      rewrite (spanDigits_app _ _ _ _ _ Hs Hd). by destruct d'; simplify_eq.
    + destruct (spanDigits (y :: l)) as [d' t'] eqn:Hs.
      rewrite app_comm_cons, (spanDigits_app _ _ _ _ _ Hs Hd). by destruct d'; simplify_eq.
Qed.

Lemma scanNumber_app l a t x X :
  scanNumber l = Some (a, t) -> numberStop x = true ->
  scanNumber (l ++ x :: X) = Some (a, t ++ x :: X).
Proof.
  intros Hl Hx. pose proof (numberStop_digit x Hx) as Hd.
  unfold scanNumber in *.
  assert (forall s1, match scanInt s1 with
                     | Some (ip, s2) =>
                         match scanFrac s2 with
                         | Some (fr, s3) =>
                             match scanExp s3 with
                             | Some (ex, s4) =>
                                 scanInt (s1 ++ x :: X) = Some (ip, s2 ++ x :: X)
                                 /\ scanFrac (s2 ++ x :: X) = Some (fr, s3 ++ x :: X)
                                 /\ scanExp (s3 ++ x :: X) = Some (ex, s4 ++ x :: X)
                             | None => True
                             end
                         | None => True
                         end
                     | None => True
                     end) as Hparts.
  { intros s1. destruct (scanInt s1) as [[ip s2]|] eqn:Hi; [|done].
    destruct (scanFrac s2) as [[fr s3]|] eqn:Hf; [|done].
    destruct (scanExp s3) as [[ex s4]|] eqn:He; [|done].
    split; [by apply scanInt_app|]. split; [by apply scanFrac_app|by apply scanExp_app]. }
  destruct l as [|c l].
  - discriminate Hl.
  - cbn [app]. destruct (c =? "-")%char.
    + specialize (Hparts l).
      destruct (scanInt l) as [[ip s2]|]; [|done].
      destruct (scanFrac s2) as [[fr s3]|]; [|done].
      destruct (scanExp s3) as [[ex s4]|]; [|done].
      destruct Hparts as (-> & -> & ->). by simplify_eq.
    + specialize (Hparts (c :: l)). rewrite <- app_comm_cons in Hparts.
      destruct (scanInt (c :: l)) as [[ip s2]|]; [|done].
      destruct (scanFrac s2) as [[fr s3]|]; [|done].
      destruct (scanExp s3) as [[ex s4]|]; [|done].
      destruct Hparts as (-> & -> & ->). by simplify_eq.
Qed.

(** A number literal starts with a digit or a minus sign. *)
Lemma scanNumber_head c l a t :
  scanNumber (c :: l) = Some (a, t) -> isDigit c = true \/ c = "-"%char.
Proof.
  unfold scanNumber. destruct (Ascii.eqb_spec c "-"); [by right|].
  cbn [scanInt]. destruct (c =? "0")%char eqn:H0.
  - apply Ascii.eqb_eq in H0 as ->. by left.
  - destruct (isDigit c); [by left|done].
Qed.

(** *** The values of a cursor *)

Lemma marshal_scalar `{GoStd} v : cursorScalar v -> marshalAny v = Some (scalarText v).
Proof.
  destruct v as [|b|f|s|l|m]; simpl; try done.
  intros (Hfin & _). by rewrite Hfin.
Qed.

Lemma toAny_scalar `{GoStd} v : cursorScalar v -> toAny (scalarSyntax v) = Some v.
Proof.
  destruct v as [|b|f|s|l|m]; simpl; try done.
  - intros (_ & _ & Hparse). by rewrite b2s_s2b, Hparse.
  - intros _. by rewrite b2s_s2b.
Qed.

Lemma runes_quote_length n s :
  (length (runesFrom n s) <= length (flat_map quoteRune (runesFrom n s)))%nat.
Proof.
  revert s. induction n as [|n IH]; intros s; [done|].
  destruct s as [|c0 s0]; [done|]. cbn [runesFrom].
  destruct (DecodeRune (c0 :: s0)) as [r w] eqn:Hdec.
  pose proof (DecodeRune_width (c0 :: s0) ltac:(done)) as Hw. rewrite Hdec in Hw.
  cbn [flat_map length]. rewrite length_app.
  specialize (IH (drop w (c0 :: s0))).
  assert (quoteRune (r, take w (c0 :: s0)) <> []) as Hne.
  { apply quoteRune_nonempty. destruct w; [simpl in Hw; lia|done]. }
  destruct (quoteRune (r, take w (c0 :: s0))); [done|]. simpl. lia.
Qed.

(** The head of a number literal selects the number case of the parser. *)
Lemma number_head c :
  isDigit c = true \/ c = "-"%char ->
  (c =? "[")%char = false /\ (c =? "{")%char = false /\ (c =? dquote)%char = false
  /\ (c =? "t")%char = false /\ (c =? "f")%char = false /\ (c =? "n")%char = false
  /\ isWS c = false /\ (c =? "]")%char = false.
Proof.
  intros Hc.
  assert (forall x, (isDigit x = false /\ x <> "-"%char) -> (c =? x)%char = false) as Hne.
  { intros x [Hx Hx']. apply Ascii.eqb_neq. intros ->. destruct Hc; congruence. }
  repeat split; try (apply Hne; by vm_compute).
  destruct Hc as [Hc| ->]; [|done].
  destruct c as [[] [] [] [] [] [] [] []]; done.
Qed.

Lemma parseValue_scalar `{GoStd} v fuel depth x X :
  cursorScalar v -> numberStop x = true ->
  parseValue (S fuel) depth (scalarText v ++ x :: X) = POk (scalarSyntax v) (x :: X).
Proof.
  intros Hv Hx. destruct v as [|b|f|s|l|m]; [reflexivity|by destruct b| | |done|done].
  - destruct Hv as (_ & Hlit & _). cbn [scalarText scalarSyntax].
    destruct (s2b (json_floatText f)) as [|c lit] eqn:Htext; [discriminate Hlit|].
    pose proof (scanNumber_head _ _ _ _ Hlit) as Hhead.
    destruct (number_head c Hhead) as (H1 & H2 & H3 & H4 & H5 & H6 & _).
    cbn [parseValue app]. rewrite H1, H2, H3, H4, H5, H6.
    rewrite app_comm_cons, (scanNumber_app _ _ _ _ _ Hlit Hx). reflexivity.
  - cbn [scalarText scalarSyntax cursorScalar] in *. unfold jsonQuote, quoteBody, runes.
    cbn [parseValue app]. change (dquote =? "[")%char with false.
    change (dquote =? "{")%char with false. change (dquote =? dquote)%char with true.
    cbv iota. rewrite <- app_assoc. cbn [app].
    rewrite (scan_quoteBody (length (s2b s)) (s2b s) _ (x :: X)); [done|done|done|].
    pose proof (runes_quote_length (length (s2b s)) (s2b s)) as Hlen.
    rewrite length_app. lia.
Qed.

Lemma scalarText_head `{GoStd} v :
  cursorScalar v ->
  exists c t, scalarText v = c :: t /\ isWS c = false /\ (c =? "]")%char = false.
Proof.
  intros Hv. destruct v as [|b|f|s|l|m];
    [by eexists _, _|destruct b; by eexists _, _| | |done|done].
  - destruct Hv as (_ & Hlit & _). cbn [scalarText].
    destruct (s2b (json_floatText f)) as [|c lit] eqn:Htext; [discriminate Hlit|].
    pose proof (scanNumber_head _ _ _ _ Hlit) as Hhead.
    destruct (number_head c Hhead) as (_ & _ & _ & _ & _ & _ & H7 & H8). eauto.
  - by eexists _, _.
Qed.

(** *** JSON arrays of scalars *)

Lemma parseElements_step fuel depth s :
  parseElements (S fuel) depth s
  = match parseValue fuel depth s with
    | POk v rest =>
        match skipWS rest with
        | ","%char :: r =>
            match parseElements fuel depth (skipWS r) with
            | POk l rest' => POk (v :: l) rest'
            | PErr => PErr
            | PFuel => PFuel
            end
        | "]"%char :: r => POk [v] r
        | _ => PErr
        end
    | PErr => PErr
    | PFuel => PFuel
    end.
Proof. reflexivity. Qed.

Lemma joinBytes_cons2 sep a b l :
  joinBytes sep (a :: b :: l) = a ++ sep ++ joinBytes sep (b :: l).
Proof. reflexivity. Qed.

Lemma skipWS_head c t : isWS c = false -> skipWS (c :: t) = c :: t.
Proof. intros Hc. simpl. by rewrite Hc. Qed.

Lemma parseElements_scalars `{GoStd} l : forall fuel depth X,
  l <> [] -> Forall cursorScalar l -> (length l < fuel)%nat ->
  parseElements fuel depth (joinBytes [","%char] (map scalarText l) ++ "]"%char :: X)
  = POk (map scalarSyntax l) X.
Proof.
  induction l as [|v l IH]; intros fuel depth X Hne Hall Hfuel; [done|].
  apply Forall_cons in Hall as [Hv Hall].
  destruct fuel as [|fuel]; [lia|]. rewrite parseElements_step.
  destruct fuel as [|fuel]; [simpl in Hfuel; lia|].
  destruct l as [|v' l].
  - cbn [map joinBytes]. rewrite parseValue_scalar by done.
    rewrite skipWS_head by done. reflexivity.
  - cbn [map]. rewrite joinBytes_cons2, <- !app_assoc. cbn [app].
    rewrite parseValue_scalar by done. rewrite skipWS_head by done. cbv iota.
    assert (skipWS (joinBytes [","%char] (scalarText v' :: map scalarText l) ++ "]"%char :: X)
            = joinBytes [","%char] (scalarText v' :: map scalarText l) ++ "]"%char :: X) as ->.
    { apply Forall_cons in Hall as [Hv' _].
      destruct (scalarText_head v' Hv') as (c & t & Ht & Hws & _).
      cbn [joinBytes]. rewrite Ht. destruct (map scalarText l); simpl; by rewrite Hws. }
    change (scalarText v' :: map scalarText l) with (map scalarText (v' :: l)).
    rewrite IH; [reflexivity|done|done|]. simpl in *. lia.
Qed.

Lemma joinBytes_length `{GoStd} l :
  Forall cursorScalar l ->
  (length l <= length (joinBytes [","%char] (map scalarText l)))%nat.
Proof.
  induction 1 as [|v l Hv Hall IH]; [done|].
  destruct (scalarText_head v Hv) as (c & t & Ht & _).
  cbn [map joinBytes]. rewrite Ht. destruct (map scalarText l) eqn:Hm.
  - destruct l; [simpl; lia|done].
  - rewrite !length_app. cbn [length]. lia.
Qed.

Lemma allSome_map_Some {A B} (f : A -> option B) (g : B -> A) (l : list B) :
  Forall (fun b => f (g b) = Some b) l -> allSome (map f (map g l)) = Some l.
Proof.
  induction 1 as [|b l Hb _ IH]; [done|]. simpl. fold (allSome (map f (map g l))).
  by rewrite Hb, IH.
Qed.

Lemma marshal_scalars `{GoStd} l :
  Forall cursorScalar l -> allSome (map marshalAny l) = Some (map scalarText l).
Proof.
  induction 1 as [|v l Hv _ IH]; [done|]. simpl. fold (allSome (map marshalAny l)).
  by rewrite (marshal_scalar v Hv), IH.
Qed.

(** Marshalling a tuple of scalars and unmarshalling the text gives the
    tuple back. *)
Lemma json_round_trip `{GoStd} (x : slice any) :
  cursorTuple x ->
  exists blob, json_Marshal x = Ok blob /\ blob <> [] /\ json_Unmarshal blob = Ok x.
Proof.
  destruct x as [l|]; intros Hx.
  2:{ exists (s2b "null"). repeat split; done. }
  simpl in Hx. unfold json_Marshal. cbn [marshalAny].
  rewrite (marshal_scalars l Hx). eexists. split; [done|]. split; [done|].
  unfold json_Unmarshal, parseJSON.
  set (body := joinBytes [","%char] (map scalarText l)).
  cbn [skipWS isWS]. change (isWS "["%char) with false. cbv iota.
  replace (2 * length ("["%char :: body ++ ["]"%char]) + 2)%nat
    with (S (2 * length body + 5))%nat by (simpl; rewrite length_app; simpl; lia).
  cbn [parseValue]. change ("[" =? "[")%char with true. cbv iota.
  change (maxNestingDepth <=? 0) with false. cbv iota zeta.
  destruct l as [|v l].
  - reflexivity.
  - assert (skipWS (body ++ ["]"%char]) = body ++ ["]"%char]
            /\ startsWith "]" (body ++ ["]"%char]) = false) as [-> ->].
    { pose proof Hx as Hx'. apply Forall_cons in Hx' as [Hv _].
      destruct (scalarText_head v Hv) as (c & t & Ht & Hws & Hclose).
      unfold body. cbn [map joinBytes]. rewrite Ht.
      destruct (map scalarText l); simpl; by rewrite Hws, Hclose. }
    unfold body. rewrite parseElements_scalars; [|done|done|].
    + cbn [skipWS]. rewrite allSome_map_Some; [done|].
      eapply Forall_impl; [exact Hx|]. intros a Ha. by apply toAny_scalar.
    + pose proof (joinBytes_length _ Hx) as Hlen. lia.
Qed.

Lemma TrimSpace_base64 blob : TrimSpace (b2s (b64encode blob)) = b2s (b64encode blob).
Proof.
  unfold TrimSpace. rewrite s2b_b2s. by rewrite trimSpaceBytes_plain by apply b64encode_chars.
Qed.

Lemma b2s_nonempty l : l <> [] -> b2s l <> "".
Proof. destruct l; [done|discriminate]. Qed.

(** C1.  For every tuple of sort values the scanner can hold (a nil, empty
    or non-empty slice of nil, boolean, string and finite number values as
    the JSON decoder produces them), [encodeCursor] succeeds and
    [decodeCursor] gives the tuple back:
    [decodeCursor(encodeCursor(x)) == x]. *)
Theorem cursor_round_trip (std : GoStd) (x : slice any) :
  cursorTuple x ->
  exists cursor, encodeCursor x = Ok cursor /\ decodeCursor cursor = Ok x.
Proof.
  intros Hx. destruct (json_round_trip x Hx) as (blob & Hm & Hne & Hu).
  exists (b2s (b64encode blob)). unfold encodeCursor, decodeCursor.
  rewrite Hm. split; [done|].
  rewrite TrimSpace_base64.
  rewrite decide_False by (apply b2s_nonempty, b64encode_nonempty, Hne).
  by rewrite s2b_b2s, b64decode_encode, Hu.
Qed.

Lemma cursor_round_trip_witness :
  exists cursor,
    encodeCursor (H := refStd) sampleTuple = Ok cursor
    /\ decodeCursor (H := refStd) cursor = Ok sampleTuple.
Proof.
  apply (cursor_round_trip refStd sampleTuple).
  unfold sampleTuple, cursorTuple.
  repeat (apply Forall_cons; split); try apply Forall_nil_2; vm_compute; auto.
Defined.

(** ** The cursor codec: decoding errors *)

(** *** The JSON grammar: numbers *)

Lemma spanDigits_spec s d t :
  spanDigits s = (d, t) ->
  s = d ++ t /\ allDigits d /\ match t with x :: _ => isDigit x = false | [] => True end.
Proof.
  revert d t. induction s as [|c s IH]; intros d t Hs; cbn [spanDigits] in Hs.
  { simplify_eq. split; [done|]. split; [apply Forall_nil_2|done]. }
  destruct (isDigit c) eqn:Hc.
  - destruct (spanDigits s) as [d' t'] eqn:Hs'. simplify_eq.
    destruct (IH d' t eq_refl) as (-> & Hd & Ht).
    split; [done|]. split; [by apply Forall_cons|done].
  - simplify_eq. split; [done|]. split; [apply Forall_nil_2|done].
Qed.

Lemma spanDigits_all d : allDigits d -> spanDigits d = (d, []).
Proof.
  induction 1 as [|c d Hc _ IH]; cbn [spanDigits]; [done|]. by rewrite Hc, IH.
Qed.

Lemma spanDigits_stop d x X :
  allDigits d -> isDigit x = false -> spanDigits (d ++ x :: X) = (d, x :: X).
Proof.
  intros Hd Hx. induction Hd as [|c d Hc _ IH]; cbn [spanDigits app]; [by rewrite Hx|].
  by rewrite Hc, IH.
Qed.

Lemma isDigit_zero : isDigit "0" = true.
Proof. reflexivity. Qed.

Lemma scanInt_sound s ip rest :
  scanInt s = Some (ip, rest) -> s = ip ++ rest /\ jsonInt ip.
Proof.
  destruct s as [|c s]; [done|]. cbn [scanInt].
  destruct (Ascii.eqb_spec c "0") as [->|Hne].
  - intros [= <- <-]. split; [done|constructor].
  - destruct (isDigit c) eqn:Hc; [|done].
    destruct (spanDigits s) as [d t] eqn:Hs. intros [= <- <-].
    destruct (spanDigits_spec _ _ _ Hs) as (-> & Hd & _).
    split; [done|]. by constructor.
Qed.

Lemma scanFrac_sound s fr rest :
  scanFrac s = Some (fr, rest) -> s = fr ++ rest /\ jsonFrac fr.
Proof.
  destruct s as [|c s]; cbn [scanFrac]; [intros [= <- <-]; split; [done|constructor]|].
  destruct (Ascii.eqb_spec c ".") as [->|Hne].
  - destruct (spanDigits s) as [d t] eqn:Hs.
    destruct (spanDigits_spec _ _ _ Hs) as (-> & Hd & _).
    destruct d as [|x d]; [done|]. intros [= <- <-]. split; [done|by constructor].
  - intros [= <- <-]. split; [done|constructor].
Qed.

Lemma scanExp_sound s ex rest :
  scanExp s = Some (ex, rest) -> s = ex ++ rest /\ jsonExp ex.
Proof.
  destruct s as [|c s]; cbn [scanExp]; [intros [= <- <-]; split; [done|constructor]|].
  destruct ((c =? "e")%char || (c =? "E")%char) eqn:Hc.
  2:{ intros [= <- <-]. split; [done|constructor]. }
  assert (c = "e"%char \/ c = "E"%char) as He.
  { apply orb_true_iff in Hc as [Hc|Hc]; apply Ascii.eqb_eq in Hc; auto. }
  destruct s as [|x s'].
  { cbn [spanDigits]. done. }
  destruct ((x =? "+")%char || (x =? "-")%char) eqn:Hx.
  - assert (x = "+"%char \/ x = "-"%char) as Hsg.
    { apply orb_true_iff in Hx as [Hx|Hx]; apply Ascii.eqb_eq in Hx; auto. }
    destruct (spanDigits s') as [d t] eqn:Hs.
    destruct (spanDigits_spec _ _ _ Hs) as (-> & Hd & _).
    destruct d as [|y d]; [done|]. intros [= <- <-]. split; [done|].
    apply (exp_some c [x] y d); [done| |done]. destruct Hsg as [->| ->]; auto.
  - destruct (spanDigits (x :: s')) as [d t] eqn:Hs.
    destruct (spanDigits_spec _ _ _ Hs) as (Heq & Hd & _).
    destruct d as [|y d]; [done|]. intros [= <- <-]. rewrite Heq. split; [done|].
    apply (exp_some c [] y d); auto.
Qed.

Lemma scanNumber_sound s lit rest :
  scanNumber s = Some (lit, rest) -> s = lit ++ rest /\ jsonNumber lit.
Proof.
  unfold scanNumber.
  set (split := match s with
                | c :: r => if (c =? "-")%char then ([c], r) else ([], s)
                | [] => ([], s)
                end).
  assert (s = split.1 ++ split.2 /\ (split.1 = [] \/ split.1 = ["-"%char])) as [Hs Hsg].
  { unfold split. destruct s as [|c r]; [auto|].
    destruct (Ascii.eqb_spec c "-") as [->|]; auto. }
  destruct split as [sg s1]. cbn [fst snd] in *.
  destruct (scanInt s1) as [[ip s2]|] eqn:Hi; [|done].
  destruct (scanFrac s2) as [[fr s3]|] eqn:Hf; [|done].
  destruct (scanExp s3) as [[ex s4]|] eqn:He; [|done].
  intros [= <- <-].
  apply scanInt_sound in Hi as [-> Hi]. apply scanFrac_sound in Hf as [-> Hf].
  apply scanExp_sound in He as [-> He].
  split; [by rewrite Hs, <- !app_assoc|]. by exists sg, ip, fr, ex.
Qed.

Lemma jsonInt_scan ip X :
  jsonInt ip -> match X with x :: _ => isDigit x = false | [] => True end \/ ip = ["0"%char] ->
  scanInt (ip ++ X) = Some (ip, X).
Proof.
  intros Hi HX. destruct Hi as [|d ds Hd Hne Hds]; [done|].
  cbn [scanInt app]. destruct (Ascii.eqb_spec d "0"); [done|]. rewrite Hd.
  destruct HX as [HX|[= -> ->]]; [|done].
  destruct X as [|x X].
  - by rewrite app_nil_r, spanDigits_all.
  - by rewrite spanDigits_stop.
Qed.

Lemma jsonFrac_scan fr X :
  jsonFrac fr ->
  match X with x :: _ => isDigit x = false /\ x <> "."%char | [] => True end ->
  scanFrac (fr ++ X) = Some (fr, X).
Proof.
  intros Hf HX. destruct Hf as [|d ds Hds].
  - cbn [app]. destruct X as [|x X]; [done|]. cbn [scanFrac].
    destruct HX as [_ Hx]. by destruct (Ascii.eqb_spec x ".").
  - cbn [scanFrac app]. change (d :: ds ++ X) with ((d :: ds) ++ X).
    destruct X as [|x X].
    + by rewrite app_nil_r, spanDigits_all.
    + destruct HX as [Hx _]. by rewrite spanDigits_stop.
Qed.

Lemma jsonExp_scan ex X :
  jsonExp ex ->
  match X with
  | x :: _ => isDigit x = false /\ x <> "e"%char /\ x <> "E"%char
  | [] => True
  end ->
  scanExp (ex ++ X) = Some (ex, X).
Proof.
  intros He HX. destruct He as [|e sign d ds He Hs Hds].
  - cbn [app]. destruct X as [|x X]; [done|]. cbn [scanExp].
    destruct HX as (_ & H1 & H2).
    by destruct (Ascii.eqb_spec x "e"), (Ascii.eqb_spec x "E").
  - cbn [scanExp app].
    assert ((e =? "e")%char || (e =? "E")%char = true) as ->.
    { destruct He as [->| ->]; reflexivity. }
    assert (isDigit d = true) as Hd by (by apply Forall_cons in Hds as [? _]).
    assert (spanDigits ((d :: ds) ++ X) = (d :: ds, X)) as Hspan.
    { destruct X as [|x X]; [by rewrite app_nil_r, spanDigits_all|].
      destruct HX as [Hx _]. by rewrite spanDigits_stop. }
    destruct Hs as [->|[->| ->]]; cbn [app].
    + assert ((d =? "+")%char || (d =? "-")%char = false) as ->.
      { destruct (Ascii.eqb_spec d "+") as [->|]; [done|].
        destruct (Ascii.eqb_spec d "-") as [->|]; done. }
      change (d :: ds ++ X) with ((d :: ds) ++ X). by rewrite Hspan.
    + change (d :: ds ++ X) with ((d :: ds) ++ X). cbn [Ascii.eqb Bool.eqb orb andb].
      by rewrite Hspan.
    + change (d :: ds ++ X) with ((d :: ds) ++ X). cbn [Ascii.eqb Bool.eqb orb andb].
      by rewrite Hspan.
Qed.

Lemma numberStop_inv x :
  numberStop x = true ->
  isDigit x = false /\ x <> "."%char /\ x <> "e"%char /\ x <> "E"%char.
Proof.
  unfold numberStop. intros Hx. apply negb_true_iff in Hx.
  repeat (apply orb_false_iff in Hx as [Hx ?]).
  repeat split; try done; intros ->; done.
Qed.

Lemma jsonNumber_scan lit X :
  jsonNumber lit -> followsNumber X -> scanNumber (lit ++ X) = Some (lit, X).
Proof.
  intros (sg & ip & fr & ex & -> & Hsg & Hi & Hf & He) HX.
  assert (match X with
          | x :: _ => isDigit x = false /\ x <> "."%char /\ x <> "e"%char /\ x <> "E"%char
          | [] => True
          end) as HX'.
  { destruct X as [|x X]; [done|]. by apply numberStop_inv. }
  assert (ip <> [] /\ match ip with c :: _ => isDigit c = true | [] => True end) as [Hne Hhead].
  { destruct Hi; [done|]. done. }
  assert (scanInt (ip ++ fr ++ ex ++ X) = Some (ip, fr ++ ex ++ X)) as Hint.
  { destruct Hi as [|d ds Hd Hd0 Hds]; [done|].
    apply (jsonInt_scan (d :: ds)); [by constructor|]. left.
    destruct Hf as [|f fs]; cbn [app]; [|done].
    destruct He as [|e sign y ys Hee]; cbn [app].
    - destruct X as [|x X]; [done|]. by destruct HX'.
    - destruct Hee as [->| ->]; done. }
  assert (scanFrac (fr ++ ex ++ X) = Some (fr, ex ++ X)) as Hfrac.
  { apply jsonFrac_scan; [done|].
    destruct He as [|e sign y ys Hee]; cbn [app].
    - destruct X as [|x X]; [done|]. destruct HX' as (? & ? & _). done.
    - destruct Hee as [->| ->]; done. }
  assert (scanExp (ex ++ X) = Some (ex, X)) as Hexp.
  { apply jsonExp_scan; [done|]. destruct X as [|x X]; [done|].
    destruct HX' as (? & _ & ? & ?). done. }
  unfold scanNumber. rewrite <- !app_assoc.
  destruct Hsg as [->| ->]; cbn [app].
  - destruct ip as [|c ip]; [done|]. cbn [app].
    assert ((c =? "-")%char = false) as ->.
    { destruct (Ascii.eqb_spec c "-") as [->|]; done. }
    change (c :: ip ++ fr ++ ex ++ X) with ((c :: ip) ++ fr ++ ex ++ X).
    by rewrite Hint, Hfrac, Hexp.
  - cbn [Ascii.eqb Bool.eqb andb]. by rewrite Hint, Hfrac, Hexp.
Qed.

Lemma jsonNumber_head lit :
  jsonNumber lit -> exists c r, lit = c :: r /\ (isDigit c = true \/ c = "-"%char).
Proof.
  intros (sg & ip & fr & ex & -> & Hsg & Hi & _).
  destruct Hsg as [->| ->]; cbn [app].
  - destruct Hi as [|d ds Hd _ _]; cbn [app]; eexists _, _; (split; [reflexivity|]); by left.
  - eexists _, _. split; [reflexivity|]. by right.
Qed.

(** *** The JSON grammar: strings *)

Lemma hexVal_isHexDigit c : is_Some (hexVal c) <-> isHexDigit c = true.
Proof.
  unfold hexVal, isHexDigit. cbv zeta.
  destruct ((48 <=? byteZ c) && (byteZ c <=? 57)); [by split; eauto|].
  destruct ((97 <=? byteZ c) && (byteZ c <=? 102)); [by split; eauto|].
  destruct ((65 <=? byteZ c) && (byteZ c <=? 70)); [by split; eauto|].
  split; [by intros [? [=]]|done].
Qed.

Lemma getu4_inv s rr :
  getu4 s = Some rr ->
  exists h0 h1 h2 h3 t,
    s = "\"%char :: "u"%char :: h0 :: h1 :: h2 :: h3 :: t
    /\ isHexDigit h0 = true /\ isHexDigit h1 = true
    /\ isHexDigit h2 = true /\ isHexDigit h3 = true.
Proof.
  unfold getu4. intros Hu.
  destruct s as [|a0 [|a1 [|h0 [|h1 [|h2 [|h3 t]]]]]];
    try (repeat case_match; simplify_eq; fail).
  destruct (ascii_dec a0 "\") as [->|Hne].
  2:{ destruct a0 as [[] [] [] [] [] [] [] []]; try done. }
  destruct (ascii_dec a1 "u") as [->|Hne].
  2:{ destruct a1 as [[] [] [] [] [] [] [] []]; try done. }
  exists h0, h1, h2, h3, t. split; [done|].
  destruct (hexVal h0) eqn:H0, (hexVal h1) eqn:H1, (hexVal h2) eqn:H2, (hexVal h3) eqn:H3;
    try done.
  repeat split; apply hexVal_isHexDigit; eauto.
Qed.

Lemma getu4_hex h0 h1 h2 h3 t :
  isHexDigit h0 = true -> isHexDigit h1 = true ->
  isHexDigit h2 = true -> isHexDigit h3 = true ->
  is_Some (getu4 ("\"%char :: "u"%char :: h0 :: h1 :: h2 :: h3 :: t)).
Proof.
  intros [a H0]%hexVal_isHexDigit [b H1]%hexVal_isHexDigit
         [c H2]%hexVal_isHexDigit [d H3]%hexVal_isHexDigit.
  cbn [getu4]. rewrite H0, H1, H2, H3. eauto.
Qed.

(** The bytes a rune above ASCII takes are all above ASCII. *)
Lemma DecodeRune_high c r rr size :
  isASCII c = false -> DecodeRune (c :: r) = (rr, size) ->
  (1 <= size <= length (c :: r))%nat
  /\ Forall (fun x => 0x80 <= byteZ x) (take size (c :: r)).
Proof.
  intros Hc Hdec. unfold isASCII in Hc. apply Z.ltb_ge in Hc.
  pose proof (DecodeRune_width (c :: r) ltac:(done)) as Hw. rewrite Hdec in Hw.
  cbn [snd] in Hw. split; [done|].
  destruct (decide (1 < size)%nat) as [Hwide|Hone].
  - destruct (DecodeRune_shape _ _ _ Hdec Hwide)
      as [(c0 & c1 & t & [= -> ->] & -> & Hs & _)
         |[(c0 & c1 & c2 & t & [= -> ->] & -> & Hs & _)
          |(c0 & c1 & c2 & c3 & t & [= -> ->] & -> & Hs & _)]]; cbn [take].
    + unfold wide2 in Hs. repeat (apply Forall_cons; split; [lia|]). apply Forall_nil_2.
    + unfold wide3 in Hs. repeat (apply Forall_cons; split; [lia|]). apply Forall_nil_2.
    + unfold wide4 in Hs. repeat (apply Forall_cons; split; [lia|]). apply Forall_nil_2.
  - assert (size = 1%nat) as -> by lia. cbn [take]. by apply Forall_cons.
Qed.

Lemma high_byte c :
  0x80 <= byteZ c -> 0x20 <= byteZ c /\ c <> dquote /\ c <> "\"%char.
Proof.
  intros Hc. split; [lia|]. split; intros ->; vm_compute in Hc; by apply Hc.
Qed.

Lemma jsonChars_high l s :
  Forall (fun x => 0x80 <= byteZ x) l -> jsonChars s -> jsonChars (l ++ s).
Proof.
  induction 1 as [|c l Hc _ IH]; intros Hs; [done|]. cbn [app].
  destruct (high_byte c Hc) as (? & ? & ?). by apply chars_byte; [..|apply IH].
Qed.

Lemma jsonChars_tail c s : c <> "\"%char -> jsonChars (c :: s) -> jsonChars s.
Proof. intros Hc Hs. inversion Hs; by simplify_eq. Qed.

Lemma jsonChars_drop_high k l :
  jsonChars l -> Forall (fun x => 0x80 <= byteZ x) (take k l) -> jsonChars (drop k l).
Proof.
  revert l. induction k as [|k IH]; intros l Hl Hk; [done|].
  destruct l as [|c l]; [done|]. cbn [take drop] in *.
  apply Forall_cons in Hk as [Hc Hk]. destruct (high_byte c Hc) as (_ & _ & Hb).
  apply IH; [by eapply jsonChars_tail|done].
Qed.

Lemma scanString_sound fuel s str rest :
  scanString fuel s = Some (str, rest) ->
  exists body, s = body ++ dquote :: rest /\ jsonChars body.
Proof.
  revert s str. induction fuel as [|fuel IH]; intros s str Hs; [done|].
  assert (forall out X,
            match scanString fuel X with
            | Some (t', after) => Some (out ++ t', after)
            | None => None
            end = Some (str, rest) ->
            exists body, X = body ++ dquote :: rest /\ jsonChars body) as Hnext.
  { intros out X Hc. destruct (scanString fuel X) as [[t' after]|] eqn:Hx; [|done].
    simplify_eq. by apply IH in Hx. }
  cbn [scanString] in Hs. destruct s as [|c r]; [done|].
  destruct (ascii_dec c dquote) as [->|Hq].
  { simplify_eq. exists []. split; [done|constructor]. }
  destruct (ascii_dec c "\") as [->|Hb].
  - destruct r as [|esc r']; [done|].
    destruct (getu4 ("\"%char :: esc :: r')) as [rr|] eqn:Hu.
    + destruct (getu4_inv _ _ Hu) as (h0 & h1 & h2 & h3 & t & [= -> ->] & H0 & H1 & H2 & H3).
      cbn beta iota in Hs. cbn [drop] in Hs. change (drop 0 t) with t in Hs.
      assert (forall body, t = body ++ dquote :: rest -> jsonChars body ->
                exists body', "\"%char :: "u"%char :: h0 :: h1 :: h2 :: h3 :: t
                              = body' ++ dquote :: rest /\ jsonChars body') as Hwrap.
      { intros body -> Hbody.
        exists ("\"%char :: "u"%char :: h0 :: h1 :: h2 :: h3 :: body).
        split; [done|]. by apply chars_unicode. }
      destruct (isSurrogate rr).
      * destruct (_ =? RuneError) eqn:Hdec.
        -- apply Hnext in Hs as (body & Ht & Hbody). by apply (Hwrap body).
        -- destruct (getu4 t) as [rr1|] eqn:Hu1; [|by cbv in Hdec].
           destruct (getu4_inv _ _ Hu1) as (g0 & g1 & g2 & g3 & t' & -> & G0 & G1 & G2 & G3).
           cbn [drop] in Hs. change (drop 0 t') with t' in Hs.
           apply Hnext in Hs as (body & -> & Hbody).
           apply (Hwrap ("\"%char :: "u"%char :: g0 :: g1 :: g2 :: g3 :: body)); [done|].
           by apply chars_unicode.
      * apply Hnext in Hs as (body & Ht & Hbody). by apply (Hwrap body).
    + destruct esc as [[] [] [] [] [] [] [] []]; cbn beta iota in Hs; try done;
        apply Hnext in Hs as (body & -> & Hbody);
        (eexists (_ :: _ :: body); split; [reflexivity|]; by apply chars_escape).
  - destruct (Z.ltb_spec (byteZ c) 0x20) as [|Hge]; [done|].
    destruct (isASCII c) eqn:Hascii.
    + apply Hnext in Hs as (body & -> & Hbody). exists (c :: body).
      split; [done|]. by apply chars_byte.
    + destruct (DecodeRune (c :: r)) as [rr size] eqn:Hdec.
      destruct (DecodeRune_high _ _ _ _ Hascii Hdec) as [Hsize Hhigh].
      apply Hnext in Hs as (body & Hdrop & Hbody).
      exists (take size (c :: r) ++ body). split.
      * rewrite <- app_assoc, <- Hdrop. by rewrite take_drop.
      * by apply jsonChars_high.
Qed.

Lemma take_high_in l (c : ascii) rest size :
  byteZ c < 0x80 ->
  Forall (fun x => 0x80 <= byteZ x) (take size (l ++ c :: rest)) ->
  (size <= length l)%nat.
Proof.
  intros Hc Hhigh. destruct (decide (size <= length l)%nat) as [|Hgt]; [done|]. exfalso.
  rewrite take_app_ge in Hhigh by lia.
  apply Forall_app in Hhigh as [_ Hhigh].
  destruct (size - length l)%nat as [|k] eqn:Hk; [lia|]. cbn [take] in Hhigh.
  apply Forall_cons in Hhigh as [Hhigh _]. lia.
Qed.

Lemma jsonChars_unicode_inv g0 g1 g2 g3 s :
  jsonChars ("\"%char :: "u"%char :: g0 :: g1 :: g2 :: g3 :: s) -> jsonChars s.
Proof. intros Hs. inversion Hs; by simplify_eq. Qed.

(** The scanner reads every string of the grammar up to its closing quote. *)
Lemma jsonChars_scan n : forall body rest fuel,
  (length body <= n)%nat -> jsonChars body ->
  (length body + length rest + 1 < fuel)%nat ->
  exists str, scanString fuel (body ++ dquote :: rest) = Some (str, rest).
Proof.
  induction n as [|n IH]; intros body rest fuel Hlen Hbody Hfuel.
  { destruct body; [|simpl in Hlen; lia]. destruct fuel; [lia|]. by exists []. }
  destruct fuel as [|fuel]; [lia|].
  assert (forall out X,
            (length X <= n)%nat -> jsonChars X -> (length X + length rest + 1 < fuel)%nat ->
            exists str,
              match scanString fuel (X ++ dquote :: rest) with
              | Some (t, after) => Some (out ++ t, after)
              | None => None
              end = Some (str, rest)) as Hnext.
  { intros out X HX HjX HfX. destruct (IH X rest fuel HX HjX HfX) as [str ->]. eauto. }
  destruct Hbody as [|c s Hc Hq Hb Hs|e s He Hs|h0 h1 h2 h3 s H0 H1 H2 H3 Hs];
    cbn [length] in *.
  - by exists [].
  - cbn [scanString app]. destruct (ascii_dec c dquote); [done|].
    destruct (ascii_dec c "\"); [done|].
    destruct (Z.ltb_spec (byteZ c) 0x20); [lia|].
    destruct (isASCII c) eqn:Hascii.
    + cbv beta zeta. apply (Hnext [_]); [lia|done|lia].
    + change (c :: s ++ dquote :: rest) with ((c :: s) ++ dquote :: rest).
      destruct (DecodeRune ((c :: s) ++ dquote :: rest)) as [rr size] eqn:Hdec.
      destruct (DecodeRune_high c (s ++ dquote :: rest) rr size Hascii Hdec) as [Hsize Hhigh].
      change (c :: s ++ dquote :: rest) with ((c :: s) ++ dquote :: rest) in Hhigh.
      pose proof (take_high_in (c :: s) dquote rest size ltac:(by vm_compute) Hhigh) as Hin.
      cbv beta zeta. rewrite drop_app_le by done. cbn [length] in Hin.
      apply Hnext.
      * rewrite length_drop. cbn [length]. lia.
      * apply jsonChars_drop_high; [by apply chars_byte|].
        by rewrite take_app_le in Hhigh by done.
      * rewrite length_drop. cbn [length]. lia.
  - cbn [scanString app]. destruct (ascii_dec "\"%char dquote) as [Heq|_]; [discriminate Heq|].
    destruct (ascii_dec "\"%char "\"%char) as [_|Hne]; [|done].
    destruct e as [[] [] [] [] [] [] [] []]; try discriminate He; cbv beta iota zeta;
      (apply (Hnext [_]); [lia|done|lia]).
  - cbn [scanString app]. destruct (ascii_dec "\"%char dquote) as [Heq|_]; [discriminate Heq|].
    destruct (ascii_dec "\"%char "\"%char) as [_|Hne]; [|done].
    cbv beta iota zeta.
    destruct (getu4_hex h0 h1 h2 h3 (s ++ dquote :: rest) H0 H1 H2 H3) as [rr ->].
    cbn [drop]. change (drop 0 (s ++ dquote :: rest)) with (s ++ dquote :: rest).
    destruct (isSurrogate rr); [|apply Hnext; [lia|done|lia]].
    destruct (_ =? RuneError) eqn:Hdec; [apply Hnext; [lia|done|lia]|].
    destruct (getu4 (s ++ dquote :: rest)) as [rr1|] eqn:Hu1; [|by cbv in Hdec].
    destruct (getu4_inv _ _ Hu1) as (g0 & g1 & g2 & g3 & t & Heq & G0 & G1 & G2 & G3).
    assert (exists s1, s = "\"%char :: "u"%char :: g0 :: g1 :: g2 :: g3 :: s1
                       /\ t = s1 ++ dquote :: rest) as (s1 & -> & ->).
    { destruct s as [|a0 [|a1 [|a2 [|a3 [|a4 [|a5 s1]]]]]]; cbn [app] in Heq;
        simplify_eq; try done. by exists s1. }
    rewrite Heq. cbn [app drop length] in *.
    change (drop 0 (s1 ++ dquote :: rest)) with (s1 ++ dquote :: rest).
    apply Hnext; [lia|by eapply jsonChars_unicode_inv|lia].
Qed.

(** A key or a string value: the quote, the body, the quote. *)
Lemma jsonString_scan body rest :
  jsonChars body ->
  exists str, scanString (S (length (body ++ dquote :: rest))) (body ++ dquote :: rest)
              = Some (str, rest).
Proof.
  intros Hbody. apply (jsonChars_scan (length body)); [done|done|].
  rewrite length_app. cbn [length]. lia.
Qed.

(** *** The JSON grammar: white space and the first byte of a value *)

Lemma skipWS_split s : exists w, s = w ++ skipWS s /\ jsonWS w.
Proof.
  induction s as [|c s (w & Hs & Hw)]; [by exists []; split; [|apply Forall_nil_2]|].
  cbn [skipWS]. destruct (isWS c) eqn:Hc.
  - exists (c :: w). split; [by rewrite Hs at 1|]. by apply Forall_cons.
  - exists []. split; [done|apply Forall_nil_2].
Qed.

Lemma skipWS_ws w X : jsonWS w -> skipWS (w ++ X) = skipWS X.
Proof. induction 1 as [|c w Hc _ IH]; [done|]. cbn [app skipWS]. by rewrite Hc. Qed.

Lemma skipWS_all w : jsonWS w -> skipWS w = [].
Proof. intros Hw. rewrite <- (app_nil_r w). by rewrite skipWS_ws. Qed.

Lemma skipWS_nil s : skipWS s = [] -> jsonWS s.
Proof.
  intros Hs. destruct (skipWS_split s) as (w & Heq & Hw). rewrite Hs, app_nil_r in Heq.
  by subst.
Qed.

Lemma skipWS_stop c X : isWS c = false -> skipWS (c :: X) = c :: X.
Proof. intros Hc. cbn [skipWS]. by rewrite Hc. Qed.

Lemma isDigit_valueHead c : isDigit c = true -> valueHead c = true.
Proof.
  unfold isDigit. intros Hc.
  destruct c as [[] [] [] [] [] [] [] []]; try done.
Qed.

Lemma jsonValue_head fits d v :
  jsonValue fits d v -> exists c r, v = c :: r /\ valueHead c = true.
Proof.
  intros Hv. destruct Hv as [d|d|d|d lit Hlit _|d body _|d w _|d body _|d w _|d body _];
    try (eexists _, _; split; [reflexivity|reflexivity]).
  destruct (jsonNumber_head lit Hlit) as (c & r & -> & [Hc| ->]).
  - exists c, r. split; [done|]. by apply isDigit_valueHead.
  - by exists "-"%char, r.
Qed.

Lemma valueHead_notWS c : valueHead c = true -> isWS c = false.
Proof.
  unfold valueHead. intros Hc. apply negb_true_iff in Hc.
  by repeat (apply orb_false_iff in Hc as [Hc ?]).
Qed.

Lemma skipWS_value fits d w v X :
  jsonWS w -> jsonValue fits d v -> skipWS (w ++ v ++ X) = v ++ X.
Proof.
  intros Hw Hv. rewrite skipWS_ws by done.
  destruct (jsonValue_head _ _ _ Hv) as (c & r & -> & Hc). cbn [app].
  apply skipWS_stop. by apply valueHead_notWS.
Qed.

Lemma jsonItems_ws fits d w body :
  jsonWS w -> jsonItems fits d body -> jsonItems fits d (w ++ body).
Proof.
  intros Hw Hb. destruct Hb as [d w1 v w2 H1 Hv H2|d w1 v w2 rest H1 Hv H2 Hr].
  - rewrite app_assoc. apply items_last; [by apply Forall_app|done|done].
  - rewrite app_assoc. apply items_more; [by apply Forall_app|done..].
Qed.

Lemma jsonPairs_ws fits d w body :
  jsonWS w -> jsonPairs fits d body -> jsonPairs fits d (w ++ body).
Proof.
  intros Hw Hb.
  destruct Hb as [d w1 k w2 w3 v w4 H1 Hk H2 H3 Hv H4|d w1 k w2 w3 v w4 rest H1 Hk H2 H3 Hv H4 Hr].
  - rewrite app_assoc. apply pairs_last; [by apply Forall_app|done..].
  - rewrite app_assoc. apply pairs_more; [by apply Forall_app|done..].
Qed.

Lemma hasPrefixBytes_inv s p : hasPrefixBytes s p = true -> s = p ++ drop (length p) s.
Proof.
  revert s. induction p as [|x p IH]; intros s Hs; [done|].
  destruct s as [|y s]; [done|]. cbn [hasPrefixBytes] in Hs.
  apply andb_prop in Hs as [Hxy Hs]. destruct (ascii_dec x y) as [->|]; [|done].
  cbn [app length drop]. f_equal. by apply IH.
Qed.

(** *** The JSON grammar: more budget changes nothing *)

Lemma parse_mono fuel : forall f', (fuel <= f')%nat ->
  (forall depth s, parseValue fuel depth s <> PFuel ->
                   parseValue f' depth s = parseValue fuel depth s)
  /\ (forall depth s, parseElements fuel depth s <> PFuel ->
                      parseElements f' depth s = parseElements fuel depth s)
  /\ (forall depth s, parseMembers fuel depth s <> PFuel ->
                      parseMembers f' depth s = parseMembers fuel depth s).
Proof.
  induction fuel as [|fuel IH]; intros f' Hle; [by repeat split|].
  destruct f' as [|f']; [lia|]. destruct (IH f' ltac:(lia)) as (IHv & IHe & IHm).
  split; [|split]; intros depth s Hne.
  - cbn [parseValue] in Hne |- *. destruct s as [|c r]; [done|].
    destruct (c =? "[")%char.
    { destruct (maxNestingDepth <=? depth); [done|]. cbv zeta in *.
      destruct (startsWith "]" (skipWS r)); [done|].
      rewrite IHe; [done|]. intros Hfuel. by rewrite Hfuel in Hne. }
    destruct (c =? "{")%char.
    { destruct (maxNestingDepth <=? depth); [done|]. cbv zeta in *.
      destruct (startsWith "}" (skipWS r)); [done|].
      rewrite IHm; [done|]. intros Hfuel. by rewrite Hfuel in Hne. }
    done.
  - cbn [parseElements] in Hne |- *.
    assert (parseValue fuel depth s <> PFuel) as Hv.
    { intros Hfuel. by rewrite Hfuel in Hne. }
    rewrite (IHv _ _ Hv).
    destruct (parseValue fuel depth s) as [v rest0| |]; [|done..].
    destruct (skipWS rest0) as [|x r]; [done|].
    destruct x as [[] [] [] [] [] [] [] []]; cbn beta iota in *; try done.
    rewrite IHe; [done|]. intros Hfuel. by rewrite Hfuel in Hne.
  - cbn [parseMembers] in Hne |- *. destruct s as [|c r]; [done|].
    destruct (c =? dquote)%char; [|done].
    destruct (scanString (S (length r)) r) as [[key rest0]|]; [|done].
    destruct (skipWS rest0) as [|x r1]; [done|].
    destruct x as [[] [] [] [] [] [] [] []]; cbn beta iota in *; try done.
    assert (parseValue fuel depth (skipWS r1) <> PFuel) as Hv.
    { intros Hfuel. by rewrite Hfuel in Hne. }
    rewrite (IHv _ _ Hv).
    destruct (parseValue fuel depth (skipWS r1)) as [v rest1| |]; [|done..].
    destruct (skipWS rest1) as [|y r2]; [done|].
    destruct y as [[] [] [] [] [] [] [] []]; cbn beta iota in *; try done.
    rewrite IHm; [done|]. intros Hfuel. by rewrite Hfuel in Hne.
Qed.

Lemma parseValue_more f1 f2 depth s v rest :
  parseValue f1 depth s = POk v rest -> (f1 <= f2)%nat -> parseValue f2 depth s = POk v rest.
Proof.
  intros Hp Hle. destruct (parse_mono f1 f2 Hle) as (Hv & _).
  rewrite Hv; [done|]. by rewrite Hp.
Qed.

Lemma parseElements_more f1 f2 depth s l rest :
  parseElements f1 depth s = POk l rest -> (f1 <= f2)%nat ->
  parseElements f2 depth s = POk l rest.
Proof.
  intros Hp Hle. destruct (parse_mono f1 f2 Hle) as (_ & He & _).
  rewrite He; [done|]. by rewrite Hp.
Qed.

Lemma parseMembers_more f1 f2 depth s l rest :
  parseMembers f1 depth s = POk l rest -> (f1 <= f2)%nat ->
  parseMembers f2 depth s = POk l rest.
Proof.
  intros Hp Hle. destruct (parse_mono f1 f2 Hle) as (_ & _ & Hm).
  rewrite Hm; [done|]. by rewrite Hp.
Qed.

(** The budget [parseJSON] gives is as good as any that yields a value. *)
Lemma parseValue_any fuel data v rest :
  parseValue fuel 0 (skipWS data) = POk v rest ->
  parseValue (2 * length data + 2) 0 (skipWS data) = POk v rest.
Proof.
  intros Hp. pose proof (parseJSON_budget data) as Hb.
  destruct (decide (fuel <= 2 * length data + 2)%nat) as [Hle|Hgt].
  - by eapply parseValue_more.
  - destruct (parse_mono (2 * length data + 2) fuel ltac:(lia)) as (Hv & _).
    by rewrite <- (Hv 0 (skipWS data) Hb).
Qed.

(** *** The JSON grammar: what the reader accepts is in the grammar *)

Local Ltac list_eq :=
  subst;
  repeat match goal with
         | H : ?x = _ ++ _ |- _ => is_var x; rewrite H; clear H
         | H : skipWS _ = _ |- _ => rewrite H; clear H
         end;
  cbn [app drop]; repeat (first [rewrite <- app_assoc | progress (cbn [app])]); reflexivity.

Lemma parse_sound `{GoStd} fuel :
  (forall depth s v rest,
      0 <= depth -> parseValue fuel depth s = POk v rest -> numbersOK v = true ->
      exists text, s = text ++ rest
                   /\ jsonValue fitsFloat64 (Z.to_nat (maxNestingDepth - depth)) text
                   /\ kindOK v text)
  /\ (forall depth s l rest,
        0 <= depth -> parseElements fuel depth s = POk l rest ->
        forallb numbersOK l = true ->
        exists body, s = body ++ "]"%char :: rest
                     /\ jsonItems fitsFloat64 (Z.to_nat (maxNestingDepth - depth)) body)
  /\ (forall depth s l rest,
        0 <= depth -> parseMembers fuel depth s = POk l rest ->
        forallb (fun kv => numbersOK (snd kv)) l = true ->
        exists body, s = body ++ "}"%char :: rest
                     /\ jsonPairs fitsFloat64 (Z.to_nat (maxNestingDepth - depth)) body).
Proof.
  induction fuel as [|fuel (IHv & IHe & IHm)]; [done|].
  split; [|split]; intros depth s.
  - intros v rest Hd Hp Hok. cbn [parseValue] in Hp. destruct s as [|c r]; [done|].
    destruct (Ascii.eqb_spec c "[") as [->|_].
    { destruct (Z.leb_spec maxNestingDepth depth) as [|Hlt]; [done|]. cbv zeta in Hp.
      destruct (skipWS_split r) as (w & Hr & Hw).
      replace (Z.to_nat (maxNestingDepth - depth))
        with (S (Z.to_nat (maxNestingDepth - (depth + 1)))) by lia.
      destruct (startsWith "]" (skipWS r)) eqn:Hstart.
      - destruct (skipWS r) as [|x body]; [done|]. cbn [startsWith] in Hstart.
        apply Ascii.eqb_eq in Hstart as ->. cbn [drop] in Hp. simplify_eq.
        exists ("["%char :: w ++ ["]"%char]). split.
        + list_eq.
        + split; [by apply json_array_empty|done].
      - destruct (parseElements fuel (depth + 1) (skipWS r)) as [l rest'| |] eqn:He; [|done..].
        simplify_eq. cbn [numbersOK] in Hok.
        destruct (IHe (depth + 1) _ _ _ ltac:(lia) He Hok) as (body & Hbody & Hitems).
        exists ("["%char :: (w ++ body) ++ ["]"%char]). split.
        + list_eq.
        + split; [|done]. apply json_array. by apply jsonItems_ws. }
    destruct (Ascii.eqb_spec c "{") as [->|_].
    { destruct (Z.leb_spec maxNestingDepth depth) as [|Hlt]; [done|]. cbv zeta in Hp.
      destruct (skipWS_split r) as (w & Hr & Hw).
      replace (Z.to_nat (maxNestingDepth - depth))
        with (S (Z.to_nat (maxNestingDepth - (depth + 1)))) by lia.
      destruct (startsWith "}" (skipWS r)) eqn:Hstart.
      - destruct (skipWS r) as [|x body]; [done|]. cbn [startsWith] in Hstart.
        apply Ascii.eqb_eq in Hstart as ->. cbn [drop] in Hp. simplify_eq.
        exists ("{"%char :: w ++ ["}"%char]). split.
        + list_eq.
        + split; [by apply json_object_empty|done].
      - destruct (parseMembers fuel (depth + 1) (skipWS r)) as [l rest'| |] eqn:Hm; [|done..].
        simplify_eq. cbn [numbersOK] in Hok.
        destruct (IHm (depth + 1) _ _ _ ltac:(lia) Hm Hok) as (body & Hbody & Hpairs).
        exists ("{"%char :: (w ++ body) ++ ["}"%char]). split.
        + list_eq.
        + split; [|done]. apply json_object. by apply jsonPairs_ws. }
    destruct (Ascii.eqb_spec c dquote) as [->|_].
    { destruct (scanString (S (length r)) r) as [[str rest']|] eqn:Hs; [|done].
      simplify_eq. apply scanString_sound in Hs as (body & -> & Hbody).
      exists (dquote :: body ++ [dquote]). split.
      - cbn [app]. by rewrite <- app_assoc.
      - split; [by apply json_string|done]. }
    destruct (Ascii.eqb_spec c "t") as [->|_].
    { destruct (hasPrefixBytes ("t"%char :: r) (s2b "true")) eqn:Hpre; [|done].
      simplify_eq. apply hasPrefixBytes_inv in Hpre.
      exists (s2b "true"). split; [done|]. split; [apply json_true|done]. }
    destruct (Ascii.eqb_spec c "f") as [->|_].
    { destruct (hasPrefixBytes ("f"%char :: r) (s2b "false")) eqn:Hpre; [|done].
      simplify_eq. apply hasPrefixBytes_inv in Hpre.
      exists (s2b "false"). split; [done|]. split; [apply json_false|done]. }
    destruct (Ascii.eqb_spec c "n") as [->|_].
    { destruct (hasPrefixBytes ("n"%char :: r) (s2b "null")) eqn:Hpre; [|done].
      simplify_eq. apply hasPrefixBytes_inv in Hpre.
      exists (s2b "null"). split; [done|]. split; [apply json_null|done]. }
    destruct (scanNumber (c :: r)) as [[lit rest']|] eqn:Hn; [|done].
    simplify_eq. apply scanNumber_sound in Hn as [Heq Hlit].
    exists lit. split; [done|]. split; [|done]. apply json_number; [done|].
    cbn [numbersOK] in Hok. unfold fitsFloat64.
    by destruct (strconv_ParseFloat (b2s lit)).
  - intros l rest Hd Hp Hok. cbn [parseElements] in Hp.
    destruct (parseValue fuel depth s) as [v rest0| |] eqn:Hv; [|done..].
    destruct (skipWS_split rest0) as (w2 & Hr0 & Hw2).
    destruct (skipWS rest0) as [|x r] eqn:Hr; [done|].
    destruct x as [[] [] [] [] [] [] [] []]; cbn beta iota in Hp; try done.
    + (* the closing bracket *)
      simplify_eq. cbn [forallb] in Hok. apply andb_prop in Hok as [Hok1 _].
      destruct (IHv _ _ _ _ Hd Hv Hok1) as (text & Heq & Htext & _).
      exists (text ++ w2). split; [list_eq|].
      apply (items_last _ _ [] text w2); [apply Forall_nil_2|done|done].
    + (* a comma *)
      destruct (parseElements fuel depth (skipWS r)) as [l' rest'| |] eqn:He; [|done..].
      simplify_eq. cbn [forallb] in Hok. apply andb_prop in Hok as [Hok1 Hok2].
      destruct (IHv _ _ _ _ Hd Hv Hok1) as (text & Heq & Htext & _).
      destruct (IHe _ _ _ _ Hd He Hok2) as (body & Hbody & Hitems).
      destruct (skipWS_split r) as (w1 & Hr1 & Hw1).
      exists (text ++ w2 ++ ","%char :: (w1 ++ body)). split.
      * list_eq.
      * apply (items_more _ _ [] text w2); [apply Forall_nil_2|done|done|].
        by apply jsonItems_ws.
  - intros l rest Hd Hp Hok. cbn [parseMembers] in Hp. destruct s as [|c r]; [done|].
    destruct (Ascii.eqb_spec c dquote) as [->|_]; [|done].
    destruct (scanString (S (length r)) r) as [[key rest0]|] eqn:Hk; [|done].
    apply scanString_sound in Hk as (kbody & -> & Hkbody).
    destruct (skipWS_split rest0) as (w2 & Hr0 & Hw2).
    destruct (skipWS rest0) as [|x r1] eqn:Hr; [done|].
    destruct x as [[] [] [] [] [] [] [] []]; cbn beta iota in Hp; try done.
    destruct (parseValue fuel depth (skipWS r1)) as [v rest1| |] eqn:Hv; [|done..].
    destruct (skipWS_split r1) as (w3 & Hr1 & Hw3).
    destruct (skipWS_split rest1) as (w4 & Hrest1 & Hw4).
    destruct (skipWS rest1) as [|y r2] eqn:Hr2; [done|].
    destruct y as [[] [] [] [] [] [] [] []]; cbn beta iota in Hp; try done.
    + (* the closing brace *)
      simplify_eq. cbn [forallb snd] in Hok. apply andb_prop in Hok as [Hok1 _].
      destruct (IHv _ _ _ _ Hd Hv Hok1) as (text & Htext & Hval & _).
      exists (dquote :: kbody ++ dquote :: w2 ++ ":"%char :: w3 ++ text ++ w4). split.
      * list_eq.
      * apply (pairs_last _ _ [] kbody w2 w3 text w4); try done. apply Forall_nil_2.
    + (* a comma *)
      destruct (parseMembers fuel depth (skipWS r2)) as [l' rest'| |] eqn:Hm; [|done..].
      simplify_eq. cbn [forallb snd] in Hok. apply andb_prop in Hok as [Hok1 Hok2].
      destruct (IHv _ _ _ _ Hd Hv Hok1) as (text & Htext & Hval & _).
      destruct (IHm _ _ _ _ Hd Hm Hok2) as (body & Hbody & Hpairs).
      destruct (skipWS_split r2) as (w1 & Hr21 & Hw1).
      exists (dquote :: kbody ++ dquote :: w2 ++ ":"%char :: w3 ++ text ++ w4
              ++ ","%char :: (w1 ++ body)). split.
      * list_eq.
      * apply (pairs_more _ _ [] kbody w2 w3 text w4); try done; [apply Forall_nil_2|].
        by apply jsonPairs_ws.
Qed.

(** *** The JSON grammar: what is in the grammar is accepted *)

Local Ltac assoc_right :=
  repeat (first [rewrite <- app_assoc | progress (cbn [app])]).

Lemma isWS_numberStop c : isWS c = true -> numberStop c = true.
Proof. destruct c as [[] [] [] [] [] [] [] []]; done. Qed.

Lemma followsNumber_ws w c X :
  jsonWS w -> numberStop c = true -> followsNumber (w ++ c :: X).
Proof.
  intros Hw Hc. destruct Hw as [|x w Hx _]; [done|]. cbn [app followsNumber].
  by apply isWS_numberStop.
Qed.

Lemma followsNumber_end w : jsonWS w -> followsNumber w.
Proof. intros Hw. destruct Hw as [|x w Hx _]; [done|]. by apply isWS_numberStop. Qed.

Lemma jsonItems_start fits d body X :
  jsonItems fits d body -> exists c Y, skipWS (body ++ X) = c :: Y /\ valueHead c = true.
Proof.
  intros Hb.
  assert (exists w v Y, body ++ X = w ++ v ++ Y /\ jsonWS w /\ jsonValue fits d v)
    as (w & v & Y & -> & Hw & Hv).
  { destruct Hb as [d w1 v w2 Hw1 Hv _|d w1 v w2 rest Hw1 Hv _ _].
    - exists w1, v, (w2 ++ X). by assoc_right.
    - exists w1, v, (w2 ++ ","%char :: rest ++ X). by assoc_right. }
  rewrite (skipWS_value _ _ _ _ _ Hw Hv).
  destruct (jsonValue_head _ _ _ Hv) as (c & r & -> & Hc). by exists c, (r ++ Y).
Qed.

Lemma jsonPairs_start fits d body X :
  jsonPairs fits d body -> exists Y, skipWS (body ++ X) = dquote :: Y.
Proof.
  intros Hb.
  assert (exists w Y, body ++ X = w ++ dquote :: Y /\ jsonWS w) as (w & Y & -> & Hw).
  { destruct Hb as [d w1 k w2 w3 v w4 Hw1 _ _ _ _ _|d w1 k w2 w3 v w4 rest Hw1 _ _ _ _ _ _].
    - eexists w1, _. split; [|done]. assoc_right. reflexivity.
    - eexists w1, _. split; [|done]. assoc_right. reflexivity. }
  rewrite skipWS_ws by done. by exists Y.
Qed.

Lemma parseValue_array fuel depth r :
  depth < maxNestingDepth ->
  parseValue (S fuel) depth ("["%char :: r)
  = if startsWith "]" (skipWS r) then POk (SArr []) (drop 1 (skipWS r))
    else match parseElements fuel (depth + 1) (skipWS r) with
         | POk l rest => POk (SArr l) rest
         | PErr => PErr
         | PFuel => PFuel
         end.
Proof.
  intros Hd. cbn [parseValue]. change (("[" =? "[")%char) with true. cbv iota.
  by destruct (Z.leb_spec maxNestingDepth depth); [lia|].
Qed.

Lemma parseValue_object fuel depth r :
  depth < maxNestingDepth ->
  parseValue (S fuel) depth ("{"%char :: r)
  = if startsWith "}" (skipWS r) then POk (SObj []) (drop 1 (skipWS r))
    else match parseMembers fuel (depth + 1) (skipWS r) with
         | POk l rest => POk (SObj l) rest
         | PErr => PErr
         | PFuel => PFuel
         end.
Proof.
  intros Hd. cbn [parseValue]. change (("{" =? "[")%char) with false.
  change (("{" =? "{")%char) with true. cbv iota.
  by destruct (Z.leb_spec maxNestingDepth depth); [lia|].
Qed.

Lemma parseValue_string fuel depth r :
  parseValue (S fuel) depth (dquote :: r)
  = match scanString (S (length r)) r with
    | Some (str, rest) => POk (SStr str) rest
    | None => PErr
    end.
Proof. reflexivity. Qed.

Lemma parseValue_number fuel depth lit X :
  jsonNumber lit -> followsNumber X ->
  parseValue (S fuel) depth (lit ++ X) = POk (SNum lit) X.
Proof.
  intros Hlit HX. pose proof (jsonNumber_scan _ _ Hlit HX) as Hscan.
  destruct (jsonNumber_head lit Hlit) as (c & r & -> & Hc).
  cbn [app] in Hscan |- *. cbn [parseValue].
  assert ((c =? "[")%char = false /\ (c =? "{")%char = false /\ (c =? dquote)%char = false
          /\ (c =? "t")%char = false /\ (c =? "f")%char = false /\ (c =? "n")%char = false)
    as (-> & -> & -> & -> & -> & ->).
  { destruct Hc as [Hc| ->]; [|done]. clear -Hc.
    destruct c as [[] [] [] [] [] [] [] []]; done. }
  by rewrite Hscan.
Qed.

Lemma parseElements_after fuel depth s v rest :
  parseValue fuel depth s = POk v rest ->
  parseElements (S fuel) depth s
  = match skipWS rest with
    | ","%char :: r =>
        match parseElements fuel depth (skipWS r) with
        | POk l rest' => POk (v :: l) rest'
        | PErr => PErr
        | PFuel => PFuel
        end
    | "]"%char :: r => POk [v] r
    | _ => PErr
    end.
Proof. intros Hv. cbn [parseElements]. by rewrite Hv. Qed.

Lemma parseMembers_after fuel depth k X key rest v rest1 :
  scanString (S (length (k ++ dquote :: X))) (k ++ dquote :: X) = Some (key, X) ->
  skipWS X = ":"%char :: rest ->
  parseValue fuel depth (skipWS rest) = POk v rest1 ->
  parseMembers (S fuel) depth (dquote :: k ++ dquote :: X)
  = match skipWS rest1 with
    | ","%char :: r2 =>
        match parseMembers fuel depth (skipWS r2) with
        | POk l rest' => POk ((key, v) :: l) rest'
        | PErr => PErr
        | PFuel => PFuel
        end
    | "}"%char :: r2 => POk [(key, v)] r2
    | _ => PErr
    end.
Proof.
  intros Hk HX Hv. cbn [parseMembers]. change ((dquote =? dquote)%char) with true.
  cbv iota. by rewrite Hk, HX, Hv.
Qed.

Lemma parse_complete `{GoStd} :
  (forall d v,
      jsonValue fitsFloat64 d v ->
      forall depth rest,
        0 <= depth -> depth + Z.of_nat d <= maxNestingDepth -> followsNumber rest ->
        exists fuel val,
          parseValue fuel depth (v ++ rest) = POk val rest
          /\ numbersOK val = true
          /\ (v = s2b "null" -> val = SNull)
          /\ (head v = Some "["%char -> exists l, val = SArr l))
  /\ (forall d body,
        jsonItems fitsFloat64 d body ->
        forall depth rest,
          0 <= depth -> depth + Z.of_nat d <= maxNestingDepth ->
          exists fuel l,
            parseElements fuel depth (skipWS (body ++ "]"%char :: rest)) = POk l rest
            /\ forallb numbersOK l = true)
  /\ (forall d body,
        jsonPairs fitsFloat64 d body ->
        forall depth rest,
          0 <= depth -> depth + Z.of_nat d <= maxNestingDepth ->
          exists fuel l,
            parseMembers fuel depth (skipWS (body ++ "}"%char :: rest)) = POk l rest
            /\ forallb (fun kv => numbersOK (snd kv)) l = true).
Proof.
  apply json_mutind.
  - intros d depth rest _ _ _. exists 1%nat, SNull.
    split_and!; [by destruct rest|reflexivity|by cbv|by cbv].
  - intros d depth rest _ _ _. exists 1%nat, (SBool true).
    split_and!; [by destruct rest|reflexivity|by cbv|by cbv].
  - intros d depth rest _ _ _. exists 1%nat, (SBool false).
    split_and!; [by destruct rest|reflexivity|by cbv|by cbv].
  - intros d lit Hlit Hfit depth rest _ _ HX. exists 1%nat, (SNum lit).
    split; [by apply parseValue_number|]. split.
    + cbn [numbersOK]. by destruct Hfit as [f ->].
    + split.
      * intros ->. by destruct (jsonNumber_head _ Hlit) as (c & r & [= <- <-] & [Hc|Hc]).
      * intros Hhead. destruct (jsonNumber_head _ Hlit) as (c & r & -> & [Hc|Hc]);
          cbn [head] in Hhead; by simplify_eq.
  - intros d body Hbody depth rest _ _ _.
    destruct (jsonString_scan body rest Hbody) as (str & Hscan).
    exists 1%nat, (SStr str). assoc_right. rewrite parseValue_string, Hscan.
    split_and!; try done; try (intros Heq; by simplify_eq).
  - intros d w Hw depth rest Hd Hle _. exists 1%nat, (SArr []). assoc_right.
    rewrite parseValue_array by lia. rewrite skipWS_ws by done.
    rewrite skipWS_stop by done. split_and!; try done; try (intros Heq; by simplify_eq).
    all: try by exists [].
  - intros d body Hbody IH depth rest Hd Hle _.
    destruct (IH (depth + 1) rest ltac:(lia) ltac:(lia)) as (fuel & l & Hp & Hok).
    exists (S fuel), (SArr l). assoc_right. rewrite parseValue_array by lia.
    destruct (jsonItems_start _ _ _ ("]"%char :: rest) Hbody) as (c & Y & Hstart & Hc).
    rewrite Hstart in Hp |- *. cbn [startsWith].
    assert ((c =? "]")%char = false) as ->.
    { destruct (Ascii.eqb_spec c "]") as [->|]; done. }
    rewrite Hp. split_and!; try done; try (intros Heq; by simplify_eq).
    all: try by exists l.
  - intros d w Hw depth rest Hd Hle _. exists 1%nat, (SObj []). assoc_right.
    rewrite parseValue_object by lia. rewrite skipWS_ws by done.
    rewrite skipWS_stop by done. split_and!; try done; try (intros Heq; by simplify_eq).
  - intros d body Hbody IH depth rest Hd Hle _.
    destruct (IH (depth + 1) rest ltac:(lia) ltac:(lia)) as (fuel & l & Hp & Hok).
    exists (S fuel), (SObj l). assoc_right. rewrite parseValue_object by lia.
    destruct (jsonPairs_start _ _ _ ("}"%char :: rest) Hbody) as (Y & Hstart).
    rewrite Hstart in Hp |- *. cbn [startsWith].
    change ((dquote =? "}")%char) with false. cbv iota.
    rewrite Hp. split_and!; try done; try (intros Heq; by simplify_eq).
  - intros d w1 v w2 Hw1 Hv IH Hw2 depth rest Hd Hle.
    destruct (IH depth (w2 ++ "]"%char :: rest) Hd Hle ltac:(by apply followsNumber_ws))
      as (fuel & val & Hp & Hok & _).
    exists (S fuel), [val]. assoc_right. rewrite (skipWS_value _ _ _ _ _ Hw1 Hv).
    rewrite (parseElements_after _ _ _ _ _ Hp). rewrite skipWS_ws by done.
    rewrite skipWS_stop by done. split; [done|]. cbn [forallb]. by rewrite Hok.
  - intros d w1 v w2 more Hw1 Hv IH Hw2 Hmore IHmore depth rest Hd Hle.
    destruct (IH depth (w2 ++ ","%char :: more ++ "]"%char :: rest) Hd Hle
                ltac:(by apply followsNumber_ws)) as (f1 & val & Hp & Hok & _).
    destruct (IHmore depth rest Hd Hle) as (f2 & l & Hpl & Hokl).
    exists (S (f1 `max` f2)), (val :: l). assoc_right.
    rewrite (skipWS_value _ _ _ _ _ Hw1 Hv).
    rewrite (parseElements_after _ _ _ val (w2 ++ ","%char :: more ++ "]"%char :: rest)).
    + rewrite skipWS_ws by done. rewrite skipWS_stop by done.
      rewrite (parseElements_more f2 _ _ _ _ _ Hpl) by lia.
      split; [done|]. cbn [forallb]. by rewrite Hok, Hokl.
    + apply (parseValue_more f1); [done|lia].
  - intros d w1 k w2 w3 v w4 Hw1 Hk Hw2 Hw3 Hv IH Hw4 depth rest Hd Hle.
    destruct (IH depth (w4 ++ "}"%char :: rest) Hd Hle ltac:(by apply followsNumber_ws))
      as (fuel & val & Hp & Hok & _).
    destruct (jsonString_scan k (w2 ++ ":"%char :: w3 ++ v ++ w4 ++ "}"%char :: rest) Hk)
      as (key & Hkey).
    exists (S fuel), [(key, val)]. assoc_right. rewrite skipWS_ws by done.
    rewrite skipWS_stop by done.
    rewrite (parseMembers_after _ _ _ _ key (w3 ++ v ++ w4 ++ "}"%char :: rest) val
               (w4 ++ "}"%char :: rest) Hkey).
    + rewrite skipWS_ws by done. rewrite skipWS_stop by done.
      split; [done|]. cbn [forallb snd]. by rewrite Hok.
    + rewrite skipWS_ws by done. by rewrite skipWS_stop.
    + by rewrite (skipWS_value _ _ _ _ _ Hw3 Hv).
  - intros d w1 k w2 w3 v w4 more Hw1 Hk Hw2 Hw3 Hv IH Hw4 Hmore IHmore depth rest Hd Hle.
    destruct (IH depth (w4 ++ ","%char :: more ++ "}"%char :: rest) Hd Hle
                ltac:(by apply followsNumber_ws)) as (f1 & val & Hp & Hok & _).
    destruct (IHmore depth rest Hd Hle) as (f2 & l & Hpl & Hokl).
    destruct (jsonString_scan k
                (w2 ++ ":"%char :: w3 ++ v ++ w4 ++ ","%char :: more ++ "}"%char :: rest) Hk)
      as (key & Hkey).
    exists (S (f1 `max` f2)), ((key, val) :: l). assoc_right. rewrite skipWS_ws by done.
    rewrite skipWS_stop by done.
    rewrite (parseMembers_after _ _ _ _ key
               (w3 ++ v ++ w4 ++ ","%char :: more ++ "}"%char :: rest) val
               (w4 ++ ","%char :: more ++ "}"%char :: rest) Hkey).
    + rewrite skipWS_ws by done. rewrite skipWS_stop by done.
      rewrite (parseMembers_more f2 _ _ _ _ _ Hpl) by lia.
      split; [done|]. cbn [forallb snd]. by rewrite Hok, Hokl.
    + rewrite skipWS_ws by done. by rewrite skipWS_stop.
    + rewrite (skipWS_value _ _ _ _ _ Hw3 Hv). apply (parseValue_more f1); [done|lia].
Qed.

(** *** Base64: the bytes of a text *)

Lemma ascii_bits c :
  c = Ascii (Z.testbit (byteZ c) 0) (Z.testbit (byteZ c) 1) (Z.testbit (byteZ c) 2)
            (Z.testbit (byteZ c) 3) (Z.testbit (byteZ c) 4) (Z.testbit (byteZ c) 5)
            (Z.testbit (byteZ c) 6) (Z.testbit (byteZ c) 7).
Proof. destruct c as [[] [] [] [] [] [] [] []]; reflexivity. Qed.

Lemma lowByte_bits v :
  lowByte v = Ascii (Z.testbit v 0) (Z.testbit v 1) (Z.testbit v 2) (Z.testbit v 3)
                    (Z.testbit v 4) (Z.testbit v 5) (Z.testbit v 6) (Z.testbit v 7).
Proof.
  unfold lowByte. rewrite (ascii_bits (zbyte (Z.land v 255))).
  rewrite byteZ_zbyte.
  - rewrite !Z.land_spec. change (Z.testbit 255 0) with true.
    change (Z.testbit 255 1) with true. change (Z.testbit 255 2) with true.
    change (Z.testbit 255 3) with true. change (Z.testbit 255 4) with true.
    change (Z.testbit 255 5) with true. change (Z.testbit 255 6) with true.
    change (Z.testbit 255 7) with true. by rewrite !andb_true_r.
  - change 255 with (Z.ones 8). rewrite Z.land_ones by lia.
    change (2 ^ 8) with 256. apply Z.mod_pos_bound. lia.
Qed.

Lemma sextet_high d k : 0 <= d < 64 -> 6 <= k -> Z.testbit d k = false.
Proof.
  intros Hd Hk. destruct (decide (d = 0)) as [->|Hne]; [apply Z.testbit_0_l|].
  apply Z.bits_above_log2; [lia|].
  assert (Z.log2 d < 6); [|lia]. apply Z.log2_lt_pow2; lia.
Qed.

Lemma quantumVal_bit d0 d1 d2 d3 k :
  0 <= d0 < 64 -> 0 <= d1 < 64 -> 0 <= d2 < 64 -> 0 <= d3 < 64 -> 0 <= k ->
  Z.testbit (quantumVal d0 d1 d2 d3) k
  = if k <? 6 then Z.testbit d3 k
    else if k <? 12 then Z.testbit d2 (k - 6)
         else if k <? 18 then Z.testbit d1 (k - 12) else Z.testbit d0 (k - 18).
Proof.
  intros H0 H1 H2 H3 Hk. unfold quantumVal.
  rewrite !Z.lor_spec, !Z.shiftl_spec by lia.
  destruct (Z.ltb_spec k 6).
  { rewrite !(Z.testbit_neg_r _ (k - _)) by lia. done. }
  rewrite (sextet_high d3 k) by lia. rewrite orb_false_r.
  destruct (Z.ltb_spec k 12).
  { rewrite !(Z.testbit_neg_r _ (k - 18)), !(Z.testbit_neg_r _ (k - 12)) by lia. done. }
  rewrite (sextet_high d2 (k - 6)) by lia. rewrite orb_false_r.
  destruct (Z.ltb_spec k 18).
  { rewrite !(Z.testbit_neg_r _ (k - 18)) by lia. done. }
  rewrite (sextet_high d1 (k - 12)) by lia. by rewrite orb_false_r.
Qed.

Lemma decodeMap_range c d : decodeMap c = Some d -> 0 <= d < 64.
Proof.
  destruct c as [[] [] [] [] [] [] [] []]; vm_compute; intros [=]; subst; done.
Qed.

Lemma quantum_bytes d0 d1 d2 d3 :
  0 <= d0 < 64 -> 0 <= d1 < 64 -> 0 <= d2 < 64 -> 0 <= d3 < 64 ->
  let val := quantumVal d0 d1 d2 d3 in
  lowByte (Z.shiftr val 16)
  = Ascii (Z.testbit d1 4) (Z.testbit d1 5) (Z.testbit d0 0) (Z.testbit d0 1)
          (Z.testbit d0 2) (Z.testbit d0 3) (Z.testbit d0 4) (Z.testbit d0 5)
  /\ lowByte (Z.shiftr val 8)
     = Ascii (Z.testbit d2 2) (Z.testbit d2 3) (Z.testbit d2 4) (Z.testbit d2 5)
             (Z.testbit d1 0) (Z.testbit d1 1) (Z.testbit d1 2) (Z.testbit d1 3)
  /\ lowByte val
     = Ascii (Z.testbit d3 0) (Z.testbit d3 1) (Z.testbit d3 2) (Z.testbit d3 3)
             (Z.testbit d3 4) (Z.testbit d3 5) (Z.testbit d2 0) (Z.testbit d2 1).
Proof.
  intros H0 H1 H2 H3 val. subst val. rewrite !lowByte_bits.
  rewrite !Z.shiftr_spec by lia. rewrite !quantumVal_bit by (done || lia). done.
Qed.

Lemma b64decodeFrom_value src : forall q out,
  (length q < 4)%nat -> Forall (fun d => 0 <= d < 64) q ->
  b64decodeFrom src q = Some out ->
  out = packBytes (concat (map sextetBits (q ++ sextets src))).
Proof.
  induction src as [|c r IH]; intros q out Hlen Hq Hdec.
  - cbn [b64decodeFrom] in Hdec. unfold sextets. cbn [omap list_omap]. rewrite app_nil_r.
    destruct q as [|d0 [|d1 [|d2 [|d3 q]]]]; try done; simplify_eq.
    + done.
    + apply Forall_cons in Hq as [H0 Hq]. apply Forall_cons in Hq as [H1 _].
      destruct (quantum_bytes d0 d1 0 0 H0 H1 ltac:(lia) ltac:(lia)) as (-> & _). done.
    + apply Forall_cons in Hq as [H0 Hq]. apply Forall_cons in Hq as [H1 Hq].
      apply Forall_cons in Hq as [H2 _].
      destruct (quantum_bytes d0 d1 d2 0 H0 H1 H2 ltac:(lia)) as (-> & -> & _). done.
  - cbn [b64decodeFrom] in Hdec. unfold sextets in *. cbn [omap list_omap].
    destruct (decodeMap c) as [d|] eqn:Hd.
    + pose proof (decodeMap_range _ _ Hd) as Hr.
      destruct q as [|d0 [|d1 [|d2 [|d3 q]]]]; cbn [length] in Hlen; try lia.
      * apply (IH [d]); [cbn; lia|by apply Forall_singleton|done].
      * replace ([d0] ++ d :: omap decodeMap r) with ([d0; d] ++ omap decodeMap r) by done.
        apply IH; [cbn; lia| |done].
        apply Forall_cons in Hq as [H0 _]. repeat (apply Forall_cons; split; [lia|]). apply Forall_nil_2.
      * replace ([d0; d1] ++ d :: omap decodeMap r) with ([d0; d1; d] ++ omap decodeMap r)
          by done.
        apply IH; [cbn; lia| |done].
        apply Forall_cons in Hq as [H0 Hq]. apply Forall_cons in Hq as [H1 _].
        repeat (apply Forall_cons; split; [lia|]). apply Forall_nil_2.
      * destruct (b64decodeFrom r []) as [out'|] eqn:Hrest; [|done]. simplify_eq.
        apply Forall_cons in Hq as [H0 Hq]. apply Forall_cons in Hq as [H1 Hq].
        apply Forall_cons in Hq as [H2 _].
        destruct (quantum_bytes d0 d1 d2 d H0 H1 H2 Hr) as (-> & -> & ->).
        rewrite (IH [] out' ltac:(cbn; lia) ltac:(constructor) Hrest). done.
    + apply IH; [done|done|].
      destruct c as [[] [] [] [] [] [] [] []]; done.
Qed.

Lemma b64decode_value chars blob :
  b64decode chars = Some blob <-> base64Lenient chars /\ blob = base64Value chars.
Proof.
  split.
  - intros Hdec. split; [apply b64decode_defined; by exists blob|].
    by apply (b64decodeFrom_value chars []); [cbn; lia|constructor|].
  - intros [Hl ->]. apply b64decode_defined in Hl as [out Hout]. rewrite Hout. f_equal.
    by apply (b64decodeFrom_value chars []); [cbn; lia|constructor|].
Qed.

(** *** The cursor codec: decoding errors *)

(** What [Unmarshal] stores into a [[]any] is what the grammar describes. *)
Lemma cursorPayload_grammar `{GoStd} blob : cursorPayload blob <-> jsonCursorText blob.
Proof.
  unfold cursorPayload, jsonCursorText, parseJSON. split.
  - intros Hp.
    assert (exists v rest, parseValue (2 * length blob + 2) 0 (skipWS blob) = POk v rest
                           /\ skipWS rest = [] /\ numbersOK v = true
                           /\ (v = SNull \/ exists l, v = SArr l)) as (v & rest & Hv & Hrest & Hok & Hkind).
    { destruct (parseValue (2 * length blob + 2) 0 (skipWS blob)) as [v rest| |];
        [|by destruct Hp as [?|(? & ? & _)]..].
      exists v, rest. destruct (skipWS rest); [|by destruct Hp as [?|(? & ? & _)]].
      destruct Hp as [Hp|(l & Hp & Hl)]; simplify_eq; split_and!; try done.
      - by left.
      - right. by exists l. }
    destruct (proj1 (parse_sound _) 0 _ _ _ ltac:(lia) Hv Hok) as (text & Heq & Htext & Hk).
    destruct (skipWS_split blob) as (w1 & Hblob & Hw1).
    exists w1, text, rest. split_and!; try done.
    + by rewrite Hblob at 1; rewrite Heq.
    + by apply skipWS_nil.
    + destruct Hkind as [->|(l & ->)]; [by left|by right].
  - intros (w1 & v & w2 & -> & Hw1 & Hw2 & Hv & Hkind).
    assert (0 + Z.of_nat (Z.to_nat maxNestingDepth) <= maxNestingDepth) as Hdepth
      by (unfold maxNestingDepth; lia).
    destruct (proj1 parse_complete _ _ Hv 0 w2 ltac:(done) Hdepth
                (followsNumber_end _ Hw2)) as (fuel & val & Hp & Hok & Hnull & Harr).
    rewrite <- (skipWS_value _ _ _ _ w2 Hw1 Hv) in Hp. apply parseValue_any in Hp.
    rewrite Hp, (skipWS_all _ Hw2).
    destruct Hkind as [Hk|Hk].
    + left. by rewrite (Hnull Hk).
    + right. destruct (Harr Hk) as (l & ->). by exists l.
Qed.

Lemma decodeCursor_cases `{GoStd} cursor :
  let t := TrimSpace cursor in
  (t = "" /\ decodeCursor cursor = Ok None)
  \/ (t <> "" /\ ~ base64Lenient (s2b t) /\ decodeCursor cursor = Err "invalid cursor")
  \/ (t <> "" /\ base64Lenient (s2b t) /\ ~ jsonCursorText (base64Value (s2b t))
      /\ decodeCursor cursor = Err "invalid cursor payload")
  \/ (t <> "" /\ cursorText t /\ isErr (decodeCursor cursor) = false).
Proof.
  intros t. unfold decodeCursor. fold t. case_decide as Hempty; [by left|]. right.
  destruct (b64decode (s2b t)) as [blob|] eqn:Hdec.
  - apply b64decode_value in Hdec as [Hl ->]. right.
    pose proof (json_Unmarshal_defined (base64Value (s2b t))) as Hj.
    rewrite cursorPayload_grammar in Hj.
    destruct (json_Unmarshal (base64Value (s2b t))) as [out|e]; cbn [isErr] in Hj.
    + right. split_and!; try done. split; [done|]. by apply Hj.
    + left. split_and!; try done. intros Hno. by apply Hj in Hno.
  - left. split_and!; try done. intros Hl.
    apply b64decode_defined in Hl as [out Hout]. by rewrite Hout in Hdec.
Qed.

(** Arrays nested one in another. *)
Lemma replicate_snoc {A} n (x : A) : replicate (S n) x = replicate n x ++ [x].
Proof. induction n as [|n IH]; [done|]. cbn [replicate app] in *. by rewrite <- IH. Qed.

Lemma nestedArrays_S n :
  nestedArrays (S n) = "["%char :: nestedArrays n ++ ["]"%char].
Proof.
  unfold nestedArrays. rewrite (replicate_snoc n "]"%char). cbn [replicate app].
  by rewrite <- app_assoc.
Qed.

Lemma nestedArrays_nonempty n : (0 < n)%nat -> nestedArrays n <> [].
Proof. by destruct n; [lia|]. Qed.

Lemma nestedArrays_value fits n d :
  (0 < n <= d)%nat -> jsonValue fits d (nestedArrays n).
Proof.
  revert d. induction n as [|n IH]; intros d Hn; [lia|].
  destruct d as [|d]; [lia|]. rewrite nestedArrays_S.
  destruct n as [|n].
  - apply (json_array_empty _ _ []). apply Forall_nil_2.
  - apply json_array. rewrite <- (app_nil_r (nestedArrays (S n))).
    apply (items_last _ _ [] _ []); [apply Forall_nil_2| |apply Forall_nil_2].
    apply IH. lia.
Qed.

Lemma nestedArrays_too_deep n : forall fuel depth X v rest,
  0 <= depth -> maxNestingDepth < depth + Z.of_nat n -> (0 < n)%nat ->
  parseValue fuel depth (replicate n "["%char ++ X) <> POk v rest.
Proof.
  induction n as [|n IH]; intros fuel depth X v rest Hd Hdeep Hn; [lia|].
  destruct fuel as [|fuel]; [done|]. cbn [replicate app parseValue].
  change (("[" =? "[")%char) with true. cbv iota.
  destruct (Z.leb_spec maxNestingDepth depth) as [|Hlt]; [done|]. cbv zeta.
  destruct n as [|n]; [lia|]. cbn [replicate app]. rewrite skipWS_stop by done.
  cbn [startsWith]. change (("[" =? "]")%char) with false. cbv iota.
  destruct fuel as [|fuel]; [done|]. cbn [parseElements].
  specialize (IH fuel (depth + 1) X).
  change ("["%char :: replicate n "["%char ++ X) with (replicate (S n) "["%char ++ X).
  destruct (parseValue fuel (depth + 1) (replicate (S n) "["%char ++ X)) as [v' rest'| |];
    [|done..].
  exfalso. apply (IH v' rest'); [lia|lia|lia|done].
Qed.

Lemma nestedArrays_cursor `{GoStd} n :
  (0 < n)%nat ->
  jsonCursorText (nestedArrays n) <-> (n <= Z.to_nat maxNestingDepth)%nat.
Proof.
  intros Hn. split.
  - intros Htext. apply cursorPayload_grammar in Htext.
    destruct (decide (n <= Z.to_nat maxNestingDepth)%nat) as [|Hdeep]; [done|]. exfalso.
    assert (parseJSON (nestedArrays n) = None) as Hnone.
    { unfold parseJSON, nestedArrays. destruct n as [|n]; [lia|].
      cbn [replicate app]. rewrite skipWS_stop by done.
      change ("["%char :: replicate n "["%char ++ replicate (S n) "]"%char)
        with (replicate (S n) "["%char ++ replicate (S n) "]"%char).
      destruct (parseValue _ 0 _) as [v rest| |] eqn:Hp; [|done..].
      exfalso.
      eapply (nestedArrays_too_deep (S n) _ 0 (replicate (S n) "]"%char) v rest);
        [done| |lia|exact Hp].
      unfold maxNestingDepth in *. lia. }
    unfold cursorPayload in Htext. rewrite Hnone in Htext.
    by destruct Htext as [?|(? & ? & _)].
  - intros Hle. exists [], (nestedArrays n), []. rewrite app_nil_r.
    split_and!; [done|apply Forall_nil_2|apply Forall_nil_2| |].
    + apply nestedArrays_value. lia.
    + right. unfold nestedArrays. by destruct n; [lia|].
Qed.

(** The cursors that [b64encode] writes. *)
Lemma base64Value_encode blob :
  base64Lenient (b64encode blob) /\ base64Value (b64encode blob) = blob.
Proof.
  destruct (proj1 (b64decode_value _ _) (b64decode_encode blob)) as [Hl Hv]. by split.
Qed.

Lemma decodeCursor_encoded `{GoStd} blob :
  isErr (decodeCursor (b2s (b64encode blob))) = true
  <-> blob <> [] /\ ~ jsonCursorText blob.
Proof.
  destruct (base64Value_encode blob) as [Hl Hv].
  pose proof (decodeCursor_cases (b2s (b64encode blob))) as Hcases. cbv zeta in Hcases.
  unfold cursorText in Hcases. rewrite TrimSpace_base64, s2b_b2s, Hv in Hcases.
  assert (b2s (b64encode blob) <> "" -> blob <> []) as Hne by (by intros Hne ->).
  assert (b2s (b64encode blob) = "" -> blob = []) as Hempty.
  { intros He. destruct (decide (blob = [])) as [|Hb]; [done|].
    by apply b64encode_nonempty, b2s_nonempty in Hb. }
  destruct Hcases as [[He ->]|[(_ & Hb & _)|[(Hn & _ & Hj & ->)|(_ & [_ Hj] & ->)]]];
    cbn [isErr].
  - split; [done|]. intros [Hb _]. by destruct (Hb (Hempty He)).
  - done.
  - split; [|done]. intros _. split; [by apply Hne|done].
  - split; [done|]. by intros [_ ?].
Qed.




(** * Properties of the pages, the aggregates and the AIP routes *)

(** ** The listing: pages, limit and items *)

Lemma resumes_nil : resumes [].
Proof. intros i x y Hx. by rewrite lookup_nil in Hx. Qed.

Lemma resumes_singleton x : resumes [x].
Proof. intros i a b Ha Hb. destruct i; simpl in Hb; by rewrite ?lookup_nil in Hb. Qed.

Lemma resumes_cons x hits new :
  snd x = Ok hits -> hits <> [] -> 0 < len (lastSort hits) ->
  (forall y, head new = Some y -> body_search_after (snd (fst y)) = lastSort hits) ->
  resumes new -> resumes (x :: new).
Proof.
  intros Hx Hne Hlen Hhead Hnew [|i] a b Ha Hb; simpl in *.
  - simplify_eq. exists hits. repeat split; try done.
    apply Hhead. by destruct new.
  - by eapply Hnew.
Qed.

Lemma searchAfterField_nonempty sa : 0 < len sa -> searchAfterField sa = sa.
Proof. unfold searchAfterField. intros Hlen. by destruct (Z.ltb_spec 0 (len sa)); [|lia]. Qed.

(** What the page loop of [ListAIPs] adds to the calls made. *)
Lemma listPages_trace es index limit pagesLeft page st trace :
  exists new,
    snd (listPages es index limit pagesLeft page st trace) = trace ++ new
    /\ (length new <= pagesLeft)%nat
    /\ resumes new
    /\ (forall x, x ∈ new -> fst (fst x) = index)
    /\ (forall x, head new = Some x ->
                  body_search_after (snd (fst x)) = searchAfterField (ls_searchAfter st))
    /\ (forall e, fst (listPages es index limit pagesLeft page st trace) = Err e
                  <-> exists x, last new = Some x /\ snd x = Err e).
Proof.
  revert page st trace.
  induction pagesLeft as [|n IH]; intros page st trace; cbn [listPages].
  { exists []. rewrite app_nil_r. repeat split; try done; try apply resumes_nil.
    - intros x Hx. by apply elem_of_nil in Hx.
    - intros (x & Hx & _). done. }
  destruct (Z.of_nat (length (ls_items st)) <? limit).
  2:{ exists []. rewrite app_nil_r. repeat split; try done; try apply resumes_nil.
      - simpl. lia.
      - intros x Hx. by apply elem_of_nil in Hx.
      - intros (x & Hx & _). done. }
  set (body := listBody limit (ls_searchAfter st)).
  destruct (es page index body) as [[|h hits]|e] eqn:Hres.
  - exists [(index, body, Ok [])]. repeat split; try done; try apply resumes_singleton.
    + simpl. lia.
    + intros x Hx. apply list_elem_of_singleton in Hx. by subst.
    + intros x [= <-]. done.
    + intros (x & [= <-] & Hx). done.
  - destruct (drainListHits limit (h :: hits) (ls_items st) (ls_seen st)) as [items seen].
    destruct (Z.eqb_spec (len (lastSort (h :: hits))) 0) as [Hz|Hnz].
    + exists [(index, body, Ok (h :: hits))].
      repeat split; try done; try apply resumes_singleton.
      * simpl. lia.
      * intros x Hx. apply list_elem_of_singleton in Hx. by subst.
      * intros x [= <-]. done.
      * intros (x & [= <-] & Hx). done.
    + match goal with
      | |- context [listPages es index limit n (S page) ?st' ?tr'] =>
          destruct (IH (S page) st' tr') as (new & Htr & Hlen & Hres' & Hidx & Hhead & Herr)
      end.
      assert (0 < len (lastSort (h :: hits))) as Hpos.
      { unfold len in *. destruct (lastSort (h :: hits)); lia. }
      exists ((index, body, Ok (h :: hits)) :: new).
      split; [rewrite Htr; by rewrite <- app_assoc|].
      split; [simpl; lia|].
      split.
      { eapply resumes_cons; [done|done|exact Hpos| |done].
        intros y Hy. rewrite (Hhead y Hy). by apply searchAfterField_nonempty. }
      split.
      { intros x Hx. apply elem_of_cons in Hx as [->|Hx]; [done|by apply Hidx]. }
      split; [by intros x [= <-]|].
      intros e. rewrite Herr. destruct new as [|y new']; [|done].
      split; intros (x & Hx & Hx'); [done|]. simpl in Hx. simplify_eq.
  - exists [(index, body, Err e)]. repeat split; try done; try apply resumes_singleton.
    + simpl. lia.
    + intros x Hx. apply list_elem_of_singleton in Hx. by subst.
    + intros x [= <-]. done.
    + intros [= ->]. by eexists.
    + intros (x & [= <-] & [= ->]). done.
Qed.

(** X1.  A listing makes at most ten calls to the index; every call but the
    last was answered with a page that is not empty and whose last hit
    carries sort values, and the next call resumes after those values;
    every call goes to the index asked for ([aipfiles] when the name is
    blank); and the first call resumes after the tuple of the cursor. *)
Theorem listing_pages_resume (std : GoStd) c es index limit cursor :
  let trace := snd (ListAIPs c es index limit cursor) in
  (length trace <= 10)%nat
  /\ resumes trace
  /\ (forall x, x ∈ trace -> fst (fst x) = defaultIndex index)
  /\ (forall x sa, head trace = Some x -> decodeCursor cursor = Ok sa ->
                   body_search_after (snd (fst x)) = searchAfterField sa).
Proof.
  unfold ListAIPs.
  destruct (negb (Enabled c)).
  { simpl. repeat split; try done; try lia; try apply resumes_nil.
    intros x Hx. by apply elem_of_nil in Hx. }
  destruct (decodeCursor cursor) as [sa|e].
  2:{ simpl. repeat split; try done; try lia; try apply resumes_nil.
      intros x Hx. by apply elem_of_nil in Hx. }
  match goal with
  | |- context [listPages ?es ?ix ?lim ?n ?p ?st ?tr] =>
      destruct (listPages_trace es ix lim n p st tr) as (new & Htr & Hlen & Hres & Hidx & Hhead & _);
      destruct (listPages es ix lim n p st tr) as [[st'|e] tr'] eqn:Hrun
  end; simpl in Htr; subst tr'; simpl;
    (split; [done|]; split; [done|]; split; [done|]);
    intros x sa' Hx [= <-]; by apply Hhead.
Qed.

Lemma drainListHits_length limit hits items seen :
  Z.of_nat (length items) < limit ->
  Z.of_nat (length (drainListHits limit hits items seen).1) <= limit.
Proof.
  revert items seen. induction hits as [|h hits IH]; intros items seen Hlen;
    cbn [drainListHits]; [simpl; lia|].
  case_decide; [by apply IH|]. case_decide; [by apply IH|].
  rewrite length_app. cbn [length].
  destruct (Z.leb_spec limit (Z.of_nat (length items + 1))).
  - simpl. rewrite length_app. simpl. lia.
  - apply IH. rewrite length_app. simpl. lia.
Qed.

Lemma listPages_length es index limit pagesLeft page st trace st' trace' :
  Z.of_nat (length (ls_items st)) <= limit ->
  listPages es index limit pagesLeft page st trace = (Ok st', trace') ->
  Z.of_nat (length (ls_items st')) <= limit.
Proof.
  revert page st trace.
  induction pagesLeft as [|n IH]; intros page st trace Hlen Hrun; cbn [listPages] in Hrun.
  { by simplify_eq. }
  destruct (Z.ltb_spec (Z.of_nat (length (ls_items st))) limit) as [Hlt|]; [|by simplify_eq].
  destruct (es page index (listBody limit (ls_searchAfter st))) as [[|h hits]|e].
  - by simplify_eq.
  - pose proof (drainListHits_length limit (h :: hits) _ (ls_seen st) Hlt) as Hlen'.
    destruct (drainListHits limit (h :: hits) (ls_items st) (ls_seen st)) as [items seen].
    case_match; [by simplify_eq|].
    by eapply IH in Hrun.
  - simplify_eq.
Qed.

(** X2.  A listing that succeeds returns at most [listLimit limit] items, so
    never more than 500. *)
Theorem listing_within_limit (std : GoStd) c es index limit cursor r trace :
  ListAIPs c es index limit cursor = (Ok (Some r), trace) ->
  Z.of_nat (length (Items r)) <= listLimit limit /\ (length (Items r) <= 500)%nat.
Proof.
  unfold ListAIPs. intros Hrun.
  destruct (negb (Enabled c)); [simplify_eq|].
  destruct (decodeCursor cursor) as [sa|e]; [|simplify_eq].
  destruct (listPages _ _ _ _ _ _ _) as [[st|e] tr] eqn:Hpages; [|simplify_eq].
  apply listPages_length in Hpages.
  - simplify_eq. simpl. pose proof (listLimit_range limit). lia.
  - simpl. pose proof (listLimit_range limit). lia.
Qed.

Lemma firstHitOf_app hits more it : firstHitOf hits it -> firstHitOf (hits ++ more) it.
Proof.
  intros (pre & h & post & -> & ?). exists pre, h, (post ++ more).
  split; [by rewrite <- app_assoc|done].
Qed.

Lemma drainListHits_from limit hits done items seen :
  listedFrom limit done items seen ->
  Z.of_nat (length items) < limit ->
  listedFrom limit (done ++ hits)
    (drainListHits limit hits items seen).1 (drainListHits limit hits items seen).2.
Proof.
  revert done items seen. induction hits as [|h hits IH]; intros done items seen Hinv Hlen;
    cbn [drainListHits].
  { by rewrite app_nil_r. }
  fold (hitAIP h). fold (hitSIPName h).
  assert (forall its sn, listedFrom limit (done ++ [h]) its sn ->
                         Z.of_nat (length its) < limit ->
                         listedFrom limit (done ++ h :: hits)
                           (drainListHits limit hits its sn).1
                           (drainListHits limit hits its sn).2) as Hnext.
  { intros its sn Hi Hl. replace (done ++ h :: hits) with ((done ++ [h]) ++ hits)
      by (by rewrite <- app_assoc). by apply IH. }
  destruct Hinv as [Hitems Hseen].
  case_decide as Hempty.
  { apply Hnext; [|done]. split.
    - intros it Hit. destruct (Hitems it Hit). split; [done|by apply firstHitOf_app].
    - intros _ h' Hh' Hne. apply elem_of_app in Hh' as [Hh'|Hh']; [by apply Hseen|].
      apply list_elem_of_singleton in Hh'. by subst. }
  case_decide as Hin.
  { apply Hnext; [|done]. split.
    - intros it Hit. destruct (Hitems it Hit). split; [done|by apply firstHitOf_app].
    - intros _ h' Hh' Hne. apply elem_of_app in Hh' as [Hh'|Hh']; [by apply Hseen|].
      apply list_elem_of_singleton in Hh'. by subst. }
  assert (forall it, it ∈ items ++ [{| AIPUUID := hitAIP h; SIPName := hitSIPName h |}] ->
                     AIPUUID it <> "" /\ firstHitOf (done ++ [h]) it) as Hitems'.
  { intros it Hit. apply elem_of_app in Hit as [Hit|Hit].
    - destruct (Hitems it Hit). split; [done|by apply firstHitOf_app].
    - apply list_elem_of_singleton in Hit. subst it. split; [done|].
      exists done, h, []. repeat split; try done.
      intros h' Hh' Heq. simpl in Heq. apply Hin. rewrite <- Heq.
      apply Hseen; [done|done|]. by rewrite Heq. }
  case_match.
  - simpl. split.
    + intros it Hit. destruct (Hitems' it Hit) as [? Hf]. split; [done|].
      replace (done ++ h :: hits) with ((done ++ [h]) ++ hits) by (by rewrite <- app_assoc).
      by apply firstHitOf_app.
    + intros Hl. lia.
  - apply Hnext; [|lia]. split; [done|].
    intros _ h' Hh' Hne. apply elem_of_app in Hh' as [Hh'|Hh'].
    + apply elem_of_union_r. by apply Hseen.
    + apply list_elem_of_singleton in Hh'. subst. apply elem_of_union_l.
      by apply elem_of_singleton.
Qed.

Lemma hitsScanned_snoc trace x : hitsScanned (trace ++ [x]) = hitsScanned trace ++ hitsOf x.
Proof. unfold hitsScanned. rewrite flat_map_app. simpl. by rewrite app_nil_r. Qed.

Lemma listPages_from es index limit pagesLeft page st trace st' trace' :
  listedFrom limit (hitsScanned trace) (ls_items st) (ls_seen st) ->
  listPages es index limit pagesLeft page st trace = (Ok st', trace') ->
  forall it, it ∈ ls_items st' -> AIPUUID it <> "" /\ firstHitOf (hitsScanned trace') it.
Proof.
  revert page st trace.
  induction pagesLeft as [|n IH]; intros page st trace Hinv Hrun; cbn [listPages] in Hrun.
  { simplify_eq. apply Hinv. }
  destruct (Z.ltb_spec (Z.of_nat (length (ls_items st))) limit) as [Hlt|];
    [|simplify_eq; apply Hinv].
  set (body := listBody limit (ls_searchAfter st)) in *.
  destruct (es page index body) as [[|h hits]|e].
  - simplify_eq. simpl. rewrite hitsScanned_snoc. unfold hitsOf. simpl.
    rewrite app_nil_r. apply Hinv.
  - pose proof (drainListHits_from limit (h :: hits) _ _ _ Hinv Hlt) as Hinv'.
    destruct (drainListHits limit (h :: hits) (ls_items st) (ls_seen st)) as [items seen].
    assert (hitsScanned (trace ++ [(index, body, Ok (h :: hits))])
            = hitsScanned trace ++ h :: hits) as Hscan by apply hitsScanned_snoc.
    case_match.
    + simplify_eq. simpl. rewrite Hscan. apply Hinv'.
    + eapply IH; [|exact Hrun]. simpl. by rewrite Hscan.
  - simplify_eq.
Qed.

(** X3.  Every item of a listing has an id that is not blank, and its id and
    name are the trimmed [AIPUUID] and [sipName] of the first hit, in the
    order the pages were fetched, that carries that id. *)
Theorem listing_items_from_first_hits (std : GoStd) c es index limit cursor r trace :
  ListAIPs c es index limit cursor = (Ok (Some r), trace) ->
  forall it, it ∈ Items r -> AIPUUID it <> "" /\ firstHitOf (hitsScanned trace) it.
Proof.
  unfold ListAIPs. intros Hrun.
  destruct (negb (Enabled c)); [simplify_eq|].
  destruct (decodeCursor cursor) as [sa|e]; [|simplify_eq].
  destruct (listPages _ _ _ _ _ _ _) as [[st|e] tr] eqn:Hpages; [|simplify_eq].
  simplify_eq. simpl. eapply listPages_from; [|exact Hpages].
  split.
  - intros it Hit. by apply elem_of_nil in Hit.
  - intros _ h Hh. by apply elem_of_nil in Hh.
Qed.

(** What the page loop leaves in [nextSort]. *)
Lemma listPages_nextSort es index limit pagesLeft page st trace st' trace' :
  listPages es index limit pagesLeft page st trace = (Ok st', trace') ->
  exists new,
    trace' = trace ++ new
    /\ match last new with
       | None => ls_nextSort st' = ls_nextSort st
       | Some x => exists hits, snd x = Ok hits /\ ls_nextSort st' = lastSort hits
       end.
Proof.
  revert page st trace.
  induction pagesLeft as [|n IH]; intros page st trace Hrun; cbn [listPages] in Hrun.
  { simplify_eq. exists []. by rewrite app_nil_r. }
  destruct (Z.of_nat (length (ls_items st)) <? limit);
    [|simplify_eq; exists []; by rewrite app_nil_r].
  set (body := listBody limit (ls_searchAfter st)) in *.
  destruct (es page index body) as [[|h hits]|e].
  - simplify_eq. eexists [_]. split; [done|]. simpl. by exists [].
  - destruct (drainListHits limit (h :: hits) (ls_items st) (ls_seen st)) as [items seen].
    case_match.
    + simplify_eq. eexists [_]. split; [done|]. simpl. by eexists.
    + apply IH in Hrun as (new & -> & Hlast).
      exists ((index, body, Ok (h :: hits)) :: new). split; [by rewrite <- app_assoc|].
      destruct new as [|y new'].
      * simpl in *. by eexists.
      * rewrite last_cons_cons.
        destruct (last (y :: new')) eqn:Hl; [exact Hlast|]. by apply last_None in Hl.
  - simplify_eq.
Qed.

Lemma encodeCursor_decodes `{GoStd} (x : slice any) :
  cursorTuple x ->
  exists cursor, encodeCursor x = Ok cursor /\ cursor <> "" /\ decodeCursor cursor = Ok x.
Proof.
  intros Hx. destruct (json_round_trip x Hx) as (blob & Hm & Hne & Hu).
  exists (b2s (b64encode blob)). unfold encodeCursor, decodeCursor.
  rewrite Hm. split; [done|].
  assert (b2s (b64encode blob) <> "") as Hc by (apply b2s_nonempty, b64encode_nonempty, Hne).
  split; [done|].
  rewrite TrimSpace_base64, decide_False by done.
  by rewrite s2b_b2s, b64decode_encode, Hu.
Qed.

(** X4.  The next cursor of a listing is empty when no call was made or when
    the last hit of the last page fetched carries no sort values;
    otherwise, for sort values a cursor can carry, it is not empty and
    decodes to the sort values of the last hit of the last page fetched,
    also when the limit was reached before the end of that page. *)
Theorem listing_next_cursor (std : GoStd) c es index limit cursor r trace :
  ListAIPs c es index limit cursor = (Ok (Some r), trace) ->
  match last trace with
  | None => NextCursor r = ""
  | Some x =>
      exists hits,
        snd x = Ok hits
        /\ (len (lastSort hits) = 0 -> NextCursor r = "")
        /\ (0 < len (lastSort hits) -> cursorTuple (lastSort hits) ->
            NextCursor r <> "" /\ decodeCursor (NextCursor r) = Ok (lastSort hits))
  end.
Proof.
  unfold ListAIPs. intros Hrun.
  destruct (negb (Enabled c)); [simplify_eq|].
  destruct (decodeCursor cursor) as [sa|e]; [|simplify_eq].
  destruct (listPages _ _ _ _ _ _ _) as [[st|e] tr] eqn:Hpages; [|simplify_eq].
  apply listPages_nextSort in Hpages as (new & Htr & Hlast). simpl in Htr, Hlast.
  simplify_eq. cbn [NextCursor].
  destruct (last _) as [x|].
  - destruct Hlast as (hits & Hx & ->). exists hits. split; [done|]. split.
    + intros ->. done.
    + intros Hpos Htuple. destruct (Z.ltb_spec 0 (len (lastSort hits))); [|lia].
      destruct (encodeCursor_decodes _ Htuple) as (cur & -> & Hne & Hdec). done.
  - by rewrite Hlast.
Qed.

(** X5.  With an enabled client and a cursor that decodes, a listing fails
    exactly when its last call to the index failed, and with that call's
    error. *)
Theorem listing_fails_with_last_call (std : GoStd) c es index limit cursor sa e :
  Enabled c = true ->
  decodeCursor cursor = Ok sa ->
  fst (ListAIPs c es index limit cursor) = Err e
  <-> exists x, last (snd (ListAIPs c es index limit cursor)) = Some x /\ snd x = Err e.
Proof.
  unfold ListAIPs. intros -> ->. cbn [negb].
  match goal with
  | |- context [listPages ?es ?ix ?lim ?n ?p ?st ?tr] =>
      destruct (listPages_trace es ix lim n p st tr) as (new & Htr & _ & _ & _ & _ & Herr);
      destruct (listPages es ix lim n p st tr) as [[st'|e'] tr'] eqn:Hrun
  end; simpl in Htr, Herr; subst tr'; simpl; rewrite <- Herr; split; congruence.
Qed.

Lemma listing_within_limit_witness :
  exists r,
    fst limitedRun = Ok (Some r)
    /\ Z.of_nat (length (Items r)) <= listLimit 2 /\ (length (Items r) <= 500)%nat.
Proof.
  destruct (returned_inv (fst limitedRun)) as [r Hfst]; [vm_compute; reflexivity|].
  exists r. split; [done|].
  exact (listing_within_limit refStd _ _ _ _ _ _ _ (run_pair _ _ Hfst)).
Defined.

Lemma listing_items_from_first_hits_witness :
  exists r,
    fst repeatingRun = Ok (Some r)
    /\ forall it, it ∈ Items r ->
                  AIPUUID it <> "" /\ firstHitOf (hitsScanned (snd repeatingRun)) it.
Proof.
  destruct (returned_inv (fst repeatingRun)) as [r Hfst]; [vm_compute; reflexivity|].
  exists r. split; [done|].
  exact (listing_items_from_first_hits refStd _ _ _ _ _ _ _ (run_pair _ _ Hfst)).
Defined.

Lemma listing_next_cursor_witness :
  exists r,
    fst limitedRun = Ok (Some r)
    /\ NextCursor r <> ""
    /\ decodeCursor (H := refStd) (NextCursor r) = Ok (Some [AStr "b"; AStr "4"]).
Proof.
  destruct (returned_inv (fst limitedRun)) as [r Hfst]; [vm_compute; reflexivity|].
  exists r. split; [done|].
  pose proof (listing_next_cursor refStd _ _ _ _ _ _ _ (run_pair _ _ Hfst)) as Hn.
  assert (lastSortOf (snd limitedRun) = Some [AStr "b"; AStr "4"]) as Hs
    by (vm_compute; reflexivity).
  unfold lastSortOf in Hs.
  destruct (last (snd limitedRun)) as [x|]; [|discriminate Hs].
  destruct Hn as (hits & Hx & _ & Hn). unfold hitsOf in Hs. rewrite Hx in Hs.
  rewrite Hs in Hn. apply Hn; [simpl; lia|].
  repeat (apply Forall_cons; split); try apply Forall_nil_2; vm_compute; auto.
Defined.

Lemma listing_fails_with_last_call_witness :
  fst failingRun = Err "elasticsearch status=503 body=unavailable"
  /\ length (snd failingRun) = 2%nat.
Proof.
  split; [|vm_compute; reflexivity].
  apply (listing_fails_with_last_call refStd fixtureClient failingIndex "aipfiles" 10 "" None);
    [reflexivity|reflexivity|].
  exists ("aipfiles", listBody 10 (Some [AStr "b"; AStr "2"]),
          Err "elasticsearch status=503 body=unavailable").
  split; vm_compute; reflexivity.
Defined.

(** ** The full scan: pages *)

(** What the page loop of [AIPStats] adds to the calls made. *)
Lemma scanPages_trace `{GoStd} es index aip pageSize pagesLeft page sa s trace :
  exists new,
    snd (scanPages es index aip pageSize pagesLeft page sa s trace) = trace ++ new
    /\ (length new <= pagesLeft)%nat
    /\ resumes new
    /\ (forall x, x ∈ new -> fst (fst x) = index /\ body_query (snd (fst x)) = Some aip)
    /\ (forall x, head new = Some x -> body_search_after (snd (fst x)) = searchAfterField sa)
    /\ (forall e, fst (scanPages es index aip pageSize pagesLeft page sa s trace) = Err e
                  <-> exists x, last new = Some x /\ snd x = Err e).
Proof.
  revert page sa s trace.
  induction pagesLeft as [|n IH]; intros page sa s trace; cbn [scanPages].
  { exists []. rewrite app_nil_r.
    split; [done|]. split; [done|]. split; [apply resumes_nil|].
    split; [intros x Hx; by apply elem_of_nil in Hx|]. split; [done|].
    intros e. split; [done|]. intros (x & Hx & _). done. }
  set (body := statsBody aip pageSize sa).
  assert (forall (r : result (list searchHit)) (x : exchange),
             x ∈ [(index, body, r)] ->
             fst (fst x) = index /\ body_query (snd (fst x)) = Some aip) as Hone.
  { intros r x Hx. apply list_elem_of_singleton in Hx. by subst. }
  destruct (es page index body) as [[|h hits]|e] eqn:Hres.
  - exists [(index, body, Ok [])].
    split; [done|]. split; [simpl; lia|]. split; [apply resumes_singleton|].
    split; [apply Hone|]. split; [by intros x [= <-]|].
    split; [done|]. intros (x & [= <-] & Hx). done.
  - destruct (Z.eqb_spec (len (lastSort (h :: hits))) 0) as [Hz|Hnz].
    + exists [(index, body, Ok (h :: hits))].
      split; [done|]. split; [simpl; lia|]. split; [apply resumes_singleton|].
      split; [apply Hone|]. split; [by intros x [= <-]|].
      split; [done|]. intros (x & [= <-] & Hx). done.
    + match goal with
      | |- context [scanPages es index aip pageSize n (S page) ?sa' ?s' ?tr'] =>
          destruct (IH (S page) sa' s' tr')
            as (new & Htr & Hlen & Hres' & Hidx & Hhead & Herr)
      end.
      assert (0 < len (lastSort (h :: hits))) as Hpos.
      { unfold len in *. destruct (lastSort (h :: hits)); lia. }
      exists ((index, body, Ok (h :: hits)) :: new).
      split; [rewrite Htr; by rewrite <- app_assoc|].
      split; [simpl; lia|].
      split.
      { eapply resumes_cons; [done|done|exact Hpos| |done].
        intros y Hy. rewrite (Hhead y Hy). by apply searchAfterField_nonempty. }
      split.
      { intros x Hx. apply elem_of_cons in Hx as [->|Hx]; [done|by apply Hidx]. }
      split; [by intros x [= <-]|].
      intros e. rewrite Herr. destruct new as [|y new']; [|done].
      split; intros (x & Hx & Hx'); [done|]. simpl in Hx. simplify_eq.
  - exists [(index, body, Err e)].
    split; [done|]. split; [simpl; lia|]. split; [apply resumes_singleton|].
    split; [apply Hone|]. split; [by intros x [= <-]|].
    intros e'. split.
    + intros [= ->]. by eexists.
    + intros (x & [= <-] & [= ->]). done.
Qed.

(** X6.  A full scan makes at most 1000 calls to the index; each call after
    the first resumes after the sort values of the last hit of the page
    before it; every call goes to the index asked for and filters on the
    trimmed AIP UUID; and the first call has no [search_after]. *)
Theorem stats_pages_resume (std : GoStd) c es index aipUUID pageSize :
  let trace := snd (AIPStats_run c es index aipUUID pageSize) in
  (length trace <= 1000)%nat
  /\ resumes trace
  /\ (forall x, x ∈ trace ->
                fst (fst x) = defaultIndex index
                /\ body_query (snd (fst x)) = Some (TrimSpace aipUUID))
  /\ (forall x, head trace = Some x -> body_search_after (snd (fst x)) = None).
Proof.
  unfold AIPStats_run.
  assert (let trace := @nil exchange in
          (length trace <= 1000)%nat
          /\ resumes trace
          /\ (forall x, x ∈ trace ->
                        fst (fst x) = defaultIndex index
                        /\ body_query (snd (fst x)) = Some (TrimSpace aipUUID))
          /\ (forall x, head trace = Some x -> body_search_after (snd (fst x)) = None))
    as Hnil.
  { simpl. split; [lia|]. split; [apply resumes_nil|]. split; [|done].
    intros x Hx. by apply elem_of_nil in Hx. }
  destruct (negb (Enabled c)); [exact Hnil|].
  case_decide; [exact Hnil|]. clear Hnil.
  match goal with
  | |- context [scanPages ?es ?ix ?aip ?ps ?n ?p ?sa ?s ?tr] =>
      destruct (scanPages_trace es ix aip ps n p sa s tr)
        as (new & Htr & Hlen & Hres & Hidx & Hhead & _);
      destruct (scanPages es ix aip ps n p sa s tr) as [[s'|e] tr'] eqn:Hrun
  end; simpl in Htr; subst tr'; simpl;
    (split; [done|]; split; [done|]; split; [done|]); intros x Hx; by apply Hhead.
Qed.

(** X7.  With an enabled client, a blank AIP UUID gives the error
    [aip uuid required] without a call to the index; with any other UUID
    the scan fails exactly when its last call failed, and with that call's
    error. *)
Theorem stats_failures (std : GoStd) c es index aipUUID pageSize :
  Enabled c = true ->
  (TrimSpace aipUUID = "" ->
   AIPStats_run c es index aipUUID pageSize = (Err "aip uuid required", []))
  /\ (TrimSpace aipUUID <> "" ->
      forall e,
        fst (AIPStats_run c es index aipUUID pageSize) = Err e
        <-> exists x, last (snd (AIPStats_run c es index aipUUID pageSize)) = Some x
                      /\ snd x = Err e).
Proof.
  unfold AIPStats_run. intros ->. cbn [negb]. split.
  - intros ->. done.
  - intros Hne e. rewrite decide_False by done.
    match goal with
    | |- context [scanPages ?es ?ix ?aip ?ps ?n ?p ?sa ?s ?tr] =>
        destruct (scanPages_trace es ix aip ps n p sa s tr)
          as (new & Htr & _ & _ & _ & _ & Herr);
        destruct (scanPages es ix aip ps n p sa s tr) as [[s'|e'] tr'] eqn:Hrun
    end; simpl in Htr, Herr; subst tr'; simpl; rewrite <- Herr; split; congruence.
Qed.

Lemma stats_failures_witness :
  AIPStats_run (H := refStd) fixtureClient brokenScanIndex "aipfiles" "  " 1
  = (Err "aip uuid required", [])
  /\ fst brokenScanRun = Err "elasticsearch status=502 body="
  /\ length (snd brokenScanRun) = 3%nat.
Proof.
  split; [|split; [|vm_compute; reflexivity]].
  - apply (proj1 (stats_failures refStd fixtureClient brokenScanIndex "aipfiles" "  " 1
                    eq_refl)).
    vm_compute; reflexivity.
  - apply (proj2 (stats_failures refStd fixtureClient brokenScanIndex "aipfiles" " aip-1 " 1
                    eq_refl)).
    + vm_compute. discriminate.
    + exists ("aipfiles", statsBody "aip-1" 1 (Some [AStr "f2"; AStr "objects/b.tif"]),
              Err "elasticsearch status=502 body=").
      split; vm_compute; reflexivity.
Defined.

(** ** The full scan: counters *)

Lemma size_add_one (x : string) (s : gset string) : (size ({[x]} ∪ s) <= S (size s))%nat.
Proof.
  rewrite size_union_alt, size_singleton.
  assert (size (s ∖ {[x]}) <= size s)%nat; [|lia].
  apply subseteq_size. intros y Hy. by apply elem_of_difference in Hy as [? _].
Qed.

Lemma size_addIf v (s : gset string) : (size (addIf v s) <= S (size s))%nat.
Proof. unfold addIf. case_decide; [lia|apply size_add_one]. Qed.

Lemma sumCounts_empty : sumCounts ∅ = 0.
Proof. unfold sumCounts. by rewrite map_fold_empty. Qed.

Lemma sumCounts_insert_new k v (m : gmap string Z) :
  m !! k = None -> sumCounts (<[k := v]> m) = v + sumCounts m.
Proof.
  intros Hk. unfold sumCounts. rewrite map_fold_insert_L; [done| |done].
  intros. lia.
Qed.

Lemma sumCounts_insert k v (m : gmap string Z) :
  sumCounts (<[k := v]> m) = v + sumCounts m - default 0 (m !! k).
Proof.
  destruct (m !! k) as [old|] eqn:Hk; simpl.
  - rewrite <- insert_delete_eq.
    rewrite sumCounts_insert_new by apply lookup_delete_eq.
    unfold sumCounts at 2. rewrite (map_fold_delete_L _ _ k old m); [|intros; lia|done].
    fold (sumCounts (delete k m)). lia.
  - rewrite sumCounts_insert_new by done. lia.
Qed.

Lemma sumCounts_nonneg (m : gmap string Z) :
  (forall j n, m !! j = Some n -> 0 <= n) -> 0 <= sumCounts m.
Proof.
  induction m as [|k v m Hk IH] using map_ind; intros Hpos.
  - by rewrite sumCounts_empty.
  - rewrite sumCounts_insert_new by done.
    assert (0 <= v) by (apply (Hpos k); by rewrite lookup_insert_eq).
    assert (0 <= sumCounts m); [|lia].
    apply IH. intros j n Hj. apply (Hpos j). rewrite lookup_insert_ne; [done|].
    intros ->. by rewrite Hk in Hj.
Qed.

Lemma sumCounts_lookup_le k v (m : gmap string Z) :
  (forall j n, m !! j = Some n -> 1 <= n) -> m !! k = Some v -> v <= sumCounts m.
Proof.
  intros Hpos Hk. unfold sumCounts.
  rewrite (map_fold_delete_L _ _ k v m); [|intros; lia|done].
  fold (sumCounts (delete k m)).
  assert (0 <= sumCounts (delete k m)); [|lia].
  apply sumCounts_nonneg. intros j n Hj.
  apply lookup_delete_Some in Hj as [_ Hj]. apply Hpos in Hj. lia.
Qed.

(** [m[k]++] adds one to the sum as long as the int64 range is not left. *)
Lemma sumCounts_incr k (m : gmap string Z) :
  (forall j n, m !! j = Some n -> 1 <= n) -> sumCounts m < maxInt64 ->
  sumCounts (incr k m) = sumCounts m + 1
  /\ (forall j n, incr k m !! j = Some n -> 1 <= n).
Proof.
  intros Hpos Hmax. unfold incr.
  assert (0 <= default 0 (m !! k) <= sumCounts m) as Hold.
  { destruct (m !! k) as [old|] eqn:Hk; simpl.
    - pose proof (Hpos k old Hk). pose proof (sumCounts_lookup_le k old m Hpos Hk). lia.
    - split; [lia|]. apply sumCounts_nonneg. intros j n Hj. apply Hpos in Hj. lia. }
  rewrite wrap64_id by (unfold minInt64, maxInt64 in *; lia).
  split.
  - rewrite sumCounts_insert. lia.
  - intros j n Hj. destruct (decide (j = k)) as [->|Hne].
    + rewrite lookup_insert_eq in Hj. simplify_eq. lia.
    + rewrite lookup_insert_ne in Hj by done. by eapply Hpos.
Qed.

Lemma tallied_init : tallied initScan 0.
Proof.
  unfold tallied. cbn. rewrite sumCounts_empty, !size_empty.
  repeat split; try lia. intros ext n Hn. by rewrite lookup_empty in Hn.
Qed.

Lemma tallied_step `{GoStd} s h k :
  tallied s k -> 0 <= k < maxInt64 -> tallied (scanHit s h) (k + 1).
Proof.
  intros (Hft & Hmi & Huf & Hmc & Hem & Hfu & Hfs & Hsn & Hsum & Hpos) Hk.
  assert (forall z, 0 <= z <= k -> wrap64 (z + 1) = z + 1) as Hwrap.
  { intros z Hz. apply wrap64_id. unfold minInt64, maxInt64 in *. lia. }
  unfold tallied, scanHit.
  cbn [sc_FilesTotal sc_MissingIdentifiers sc_UnknownFormats sc_MissingCreatedByAppDate
       sc_ExtensionFormatMismatch fileUUIDs formatSignatureSet sipNames
       sc_RawExtensionCounts].
  rewrite Hft.
  split; [by apply Hwrap; lia|].
  split; [case_match; rewrite ?Hwrap by lia; lia|].
  split; [case_match; rewrite ?Hwrap by lia; lia|].
  split; [case_match; rewrite ?Hwrap by lia; lia|].
  split; [case_match; rewrite ?Hwrap by lia; lia|].
  split; [match goal with |- context [addIf ?v ?s] => pose proof (size_addIf v s) end; lia|].
  split.
  { case_match; [|lia].
    match goal with |- context [size ({[?v]} ∪ ?s)] => pose proof (size_add_one v s) end.
    lia. }
  split; [match goal with |- context [addIf ?v ?s] => pose proof (size_addIf v s) end; lia|].
  match goal with
  | |- context [incr ?e ?m] =>
      destruct (sumCounts_incr e m Hpos) as [Hs Hp]; [lia|]
  end.
  split; [lia|done].
Qed.

Lemma tallied_fold `{GoStd} hits s k :
  tallied s k -> 0 <= k -> k + Z.of_nat (length hits) <= maxInt64 ->
  tallied (foldl scanHit s hits) (k + Z.of_nat (length hits)).
Proof.
  revert s k. induction hits as [|h hits IH]; intros s k Hb Hk Hmax;
    cbn [foldl length] in *.
  - by rewrite Z.add_0_r.
  - replace (k + Z.of_nat (S (length hits)))
      with ((k + 1) + Z.of_nat (length hits)) by lia.
    apply IH; [apply tallied_step; [done|lia] | lia | lia].
Qed.

Lemma tallied_run `{GoStd} c es index aipUUID pageSize stats trace :
  AIPStats_run c es index aipUUID pageSize = (Ok (Some stats), trace) ->
  Z.of_nat (length (hitsScanned trace)) <= maxInt64 ->
  exists s, stats = finalize (TrimSpace aipUUID) s
            /\ tallied s (Z.of_nat (length (hitsScanned trace))).
Proof.
  intros Hrun Hmax. rewrite (AIPStats_run_fold _ _ _ _ _ _ _ Hrun).
  eexists. split; [done|].
  pose proof (tallied_fold (hitsScanned trace) initScan 0 tallied_init) as Hb.
  apply Hb; lia.
Qed.

Lemma fold_scanHit_fileUUIDs `{GoStd} hits s :
  fileUUIDs (foldl scanHit s hits)
  = list_to_set (fieldValues "FILEUUID" hits) ∪ fileUUIDs s.
Proof.
  revert s. induction hits as [|h hits IH]; intros s; cbn [foldl].
  { unfold fieldValues. cbn [map]. rewrite filter_nil. cbn [list_to_set].
    by rewrite union_empty_l_L. }
  rewrite IH. unfold scanHit at 1. cbn [fileUUIDs]. fold (hitField "FILEUUID" h).
  unfold fieldValues, addIf. cbn [map]. rewrite filter_cons.
  destruct (decide (hitField "FILEUUID" h = "")) as [He|Hne].
  - by rewrite decide_False by (by intros ?).
  - rewrite decide_True by done. cbn [list_to_set].
    rewrite (union_comm_L {[hitField "FILEUUID" h]} (list_to_set _)).
    by rewrite <- union_assoc_L.
Qed.

(** X8.  The number of unique file UUIDs is the number of distinct non-blank
    [FILEUUID] values of the hits scanned; it and the number of unique
    format signatures lie between zero and the files total. *)
Theorem unique_file_uuids_counted (std : GoStd)
    c es index aipUUID pageSize stats trace :
  AIPStats_run c es index aipUUID pageSize = (Ok (Some stats), trace) ->
  Z.of_nat (length (hitsScanned trace)) <= maxInt64 ->
  UniqueFileUUIDs stats
  = Z.of_nat (size (list_to_set (fieldValues "FILEUUID" (hitsScanned trace)) : gset string))
  /\ 0 <= UniqueFileUUIDs stats <= FilesTotal stats
  /\ 0 <= UniqueFormatSignatures stats <= FilesTotal stats.
Proof.
  intros Hrun Hmax.
  destruct (tallied_run _ _ _ _ _ _ _ Hrun Hmax)
    as (s & -> & Hft & Hmi & Huf & Hmc & Hem & Hfu & Hfs & Hsn & _).
  split.
  - rewrite (AIPStats_run_fold _ _ _ _ _ _ _ Hrun) in Hrun |- *.
    cbn [finalize UniqueFileUUIDs]. rewrite fold_scanHit_fileUUIDs.
    cbn [initScan fileUUIDs]. by rewrite union_empty_r_L.
  - cbn [finalize UniqueFileUUIDs UniqueFormatSignatures FilesTotal].
    rewrite Hft. repeat split; lia.
Qed.

Lemma unique_file_uuids_counted_witness :
  exists stats,
    fst sevenHitRun = Ok (Some stats)
    /\ UniqueFileUUIDs stats
       = Z.of_nat (size (list_to_set (fieldValues "FILEUUID" (hitsScanned (snd sevenHitRun)))
                         : gset string))
    /\ 0 <= UniqueFileUUIDs stats <= FilesTotal stats
    /\ 0 <= UniqueFormatSignatures stats <= FilesTotal stats.
Proof.
  destruct (returned_inv (fst sevenHitRun)) as [stats Hfst]; [vm_compute; reflexivity|].
  exists stats. split; [done|].
  apply (unique_file_uuids_counted refStd _ _ _ _ _ _ _ (run_pair _ _ Hfst)).
  assert (length (hitsScanned (snd sevenHitRun)) = 7%nat) as -> by (vm_compute; reflexivity).
  unfold maxInt64. lia.
Defined.

(** X9.  Every file is counted under exactly one extension: the raw extension
    counts add up to the files total, and each count is at least one and at
    most the files total. *)
Theorem extension_counts_sum_to_files_total (std : GoStd)
    c es index aipUUID pageSize stats trace :
  AIPStats_run c es index aipUUID pageSize = (Ok (Some stats), trace) ->
  Z.of_nat (length (hitsScanned trace)) <= maxInt64 ->
  sumCounts (RawExtensionCounts stats) = FilesTotal stats
  /\ (forall ext n, RawExtensionCounts stats !! ext = Some n -> 1 <= n <= FilesTotal stats).
Proof.
  intros Hrun Hmax.
  destruct (tallied_run _ _ _ _ _ _ _ Hrun Hmax) as (s & -> & Hft & Ht).
  destruct Ht as (_ & _ & _ & _ & _ & _ & _ & Hsum & Hpos).
  cbn [finalize RawExtensionCounts FilesTotal].
  rewrite Hft. split; [done|].
  intros ext n Hn. split; [by eapply Hpos|].
  rewrite <- Hsum. by eapply sumCounts_lookup_le.
Qed.

Lemma extension_counts_sum_to_files_total_witness :
  exists stats,
    fst sevenHitRun = Ok (Some stats)
    /\ FilesTotal stats = 7
    /\ sumCounts (RawExtensionCounts stats) = FilesTotal stats
    /\ (forall ext n, RawExtensionCounts stats !! ext = Some n -> 1 <= n <= FilesTotal stats).
Proof.
  destruct (returned_inv (fst sevenHitRun)) as [stats Hfst]; [vm_compute; reflexivity|].
  exists stats. split; [done|].
  assert (filesOf (fst sevenHitRun) = 7) as Hfiles by (vm_compute; reflexivity).
  rewrite Hfst in Hfiles. split; [exact Hfiles|].
  apply (extension_counts_sum_to_files_total refStd _ _ _ _ _ _ _ (run_pair _ _ Hfst)).
  assert (length (hitsScanned (snd sevenHitRun)) = 7%nat) as -> by (vm_compute; reflexivity).
  unfold maxInt64. lia.
Defined.

(** ** The full scan: sizes *)

Lemma wrap64_add_l a b : wrap64 (wrap64 a + b) = wrap64 (a + b).
Proof.
  unfold wrap64. f_equal.
  replace ((a + 2 ^ 63) mod 2 ^ 64 - 2 ^ 63 + b + 2 ^ 63)
    with ((a + 2 ^ 63) mod 2 ^ 64 + b) by lia.
  rewrite Zplus_mod_idemp_l. f_equal. lia.
Qed.

Lemma scanHit_sizes `{GoStd} s h :
  sc_TotalBytes (scanHit s h)
  = match hitSample h with
    | Some f => wrap64 (sc_TotalBytes s + Bytes f)
    | None => sc_TotalBytes s
    end
  /\ sc_LargestFiles (scanHit s h)
     = match hitSample h with
       | Some f => pushLargestFile (sc_LargestFiles s) f 10
       | None => sc_LargestFiles s
       end.
Proof.
  unfold scanHit, hitSample, hitSize. cbn [sc_TotalBytes sc_LargestFiles].
  cbv zeta. split; by case_match.
Qed.

Lemma sumBytes_snoc l f : sumBytes (l ++ [f]) = sumBytes l + Bytes f.
Proof. unfold sumBytes. induction l as [|x l IH]; simpl; lia. Qed.

Lemma fold_scanHit_total `{GoStd} hits done s :
  sc_TotalBytes s = wrap64 (sumBytes (omap hitSample done)) ->
  sc_TotalBytes (foldl scanHit s hits)
  = wrap64 (sumBytes (omap hitSample (done ++ hits))).
Proof.
  revert done s. induction hits as [|h hits IH]; intros done s Hs; cbn [foldl].
  { by rewrite app_nil_r. }
  replace (done ++ h :: hits) with ((done ++ [h]) ++ hits) by (by rewrite <- app_assoc).
  apply IH. rewrite (proj1 (scanHit_sizes s h)), omap_app.
  destruct (hitSample h) as [f|] eqn:Hf; cbn -[sumBytes wrap64]; rewrite Hf.
  - by rewrite sumBytes_snoc, Hs, wrap64_add_l.
  - by rewrite app_nil_r.
Qed.

(** X10.  The total of bytes is the 64-bit sum of the sizes of the hits whose
    size is positive, the size of a hit being the PREMIS size of its METS
    document, else its [size] field, else its [FileSize] field. *)
Theorem total_bytes_sums_positive_sizes (std : GoStd)
    c es index aipUUID pageSize stats trace :
  AIPStats_run c es index aipUUID pageSize = (Ok (Some stats), trace) ->
  TotalBytes stats = wrap64 (sumBytes (omap hitSample (hitsScanned trace)))
  /\ Forall (fun f => 0 < Bytes f) (omap hitSample (hitsScanned trace)).
Proof.
  intros Hrun. rewrite (AIPStats_run_fold _ _ _ _ _ _ _ Hrun). cbn [finalize TotalBytes].
  split.
  - by rewrite (fold_scanHit_total (hitsScanned trace) [] initScan).
  - apply Forall_forall. intros f Hf. apply list_elem_of_omap in Hf as (h & _ & Hh).
    unfold hitSample in Hh. destruct (Z.ltb_spec 0 (hitSize h)); [|done].
    by simplify_eq.
Qed.

Lemma largestLess_false_bytes a b : largestLess a b = false -> Bytes a <= Bytes b.
Proof.
  unfold largestLess. destruct (Z.eqb_spec (Bytes a) (Bytes b)); [lia|].
  intros Hlt. apply Z.ltb_ge in Hlt. lia.
Qed.

Lemma pushLargestFile_keeps `{SortLaws} all kept item :
  keepsLargest all kept -> keepsLargest (all ++ [item]) (pushLargestFile kept item 10).
Proof.
  intros (rest & Hall & Hlen & Hfull & Hle).
  unfold pushLargestFile. cbn [Z.leb Z.compare].
  set (sorted := sort_Slice largestLess (kept ++ [item])).
  assert (sorted ≡ₚ kept ++ [item]) as Hperm by apply sort_perm.
  assert (orderedBy (notAfter largestLess) sorted) as Hord
    by apply sort_sorted, largestLess_StrictWeak.
  assert (length sorted = S (length kept)) as Hsl.
  { rewrite Hperm, length_app. simpl. lia. }
  destruct (Z.ltb_spec 10 (Z.of_nat (length sorted))) as [Hover|Hfit].
  - assert (length kept = 10%nat) as Hten by lia.
    destruct (drop 10 sorted) as [|m [|m' tl]] eqn:Hdrop.
    { apply (f_equal length) in Hdrop. rewrite length_drop in Hdrop. simpl in Hdrop. lia. }
    2:{ apply (f_equal length) in Hdrop. rewrite length_drop in Hdrop. simpl in Hdrop. lia. }
    assert (sorted = take 10 sorted ++ [m]) as Hsplit.
    { rewrite <- Hdrop. by rewrite take_drop. }
    assert (sorted !! 10%nat = Some m) as Hm.
    { pose proof (lookup_drop sorted 10 0) as Hl. rewrite Hdrop in Hl. simpl in Hl.
      by rewrite <- Hl. }
    assert (forall y, y ∈ take 10 sorted -> Bytes m <= Bytes y) as Hmy.
    { intros y Hy. apply list_elem_of_lookup_1 in Hy as [i Hi].
      apply lookup_take_Some in Hi as [Hi Hlt].
      apply largestLess_false_bytes. apply (Hord i 10%nat y m); [lia|done|done]. }
    exists (m :: rest). split; [|split; [|split]].
    + rewrite Hall. rewrite <- app_assoc. rewrite (Permutation_app_comm rest [item]).
      rewrite app_assoc. rewrite <- Hperm. rewrite Hsplit at 1.
      rewrite <- app_assoc. done.
    + rewrite length_take. lia.
    + intros _. rewrite length_take. lia.
    + intros x y Hx Hy. apply elem_of_cons in Hx as [->|Hx]; [by apply Hmy|].
      assert (y ∈ kept ++ [item]) as Hy'.
      { rewrite <- Hperm. rewrite Hsplit. apply elem_of_app. by left. }
      apply elem_of_app in Hy' as [Hy'|Hy']; [by apply Hle|].
      apply list_elem_of_singleton in Hy'. subst y.
      assert (m ∈ kept ++ [item]) as Hm'.
      { rewrite <- Hperm. by eapply list_elem_of_lookup_2. }
      apply elem_of_app in Hm' as [Hm'|Hm'].
      * specialize (Hle x m Hx Hm'). specialize (Hmy item Hy). lia.
      * apply list_elem_of_singleton in Hm'. subst m.
        apply Hle; [done|].
        assert (take 10 sorted ≡ₚ kept) as <-; [|done].
        apply (Permutation_app_inv_r [item]). by rewrite <- Hsplit.
  - exists []. assert (rest = []) as ->.
    { destruct rest; [done|]. specialize (Hfull ltac:(done)). lia. }
    rewrite app_nil_r in *. split; [by rewrite Hall, Hperm|].
    split; [lia|]. split; [done|]. intros x y Hx. by apply elem_of_nil in Hx.
Qed.

Lemma fold_scanHit_keeps `{SortLaws} hits done s :
  keepsLargest (omap hitSample done) (sc_LargestFiles s) ->
  keepsLargest (omap hitSample (done ++ hits)) (sc_LargestFiles (foldl scanHit s hits)).
Proof.
  revert done s. induction hits as [|h hits IH]; intros done s Hs; cbn [foldl].
  { by rewrite app_nil_r. }
  replace (done ++ h :: hits) with ((done ++ [h]) ++ hits) by (by rewrite <- app_assoc).
  apply IH. rewrite (proj2 (scanHit_sizes s h)), omap_app.
  destruct (hitSample h) as [f|] eqn:Hf; cbn -[pushLargestFile]; rewrite Hf.
  - by apply pushLargestFile_keeps.
  - by rewrite app_nil_r.
Qed.

(** X11.  The largest files of a scan are a selection of the files of positive
    size: at most ten, all of them while there are no more than ten, and
    no file left out is larger than a file kept. *)
Theorem largest_files_are_the_largest (std : GoStd) (laws : SortLaws std)
    c es index aipUUID pageSize stats trace :
  AIPStats_run c es index aipUUID pageSize = (Ok (Some stats), trace) ->
  keepsLargest (omap hitSample (hitsScanned trace)) (LargestFiles stats).
Proof.
  intros Hrun. rewrite (AIPStats_run_fold _ _ _ _ _ _ _ Hrun). cbn [finalize LargestFiles].
  apply (fold_scanHit_keeps (hitsScanned trace) [] initScan).
  exists []. simpl. repeat split; try done; try lia.
  intros x y Hx. by apply elem_of_nil in Hx.
Qed.

Lemma largest_files_are_the_largest_witness :
  exists stats,
    fst twelveFilesRun = Ok (Some stats)
    /\ map fst (largestOf (fst twelveFilesRun)) = [12; 11; 9; 8; 7; 7; 7; 5; 4; 3]
    /\ keepsLargest (omap (hitSample (H := refStd)) (hitsScanned (snd twelveFilesRun)))
                    (LargestFiles stats).
Proof.
  destruct (returned_inv (fst twelveFilesRun)) as [stats Hfst]; [vm_compute; reflexivity|].
  exists stats. split; [done|]. split; [vm_compute; reflexivity|].
  exact (largest_files_are_the_largest refStd refStd_laws _ _ _ _ _ _ _ (run_pair _ _ Hfst)).
Defined.

Lemma total_bytes_sums_positive_sizes_witness :
  exists stats,
    fst sevenHitRun = Ok (Some stats)
    /\ TotalBytes stats = 160
    /\ TotalBytes stats
       = wrap64 (sumBytes (omap (hitSample (H := refStd)) (hitsScanned (snd sevenHitRun)))).
Proof.
  destruct (returned_inv (fst sevenHitRun)) as [stats Hfst]; [vm_compute; reflexivity|].
  exists stats. split; [done|].
  pose proof (total_bytes_sums_positive_sizes refStd _ _ _ _ _ _ _ (run_pair _ _ Hfst))
    as [Ht _].
  split; [|done]. rewrite Ht. vm_compute. reflexivity.
Defined.

(** ** Sorted outputs *)

Lemma String_ltb_total a b : String.ltb b a = false -> a <> b -> String.ltb a b = true.
Proof.
  unfold String.ltb. rewrite (String.compare_antisym a b).
  destruct (String.compare b a) eqn:Hc; simpl; try done.
  apply String.compare_eq_iff in Hc. by intros _ Hne.
Qed.

Lemma String_ltb_StrictWeak : StrictWeak String.ltb.
Proof. split; [apply String_ltb_asym|apply String_ltb_negtrans]. Qed.

Lemma orderedBy_NoDup_strict {A} (less : A -> A -> bool) (R : A -> A -> Prop) l :
  (forall a b, less b a = false -> a <> b -> R a b) ->
  NoDup l -> orderedBy (notAfter less) l -> orderedBy R l.
Proof.
  intros HR Hnd Hord i j x y Hij Hi Hj. apply HR; [by eapply Hord|].
  intros ->. pose proof (NoDup_lookup _ _ _ _ Hnd Hi Hj). lia.
Qed.

(** Sorting the elements of a set of strings. *)
Lemma sorted_elements `{SortLaws} (s : gset string) :
  orderedBy ascending (sort_Slice String.ltb (elements s))
  /\ NoDup (sort_Slice String.ltb (elements s))
  /\ (forall x, x ∈ sort_Slice String.ltb (elements s) <-> x ∈ s).
Proof.
  pose proof (sort_perm _ String.ltb (elements s)) as Hperm.
  assert (NoDup (sort_Slice String.ltb (elements s))) as Hnd.
  { rewrite Hperm. apply NoDup_elements. }
  split; [|split; [done|]].
  - eapply orderedBy_NoDup_strict; [|done|by apply sort_sorted, String_ltb_StrictWeak].
    intros a b. apply String_ltb_total.
  - intros x. rewrite Hperm. apply elem_of_elements.
Qed.

Lemma keyCountLess_StrictWeak : StrictWeak keyCountLess.
Proof.
  split.
  - intros a b. unfold keyCountLess.
    destruct (Z.eqb_spec (Count a) (Count b)) as [Heq|Hne].
    + rewrite Heq, Z.eqb_refl. apply String_ltb_asym.
    + destruct (Z.eqb_spec (Count b) (Count a)); [congruence|]. lia.
  - intros a b c. unfold keyCountLess.
    destruct (Z.eqb_spec (Count a) (Count c)), (Z.eqb_spec (Count a) (Count b)),
      (Z.eqb_spec (Count b) (Count c)); try lia; try apply String_ltb_negtrans;
      intros; lia.
Qed.

Lemma keyCountLess_false a b :
  keyCountLess b a = false -> Key a <> Key b -> rankedBefore a b.
Proof.
  unfold keyCountLess, rankedBefore, ascending.
  destruct (Z.eqb_spec (Count b) (Count a)) as [Heq|Hne].
  - intros Hlt Hk. right. split; [done|]. by apply String_ltb_total.
  - intros Hlt _. apply Z.ltb_ge in Hlt. left. lia.
Qed.

Lemma rankedBefore_count a b : rankedBefore a b -> Count b <= Count a.
Proof. intros [?|[? _]]; lia. Qed.

Lemma truncateTo_take {A} limit (l : list A) :
  truncateTo limit l = if (0 <? limit) && (limit <? Z.of_nat (length l))
                       then take (Z.to_nat limit) l else l.
Proof. done. Qed.

Lemma truncateTo_prefix {A} limit (l : list A) : exists n, truncateTo limit l = take n l.
Proof.
  unfold truncateTo. case_match; [by eexists|].
  exists (length l). by rewrite take_ge.
Qed.

Lemma truncateTo_length {A} limit (l : list A) :
  0 < limit -> Z.of_nat (length (truncateTo limit l)) <= limit.
Proof.
  intros Hpos. unfold truncateTo.
  destruct (Z.ltb_spec 0 limit); [|lia]. simpl.
  destruct (Z.ltb_spec limit (Z.of_nat (length l))); [rewrite length_take|]; lia.
Qed.

(** What is cut off stands after everything kept. *)
Lemma truncateTo_cut {A} limit (l : list A) x :
  x ∈ l -> x ∈ truncateTo limit l
           \/ (0 < limit /\ length (truncateTo limit l) = Z.to_nat limit
               /\ exists i j, l !! j = Some x /\ (i <= j)%nat /\ i = Z.to_nat limit).
Proof.
  intros Hx. unfold truncateTo.
  destruct (Z.ltb_spec 0 limit); simpl; [|by left].
  destruct (Z.ltb_spec limit (Z.of_nat (length l))); [|by left].
  apply list_elem_of_lookup_1 in Hx as [j Hj].
  destruct (decide (j < Z.to_nat limit)%nat) as [Hlt|Hge].
  - left. eapply list_elem_of_lookup_2. apply lookup_take_Some. eauto.
  - right. split; [done|]. split; [rewrite length_take; lia|].
    exists (Z.to_nat limit), j. split; [done|]. split; [lia|done].
Qed.

Lemma map_fmap {A B} (f : A -> B) (l : list A) : map f l = f <$> l.
Proof. induction l as [|x l IH]; simpl; by rewrite ?IH. Qed.

Lemma topCounts_entries (m : gmap string Z) :
  let entries := map (fun kv => {| Key := fst kv; Count := snd kv |}) (map_to_list m) in
  NoDup (map Key entries)
  /\ (forall kc, kc ∈ entries <-> m !! Key kc = Some (Count kc)).
Proof.
  intros entries. split.
  - unfold entries. rewrite map_map. simpl. apply NoDup_fst_map_to_list.
  - intros [k v]. unfold entries. simpl. rewrite <- elem_of_map_to_list.
    rewrite list_elem_of_In, in_map_iff. split.
    + intros ([k' v'] & [= -> ->] & Hin). by apply list_elem_of_In.
    + intros Hin. exists (k, v). split; [done|]. by apply list_elem_of_In.
Qed.

Lemma topCounts_spec `{SortLaws} (m : gmap string Z) (limit : Z) :
  let out := topCounts m limit in
  (forall kc, kc ∈ out -> m !! Key kc = Some (Count kc))
  /\ NoDup (map Key out)
  /\ orderedBy rankedBefore out
  /\ (0 < limit -> Z.of_nat (length out) <= limit)
  /\ (forall k v, m !! k = Some v ->
        {| Key := k; Count := v |} ∈ out
        \/ (0 < limit /\ length out = Z.to_nat limit
            /\ forall kc, kc ∈ out -> v <= Count kc)).
Proof.
  intros out. unfold out, topCounts.
  set (entries := map (fun kv => {| Key := fst kv; Count := snd kv |}) (map_to_list m)).
  destruct (topCounts_entries m) as [Hnd Hin]. fold entries in Hnd, Hin.
  set (sorted := sort_Slice keyCountLess entries).
  assert (sorted ≡ₚ entries) as Hperm by apply sort_perm.
  assert (NoDup (map Key sorted)) as Hnds by (by rewrite Hperm).
  assert (orderedBy rankedBefore sorted) as Hord.
  { intros i j x y Hij Hi Hj.
    apply keyCountLess_false.
    - by apply (sort_sorted _ keyCountLess entries keyCountLess_StrictWeak i j).
    - intros Heq.
      assert (map Key sorted !! i = Some (Key x)) as Hi'
        by (by rewrite map_fmap, list_lookup_fmap, Hi).
      assert (map Key sorted !! j = Some (Key y)) as Hj'
        by (by rewrite map_fmap, list_lookup_fmap, Hj).
      rewrite <- Heq in Hj'. pose proof (NoDup_lookup _ _ _ _ Hnds Hi' Hj'). lia. }
  destruct (truncateTo_prefix limit sorted) as [n Hn].
  split; [|split; [|split; [|split]]].
  - intros kc Hkc. apply Hin. rewrite <- Hperm. rewrite Hn in Hkc.
    apply elem_of_take in Hkc as (i & Hi & _). by eapply list_elem_of_lookup_2.
  - rewrite Hn, map_fmap, fmap_take, <- map_fmap.
    eapply sublist_NoDup; [|apply sublist_take]. done.
  - rewrite Hn. by apply orderedBy_take.
  - apply truncateTo_length.
  - intros k v Hkv.
    assert ({| Key := k; Count := v |} ∈ sorted) as Hs by (rewrite Hperm; by apply Hin).
    destruct (truncateTo_cut limit sorted _ Hs) as [?|(Hpos & Hlen & i & j & Hj & Hij & ->)];
      [by left|right].
    split; [done|]. split; [done|].
    intros kc Hkc. apply list_elem_of_lookup_1 in Hkc as [i Hi].
    unfold truncateTo in Hi, Hlen.
    destruct ((0 <? limit) && (limit <? Z.of_nat (length sorted))) eqn:Hcut.
    + apply lookup_take_Some in Hi as [Hi Hlt].
      change v with (Count {| Key := k; Count := v |}).
      apply rankedBefore_count. apply (Hord i j); [lia|done|done].
    + apply lookup_lt_Some in Hj. apply andb_false_iff in Hcut. lia.
Qed.

(** X12.  The list [topCounts] makes of a map holds entries of the map, each
    key once, by descending count and, for equal counts, strictly ascending
    key; with a positive limit it has at most that many entries, and an
    entry of the map that was cut has a count no larger than any count
    kept. *)
Theorem top_counts_ranked (std : GoStd) (laws : SortLaws std) (m : gmap string Z) (limit : Z) :
  let out := topCounts m limit in
  (forall kc, kc ∈ out -> m !! Key kc = Some (Count kc))
  /\ NoDup (map Key out)
  /\ orderedBy rankedBefore out
  /\ (0 < limit -> Z.of_nat (length out) <= limit)
  /\ (forall k v, m !! k = Some v ->
        {| Key := k; Count := v |} ∈ out
        \/ (0 < limit /\ length out = Z.to_nat limit
            /\ forall kc, kc ∈ out -> v <= Count kc)).
Proof. apply topCounts_spec. Qed.

Lemma top_counts_ranked_witness :
  topCounts (H := refStd) sampleCounts 2
  = [ {| Key := "pdf"; Count := 5 |}; {| Key := "tiff"; Count := 2 |} ]
  /\ orderedBy rankedBefore (topCounts (H := refStd) sampleCounts 2)
  /\ Z.of_nat (length (topCounts (H := refStd) sampleCounts 2)) <= 2.
Proof.
  split; [vm_compute; reflexivity|].
  destruct (top_counts_ranked refStd refStd_laws sampleCounts 2) as (_ & _ & Hord & Hlen & _).
  split; [exact Hord|]. apply Hlen. lia.
Defined.

(** ** The full scan: buckets *)

Lemma countOf_snoc f hits h k :
  countOf f (hits ++ [h]) k = countOf f hits k + (if decide (f h = k) then 1 else 0).
Proof.
  unfold countOf. rewrite filter_app, length_app.
  rewrite filter_cons, filter_nil. case_decide; simpl; lia.
Qed.

Lemma countOf_le f hits k : 0 <= countOf f hits k <= Z.of_nat (length hits).
Proof.
  unfold countOf. pose proof (length_filter (fun h => f h = k) hits). lia.
Qed.

Lemma tally_snoc f m hits h : tally f m (hits ++ [h]) = incrIf (f h) (tally f m hits).
Proof. unfold tally. by rewrite foldl_app. Qed.

(** What a bucket map holds after the hits. *)
Lemma tally_lookup f hits k :
  Z.of_nat (length hits) <= maxInt64 ->
  tally f ∅ hits !! k
  = if decide (k = "" \/ countOf f hits k = 0) then None else Some (countOf f hits k).
Proof.
  induction hits as [|h hits IH] using rev_ind; intros Hmax.
  { unfold tally, countOf. simpl. rewrite lookup_empty. by rewrite decide_True by auto. }
  rewrite length_app in Hmax. simpl in Hmax.
  rewrite tally_snoc, countOf_snoc. specialize (IH ltac:(lia)).
  pose proof (countOf_le f hits k) as Hle.
  unfold incrIf. destruct (decide (f h = "")) as [Hblank|Hblank].
  - rewrite IH. destruct (decide (f h = k)) as [Hk|Hk].
    + assert (k = "") as -> by congruence.
      rewrite (decide_True (P := "" = "" \/ countOf f hits "" = 0)) by auto.
      destruct (decide ("" = "" \/ countOf f hits "" + 1 = 0)) as [?|Hd]; [done|].
      destruct Hd. by left.
    + by rewrite Z.add_0_r.
  - unfold incr. destruct (decide (f h = k)) as [Hk|Hne].
    + rewrite Hk, lookup_insert_eq, IH.
      rewrite (decide_False (P := k = "" \/ countOf f hits k + 1 = 0))
        by (intros [?|?]; [congruence|lia]).
      f_equal. rewrite wrap64_id.
      * case_decide as Hz; simpl; [destruct Hz; [congruence|lia]|lia].
      * unfold minInt64, maxInt64 in *. case_decide; simpl; lia.
    + rewrite lookup_insert_ne by done. by rewrite IH, Z.add_0_r.
Qed.

Lemma fold_tally `{GoStd} (proj : scanState -> gmap string Z) (f : searchHit -> string) :
  (forall s h, proj (scanHit s h) = incrIf (f h) (proj s)) ->
  forall hits s, proj (foldl scanHit s hits) = tally f (proj s) hits.
Proof.
  intros Hstep hits. induction hits as [|h hits IH]; intros s; cbn [foldl]; [done|].
  rewrite IH, Hstep. done.
Qed.

Lemma topCounts_exact `{SortLaws} f hits limit :
  Z.of_nat (length hits) <= maxInt64 ->
  countsExactly f hits (topCounts (tally f ∅ hits) limit).
Proof.
  intros Hmax kc Hkc.
  apply (proj1 (topCounts_spec _ _)) in Hkc.
  rewrite tally_lookup in Hkc by done.
  pose proof (countOf_le f hits (Key kc)).
  case_decide as Hd; [done|]. injection Hkc as Hkc.
  split; [tauto|]. split; [|done]. rewrite <- Hkc. lia.
Qed.

(** X13.  In the count lists of status, origin, accession id, Archivematica
    version, format registry key and format name, every key is non-blank
    and its count is the number of hits scanned whose field reads that
    key. *)
Theorem bucket_counts_are_exact (std : GoStd) (laws : SortLaws std)
    c es index aipUUID pageSize stats trace :
  AIPStats_run c es index aipUUID pageSize = (Ok (Some stats), trace) ->
  Z.of_nat (length (hitsScanned trace)) <= maxInt64 ->
  countsExactly (hitField "status") (hitsScanned trace) (StatusCounts stats)
  /\ countsExactly (hitField "origin") (hitsScanned trace) (OriginCounts stats)
  /\ countsExactly (hitField "accessionid") (hitsScanned trace) (AccessionIDCounts stats)
  /\ countsExactly (hitField "archivematicaVersion") (hitsScanned trace)
                   (ArchivematicaVersionCounts stats)
  /\ countsExactly hitRegistryKey (hitsScanned trace) (FormatRegistryCounts stats)
  /\ countsExactly hitFormatName (hitsScanned trace) (FormatNameCounts stats).
Proof.
  intros Hrun Hmax. rewrite (AIPStats_run_fold _ _ _ _ _ _ _ Hrun).
  cbn [finalize StatusCounts OriginCounts AccessionIDCounts ArchivematicaVersionCounts
       FormatRegistryCounts FormatNameCounts].
  rewrite (fold_tally statusCounts (hitField "status")) by done.
  rewrite (fold_tally originCounts (hitField "origin")) by done.
  rewrite (fold_tally accessionCounts (hitField "accessionid")) by done.
  rewrite (fold_tally amVersionCounts (hitField "archivematicaVersion")) by done.
  rewrite (fold_tally formatRegistryCounts hitRegistryKey) by done.
  rewrite (fold_tally formatNameCounts hitFormatName) by done.
  repeat (split; [by apply topCounts_exact|]). by apply topCounts_exact.
Qed.

Lemma bucket_counts_are_exact_witness :
  exists stats,
    fst sevenHitRun = Ok (Some stats)
    /\ countsExactly (hitField "status") (hitsScanned (snd sevenHitRun)) (StatusCounts stats)
    /\ map (fun kc => (Key kc, Count kc)) (StatusCounts stats) = [("original", 1)].
Proof.
  destruct (returned_inv (fst sevenHitRun)) as [stats Hfst]; [vm_compute; reflexivity|].
  exists stats. split; [done|]. split.
  - apply (bucket_counts_are_exact refStd refStd_laws _ _ _ _ _ _ _ (run_pair _ _ Hfst)).
    assert (length (hitsScanned (snd sevenHitRun)) = 7%nat) as -> by (vm_compute; reflexivity).
    unfold maxInt64. lia.
  - assert (statusOf (fst sevenHitRun) = [("original", 1)]) as Hs by (vm_compute; reflexivity).
    by rewrite Hfst in Hs.
Defined.

(** ** The full scan: names and references *)

Lemma fold_scanHit_sipNames `{GoStd} hits s x :
  x ∈ sipNames (foldl scanHit s hits)
  <-> x ∈ sipNames s \/ (x <> "" /\ exists h, h ∈ hits /\ hitField "sipName" h = x).
Proof.
  revert s. induction hits as [|h hits IH]; intros s; cbn [foldl].
  { split; [by left|]. intros [?|(_ & h & Hh & _)]; [done|by apply elem_of_nil in Hh]. }
  rewrite IH. unfold scanHit at 1. cbn [sipNames]. fold (hitField "sipName" h).
  unfold addIf. split.
  - intros [Hx|(Hne & h' & Hh' & Hf)].
    + case_decide; [by left|]. apply elem_of_union in Hx as [Hx|Hx]; [|by left].
      apply elem_of_singleton in Hx. subst x. right. split; [done|].
      exists h. split; [by left|done].
    + right. split; [done|]. exists h'. split; [by right|done].
  - intros [Hx|(Hne & h' & Hh' & Hf)].
    + left. case_decide; [done|]. by apply elem_of_union_r.
    + apply elem_of_cons in Hh' as [->|Hh'].
      * left. rewrite decide_False by congruence. apply elem_of_union_l.
        by apply elem_of_singleton.
      * right. split; [done|]. by exists h'.
Qed.

(** X14.  The SIP names of a scan are strictly ascending, and they are exactly
    the non-blank trimmed [sipName] values of the hits scanned. *)
Theorem sip_names_sorted_complete (std : GoStd) (laws : SortLaws std)
    c es index aipUUID pageSize stats trace :
  AIPStats_run c es index aipUUID pageSize = (Ok (Some stats), trace) ->
  orderedBy ascending (SIPNames stats)
  /\ (forall x, x ∈ SIPNames stats
                <-> x <> "" /\ exists h, h ∈ hitsScanned trace /\ hitField "sipName" h = x).
Proof.
  intros Hrun. rewrite (AIPStats_run_fold _ _ _ _ _ _ _ Hrun). cbn [finalize SIPNames].
  unfold keysSorted.
  destruct (sorted_elements (sipNames (foldl scanHit initScan (hitsScanned trace))))
    as (Hord & _ & Hin).
  split; [done|]. intros x. rewrite Hin, fold_scanHit_sipNames. cbn [initScan sipNames].
  split; [intros [Hx|?]; [by apply elem_of_empty in Hx|done]|by right].
Qed.

Lemma sip_names_sorted_complete_witness :
  exists stats,
    fst namedRun = Ok (Some stats)
    /\ SIPNames stats = ["a-sip"; "b-sip"]
    /\ orderedBy ascending (SIPNames stats).
Proof.
  destruct (returned_inv (fst namedRun)) as [stats Hfst]; [vm_compute; reflexivity|].
  exists stats. split; [done|].
  assert (sipNamesOf (fst namedRun) = ["a-sip"; "b-sip"]) as Hs by (vm_compute; reflexivity).
  rewrite Hfst in Hs. split; [done|].
  exact (proj1 (sip_names_sorted_complete refStd refStd_laws _ _ _ _ _ _ _
                  (run_pair _ _ Hfst))).
Defined.

Lemma fold_relatedObjectID l (s : gset string) x :
  x ∈ foldl (fun ids item =>
               let id := relatedObjectID item in
               if decide (id = "") then ids else {[id]} ∪ ids) s l
  <-> x ∈ s \/ (x <> "" /\ exists item, item ∈ l /\ relatedObjectID item = x).
Proof.
  revert s. induction l as [|a l IH]; intros s; cbn [foldl].
  { split; [by left|]. intros [?|(_ & h & Hh & _)]; [done|by apply elem_of_nil in Hh]. }
  rewrite IH. cbv zeta. split.
  - intros [Hx|(Hne & h' & Hh' & Hf)].
    + case_decide; [by left|]. apply elem_of_union in Hx as [Hx|Hx]; [|by left].
      apply elem_of_singleton in Hx. subst x. right. split; [done|].
      exists a. split; [by left|done].
    + right. split; [done|]. exists h'. split; [by right|done].
  - intros [Hx|(Hne & h' & Hh' & Hf)].
    + left. case_decide; [done|]. by apply elem_of_union_r.
    + apply elem_of_cons in Hh' as [->|Hh'].
      * left. rewrite decide_False by congruence. apply elem_of_union_l.
        by apply elem_of_singleton.
      * right. split; [done|]. by exists h'.
Qed.

Lemma normalizedIDs_spec `{SortLaws} (mets : any) :
  let ids := extractNormalizedObjectIDs mets in
  orderedBy ascending ids
  /\ NoDup ids
  /\ (forall x, x ∈ ids
                <-> x <> ""
                    /\ exists root item,
                        mets = AMap root
                        /\ item ∈ asSlice (mapIndex (premisObject root)
                                                    "premis:relationship_dict")
                        /\ relatedObjectID item = x).
Proof.
  intros ids. unfold ids, extractNormalizedObjectIDs.
  destruct mets as [| | | | |root];
    try (split; [apply orderedBy_nil|]; split; [constructor|];
         intros x; split; [intros Hx; by apply elem_of_nil in Hx|];
         intros (_ & root & item & Hr & _); discriminate Hr).
  cbv zeta.
  match goal with
  | |- context [elements ?s] => destruct (sorted_elements s) as (Hord & Hnd & Hin)
  end.
  split; [done|]. split; [done|]. intros x. rewrite Hin, fold_relatedObjectID. split.
  - intros [Hx|(Hne & item & Hitem & Hid)]; [by apply elem_of_empty in Hx|].
    split; [done|]. by exists root, item.
  - intros (Hne & root' & item & [= <-] & Hitem & Hid). right. split; [done|]. by exists item.
Qed.

(** X15.  The ids of the normalized objects of a METS document are strictly
    ascending and distinct, and they are exactly the non-blank related
    object ids of the relationships of the PREMIS object; a METS value that
    is not an object gives none. *)
Theorem normalized_ids_sorted_distinct (std : GoStd) (laws : SortLaws std) (mets : any) :
  let ids := extractNormalizedObjectIDs mets in
  orderedBy ascending ids
  /\ NoDup ids
  /\ (forall x, x ∈ ids
                <-> x <> ""
                    /\ exists root item,
                        mets = AMap root
                        /\ item ∈ asSlice (mapIndex (premisObject root)
                                                    "premis:relationship_dict")
                        /\ relatedObjectID item = x).
Proof. apply normalizedIDs_spec. Qed.

Lemma normalized_ids_sorted_distinct_witness :
  extractNormalizedObjectIDs (H := refStd) (metsWithRelation " n3 ") = ["n3"]
  /\ NoDup (extractNormalizedObjectIDs (H := refStd) (metsWithRelation " n3 ")).
Proof.
  split; [vm_compute; reflexivity|].
  exact (proj1 (proj2 (normalized_ids_sorted_distinct refStd refStd_laws
                         (metsWithRelation " n3 ")))).
Defined.

Lemma scanHit_refs `{GoStd} s h :
  sc_NormalizedRefsTotal (scanHit s h)
  = (if 0 <? Z.of_nat (length (hitRels h))
     then wrap64 (sc_NormalizedRefsTotal s + Z.of_nat (length (hitRels h)))
     else sc_NormalizedRefsTotal s)
  /\ normalizedIDs (scanHit s h)
     = (if 0 <? Z.of_nat (length (hitRels h))
        then foldl (fun ids id => {[id]} ∪ ids) (normalizedIDs s) (hitRels h)
        else normalizedIDs s).
Proof. done. Qed.

Lemma fold_add_ids (l : list string) (s : gset string) :
  foldl (fun ids id => {[id]} ∪ ids) s l = list_to_set l ∪ s.
Proof.
  revert s. induction l as [|a l IH]; intros s; cbn [foldl list_to_set].
  - by rewrite union_empty_l_L.
  - by rewrite IH, union_assoc_L, (union_comm_L (list_to_set l) {[a]}).
Qed.

Lemma fold_scanHit_refs `{GoStd} hits done s :
  sc_NormalizedRefsTotal s = wrap64 (Z.of_nat (length (flat_map hitRels done))) ->
  normalizedIDs s = list_to_set (flat_map hitRels done) ->
  sc_NormalizedRefsTotal (foldl scanHit s hits)
  = wrap64 (Z.of_nat (length (flat_map hitRels (done ++ hits))))
  /\ normalizedIDs (foldl scanHit s hits) = list_to_set (flat_map hitRels (done ++ hits)).
Proof.
  revert done s. induction hits as [|h hits IH]; intros done s Hn Hids; cbn [foldl].
  { by rewrite app_nil_r. }
  replace (done ++ h :: hits) with ((done ++ [h]) ++ hits) by (by rewrite <- app_assoc).
  destruct (scanHit_refs s h) as [Hr Hi].
  apply IH.
  - rewrite Hr, flat_map_app, length_app. cbn [flat_map]. rewrite app_nil_r.
    destruct (Z.ltb_spec 0 (Z.of_nat (length (hitRels h)))).
    + rewrite Hn, wrap64_add_l. f_equal. lia.
    + rewrite Hn. f_equal. lia.
  - rewrite Hi, flat_map_app. cbn [flat_map]. rewrite app_nil_r.
    rewrite list_to_set_app_L.
    destruct (Z.ltb_spec 0 (Z.of_nat (length (hitRels h)))).
    + by rewrite fold_add_ids, Hids, union_comm_L.
    + destruct (hitRels h); [|simpl in *; lia]. cbn [list_to_set]. by rewrite Hids, union_empty_r_L.
Qed.

(** X16.  The total of normalized references is the 64-bit number of ids of
    normalized objects over all hits scanned, and the number of unique
    normalized objects is the number of distinct ids among them. *)
Theorem normalized_refs_counted (std : GoStd) c es index aipUUID pageSize stats trace :
  AIPStats_run c es index aipUUID pageSize = (Ok (Some stats), trace) ->
  NormalizedRefsTotal stats
  = wrap64 (Z.of_nat (length (flat_map hitRels (hitsScanned trace))))
  /\ UniqueNormalizedObjectIDs stats
     = Z.of_nat (size (list_to_set (flat_map hitRels (hitsScanned trace)) : gset string)).
Proof.
  intros Hrun. rewrite (AIPStats_run_fold _ _ _ _ _ _ _ Hrun).
  cbn [finalize NormalizedRefsTotal UniqueNormalizedObjectIDs].
  destruct (fold_scanHit_refs (hitsScanned trace) [] initScan) as [-> ->]; done.
Qed.

Lemma normalized_refs_counted_witness :
  exists stats,
    fst namedRun = Ok (Some stats)
    /\ NormalizedRefsTotal stats = 2 /\ UniqueNormalizedObjectIDs stats = 1
    /\ NormalizedRefsTotal stats
       = wrap64 (Z.of_nat (length (flat_map (hitRels (H := refStd))
                                            (hitsScanned (snd namedRun))))).
Proof.
  destruct (returned_inv (fst namedRun)) as [stats Hfst]; [vm_compute; reflexivity|].
  exists stats. split; [done|].
  assert (refsOf (fst namedRun) = (2, 1)) as Hr by (vm_compute; reflexivity).
  rewrite Hfst in Hr. injection Hr as Hn Hu. split; [done|]. split; [done|].
  exact (proj1 (normalized_refs_counted refStd _ _ _ _ _ _ _ (run_pair _ _ Hfst))).
Defined.

(** ** Percentiles: range and monotonicity *)

Lemma percentileIndex_bounds n p : 1 <= n -> 0 <= percentileIndex n p <= n - 1.
Proof.
  intros Hn. unfold percentileIndex.
  destruct (Z.leb_spec p 0); [lia|]. destruct (Z.leb_spec 100 p); [lia|].
  apply quotient_bounds; lia.
Qed.

Lemma percentileIndex_mono n p q :
  1 <= n -> p <= q -> percentileIndex n p <= percentileIndex n q.
Proof.
  intros Hn Hpq. pose proof (percentileIndex_bounds n p Hn).
  pose proof (percentileIndex_bounds n q Hn). unfold percentileIndex in *.
  destruct (Z.leb_spec p 0), (Z.leb_spec q 0), (Z.leb_spec 100 p), (Z.leb_spec 100 q);
    try lia.
  apply Z.div_le_mono; nia.
Qed.

(** Whatever the rank, the index read lies in the slice. *)
Lemma percentileInt64_read (l : list Z) p :
  l <> [] ->
  exists i, (i < length l)%nat /\ percentileInt64 l p = nth i l 0.
Proof.
  intros Hne.
  assert (1 <= Z.of_nat (length l)) as Hn by (destruct l; [done|simpl; lia]).
  unfold percentileInt64.
  destruct (Z.eqb_spec (Z.of_nat (length l)) 0); [lia|].
  destruct (Z.leb_spec p 0); [exists 0%nat; split; [lia|done]|].
  destruct (Z.leb_spec 100 p).
  { exists (Z.to_nat (Z.of_nat (length l) - 1)). split; [lia|done]. }
  cbv zeta. set (r := rank (Z.of_nat (length l)) p).
  destruct (Z.ltb_spec r 0).
  - destruct (Z.leb_spec (Z.of_nat (length l)) 0); [lia|].
    exists 0%nat. split; [lia|done].
  - destruct (Z.leb_spec (Z.of_nat (length l)) r).
    + exists (Z.to_nat (Z.of_nat (length l) - 1)). split; [lia|done].
    + exists (Z.to_nat r). split; [lia|done].
Qed.

Lemma percentileInt64_index (l : list Z) p :
  l <> [] -> Z.of_nat (length l) <= 2 ^ 46 ->
  percentileInt64 l p = nth (Z.to_nat (percentileIndex (Z.of_nat (length l)) p)) l 0.
Proof.
  intros Hne Hlen.
  assert (1 <= Z.of_nat (length l)) as Hn by (destruct l; [done|simpl; lia]).
  unfold percentileInt64, percentileIndex in *.
  destruct (Z.eqb_spec (Z.of_nat (length l)) 0); [lia|].
  destruct (Z.leb_spec p 0); [done|]. destruct (Z.leb_spec 100 p); [done|].
  destruct (rank_in_slice (Z.of_nat (length l)) p ltac:(lia) ltac:(lia)) as [Hq Hr].
  cbv zeta.
  destruct (Z.ltb_spec (rank (Z.of_nat (length l)) p) 0); [lia|].
  destruct (Z.leb_spec (Z.of_nat (length l)) (rank (Z.of_nat (length l)) p)); [lia|].
  by rewrite Hq.
Qed.

(** X17.  The percentile of no samples is 0; the percentile of samples is one
    of the samples, whatever [p]; and over ascending samples, at most 2^46
    of them, a larger [p] never gives a smaller percentile. *)
Theorem percentile_in_range_monotone :
  (forall p, percentileInt64 [] p = 0)
  /\ (forall l p, l <> [] -> percentileInt64 l p ∈ l)
  /\ (forall l p q,
        Sorted Z.le l -> Z.of_nat (length l) <= 2 ^ 46 -> p <= q ->
        percentileInt64 l p <= percentileInt64 l q).
Proof.
  split; [done|]. split.
  - intros l p Hne. destruct (percentileInt64_read l p Hne) as (i & Hi & ->).
    eapply list_elem_of_lookup_2, nth_lookup_Z. lia.
  - intros l p q Hsorted Hlen Hpq. destruct l as [|x l]; [done|].
    set (s := x :: l) in *.
    assert (s <> []) as Hne by done.
    assert (1 <= Z.of_nat (length s)) as Hn by (simpl; lia).
    rewrite !percentileInt64_index by done.
    pose proof (percentileIndex_bounds _ p Hn). pose proof (percentileIndex_bounds _ q Hn).
    pose proof (percentileIndex_mono _ p q Hn Hpq).
    eapply (StronglySorted_lookup_le s
              (Z.to_nat (percentileIndex (Z.of_nat (length s)) p))
              (Z.to_nat (percentileIndex (Z.of_nat (length s)) q))).
    + apply Sorted_StronglySorted; [|done]. intros a b c. apply Z.le_trans.
    + lia.
    + apply nth_lookup_Z. lia.
    + apply nth_lookup_Z. lia.
Qed.

(** ** Format versions *)

Lemma s2b_app a b : s2b (a +:+ b) = s2b a ++ s2b b.
Proof. unfold s2b. induction a as [|c a IH]; simpl; by rewrite ?IH. Qed.

Lemma cutAt_sep sep a s :
  sep ∉ a -> cutAt sep (a ++ sep :: s) = (a, Some s).
Proof.
  induction a as [|x a IH]; intros Hsep; cbn [cutAt app].
  - by destruct (ascii_dec sep sep).
  - apply not_elem_of_cons in Hsep as [Hne Hsep].
    destruct (ascii_dec x sep); [congruence|]. by rewrite IH.
Qed.

Lemma cutAt_none sep a : sep ∉ a -> cutAt sep a = (a, None).
Proof.
  induction a as [|x a IH]; intros Hsep; cbn [cutAt]; [done|].
  apply not_elem_of_cons in Hsep as [Hne Hsep].
  destruct (ascii_dec x sep); [congruence|]. by rewrite IH.
Qed.

Lemma cutAt_rest sep s a r : cutAt sep s = (a, Some r) -> s = a ++ sep :: r /\ sep ∉ a.
Proof.
  revert a. induction s as [|x s IH]; intros a Hc; cbn [cutAt] in Hc; [done|].
  destruct (ascii_dec x sep) as [->|Hne].
  - simplify_eq. split; [done|]. apply not_elem_of_nil.
  - destruct (cutAt sep s) as [h t]. simplify_eq.
    destruct (IH h eq_refl) as [-> Hh]. split; [done|].
    apply not_elem_of_cons. split; [congruence|done].
Qed.

Lemma splitN3_joined sep a b c :
  sep ∉ a -> sep ∉ b -> splitN3 sep (a ++ sep :: b ++ sep :: c) = [a; b; c].
Proof.
  intros Ha Hb. unfold splitN3. rewrite (cutAt_sep sep a _ Ha).
  by rewrite (cutAt_sep sep b _ Hb).
Qed.

Lemma formatVersionRow_signature a b c n :
  unitSep ∉ s2b a -> unitSep ∉ s2b b ->
  formatVersionRow (formatSignature a b c, n)
  = {| fv_FormatRegistryKey := a; fv_FormatName := b; fv_FormatVersion := c;
       fv_Count := n |}.
Proof.
  intros Ha Hb. unfold formatVersionRow, formatSignature. cbn [fst snd].
  rewrite !s2b_app. change (s2b (String unitSep "")) with [unitSep].
  cbn [app]. rewrite splitN3_joined by done. cbn [nth]. by rewrite !b2s_s2b.
Qed.

Lemma String_ltb_cases a b : a <> b -> String.ltb a b = true \/ String.ltb b a = true.
Proof.
  intros Hne. destruct (String.ltb b a) eqn:Hba; [by right|left].
  by apply String_ltb_total.
Qed.

Ltac lex_step ka kb kc :=
  destruct (String.eqb_spec ka kc), (String.eqb_spec ka kb), (String.eqb_spec kb kc);
  cbn [negb]; try congruence; try apply String_ltb_negtrans;
  try (intros Hlt; first [ left; congruence | right; congruence ]);
  try (intros _; destruct (String_ltb_cases ka kb ltac:(done));
       [by left|right; congruence]).

Lemma formatVersionLess_StrictWeak : StrictWeak formatVersionLess.
Proof.
  split.
  - intros a b. unfold formatVersionLess.
    destruct (Z.eqb_spec (fv_Count a) (fv_Count b)) as [Hc|Hc]; cbn [negb].
    2:{ destruct (Z.eqb_spec (fv_Count b) (fv_Count a)); [congruence|]. cbn [negb]. lia. }
    rewrite Hc, Z.eqb_refl. cbn [negb].
    destruct (String.eqb_spec (fv_FormatRegistryKey a) (fv_FormatRegistryKey b)) as [Hk|Hk];
      cbn [negb].
    2:{ destruct (String.eqb_spec (fv_FormatRegistryKey b) (fv_FormatRegistryKey a));
          [congruence|]. apply String_ltb_asym. }
    rewrite Hk, String.eqb_refl. cbn [negb].
    destruct (String.eqb_spec (fv_FormatName a) (fv_FormatName b)) as [Hn|Hn]; cbn [negb].
    2:{ destruct (String.eqb_spec (fv_FormatName b) (fv_FormatName a)); [congruence|].
        apply String_ltb_asym. }
    rewrite Hn, String.eqb_refl. cbn [negb]. apply String_ltb_asym.
  - intros a b c. unfold formatVersionLess.
    destruct (Z.eqb_spec (fv_Count a) (fv_Count c)),
      (Z.eqb_spec (fv_Count a) (fv_Count b)),
      (Z.eqb_spec (fv_Count b) (fv_Count c)); cbn [negb]; try lia;
      try (intros; lia).
    lex_step (fv_FormatRegistryKey a) (fv_FormatRegistryKey b) (fv_FormatRegistryKey c).
    lex_step (fv_FormatName a) (fv_FormatName b) (fv_FormatName c).
Qed.

Lemma formatVersionLess_false a b : formatVersionLess b a = false -> fv_Count b <= fv_Count a.
Proof.
  unfold formatVersionLess. destruct (Z.eqb_spec (fv_Count b) (fv_Count a)); cbn [negb]; lia.
Qed.

(** X18.  Every row of the format-version list is made from a key of the map
    with its count; rows come by descending count; with a positive limit
    there are at most that many; and the signature of a registry key, a
    name and a version, the first two free of the separator, gives the row
    of these three with its count unless it was cut, in which case its
    count is no larger than any count kept. *)
Theorem format_version_rows (std : GoStd) (laws : SortLaws std)
    (m : gmap string Z) (limit : Z) :
  let out := topFormatVersions m limit in
  (forall row, row ∈ out ->
               exists k, m !! k = Some (fv_Count row)
                         /\ row = formatVersionRow (k, fv_Count row))
  /\ orderedBy (fun x y => fv_Count y <= fv_Count x) out
  /\ (0 < limit -> Z.of_nat (length out) <= limit)
  /\ (forall a b c n,
        m !! formatSignature a b c = Some n ->
        unitSep ∉ s2b a -> unitSep ∉ s2b b ->
        {| fv_FormatRegistryKey := a; fv_FormatName := b; fv_FormatVersion := c;
           fv_Count := n |} ∈ out
        \/ (0 < limit /\ length out = Z.to_nat limit
            /\ forall row, row ∈ out -> n <= fv_Count row)).
Proof.
  intros out. unfold out, topFormatVersions.
  change (map _ (map_to_list m)) with (map formatVersionRow (map_to_list m)).
  set (rows := map formatVersionRow (map_to_list m)).
  set (sorted := sort_Slice formatVersionLess rows).
  assert (sorted ≡ₚ rows) as Hperm by apply sort_perm.
  assert (forall row, row ∈ rows <-> exists k n, m !! k = Some n /\ row = formatVersionRow (k, n))
    as Hin.
  { intros row. unfold rows. rewrite list_elem_of_In, in_map_iff. split.
    - intros ([k n] & <- & Hkn). apply list_elem_of_In, elem_of_map_to_list in Hkn. eauto.
    - intros (k & n & Hkn & ->). exists (k, n). split; [done|].
      by apply list_elem_of_In, elem_of_map_to_list. }
  assert (orderedBy (fun x y => fv_Count y <= fv_Count x) sorted) as Hord.
  { eapply orderedBy_impl; [|apply sort_sorted, formatVersionLess_StrictWeak].
    intros x y. apply formatVersionLess_false. }
  destruct (truncateTo_prefix limit sorted) as [n Hn].
  split; [|split; [|split]].
  - intros row Hrow. rewrite Hn in Hrow.
    apply elem_of_take in Hrow as (i & Hi & _). apply list_elem_of_lookup_2 in Hi.
    rewrite Hperm in Hi. apply Hin in Hi as (k & cnt & Hk & ->). by exists k.
  - rewrite Hn. by apply orderedBy_take.
  - apply truncateTo_length.
  - intros a b c cnt Hk Ha Hb.
    assert ({| fv_FormatRegistryKey := a; fv_FormatName := b; fv_FormatVersion := c;
               fv_Count := cnt |} ∈ sorted) as Hs.
    { rewrite Hperm. apply Hin. exists (formatSignature a b c), cnt. split; [done|].
      by rewrite formatVersionRow_signature. }
    destruct (truncateTo_cut limit sorted _ Hs) as [?|(Hpos & Hlen & i & j & Hj & Hij & ->)];
      [by left|right].
    split; [done|]. split; [done|].
    intros row Hrow. apply list_elem_of_lookup_1 in Hrow as [i Hi].
    unfold truncateTo in Hi, Hlen.
    destruct ((0 <? limit) && (limit <? Z.of_nat (length sorted))) eqn:Hcut.
    + apply lookup_take_Some in Hi as [Hi Hlt].
      apply (Hord i j row _ ltac:(lia) Hi Hj).
    + apply lookup_lt_Some in Hj. apply andb_false_iff in Hcut. lia.
Qed.

Lemma format_version_rows_witness :
  topFormatVersions (H := refStd) sampleVersionCounts 1
  = [ {| fv_FormatRegistryKey := "fmt/353"; fv_FormatName := "TIFF";
         fv_FormatVersion := "6.0"; fv_Count := 3 |} ]
  /\ Z.of_nat (length (topFormatVersions (H := refStd) sampleVersionCounts 1)) <= 1.
Proof.
  split; [vm_compute; reflexivity|].
  destruct (format_version_rows refStd refStd_laws sampleVersionCounts 1) as (_ & _ & Hlen & _).
  apply Hlen. lia.
Defined.

(** ** Paths *)

Lemma space2_back b0 b1 : b1 < 0x80 -> space2 b0 b1 = false.
Proof.
  intros Hb. unfold space2.
  assert ((b1 =? 0x85) = false) as -> by lia. assert ((b1 =? 0xA0) = false) as -> by lia.
  by rewrite andb_false_r.
Qed.

Lemma space3_back b0 b1 b2 : b2 < 0x80 -> space3 b0 b1 b2 = false.
Proof.
  intros Hb. unfold space3.
  assert ((0x80 <=? b2) = false) as -> by lia.
  assert ((b2 =? 0x80) = false) as -> by lia.
  assert ((b2 =? 0xA8) = false) as -> by lia.
  assert ((b2 =? 0xA9) = false) as -> by lia.
  assert ((b2 =? 0xAF) = false) as -> by lia.
  assert ((b2 =? 0x9F) = false) as -> by lia.
  cbn [andb orb]. by rewrite !andb_false_r.
Qed.

Lemma plainByte_inv c : plainByte c = true -> byteZ c < 0x80 /\ asciiSpace c = false.
Proof.
  unfold plainByte, isASCII. intros Hc. apply andb_prop in Hc as [Hascii Hsp].
  apply Z.ltb_lt in Hascii. by apply negb_true_iff in Hsp.
Qed.

Lemma dropSpaces_head back c r : plainByte c = true -> dropSpaces back (c :: r) = c :: r.
Proof.
  intros [Hascii Hsp]%plainByte_inv.
  cbn [dropSpaces]. rewrite Hsp. destruct r as [|c1 [|c2 r]]; [done|..].
  - destruct back; [by rewrite space2_back|by rewrite space2_ascii].
  - destruct back.
    + rewrite space2_back by done. by rewrite space3_back.
    + rewrite space2_ascii by done. by rewrite space3_ascii.
Qed.

(** Text that starts and ends with a plain byte is left as it is. *)
Lemma trimSpaceBytes_ends c mid d :
  plainByte c = true -> plainByte d = true ->
  trimSpaceBytes (c :: mid ++ [d]) = c :: mid ++ [d].
Proof.
  intros Hc Hd. unfold trimSpaceBytes. rewrite dropSpaces_head by done.
  change (c :: mid ++ [d]) with ((c :: mid) ++ [d]). rewrite rev_app_distr. cbn [rev app].
  rewrite dropSpaces_head by done.
  change (d :: rev mid ++ [c]) with (rev [d] ++ rev (c :: mid)).
  rewrite <- rev_app_distr. by rewrite rev_involutive.
Qed.

Lemma trimSpaceBytes_single c : plainByte c = true -> trimSpaceBytes [c] = [c].
Proof.
  intros Hc. unfold trimSpaceBytes. rewrite dropSpaces_head by done. cbn [rev app].
  by rewrite dropSpaces_head.
Qed.

Lemma trimSpaceBytes_plain_ends l :
  match l with c :: _ => plainByte c = true | [] => True end ->
  match rev l with d :: _ => plainByte d = true | [] => True end ->
  trimSpaceBytes l = l.
Proof.
  destruct l as [|c l]; [done|]. intros Hc Hd.
  destruct l as [|x l] using rev_ind.
  - by apply trimSpaceBytes_single.
  - clear IHl. change (c :: l ++ [x]) with ((c :: l) ++ [x]) in Hd.
    rewrite rev_app_distr in Hd. cbn [rev app] in Hd.
    by apply trimSpaceBytes_ends.
Qed.

Lemma afterLast_none c s : c ∉ s -> afterLast c s = None.
Proof.
  induction s as [|x s IH]; intros Hc; cbn [afterLast]; [done|].
  apply not_elem_of_cons in Hc as [Hne Hc]. rewrite IH by done.
  destruct (ascii_dec x c); [congruence|done].
Qed.

Lemma afterLast_last c pre t : c ∉ t -> afterLast c (pre ++ c :: t) = Some t.
Proof.
  intros Hc. induction pre as [|x pre IH]; cbn [afterLast app].
  - rewrite afterLast_none by done. by destruct (ascii_dec c c).
  - by rewrite IH.
Qed.

Lemma afterLast_app c pre t :
  c ∉ t ->
  afterLast c (pre ++ t) = match afterLast c pre with
                           | Some r => Some (r ++ t)
                           | None => None
                           end.
Proof.
  intros Hc. induction pre as [|x pre IH]; cbn [afterLast app].
  - by apply afterLast_none.
  - rewrite IH. destruct (afterLast c pre); [done|]. by destruct (ascii_dec x c).
Qed.

Lemma TrimSpace_plain_ends l :
  match l with c :: _ => plainByte c = true | [] => True end ->
  match rev l with d :: _ => plainByte d = true | [] => True end ->
  TrimSpace (b2s l) = b2s l.
Proof. intros Hc Hd. unfold TrimSpace. by rewrite s2b_b2s, trimSpaceBytes_plain_ends. Qed.

Lemma afterLast_inv c s :
  match afterLast c s with
  | Some t => exists pre, s = pre ++ c :: t /\ c ∉ t
  | None => c ∉ s
  end.
Proof.
  induction s as [|x s IH]; cbn [afterLast]; [apply not_elem_of_nil|].
  destruct (afterLast c s) as [t|].
  - destruct IH as (pre & -> & Ht). by exists (x :: pre).
  - destruct (ascii_dec x c) as [->|Hne].
    + by exists [].
    + by apply not_elem_of_cons.
Qed.

Lemma pathName_parts dir name :
  "/"%char ∉ name -> "\"%char ∉ name ->
  dir = [] \/ (exists d s, dir = d ++ [s] /\ (s = "/"%char \/ s = "\"%char)) ->
  pathName (dir ++ name) = name.
Proof.
  intros Hslash Hback Hdir.
  unfold pathName. destruct Hdir as [->|(d & s & -> & [->| ->])].
  - cbn [app]. rewrite (afterLast_none "/") by done. cbv iota.
    by rewrite (afterLast_none "\") by done.
  - rewrite <- app_assoc. cbn [app]. rewrite afterLast_last by done. cbv iota.
    by rewrite afterLast_none by done.
  - rewrite (afterLast_app "/" _ name) by done.
    rewrite (afterLast_app "/" d ["\"%char]).
    2:{ intros Hin. apply list_elem_of_singleton in Hin. discriminate Hin. }
    destruct (afterLast "/" d) as [r|]; cbv iota.
    + rewrite <- app_assoc. cbn [app]. by rewrite afterLast_last by done.
    + rewrite <- app_assoc. cbn [app]. by rewrite afterLast_last by done.
Qed.

(** Every path has a last component. *)
Lemma lastComponent_exists p : exists dir name, lastComponent p dir name.
Proof.
  pose proof (afterLast_inv "/" p) as H1.
  destruct (afterLast "/" p) as [t|].
  - destruct H1 as (pre & -> & Ht).
    pose proof (afterLast_inv "\" t) as H2.
    destruct (afterLast "\" t) as [u|].
    + destruct H2 as (pre2 & -> & Hu).
      exists (pre ++ "/"%char :: pre2 ++ ["\"%char]), u.
      split; [by rewrite <- !app_assoc; cbn [app]; rewrite <- app_assoc|].
      split; [intros Hin; apply Ht; apply elem_of_app; right; by right|].
      split; [done|]. right. exists (pre ++ "/"%char :: pre2), "\"%char.
      split; [by rewrite <- app_assoc|by right].
    + exists (pre ++ ["/"%char]), t.
      split; [by rewrite <- app_assoc|]. split; [done|]. split; [done|].
      right. exists pre, "/"%char. by split; [|left].
  - pose proof (afterLast_inv "\" p) as H2.
    destruct (afterLast "\" p) as [u|].
    + destruct H2 as (pre2 & -> & Hu).
      exists (pre2 ++ ["\"%char]), u.
      split; [by rewrite <- app_assoc|].
      split; [intros Hin; apply H1; apply elem_of_app; right; by right|].
      split; [done|]. right. exists pre2, "\"%char. by split; [|right].
    + exists [], p. split; [done|]. split; [done|]. split; [done|]. by left.
Qed.

Lemma not_elem_forallb (c : ascii) l :
  forallb (fun x => negb (x =? c)%char) l = true -> c ∉ l.
Proof.
  intros Hl Hin. rewrite forallb_forall in Hl. apply list_elem_of_In, Hl in Hin.
  by rewrite Ascii.eqb_refl in Hin.
Qed.

Lemma ToLower_plain `{GoStd} l :
  forallb isASCII l = true -> ToLower (b2s l) = b2s (map lowerASCII l).
Proof. intros Hl. unfold ToLower. by rewrite s2b_b2s, Hl. Qed.



(** ** Cursor texts *)

Lemma json_Marshal_nonempty `{GoStd} x blob : json_Marshal x = Ok blob -> blob <> [].
Proof.
  unfold json_Marshal. destruct x as [l|]; [|by intros [= <-]].
  cbn [marshalAny]. destruct (allSome (map marshalAny l)); [|done]. by intros [= <-].
Qed.

(** X20.  A cursor that [encodeCursor] returns is not empty, consists of bytes
    of the URL-safe base64 alphabet only, is left as it is by trimming, and
    decodes to the JSON text of the sort values. *)
Theorem cursor_is_url_safe (std : GoStd) (x : slice any) (cursor : string) :
  encodeCursor x = Ok cursor ->
  cursor <> ""
  /\ Forall (fun c => isB64 c = true) (s2b cursor)
  /\ TrimSpace cursor = cursor
  /\ exists blob, json_Marshal x = Ok blob /\ b64decode (s2b cursor) = Some blob.
Proof.
  unfold encodeCursor. destruct (json_Marshal x) as [blob|e] eqn:Hm; [|done].
  intros [= <-]. pose proof (json_Marshal_nonempty _ _ Hm) as Hne.
  split; [by apply b2s_nonempty, b64encode_nonempty|].
  rewrite s2b_b2s. split; [apply b64encode_chars|].
  split; [apply TrimSpace_base64|]. exists blob. split; [done|apply b64decode_encode].
Qed.

Lemma cursor_is_url_safe_witness :
  exists cursor,
    encodeCursor (H := refStd) sampleTuple = Ok cursor
    /\ cursor <> ""
    /\ Forall (fun c => isB64 c = true) (s2b cursor).
Proof.
  destruct (encodeCursor (H := refStd) sampleTuple) as [cursor|e] eqn:He;
    [|by vm_compute in He].
  exists cursor. split; [done|].
  destruct (cursor_is_url_safe refStd sampleTuple cursor He) as (Hne & Hchars & _).
  by split.
Defined.

Lemma allSome_None {A B} (f : A -> option B) (l : list A) :
  allSome (map f l) = None <-> exists a, a ∈ l /\ f a = None.
Proof.
  induction l as [|x l IH]; cbn [map allSome foldr].
  - split; [done|]. intros (a & Ha & _). by apply elem_of_nil in Ha.
  - fold (allSome (map f l)). destruct (f x) as [b|] eqn:Hx.
    + destruct (allSome (map f l)) as [r|].
      * split; [done|]. intros (a & Ha & Hfa).
        apply elem_of_cons in Ha as [->|Ha]; [congruence|].
        destruct IH as [_ IH]. discriminate IH. by exists a.
      * split; [|done]. intros _. destruct IH as [IH _].
        destruct (IH eq_refl) as (a & Ha & Hfa). exists a. split; [by right|done].
    + split; [|done]. intros _. exists x. split; [by left|done].
Qed.

(** X21.  For sort values that are nil, booleans, numbers or strings,
    [encodeCursor] fails exactly when one of them is a number that is not
    finite. *)
Theorem cursor_encoding_fails_on_non_finite (std : GoStd) (l : list any) :
  Forall scalarValue l ->
  isErr (encodeCursor (Some l)) = true <-> exists v, v ∈ l /\ nonFinite v.
Proof.
  intros Hl. unfold encodeCursor, json_Marshal. cbn [marshalAny].
  destruct (allSome (map marshalAny l)) as [parts|] eqn:Hall.
  - split; [done|]. intros (v & Hv & Hnf).
    assert (allSome (map marshalAny l) = None) as Hn; [|congruence].
    apply allSome_None. exists v. split; [done|].
    destruct v; try done. simpl in *. by rewrite Hnf.
  - split; [|done]. intros _. apply allSome_None in Hall as (v & Hv & Hm).
    exists v. split; [done|]. rewrite Forall_forall in Hl. specialize (Hl v Hv).
    destruct v; try done. simpl in *. by destruct (f64_finite f).
Qed.

Lemma cursor_encoding_fails_on_non_finite_witness :
  isErr (encodeCursor (H := refStd) (Some [AStr "aip-1"; AFloat S754_nan])) = true.
Proof.
  apply (cursor_encoding_fails_on_non_finite refStd [AStr "aip-1"; AFloat S754_nan]).
  - repeat (apply Forall_cons; split; [done|]). apply Forall_nil_2.
  - exists (AFloat S754_nan). split; [|done]. apply elem_of_cons. right. by left.
Defined.

(** ** The client *)

Lemma dropByte_head c s : head (dropByte c s) <> Some c.
Proof.
  induction s as [|x s IH]; cbn [dropByte]; [done|].
  destruct (ascii_dec x c); [done|]. simpl. congruence.
Qed.

Lemma dropByte_nil c s : dropByte c s = [] <-> forall x, x ∈ s -> x = c.
Proof.
  induction s as [|x s IH]; cbn [dropByte].
  - split; [|done]. intros _ x Hx. by apply elem_of_nil in Hx.
  - destruct (ascii_dec x c) as [->|Hne].
    + rewrite IH. split.
      * intros Hs y Hy. apply elem_of_cons in Hy as [->|Hy]; [done|by apply Hs].
      * intros Hs y Hy. apply Hs. by right.
    + split; [done|]. intros Hs. destruct Hne. apply Hs. by left.
Qed.

Lemma dropByte_nonempty c s : dropByte c s <> [] -> exists x, x ∈ s /\ x <> c.
Proof.
  induction s as [|x s IH]; cbn [dropByte]; [done|].
  destruct (ascii_dec x c) as [->|Hne].
  - intros Hs. destruct (IH Hs) as (y & Hy & Hne). exists y. split; [by right|done].
  - intros _. exists x. split; [by left|done].
Qed.

Lemma b2s_nil l : b2s l = "" <-> l = [].
Proof. split; [|by intros ->]. destruct l; [done|discriminate]. Qed.

Lemma last_rev_head {A} (l : list A) : last (rev l) = head l.
Proof.
  destruct l as [|x l]; [done|]. cbn [rev]. by rewrite last_snoc.
Qed.

(** X22.  The endpoint of a new client never ends with a slash; the client is
    enabled exactly when the trimmed URL has a byte other than a slash; and
    a client that is not enabled lists and scans nothing: both calls return
    no result and no error without a call to the index. *)
Theorem new_client_endpoint (std : GoStd) (url : string) (timeout : Z) :
  exists cl,
    NewClient url timeout = Some cl
    /\ last (s2b (endpoint cl)) <> Some "/"%char
    /\ (Enabled (Some cl) = true
        <-> exists c, c ∈ s2b (TrimSpace url) /\ c <> "/"%char)
    /\ (Enabled (Some cl) = false ->
        forall es index limit cursor aipUUID pageSize,
          ListAIPs (Some cl) es index limit cursor = (Ok None, [])
          /\ AIPStats_run (Some cl) es index aipUUID pageSize = (Ok None, [])).
Proof.
  eexists. split; [reflexivity|]. cbn [endpoint]. rewrite s2b_b2s.
  unfold trimRightByte. split; [|split].
  - rewrite last_rev_head. apply dropByte_head.
  - unfold Enabled. cbn [endpoint]. case_decide as He.
    + apply b2s_nil in He.
      apply (f_equal (@rev ascii)) in He. rewrite rev_involutive in He. cbn [rev] in He.
      split; [done|]. intros (c & Hc & Hne). destruct Hne.
      apply (proj1 (dropByte_nil "/" _) He).
      by apply list_elem_of_In, in_rev, list_elem_of_In in Hc.
    + split; [|done]. intros _.
      destruct (dropByte_nonempty "/" (rev (s2b (TrimSpace url)))) as (c & Hc & Hne).
      * intros Hd. destruct He. by rewrite Hd.
      * exists c. split; [|done]. by apply list_elem_of_In, in_rev, list_elem_of_In.
  - intros Hoff es index limit cursor aipUUID pageSize.
    unfold ListAIPs, AIPStats_run. by rewrite Hoff.
Qed.

(** ** The HTTP handlers *)

Lemma atoi_decimal_checked :
  forallb (fun k => match strconv_Atoi (b2s (decimal (Z.of_nat k))) with
                    | Some v => v =? Z.of_nat k
                    | None => false
                    end) (seq 1 1000) = true.
Proof. vm_compute. reflexivity. Qed.

Lemma atoi_decimal n : 1 <= n <= 1000 -> strconv_Atoi (b2s (decimal n)) = Some n.
Proof.
  intros Hn. pose proof atoi_decimal_checked as Hall.
  rewrite forallb_forall in Hall. specialize (Hall (Z.to_nat n)).
  rewrite Z2Nat.id in Hall by lia.
  destruct (strconv_Atoi (b2s (decimal n))) as [v|].
  - f_equal. apply Z.eqb_eq. apply Hall. apply in_seq. lia.
  - discriminate Hall. apply in_seq. lia.
Qed.

(** X23.  The limit of a request is the default, or the number of the [limit]
    parameter when that number lies between 1 and 1000; the decimal text of
    such a number gives that number; a number out of this range or a text
    that is not a number gives the default; and whatever the default, the
    limit the listing applies lies between 1 and 500 and the page size the
    scan applies between 1 and 2000. *)
Theorem parse_limit_range (r : Request) (defaultLimit : Z) :
  (parseLimit r defaultLimit = defaultLimit
   \/ (1 <= parseLimit r defaultLimit <= 1000
       /\ strconv_Atoi (queryGet r "limit") = Some (parseLimit r defaultLimit)))
  /\ (forall n, 1 <= n <= 1000 -> queryGet r "limit" = b2s (decimal n) ->
                parseLimit r defaultLimit = n)
  /\ (forall n, strconv_Atoi (queryGet r "limit") = Some n -> n <= 0 \/ 1000 < n ->
                parseLimit r defaultLimit = defaultLimit)
  /\ (strconv_Atoi (queryGet r "limit") = None -> parseLimit r defaultLimit = defaultLimit)
  /\ 1 <= listLimit (parseLimit r defaultLimit) <= 500
  /\ 1 <= statsPageSize (parseLimit r defaultLimit) <= 2000.
Proof.
  unfold parseLimit. split; [|split; [|split; [|split; [|split]]]].
  - case_decide; [by left|].
    destruct (strconv_Atoi (queryGet r "limit")) as [n|]; [|by left].
    destruct (Z.ltb_spec 0 n), (Z.leb_spec n 1000); simpl; try (by left).
    right. split; [lia|done].
  - intros n Hn Hq. rewrite Hq. rewrite atoi_decimal by done.
    rewrite decide_False.
    + destruct (Z.ltb_spec 0 n), (Z.leb_spec n 1000); simpl; lia.
    + intros He. pose proof (atoi_decimal n Hn) as Ha. rewrite He in Ha. discriminate Ha.
  - intros n -> Hn. case_decide; [done|].
    destruct (Z.ltb_spec 0 n), (Z.leb_spec n 1000); simpl; try done; lia.
  - intros ->. by case_decide.
  - apply listLimit_range.
  - apply statsPageSize_range.
Qed.

Lemma recordInto_count key d failed series :
  seriesCount (recordInto key d failed series) key = wrapU64 (seriesCount series key + 1)
  /\ seriesErrors (recordInto key d failed series) key
     = (if failed then wrapU64 (seriesErrors series key + 1) else seriesErrors series key)
  /\ (forall other, other <> key ->
                    recordInto key d failed series !! other = series !! other).
Proof.
  unfold seriesCount, seriesErrors, recordInto. rewrite lookup_insert_eq. cbn.
  split; [by destruct (series !! key)|]. split; [by destruct (series !! key)|].
  intros other Hne. by rewrite lookup_insert_ne.
Qed.

Lemma ListAIPs_items `{GoStd} c es index limit cursor r trace :
  ListAIPs c es index limit cursor = (Ok (Some r), trace) ->
  Z.of_nat (length (Items r)) <= listLimit limit /\ NoDup (map AIPUUID (Items r)).
Proof.
  unfold ListAIPs. intros Hrun.
  destruct (negb (Enabled c)); [simplify_eq|].
  destruct (decodeCursor cursor) as [sa|e]; [|simplify_eq].
  destruct (listPages _ _ _ _ _ _ _) as [[st|e] tr] eqn:Hpages; [|simplify_eq].
  pose proof (listLimit_range limit).
  pose proof Hpages as Hlen. apply listPages_length in Hlen; [|simpl; lia].
  apply listPages_distinct in Hpages as [Hnd _].
  - by simplify_eq.
  - split; [constructor|]. simpl. intros x Hx. by apply elem_of_nil in Hx.
Qed.

(** X24.  The list route never dereferences a nil result.  Without an enabled
    client it answers 503, records nothing and calls nothing; with one it
    adds one to the count of the series of [ListAIPs], adds one to its
    errors exactly when it answers 502, and answers 502 or 200; a cursor
    that does not decode gives 502 with the decoding error and no call to
    the index; and an answer of 200 reports the index, the limit of the
    request and a count that is the number of items, at most the limit
    applied, with no AIP UUID twice. *)
Theorem aip_list_handler_answers (std : GoStd) (Package : Type)
    defaultLimit index esClient es elapsed r m :
  let '(out, m', trace) :=
    aipListHandler (Package := Package) defaultLimit index esClient es elapsed r m in
  let key := ("elasticsearch", "ListAIPs") in
  out <> Panicked
  /\ (Enabled esClient = false -> out = esDisabled /\ m' = m /\ trace = [])
  /\ (Enabled esClient = true ->
      seriesCount (externalSeries m') key = wrapU64 (seriesCount (externalSeries m) key + 1)
      /\ seriesErrors (externalSeries m') key
         = (if decide (responseCode out = 502)
            then wrapU64 (seriesErrors (externalSeries m) key + 1)
            else seriesErrors (externalSeries m) key)
      /\ (responseCode out = 502 \/ responseCode out = 200))
  /\ (forall e, decodeCursor (TrimSpace (queryGet r "cursor")) = Err e ->
                Enabled esClient = true ->
                out = Responded 502 (ErrorBody "failed to list AIPs from Elasticsearch" (Some e))
                /\ trace = [])
  /\ (forall code body, out = Responded code body -> code = 200 ->
        exists next data,
          body = ListBody index (parseLimit r defaultLimit) (Z.of_nat (length data)) next data
          /\ Z.of_nat (length data) <= listLimit (parseLimit r defaultLimit)
          /\ NoDup (map AIPUUID data)).
Proof.
  unfold aipListHandler.
  destruct (Enabled esClient) eqn:Hon; cbn [negb].
  2:{ repeat split; try done. intros code body [= <- <-]. done. }
  destruct (ListAIPs esClient es index (parseLimit r defaultLimit)
              (TrimSpace (queryGet r "cursor"))) as [res trace] eqn:Hrun.
  unfold recordExternalProbe. rewrite decide_False by (intros [?|?]; discriminate).
  cbn [externalSeries].
  destruct (recordInto_count ("elasticsearch", "ListAIPs") elapsed (isErr res)
              (externalSeries m)) as (Hc & He & _).
  assert (forall e, decodeCursor (TrimSpace (queryGet r "cursor")) = Err e ->
                    res = Err e /\ trace = []) as Hbad.
  { intros e Hdec. unfold ListAIPs in Hrun. rewrite Hon in Hrun. cbn [negb] in Hrun.
    rewrite Hdec in Hrun. by simplify_eq. }
  destruct res as [[res|]|e].
  - split; [done|]. split; [done|]. split; [intros _; by split; [|split; [|right]]|].
    split; [intros e Hdec _; by destruct (Hbad e Hdec)|].
    intros code body [= <- <-] _. exists (NextCursor res), (Items res). split; [done|].
    by apply ListAIPs_items in Hrun.
  - exfalso. unfold ListAIPs in Hrun. rewrite Hon in Hrun. cbn [negb] in Hrun.
    destruct (decodeCursor _); [|done].
    by destruct (listPages _ _ _ _ _ _ _) as [[?|?] ?].
  - split; [done|]. split; [done|]. split; [intros _; by split; [|split; [|left]]|].
    split; [|by intros code body [= <- <-]].
    intros e' Hdec _. destruct (Hbad e' Hdec) as [[= ->] ->]. done.
Qed.

Lemma hasPrefixBytes_app p rest : hasPrefixBytes (p ++ rest) p = true.
Proof.
  induction p as [|x p IH]; [by destruct rest|]. cbn [app hasPrefixBytes].
  rewrite IH. by destruct (ascii_dec x x).
Qed.

Lemma TrimPrefix_app p rest : TrimPrefix (b2s (s2b p ++ rest)) p = b2s rest.
Proof.
  unfold TrimPrefix, HasPrefix. rewrite s2b_b2s, hasPrefixBytes_app.
  by rewrite drop_app_length.
Qed.

Lemma splitBytes_sep sep a s :
  sep ∉ a -> splitBytes sep (a ++ sep :: s) = a :: splitBytes sep s.
Proof.
  induction a as [|x a IH]; intros Hsep; cbn [splitBytes app].
  - by destruct (ascii_dec sep sep).
  - apply not_elem_of_cons in Hsep as [Hne Hsep].
    destruct (ascii_dec x sep); [congruence|]. by rewrite IH.
Qed.

Lemma dropByte_keep c x s : x <> c -> dropByte c (x :: s) = x :: s.
Proof. intros Hne. cbn [dropByte]. by destruct (ascii_dec x c). Qed.

Lemma trimByte_keep c x mid y :
  x <> c -> y <> c -> trimByte c (x :: mid ++ [y]) = x :: mid ++ [y].
Proof.
  intros Hx Hy. unfold trimByte. rewrite dropByte_keep by done.
  change (x :: mid ++ [y]) with ((x :: mid) ++ [y]). rewrite rev_app_distr. cbn [rev app].
  rewrite dropByte_keep by done.
  change (y :: rev mid ++ [x]) with (rev [y] ++ rev (x :: mid)).
  rewrite <- rev_app_distr. by rewrite rev_involutive.
Qed.

Lemma statsPath_parts id :
  id <> [] -> "/"%char ∉ id ->
  splitBytes "/" (trimByte "/" (s2b (TrimPrefix (statsPath id) "/api/v1/aips/")))
  = [id; s2b "stats"].
Proof.
  intros Hne Hslash. unfold statsPath. rewrite TrimPrefix_app, s2b_b2s.
  destruct id as [|x id]; [done|].
  apply not_elem_of_cons in Hslash as Hx. destruct Hx as [Hx _].
  replace ((x :: id) ++ s2b "/stats") with (x :: (id ++ s2b "/stat") ++ ["s"%char])
    by (cbn [app]; by rewrite <- app_assoc).
  rewrite trimByte_keep by (done || congruence).
  replace (x :: (id ++ s2b "/stat") ++ ["s"%char])
    with ((x :: id) ++ "/"%char :: s2b "stats") by (cbn [app]; by rewrite <- app_assoc).
  by rewrite splitBytes_sep.
Qed.

(** ** Trimming is idempotent *)

Lemma dropSpaces_drop back s : exists k, dropSpaces back s = drop k s.
Proof.
  induction s as [s IH] using (induction_ltof1 _ (@length ascii)); unfold ltof in *.
  destruct s as [|c0 r0]; [by exists 0%nat|].
  cbn [dropSpaces].
  destruct (asciiSpace c0).
  { destruct (IH r0) as [k Hk]; [simpl; lia|]. exists (S k). by rewrite Hk. }
  destruct r0 as [|c1 r1]; [by exists 0%nat|].
  destruct (if back then space2 (byteZ c1) (byteZ c0) else space2 (byteZ c0) (byteZ c1)).
  { destruct (IH r1) as [k Hk]; [simpl; lia|]. exists (S (S k)). by rewrite Hk. }
  destruct r1 as [|c2 r2]; [by exists 0%nat|].
  destruct (if back then space3 (byteZ c2) (byteZ c1) (byteZ c0)
            else space3 (byteZ c0) (byteZ c1) (byteZ c2)).
  { destruct (IH r2) as [k Hk]; [simpl; lia|]. exists (S (S (S k))). by rewrite Hk. }
  by exists 0%nat.
Qed.

Lemma dropSpaces_length back s : (length (dropSpaces back s) <= length s)%nat.
Proof. destruct (dropSpaces_drop back s) as [k ->]. rewrite length_drop. lia. Qed.

Lemma dropSpaces_idemp back s : dropSpaces back (dropSpaces back s) = dropSpaces back s.
Proof.
  induction s as [s IH] using (induction_ltof1 _ (@length ascii)); unfold ltof in *.
  destruct s as [|c0 r0]; [done|].
  cbn [dropSpaces].
  destruct (asciiSpace c0) eqn:H0; [apply IH; simpl; lia|].
  destruct r0 as [|c1 r1]; [cbn [dropSpaces]; by rewrite H0|].
  destruct (if back then space2 (byteZ c1) (byteZ c0) else space2 (byteZ c0) (byteZ c1)) eqn:H1;
    [apply IH; simpl; lia|].
  destruct r1 as [|c2 r2]; [cbn [dropSpaces]; by rewrite H0, H1|].
  destruct (if back then space3 (byteZ c2) (byteZ c1) (byteZ c0)
            else space3 (byteZ c0) (byteZ c1) (byteZ c2)) eqn:H2;
    [apply IH; simpl; lia|].
  cbn [dropSpaces]. by rewrite H0, H1, H2.
Qed.

(** A prefix of a text without leading white space has none either. *)
Lemma dropSpaces_prefix s n : dropSpaces false s = s -> dropSpaces false (take n s) = take n s.
Proof.
  intros Hs. destruct s as [|c0 r0]; [by destruct n|].
  destruct n as [|n]; [done|]. cbn [take]. cbn [dropSpaces] in *.
  pose proof (dropSpaces_length false r0) as Hl0.
  destruct (asciiSpace c0).
  { apply (f_equal length) in Hs. simpl in Hs. lia. }
  destruct r0 as [|c1 r1]; [by destruct n|].
  destruct n as [|n]; [done|]. cbn [take].
  pose proof (dropSpaces_length false r1) as Hl1.
  destruct (space2 (byteZ c0) (byteZ c1)).
  { apply (f_equal length) in Hs. simpl in Hs. lia. }
  destruct r1 as [|c2 r2]; [by destruct n|].
  destruct n as [|n]; [done|]. cbn [take].
  pose proof (dropSpaces_length false r2) as Hl2.
  destruct (space3 (byteZ c0) (byteZ c1) (byteZ c2)); [|done].
  apply (f_equal length) in Hs. simpl in Hs. lia.
Qed.

Lemma trimSpaceBytes_idemp s : trimSpaceBytes (trimSpaceBytes s) = trimSpaceBytes s.
Proof.
  unfold trimSpaceBytes.
  set (A := dropSpaces false s).
  destruct (dropSpaces_drop true (rev A)) as [k Hk].
  assert (rev (dropSpaces true (rev A)) = take (length A - k) A) as HB.
  { rewrite Hk, skipn_rev. by rewrite rev_involutive. }
  rewrite HB at 1. rewrite dropSpaces_prefix by apply dropSpaces_idemp.
  rewrite <- HB. rewrite rev_involutive. by rewrite dropSpaces_idemp.
Qed.

Lemma TrimSpace_idemp s : TrimSpace (TrimSpace s) = TrimSpace s.
Proof. unfold TrimSpace. by rewrite s2b_b2s, trimSpaceBytes_idemp. Qed.

Lemma decodeCursor_trimmed `{GoStd} cursor : decodeCursor (TrimSpace cursor) = decodeCursor cursor.
Proof. unfold decodeCursor. by rewrite TrimSpace_idemp. Qed.

Lemma AIPStats_run_trimmed `{GoStd} c es index id pageSize :
  AIPStats_run c es index (TrimSpace id) pageSize = AIPStats_run c es index id pageSize.
Proof. unfold AIPStats_run. by rewrite TrimSpace_idemp. Qed.

Lemma AIPStats_run_ok `{GoStd} c es index id pageSize o trace :
  Enabled c = true ->
  AIPStats_run c es index id pageSize = (Ok o, trace) ->
  TrimSpace id <> "" /\ exists stats, o = Some stats /\ st_AIPUUID stats = TrimSpace id.
Proof.
  unfold AIPStats_run. intros -> Hrun. cbn [negb] in Hrun.
  case_decide; [done|]. split; [done|].
  destruct (scanPages _ _ _ _ _ _ _ _ _) as [[s|e] tr]; [|done].
  simplify_eq. by eexists.
Qed.

(** X25.  White space around a cursor or an AIP UUID changes nothing: the
    decoder, the listing and the scan give the same result for the trimmed
    argument; the statistics report the trimmed UUID, which is not blank;
    and the ids and names of the items of a listing carry no surrounding
    white space. *)
Theorem surrounding_space_is_ignored (std : GoStd) :
  (forall cursor, decodeCursor (TrimSpace cursor) = decodeCursor cursor)
  /\ (forall c es index limit cursor,
        ListAIPs c es index limit (TrimSpace cursor) = ListAIPs c es index limit cursor)
  /\ (forall c es index aipUUID pageSize,
        AIPStats_run c es index (TrimSpace aipUUID) pageSize
        = AIPStats_run c es index aipUUID pageSize)
  /\ (forall c es index aipUUID pageSize stats trace,
        AIPStats_run c es index aipUUID pageSize = (Ok (Some stats), trace) ->
        st_AIPUUID stats = TrimSpace aipUUID /\ st_AIPUUID stats <> "")
  /\ (forall c es index limit cursor r trace,
        ListAIPs c es index limit cursor = (Ok (Some r), trace) ->
        forall it, it ∈ Items r ->
                   TrimSpace (AIPUUID it) = AIPUUID it /\ TrimSpace (SIPName it) = SIPName it).
Proof.
  split; [apply decodeCursor_trimmed|]. split; [|split; [apply AIPStats_run_trimmed|split]].
  - intros. unfold ListAIPs. by rewrite decodeCursor_trimmed.
  - intros c es index aipUUID pageSize stats trace Hrun.
    destruct (Enabled c) eqn:Hon.
    + destruct (AIPStats_run_ok _ _ _ _ _ _ _ Hon Hrun) as (Hne & s & [= <-] & Hs).
      by rewrite Hs.
    + unfold AIPStats_run in Hrun. by rewrite Hon in Hrun.
  - intros c es index limit cursor r trace Hrun it Hit.
    unfold ListAIPs in Hrun.
    destruct (negb (Enabled c)); [simplify_eq|].
    destruct (decodeCursor cursor) as [sa|e]; [|simplify_eq].
    destruct (listPages _ _ _ _ _ _ _) as [[st|e] tr] eqn:Hpages; [|simplify_eq].
    simplify_eq. cbn [Items] in Hit.
    eapply listPages_from in Hpages as [_ (pre & h & post & _ & Ha & Hs & _)]; [| |exact Hit].
    + rewrite <- Ha, <- Hs. unfold hitAIP, hitSIPName. by rewrite !TrimSpace_idemp.
    + split.
      * intros x Hx. by apply elem_of_nil in Hx.
      * intros _ x Hx. by apply elem_of_nil in Hx.
Qed.

(** X26.  The detail routes never dereference a nil result and answer 200,
    404, 502 or 503; an answer of 404 or 503 records nothing and calls
    nothing; a 200 answer of the statistics route reports the index and a
    trimmed, non-blank UUID with the statistics of that UUID; and for the
    path of the statistics of an id, with an enabled client, the answer is
    that of the scan of the id with the page size of the request: 502 with
    its error, else 200 with its statistics. *)
Theorem aip_detail_router_routes (std : GoStd) (Package : Type)
    defaultPageSize index esClient es ssStore elapsed r m :
  let '(out, m', trace) :=
    aipDetailRouter (Package := Package) defaultPageSize index esClient es ssStore elapsed r m
  in
  out <> Panicked
  /\ (responseCode out = 200 \/ responseCode out = 404
      \/ responseCode out = 502 \/ responseCode out = 503)
  /\ (responseCode out = 404 \/ responseCode out = 503 -> m' = m /\ trace = [])
  /\ (forall idx id data,
        out = Responded 200 (StatsBody idx id data) ->
        idx = index /\ id <> "" /\ TrimSpace id = id
        /\ exists stats, data = Some stats /\ st_AIPUUID stats = id)
  /\ (forall id,
        id <> [] -> "/"%char ∉ id -> req_Path r = statsPath id -> Enabled esClient = true ->
        let run := AIPStats_run esClient es index (b2s id) (parseLimit r defaultPageSize) in
        trace = snd run
        /\ out = match fst run with
                 | Err e =>
                     Responded 502 (ErrorBody ("failed to fetch AIP stats for "
                                               +:+ TrimSpace (b2s id)) (Some e))
                 | Ok stats => Responded 200 (StatsBody index (TrimSpace (b2s id)) stats)
                 end
        /\ (TrimSpace (b2s id) = "" -> fst run = Err "aip uuid required" /\ trace = [])).
Proof.
  unfold aipDetailRouter.
  destruct (splitBytes "/" (trimByte "/" (s2b (TrimPrefix (req_Path r) "/api/v1/aips/"))))
    as [|p0 [|p1 [|p2 rest]]] eqn:Hparts;
    try (split; [done|]; split; [by right; left|]; split; [done|]; split; [done|];
         intros id Hne Hslash Hpath _; rewrite Hpath, statsPath_parts in Hparts by done;
         discriminate Hparts).
  destruct (decide (p0 = [])) as [Hp0|Hp0].
  { split; [done|]. split; [by right; left|]. split; [done|]. split; [done|].
    intros id Hne Hslash Hpath _. rewrite Hpath, statsPath_parts in Hparts by done.
    simplify_eq. }
  destruct (decide (b2s p1 = "stats")) as [Hstats|Hother].
  - destruct (Enabled esClient) eqn:Hon; cbn [negb].
    2:{ split; [done|]. split; [by right; right; right|]. split; [done|]. split; [done|].
        intros id _ _ _ Hoff. discriminate Hoff. }
    rewrite AIPStats_run_trimmed.
    destruct (AIPStats_run esClient es index (b2s p0) (parseLimit r defaultPageSize))
      as [res trace] eqn:Hrun.
    assert (forall id, id <> [] -> "/"%char ∉ id -> req_Path r = statsPath id -> p0 = id)
      as Hid.
    { intros id Hne Hslash Hpath. rewrite Hpath, statsPath_parts in Hparts by done.
      by simplify_eq. }
    destruct res as [stats|e].
    + split; [done|]. split; [by left|]. split; [by intros [?|?]|].
      destruct (AIPStats_run_ok _ _ _ _ _ _ _ Hon Hrun) as (Hne & s & -> & Hs).
      split.
      * intros idx id data [= <- <- <-]. split; [done|]. split; [done|].
        split; [apply TrimSpace_idemp|]. by exists s.
      * intros id Hne' Hslash Hpath _. rewrite <- (Hid id Hne' Hslash Hpath), Hrun.
        cbn [fst snd]. by repeat split.
    + split; [done|]. split; [by right; right; left|]. split; [by intros [?|?]|].
      split; [done|].
      intros id Hne' Hslash Hpath _. rewrite <- (Hid id Hne' Hslash Hpath), Hrun.
      cbn [fst snd]. split; [done|]. split; [done|].
      intros Hblank. unfold AIPStats_run in Hrun. rewrite Hon in Hrun. cbn [negb] in Hrun.
      rewrite decide_True in Hrun by done. by simplify_eq.
  - assert (forall id, id <> [] -> "/"%char ∉ id -> req_Path r = statsPath id -> False)
      as Hno.
    { intros id Hne Hslash Hpath. rewrite Hpath, statsPath_parts in Hparts by done.
      by simplify_eq. }
    destruct (decide (b2s p1 = "storage-service")) as [Hss|Hnss].
    + destruct ssStore as [lookup|].
      * destruct (lookup [TrimSpace (b2s p0)]) as [packages|e].
        -- split; [done|]. split; [by left|]. split; [by intros [?|?]|]. split; [done|].
           intros id Hne Hslash Hpath _. by destruct (Hno id).
        -- split; [done|]. split; [by right; right; left|]. split; [by intros [?|?]|].
           split; [done|]. intros id Hne Hslash Hpath _. by destruct (Hno id).
      * split; [done|]. split; [by right; right; right|]. split; [done|]. split; [done|].
        intros id Hne Hslash Hpath _. by destruct (Hno id).
    + split; [done|]. split; [by right; left|]. split; [done|]. split; [done|].
      intros id Hne Hslash Hpath _. by destruct (Hno id).
Qed.

(** ** The full scan: dates *)

Lemma IsZero_zeroTime : IsZero zeroTime = true.
Proof. reflexivity. Qed.

Lemma Before_irrefl t : Before t t = false.
Proof. unfold Before. lia. Qed.

Lemma Before_trans a b c : Before a b = true -> Before b c = true -> Before a c = true.
Proof. unfold Before. lia. Qed.

(** The earliest and the latest of the dates seen so far. *)
Lemma fold_extremes (dates : list Time) :
  Forall (fun t => IsZero t = false) dates ->
  extremes dates (foldl earlier zeroTime dates) (foldl later zeroTime dates).
Proof.
  induction dates as [|t dates IH] using rev_ind; intros Hnz.
  { left. done. }
  apply Forall_app in Hnz as [Hnz Ht]. apply Forall_cons in Ht as [Ht _].
  rewrite !foldl_app. cbn [foldl]. right.
  destruct (IH Hnz) as [(-> & _ & _)|(Hf & Hl & Hall)].
  - cbn [foldl app]. unfold earlier, later. rewrite IsZero_zeroTime. cbn [orb].
    split; [by apply list_elem_of_singleton|]. split; [by apply list_elem_of_singleton|].
    intros x Hx. apply list_elem_of_singleton in Hx. subst x. unfold After.
    split; apply Before_irrefl.
  - set (f := foldl earlier zeroTime dates) in *. set (l := foldl later zeroTime dates) in *.
    assert (IsZero f = false /\ IsZero l = false) as [Hfz Hlz].
    { rewrite Forall_forall in Hnz. split; by apply Hnz. }
    unfold earlier, later. rewrite Hfz, Hlz. cbn [orb]. split; [|split].
    + destruct (Before t f); apply elem_of_app; [right; by apply list_elem_of_singleton|by left].
    + destruct (After t l); apply elem_of_app; [right; by apply list_elem_of_singleton|by left].
    + intros x Hx. apply elem_of_app in Hx as [Hx|Hx].
      * destruct (Hall x Hx) as [Hxf Hxl]. split.
        -- destruct (Before t f) eqn:Htf; [|done].
           destruct (Before x t) eqn:Hxt; [|done].
           by rewrite (Before_trans x t f Hxt Htf) in Hxf.
        -- unfold After in *. destruct (Before l t) eqn:Hlt; [|done].
           destruct (Before t x) eqn:Htx; [|done].
           by rewrite (Before_trans l t x Hlt Htx) in Hxl.
      * apply list_elem_of_singleton in Hx. subst x. split.
        -- destruct (Before t f) eqn:Htf; [apply Before_irrefl|done].
        -- unfold After in *. destruct (Before l t) eqn:Hlt; [apply Before_irrefl|done].
Qed.

Lemma fold_dates `{GoStd} (proj : scanState -> Time) (step : Time -> Time -> Time)
    (g : searchHit -> list Time) :
  (forall s h, proj (scanHit s h) = foldl step (proj s) (g h)) ->
  forall hits s, proj (foldl scanHit s hits) = foldl step (proj s) (flat_map g hits).
Proof.
  intros Hstep hits. induction hits as [|h hits IH]; intros s; cbn [foldl flat_map]; [done|].
  by rewrite IH, Hstep, foldl_app.
Qed.

Lemma setDates_one t : setDates [t] = if IsZero t then [] else [t].
Proof. unfold setDates. rewrite filter_cons, filter_nil. by destruct (IsZero t). Qed.

Lemma setDates_map {A} (f : A -> Time) l :
  flat_map (fun x => setDates [f x]) l = setDates (map f l).
Proof.
  unfold setDates. induction l as [|x l IH]; cbn [flat_map map]; [done|].
  rewrite IH, filter_cons, filter_cons, filter_nil. by case_decide.
Qed.

Lemma setDates_nonzero l : Forall (fun t => IsZero t = false) (setDates l).
Proof.
  apply Forall_forall. intros t Ht. unfold setDates in Ht.
  by apply list_elem_of_filter in Ht as [? _].
Qed.

Lemma hitEvents_nonzero `{GoStd} hits :
  Forall (fun t => IsZero t = false) (flat_map hitEvents hits).
Proof.
  apply Forall_forall. intros t Ht. apply list_elem_of_In, in_flat_map in Ht as (h & _ & Ht).
  apply list_elem_of_In in Ht. unfold hitEvents, extractObjectMeta in Ht.
  destruct (mapIndex (hit_Source h) "METS"); cbn [om_eventDates] in Ht;
    try (by apply elem_of_nil in Ht).
  by apply list_elem_of_filter in Ht as [? _].
Qed.

(** X27.  The minimum and maximum indexing dates, the minimum and maximum
    creation dates and the first and last event dates of a scan are the ISO
    texts of the earliest and the latest of the dates that are set among
    the hits scanned: both are among those dates, none is before the
    earliest or after the latest, and without such a date both texts are
    empty. *)
Theorem earliest_and_latest_dates (std : GoStd) c es index aipUUID pageSize stats trace :
  AIPStats_run c es index aipUUID pageSize = (Ok (Some stats), trace) ->
  let indexed := setDates (map hitIndexedAt (hitsScanned trace)) in
  let created := setDates (map hitCreated (hitsScanned trace)) in
  let events := flat_map hitEvents (hitsScanned trace) in
  MinIndexedAt stats = toISO (earliest indexed)
  /\ MaxIndexedAt stats = toISO (latest indexed)
  /\ extremes indexed (earliest indexed) (latest indexed)
  /\ MinCreatedByAppDate stats = toISO (earliest created)
  /\ MaxCreatedByAppDate stats = toISO (latest created)
  /\ extremes created (earliest created) (latest created)
  /\ FirstEventDate stats = toISO (earliest events)
  /\ LastEventDate stats = toISO (latest events)
  /\ extremes events (earliest events) (latest events).
Proof.
  intros Hrun indexed created events.
  rewrite (AIPStats_run_fold _ _ _ _ _ _ _ Hrun).
  cbn [finalize MinIndexedAt MaxIndexedAt MinCreatedByAppDate MaxCreatedByAppDate
       FirstEventDate LastEventDate].
  rewrite (fold_dates minIndexedAt earlier (fun h => setDates [hitIndexedAt h])).
  2:{ intros s h. unfold scanHit. cbn [minIndexedAt]. fold (hitIndexedAt h).
      rewrite setDates_one. by destruct (IsZero (hitIndexedAt h)). }
  rewrite (fold_dates maxIndexedAt later (fun h => setDates [hitIndexedAt h])).
  2:{ intros s h. unfold scanHit. cbn [maxIndexedAt]. fold (hitIndexedAt h).
      rewrite setDates_one. by destruct (IsZero (hitIndexedAt h)). }
  rewrite (fold_dates minCreatedByApp earlier (fun h => setDates [hitCreated h])).
  2:{ intros s h. unfold scanHit. cbn [minCreatedByApp]. fold (hitCreated h).
      rewrite setDates_one. by destruct (IsZero (hitCreated h)). }
  rewrite (fold_dates maxCreatedByApp later (fun h => setDates [hitCreated h])).
  2:{ intros s h. unfold scanHit. cbn [maxCreatedByApp]. fold (hitCreated h).
      rewrite setDates_one. by destruct (IsZero (hitCreated h)). }
  rewrite (fold_dates firstEvent earlier hitEvents) by done.
  rewrite (fold_dates lastEvent later hitEvents) by done.
  rewrite !setDates_map. cbn [initScan minIndexedAt maxIndexedAt minCreatedByApp
                                 maxCreatedByApp firstEvent lastEvent].
  repeat split; try done; apply fold_extremes;
    first [ apply setDates_nonzero | apply hitEvents_nonzero ].
Qed.

Lemma earliest_and_latest_dates_witness :
  (exists stats,
      fst datedRun = Ok (Some stats)
      /\ earliest (setDates (map (hitIndexedAt (H := refStd)) (hitsScanned (snd datedRun))))
         = time_Unix (2 ^ 63 - 1024) 0
      /\ Before (time_Unix (2 ^ 63 - 1024) 0) (time_Unix 1600000000 0) = true
      /\ latest (setDates (map (hitIndexedAt (H := refStd)) (hitsScanned (snd datedRun))))
         = time_Unix 1700000000 0
      /\ MinIndexedAt stats
         = toISO (H := refStd)
             (earliest (setDates (map (hitIndexedAt (H := refStd))
                                      (hitsScanned (snd datedRun))))))
  /\ (exists stats,
        fst calendarRun = Ok (Some stats)
        /\ MinIndexedAt stats = "2020-09-13T12:26:40Z"
        /\ MaxIndexedAt stats = "2023-11-14T22:13:20Z"
        /\ MinCreatedByAppDate stats = ""
        /\ FirstEventDate stats = "").
Proof.
  split.
  - destruct (returned_inv (fst datedRun)) as [stats Hfst]; [vm_compute; reflexivity|].
    exists stats. split; [done|]. split; [vm_compute; reflexivity|].
    split; [vm_compute; reflexivity|]. split; [vm_compute; reflexivity|].
    exact (proj1 (earliest_and_latest_dates refStd _ _ _ _ _ _ _ (run_pair _ _ Hfst))).
  - destruct (returned_inv (fst calendarRun)) as [stats Hfst]; [vm_compute; reflexivity|].
    exists stats. split; [done|].
    destruct (earliest_and_latest_dates isoStd _ _ _ _ _ _ _ (run_pair _ _ Hfst))
      as (Hmin & Hmax & _ & Hcreated & _ & _ & Hevent & _).
    rewrite Hmin, Hmax, Hcreated, Hevent. vm_compute. auto.
Defined.

(** ** The full scan: flags *)

Lemma countIf_snoc b hits h :
  countIf b (hits ++ [h]) = countIf b hits + (if b h then 1 else 0).
Proof.
  unfold countIf. rewrite filter_app, length_app, filter_cons, filter_nil.
  destruct (b h); case_decide; simpl; (done || lia).
Qed.

Lemma countIf_le b hits : 0 <= countIf b hits <= Z.of_nat (length hits).
Proof. unfold countIf. pose proof (length_filter (fun h => b h = true) hits). lia. Qed.

Lemma fold_flag `{GoStd} (proj : scanState -> Z) (b : searchHit -> bool) :
  (forall s h, proj (scanHit s h) = if b h then wrap64 (proj s + 1) else proj s) ->
  forall hits s,
    Z.of_nat (length hits) <= maxInt64 -> proj s = 0 ->
    proj (foldl scanHit s hits) = countIf b hits.
Proof.
  intros Hstep hits. induction hits as [|h hits IH] using rev_ind; intros s Hmax Hs.
  { cbn [foldl]. by rewrite Hs. }
  rewrite length_app in Hmax. simpl in Hmax.
  rewrite foldl_app. cbn [foldl]. rewrite Hstep, countIf_snoc, IH by (done || lia).
  pose proof (countIf_le b hits). destruct (b h); [|lia].
  apply wrap64_id. unfold minInt64, maxInt64 in *. lia.
Qed.

(** X28.  The counters of missing identifiers, unknown formats, missing
    creation dates, extension/format mismatches and originals with and
    without normalized objects are the numbers of hits scanned that have
    the flag. *)
Theorem flag_counters_count_files (std : GoStd) c es index aipUUID pageSize stats trace :
  AIPStats_run c es index aipUUID pageSize = (Ok (Some stats), trace) ->
  Z.of_nat (length (hitsScanned trace)) <= maxInt64 ->
  MissingIdentifiers stats = countIf missesIdentifiers (hitsScanned trace)
  /\ UnknownFormats stats = countIf formatUnknown (hitsScanned trace)
  /\ MissingCreatedByAppDate stats = countIf missesCreated (hitsScanned trace)
  /\ ExtensionFormatMismatch stats = countIf hitMismatch (hitsScanned trace)
  /\ OriginalsWithNormalized stats = countIf isNormalized (hitsScanned trace)
  /\ OriginalsWithoutNormalized stats
     = countIf (fun h => negb (isNormalized h)) (hitsScanned trace).
Proof.
  intros Hrun Hmax. rewrite (AIPStats_run_fold _ _ _ _ _ _ _ Hrun).
  cbn [finalize MissingIdentifiers UnknownFormats MissingCreatedByAppDate
       ExtensionFormatMismatch OriginalsWithNormalized OriginalsWithoutNormalized].
  split; [by apply (fold_flag sc_MissingIdentifiers missesIdentifiers)|].
  split; [by apply (fold_flag sc_UnknownFormats formatUnknown)|].
  split.
  { apply (fold_flag sc_MissingCreatedByAppDate missesCreated); [|done..].
    intros s h. unfold scanHit, missesCreated. cbn [sc_MissingCreatedByAppDate].
    fold (hitCreated h). by destruct (IsZero (hitCreated h)). }
  split; [by apply (fold_flag sc_ExtensionFormatMismatch hitMismatch)|].
  split; [by apply (fold_flag sc_OriginalsWithNormalized isNormalized)|].
  apply (fold_flag sc_OriginalsWithoutNormalized (fun h => negb (isNormalized h))); [|done..].
  intros s h. unfold scanHit, isNormalized. cbn [sc_OriginalsWithoutNormalized].
  fold (hitRels h). by destruct (0 <? Z.of_nat (length (hitRels h))).
Qed.

Lemma flag_counters_count_files_witness :
  exists stats,
    fst sevenHitRun = Ok (Some stats)
    /\ flagsOf (fst sevenHitRun) = [6; 7; 7; 0]
    /\ MissingIdentifiers stats
       = countIf missesIdentifiers (hitsScanned (snd sevenHitRun)).
Proof.
  destruct (returned_inv (fst sevenHitRun)) as [stats Hfst]; [vm_compute; reflexivity|].
  exists stats. split; [done|]. split; [vm_compute; reflexivity|].
  apply (flag_counters_count_files refStd _ _ _ _ _ _ _ (run_pair _ _ Hfst)).
  assert (length (hitsScanned (snd sevenHitRun)) = 7%nat) as -> by (vm_compute; reflexivity).
  unfold maxInt64. lia.
Defined.

(** ** The full scan: duplicate file names *)

Lemma duplicate_bounds (m : gmap string Z) :
  (forall j n, m !! j = Some n -> 1 <= n) ->
  sumCounts m <= maxInt64 ->
  0 <= 2 * duplicateGroups m <= duplicateCandidates m
  /\ duplicateCandidates m <= sumCounts m.
Proof.
  unfold duplicateGroups, duplicateCandidates.
  induction m as [|k v m Hk IH] using map_ind; intros Hpos Hmax.
  { rewrite !map_fold_empty, sumCounts_empty. lia. }
  rewrite sumCounts_insert_new in * by done.
  assert (1 <= v) as Hv by (apply (Hpos k); by rewrite lookup_insert_eq).
  assert (forall j n, m !! j = Some n -> 1 <= n) as Hpos'.
  { intros j n Hj. apply (Hpos j). rewrite lookup_insert_ne; [done|].
    intros ->. by rewrite Hk in Hj. }
  assert (0 <= sumCounts m) as Hsum.
  { apply sumCounts_nonneg. intros j n Hj. apply Hpos' in Hj. lia. }
  specialize (IH Hpos' ltac:(lia)).
  rewrite map_fold_insert_L; [|intros; repeat case_match; done|done].
  rewrite (map_fold_insert_L (fun _ n acc => if 1 <? n then wrap64 (acc + n) else acc));
    [| |done].
  2:{ intros j1 j2 z1 z2 y _ _ _. repeat case_match; try done.
      rewrite !wrap64_add_l. f_equal. lia. }
  destruct (Z.ltb_spec 1 v).
  - rewrite !wrap64_id by (unfold minInt64, maxInt64 in *; lia). lia.
  - lia.
Qed.

Lemma basenamesTallied_step `{GoStd} s h k :
  basenamesTallied s k -> 0 <= k < maxInt64 -> basenamesTallied (scanHit s h) (k + 1).
Proof.
  intros [Hsum Hpos] Hk. unfold basenamesTallied, scanHit. cbn [basenameCounts].
  case_decide; [split; [lia|done]|].
  match goal with
  | |- context [incr ?e ?m] => destruct (sumCounts_incr e m Hpos) as [Hs Hp]; [lia|]
  end.
  split; [lia|done].
Qed.

Lemma basenamesTallied_fold `{GoStd} hits s k :
  basenamesTallied s k -> 0 <= k -> k + Z.of_nat (length hits) <= maxInt64 ->
  basenamesTallied (foldl scanHit s hits) (k + Z.of_nat (length hits)).
Proof.
  revert s k. induction hits as [|h hits IH]; intros s k Hb Hk Hmax;
    cbn [foldl length] in *.
  - by rewrite Z.add_0_r.
  - replace (k + Z.of_nat (S (length hits)))
      with ((k + 1) + Z.of_nat (length hits)) by lia.
    apply IH; [apply basenamesTallied_step; [done|lia] | lia | lia].
Qed.

(** X29.  A group of duplicate file names has at least two files, and the
    files of all groups are files of the scan: twice the number of groups
    is at most the number of candidates, which is at most the files
    total. *)
Theorem duplicate_filenames_bounded (std : GoStd) c es index aipUUID pageSize stats trace :
  AIPStats_run c es index aipUUID pageSize = (Ok (Some stats), trace) ->
  Z.of_nat (length (hitsScanned trace)) <= maxInt64 ->
  0 <= 2 * DuplicateFilenameGroups stats <= DuplicateFilenameCandidates stats
  /\ DuplicateFilenameCandidates stats <= FilesTotal stats.
Proof.
  intros Hrun Hmax.
  destruct (tallied_run _ _ _ _ _ _ _ Hrun Hmax) as (s0 & Hstats & Hft & _).
  rewrite (AIPStats_run_fold _ _ _ _ _ _ _ Hrun) in *.
  cbn [finalize DuplicateFilenameGroups DuplicateFilenameCandidates FilesTotal].
  pose proof (basenamesTallied_fold (hitsScanned trace) initScan 0) as Hb.
  destruct Hb as [Hsum Hpos]; [|lia|lia|].
  { split; [|intros name n Hn; cbn in Hn; by rewrite lookup_empty in Hn].
    cbn. by rewrite sumCounts_empty. }
  destruct (duplicate_bounds _ Hpos) as [Hd Hc]; [lia|].
  assert (sc_FilesTotal (foldl scanHit initScan (hitsScanned trace))
          = Z.of_nat (length (hitsScanned trace))) as ->.
  { pose proof (balanced_fold (hitsScanned trace) initScan 0 balanced_init) as Hbal.
    destruct Hbal as (Hft' & _); [lia|lia|]. rewrite Hft'. lia. }
  lia.
Qed.

Lemma duplicate_filenames_bounded_witness :
  exists stats,
    fst sevenHitRun = Ok (Some stats)
    /\ duplicatesOf (fst sevenHitRun) = (1, 2)
    /\ 0 <= 2 * DuplicateFilenameGroups stats <= DuplicateFilenameCandidates stats
    /\ DuplicateFilenameCandidates stats <= FilesTotal stats.
Proof.
  destruct (returned_inv (fst sevenHitRun)) as [stats Hfst]; [vm_compute; reflexivity|].
  exists stats. split; [done|]. split; [vm_compute; reflexivity|].
  apply (duplicate_filenames_bounded refStd _ _ _ _ _ _ _ (run_pair _ _ Hfst)).
  assert (length (hitsScanned (snd sevenHitRun)) = 7%nat) as -> by (vm_compute; reflexivity).
  unfold maxInt64. lia.
Defined.

(** ** Tool versions *)

Lemma splitBytes_none sep a : sep ∉ a -> splitBytes sep a = [a].
Proof.
  induction a as [|x a IH]; intros Hsep; cbn [splitBytes]; [done|].
  apply not_elem_of_cons in Hsep as [Hne Hsep].
  destruct (ascii_dec x sep); [congruence|]. by rewrite IH.
Qed.

Lemma b2s_app a b : b2s (a ++ b) = b2s a +:+ b2s b.
Proof. unfold b2s. induction a as [|x a IH]; simpl; by rewrite ?IH. Qed.

Lemma trimSpaceBytes_quoted (key w : list ascii) c :
  plainByte c = true ->
  trimSpaceBytes (c :: key ++ dquote :: w ++ [dquote]) = c :: key ++ dquote :: w ++ [dquote].
Proof.
  intros Hc.
  replace (c :: key ++ dquote :: w ++ [dquote]) with (c :: (key ++ dquote :: w) ++ [dquote])
    by (by rewrite <- app_assoc).
  by apply trimSpaceBytes_ends.
Qed.

Lemma trimSpaceBytes_space l : trimSpaceBytes (" "%char :: l) = trimSpaceBytes l.
Proof. done. Qed.

(** The fields of a detail that names neither a program nor a version leave
    both empty. *)
Lemma toolFields_none parts pv :
  Forall (fun part =>
            hasPrefixBytes (s2b (TrimSpace (b2s part))) (s2b "program=") = false
            /\ hasPrefixBytes (s2b (TrimSpace (b2s part))) (s2b "version=") = false) parts ->
  foldl (fun pv part =>
           let p := s2b (TrimSpace (b2s part)) in
           let program :=
             if hasPrefixBytes p (s2b "program=")
             then b2s (trimByte dquote (stripPrefix (s2b "program=") p))
             else fst pv in
           let version :=
             if hasPrefixBytes p (s2b "version=")
             then b2s (trimByte dquote (stripPrefix (s2b "version=") p))
             else snd pv in
           (program, version)) pv parts = pv.
Proof.
  intros Hparts. revert pv. induction Hparts as [|part parts [Hp Hv] _ IH]; intros pv; [done|].
  cbn [foldl]. cbv zeta. rewrite Hp, Hv, IH. by destruct pv.
Qed.

Lemma trimByte_between c w :
  head w <> Some c -> last w <> Some c -> trimByte c (c :: w ++ [c]) = w.
Proof.
  intros Hh Hl. unfold trimByte. cbn [dropByte]. destruct (ascii_dec c c); [|done].
  destruct w as [|x w].
  { cbn [app dropByte]. destruct (ascii_dec c c); [done|done]. }
  assert (x <> c) as Hx by (intros ->; by apply Hh).
  cbn [app]. rewrite dropByte_keep by done.
  change (x :: w ++ [c]) with ((x :: w) ++ [c]). rewrite rev_app_distr. cbn [rev app dropByte].
  destruct (ascii_dec c c); [|done].
  destruct (rev w ++ [x]) as [|y r] eqn:Hr.
  { by destruct (rev w). }
  assert (y <> c) as Hy.
  { intros ->. apply Hl. rewrite <- (rev_involutive (x :: w)). cbn [rev]. rewrite Hr.
    cbn [rev]. by rewrite last_snoc. }
  rewrite dropByte_keep by done.
  rewrite <- Hr. change (rev w ++ [x]) with (rev (x :: w)). apply rev_involutive.
Qed.

Lemma quoted_parts (key w : list ascii) :
  ";"%char ∉ key -> ";"%char ∉ w -> ";"%char ∉ key ++ dquote :: w ++ [dquote].
Proof.
  intros Hkey Hw Hin. apply elem_of_app in Hin as [Hin|Hin]; [done|].
  apply elem_of_cons in Hin as [Hin|Hin]; [done|].
  apply elem_of_app in Hin as [Hin|Hin]; [done|].
  apply list_elem_of_singleton in Hin. done.
Qed.

Lemma quoted_value (key w : list ascii) :
  head w <> Some dquote -> last w <> Some dquote ->
  trimByte dquote (stripPrefix key (key ++ dquote :: w ++ [dquote])) = w.
Proof.
  intros Hh Hl. unfold stripPrefix. rewrite hasPrefixBytes_app, drop_app_length.
  by apply trimByte_between.
Qed.

Lemma TrimSpace_quoted (key : string) (w : list ascii) c k :
  s2b key = c :: k -> plainByte c = true ->
  TrimSpace (b2s (s2b key ++ dquote :: w ++ [dquote])) = b2s (s2b key ++ dquote :: w ++ [dquote]).
Proof.
  intros Hk Hc. unfold TrimSpace. rewrite s2b_b2s, Hk.
  f_equal. exact (trimSpaceBytes_quoted k w c Hc).
Qed.

(** What one part of a detail does to the program and the version read so
    far. *)
Lemma toolFields_program w pv :
  head w <> Some dquote -> last w <> Some dquote ->
  (let p := s2b (TrimSpace (b2s (s2b "program=" ++ dquote :: w ++ [dquote]))) in
   let program :=
     if hasPrefixBytes p (s2b "program=")
     then b2s (trimByte dquote (stripPrefix (s2b "program=") p))
     else fst pv in
   let version :=
     if hasPrefixBytes p (s2b "version=")
     then b2s (trimByte dquote (stripPrefix (s2b "version=") p))
     else snd pv in
   (program, version)) = (b2s w, snd pv).
Proof.
  intros Hh Hl. cbv zeta.
  rewrite (TrimSpace_quoted "program=" w _ _ eq_refl eq_refl).
  rewrite !s2b_b2s, hasPrefixBytes_app.
  assert (hasPrefixBytes (s2b "program=" ++ dquote :: w ++ [dquote]) (s2b "version=") = false)
    as -> by done.
  by rewrite quoted_value.
Qed.

Lemma toolFields_version (lead : bool) w pv :
  head w <> Some dquote -> last w <> Some dquote ->
  (let p := s2b (TrimSpace (b2s ((if lead then [" "%char] else [])
                                 ++ s2b "version=" ++ dquote :: w ++ [dquote]))) in
   let program :=
     if hasPrefixBytes p (s2b "program=")
     then b2s (trimByte dquote (stripPrefix (s2b "program=") p))
     else fst pv in
   let version :=
     if hasPrefixBytes p (s2b "version=")
     then b2s (trimByte dquote (stripPrefix (s2b "version=") p))
     else snd pv in
   (program, version)) = (fst pv, b2s w).
Proof.
  intros Hh Hl. cbv zeta.
  assert (TrimSpace (b2s ((if lead then [" "%char] else [])
                          ++ s2b "version=" ++ dquote :: w ++ [dquote]))
          = b2s (s2b "version=" ++ dquote :: w ++ [dquote])) as ->.
  { destruct lead; cbn [app].
    - unfold TrimSpace. rewrite s2b_b2s, trimSpaceBytes_space. f_equal.
      exact (trimSpaceBytes_quoted (s2b "ersion=") w "v" eq_refl).
    - apply (TrimSpace_quoted "version=" w _ _ eq_refl eq_refl). }
  rewrite !s2b_b2s, hasPrefixBytes_app.
  assert (hasPrefixBytes (s2b "version=" ++ dquote :: w ++ [dquote]) (s2b "program=") = false)
    as -> by done.
  by rewrite quoted_value.
Qed.

Lemma semicolon_free_key : (";"%char ∉ s2b "program=") /\ (";"%char ∉ s2b "version=").
Proof. split; apply not_elem_forallb; reflexivity. Qed.

Lemma toolDetail_both program version :
  quotable program -> quotable version ->
  parseToolVersion (toolDetail program version)
  = (if decide (program = [] /\ version = []) then ""
     else if decide (version = []) then b2s program
     else if decide (program = []) then b2s version
     else b2s (program ++ " "%char :: version)).
Proof.
  intros (Hps & Hph & Hpl) (Hvs & Hvh & Hvl).
  destruct semicolon_free_key as [Hk1 Hk2].
  unfold parseToolVersion, toolDetail.
  match goal with |- context [foldl ?f _ _] => set (step := f) end.
  set (P1 := s2b "program=" ++ dquote :: program ++ [dquote]).
  set (P2 := s2b "version=" ++ dquote :: version ++ [dquote]).
  assert (s2b "program=" ++ dquote :: program ++ dquote :: s2b "; version="
          ++ dquote :: version ++ [dquote] = P1 ++ ";"%char :: " "%char :: P2) as ->.
  { unfold P1, P2. simpl. rewrite <- ?app_assoc. done. }
  assert (TrimSpace (b2s (P1 ++ ";"%char :: " "%char :: P2))
          = b2s (P1 ++ ";"%char :: " "%char :: P2)) as ->.
  { unfold TrimSpace. rewrite s2b_b2s. f_equal.
    replace (P1 ++ ";"%char :: " "%char :: P2)
      with ("p"%char :: (s2b "rogram=" ++ dquote :: program ++ dquote
                         :: s2b "; version=" ++ dquote :: version) ++ [dquote])
      by (unfold P1, P2; simpl; rewrite <- ?app_assoc; simpl; by rewrite <- ?app_assoc).
    by apply trimSpaceBytes_ends. }
  rewrite decide_False by (apply b2s_nonempty; by destruct P1).
  rewrite s2b_b2s, splitBytes_sep by (by apply quoted_parts).
  rewrite splitBytes_none.
  2:{ intros Hin. apply elem_of_cons in Hin as [Hin|Hin]; [done|]. revert Hin.
      by apply quoted_parts. }
  cbn [foldl].
  assert (step ("", "") P1 = (b2s program, "")) as ->
    by exact (toolFields_program program ("", "") Hph Hpl).
  assert (step (b2s program, "") (" "%char :: P2) = (b2s program, b2s version)) as ->
    by exact (toolFields_version true version (b2s program, "") Hvh Hvl).
  cbv beta iota.
  destruct program as [|p program], version as [|v version]; cbn [b2s];
    repeat (case_decide; try done; try (by destruct_and?)).
  change (" "%char :: v :: version) with ([" "%char] ++ v :: version).
  by rewrite !b2s_app.
Qed.

Lemma toolDetail_one (key : string) (w : list ascii) c k :
  s2b key = c :: k -> plainByte c = true -> ";"%char ∉ s2b key -> quotable w ->
  forall step : string * string -> list ascii -> string * string,
    foldl step ("", "")
      (splitBytes ";" (s2b (TrimSpace (b2s (s2b key ++ dquote :: w ++ [dquote])))))
    = step ("", "") (s2b key ++ dquote :: w ++ [dquote]).
Proof.
  intros Hk Hc Hkey (Hs & _ & _) step.
  rewrite (TrimSpace_quoted key w c k Hk Hc), s2b_b2s.
  by rewrite splitBytes_none by (by apply quoted_parts).
Qed.

Lemma toolDetail_program_only program :
  quotable program ->
  parseToolVersion (b2s (s2b "program=" ++ dquote :: program ++ [dquote])) = b2s program.
Proof.
  intros Hq. pose proof Hq as (Hs & Hh & Hl). destruct semicolon_free_key as [Hk1 _].
  unfold parseToolVersion.
  match goal with |- context [foldl ?f _ _] => set (step := f) end.
  rewrite (toolDetail_one "program=" program _ _ eq_refl eq_refl Hk1 Hq step).
  rewrite (TrimSpace_quoted "program=" program _ _ eq_refl eq_refl).
  rewrite decide_False by (by apply b2s_nonempty).
  assert (step ("", "") (s2b "program=" ++ dquote :: program ++ [dquote]) = (b2s program, ""))
    as -> by exact (toolFields_program program ("", "") Hh Hl).
  cbv beta iota. by repeat case_decide; destruct_and?.
Qed.

Lemma toolDetail_version_only version :
  quotable version ->
  parseToolVersion (b2s (s2b "version=" ++ dquote :: version ++ [dquote])) = b2s version.
Proof.
  intros Hq. pose proof Hq as (Hs & Hh & Hl). destruct semicolon_free_key as [_ Hk2].
  unfold parseToolVersion.
  match goal with |- context [foldl ?f _ _] => set (step := f) end.
  rewrite (toolDetail_one "version=" version _ _ eq_refl eq_refl Hk2 Hq step).
  rewrite (TrimSpace_quoted "version=" version _ _ eq_refl eq_refl).
  rewrite decide_False by (by apply b2s_nonempty).
  assert (step ("", "") (s2b "version=" ++ dquote :: version ++ [dquote]) = ("", b2s version))
    as -> by exact (toolFields_version false version ("", "") Hh Hl).
  cbv beta iota. by repeat case_decide; destruct_and?.
Qed.


